(** * Quasar matching core: Order, Trade, OrderBook, MatchingEngine

    A shallow embedding of
      services/matching-engine/include/core/{Order,Trade,OrderBook,MatchingEngine}.h
      services/matching-engine/src/core/{Order,OrderBook,MatchingEngine}.cpp

    Conventions of the embedding.
    - [uint64_t] and [uint32_t] values are integers in [Z]; every C++
      operation that can wrap is written with its reduction modulo 2^64
      (resp. 2^32).
    - [double] is Rocq's primitive binary64 [float]; [==], [!=], [<], [>] and
      [-] are the IEEE operations [PrimFloat.eqb], [PrimFloat.ltb] and
      [PrimFloat.sub].
    - An [Order*] is the key under which the pointee is owned in
      [OrderBook::orders_] (the engine hands out each key once); reading
      through a pointer is [deref].  The two heaps therefore alias the owning
      map exactly as in the source: a [fill] or [cancel] of a stored order is
      seen through every pointer to it.
    - The wall-clock members ([created_time], [updated_time], [timestamp]) and
      the member [type] (always [LIMIT]) are never read by the code embedded
      here and are left out; so are the mutexes: one call runs at a time. *)

From Stdlib Require Import ZArith List Bool Lia Floats Sorted.
From stdpp Require Import gmap strings list fin_maps.

Local Open Scope Z_scope.

(** ** Machine integers *)

Definition u64 (z : Z) : Z := z mod 2 ^ 64.
Definition u32 (z : Z) : Z := z mod 2 ^ 32.

Definition is_u64 (z : Z) : Prop := 0 <= z < 2 ^ 64.

(** ** Order.h / Order.cpp *)

Inductive Side := BUY | SELL.

Inductive OrderStatus := NEW | PARTIALLY_FILLED | FILLED | CANCELLED | REJECTED.

#[global] Instance Side_eq_dec : EqDecision Side.
Proof. solve_decision. Defined.

#[global] Instance OrderStatus_eq_dec : EqDecision OrderStatus.
Proof. solve_decision. Defined.

Record Order := mkOrder {
  order_id : Z;
  client_id : Z;
  symbol : string;
  side : Side;
  price : float;
  quantity : Z;
  filled_quantity : Z;
  status : OrderStatus
}.

(** [Order() = default]: every member at its default initialiser. *)
Definition Order_default : Order :=
  mkOrder 0 0 "" BUY 0%float 0 0 NEW.

(** [Order(id, client, sym, s, p, q)] *)
Definition Order_new (id client : Z) (sym : string) (s : Side) (p : float) (q : Z) : Order :=
  mkOrder id client sym s p q 0 NEW.

Definition set_filled_quantity (f : Z) (o : Order) : Order :=
  mkOrder (order_id o) (client_id o) (symbol o) (side o) (price o)
          (quantity o) f (status o).

Definition set_status (s : OrderStatus) (o : Order) : Order :=
  mkOrder (order_id o) (client_id o) (symbol o) (side o) (price o)
          (quantity o) (filled_quantity o) s.

(** [quantity - filled_quantity] on [uint64_t]. *)
Definition remaining_quantity (o : Order) : Z :=
  u64 (quantity o - filled_quantity o).

Definition is_filled (o : Order) : bool :=
  filled_quantity o >=? quantity o.

Definition is_buy (o : Order) : bool := bool_decide (side o = BUY).
Definition is_sell (o : Order) : bool := bool_decide (side o = SELL).

(** [Order::fill]: clamp, add, then set the status. *)
Definition fill (fill_quantity : Z) (o : Order) : Order :=
  let fill_quantity :=
    if fill_quantity >? remaining_quantity o then remaining_quantity o
    else fill_quantity in
  let o := set_filled_quantity (u64 (filled_quantity o + fill_quantity)) o in
  if is_filled o then set_status FILLED o
  else if filled_quantity o >? 0 then set_status PARTIALLY_FILLED o
  else o.

(** [Order::cancel] *)
Definition cancel (o : Order) : Order := set_status CANCELLED o.

(** [Order::reject] *)
Definition reject (o : Order) : Order := set_status REJECTED o.

(** The spec's [is_active]: status NEW or PARTIALLY_FILLED and a positive
    remaining quantity.  The source has no such member; it is used only to
    state properties. *)
Definition is_active (o : Order) : bool :=
  (bool_decide (status o = NEW) || bool_decide (status o = PARTIALLY_FILLED))
  && (remaining_quantity o >? 0).

(** [BuyOrderComparator]: [true] when [a] has lower priority than [b]. *)
Definition BuyOrderComparator (a b : Order) : bool :=
  if negb (PrimFloat.eqb (price a) (price b))
  then PrimFloat.ltb (price a) (price b)
  else order_id a >? order_id b.

(** [SellOrderComparator] *)
Definition SellOrderComparator (a b : Order) : bool :=
  if negb (PrimFloat.eqb (price a) (price b))
  then PrimFloat.ltb (price b) (price a)
  else order_id a >? order_id b.

(** ** Trade.h *)

Record Trade := mkTrade {
  trade_id : Z;
  taker_order_id : Z;
  maker_order_id : Z;
  taker_client_id : Z;
  maker_client_id : Z;
  trade_symbol : string;
  trade_price : float;
  trade_quantity : Z
}.

(** ** std::priority_queue

    The adaptor is observed only through [push], [top], [pop] and [empty].
    It is modelled by the list of its elements in the order in which
    successive [top]/[pop] deliver them: [push] places the new element in
    front of the first element that the comparator ranks below it.

    This is the order of delivery that [std::priority_queue] guarantees when
    the comparator is a strict weak ordering of the elements queued, and
    then only.  [BuyOrderComparator] and [SellOrderComparator] order the
    orders of a book strictly and totally as long as no price is a NaN (the
    ids differ); a NaN price compares unequal to every price and below
    none, and with one queued the comparators are no strict weak ordering.
    What the queue then delivers is decided by the binary heap inside it,
    which module [Heap] at the end of the definitions follows.  Properties
    stated over the list model are properties of the code for histories
    without a NaN price: such histories run over the heap as they do over
    the list ([run_sim]). *)

Module PriorityQueue.
Section Queue.
Context {A : Type} (comp : A -> A -> bool).

Definition empty (q : list A) : bool :=
  match q with [] => true | _ => false end.

Definition top (q : list A) : option A := head q.

Definition pop (q : list A) : list A := tail q.

Fixpoint push (x : A) (q : list A) : list A :=
  match q with
  | [] => [x]
  | y :: q' => if comp y x then x :: y :: q' else y :: push x q'
  end.
End Queue.
End PriorityQueue.

(** ** OrderBook.h / OrderBook.cpp *)

Record BookLevel := mkBookLevel {
  level_price : float;
  level_quantity : Z;
  order_count : Z
}.

(** Members of the heap-based implementation; the members of the unused
    map-based alternative ([bid_levels_], [ask_levels_], [order_iterators_],
    [use_map_implementation_]) are never touched by the member functions. *)
Record OrderBook := mkOrderBook {
  symbol_ : string;
  orders_ : gmap Z Order;
  bids_ : list Z;
  asks_ : list Z;
  next_trade_id_ : Z
}.

(** [OrderBook::OrderBook(symbol)]; the trade id counter starts at 1. *)
Definition OrderBook_new (sym : string) : OrderBook :=
  mkOrderBook sym ∅ [] [] 1.

(** Reading through an [Order*].  A pointer that the owning map no longer
    backs is undefined behaviour in the source; the model reads a
    default-constructed order there. *)
Definition deref (m : gmap Z Order) (p : Z) : Order :=
  default Order_default (m !! p).

Definition bid_comp (m : gmap Z Order) (a b : Z) : bool :=
  BuyOrderComparator (deref m a) (deref m b).

Definition ask_comp (m : gmap Z Order) (a b : Z) : bool :=
  SellOrderComparator (deref m a) (deref m b).

(** [add_order_unlocked]: store the order, then push its address. *)
Definition add_order_unlocked (order : Order) (b : OrderBook) : OrderBook :=
  let order_ptr := order_id order in
  let m := <[order_id order := order]> (orders_ b) in
  if is_buy order
  then mkOrderBook (symbol_ b) m
         (PriorityQueue.push (bid_comp m) order_ptr (bids_ b)) (asks_ b)
         (next_trade_id_ b)
  else mkOrderBook (symbol_ b) m (bids_ b)
         (PriorityQueue.push (ask_comp m) order_ptr (asks_ b))
         (next_trade_id_ b).

Definition add_order := add_order_unlocked.

(** [OrderBook::cancel_order]: the result and the book afterwards. *)
Definition book_cancel_order (id : Z) (b : OrderBook) : bool * OrderBook :=
  match orders_ b !! id with
  | None => (false, b)
  | Some o =>
      (true, mkOrderBook (symbol_ b) (<[id := cancel o]> (orders_ b))
               (bids_ b) (asks_ b) (next_trade_id_ b))
  end.

(** *** The match loop

    Both branches of [match_order] run the same loop, over [asks_] for a buy
    and over [bids_] for a sell; they differ in the test that breaks out of
    it.  [MatchState] holds what one iteration reads and writes. *)

Record MatchState := mkMatchState {
  ms_incoming : Order;
  ms_orders : gmap Z Order;
  ms_heap : list Z;
  ms_next_trade_id : Z;
  ms_trades : list Trade
}.

Inductive LoopStep :=
| Exit (s : MatchState)
| Again (s : MatchState).

(** [incoming_order->price < top_order->price] *)
Definition buy_no_cross (incoming top_order : Order) : bool :=
  PrimFloat.ltb (price incoming) (price top_order).

(** [incoming_order->price > top_order->price] *)
Definition sell_no_cross (incoming top_order : Order) : bool :=
  PrimFloat.ltb (price top_order) (price incoming).

(** The trade built in the loop body. *)
Definition make_trade (sym : string) (s : MatchState) (top_order : Order) : Trade :=
  mkTrade (ms_next_trade_id s)
          (order_id (ms_incoming s)) (order_id top_order)
          (client_id (ms_incoming s)) (client_id top_order)
          sym (price top_order)
          (Z.min (remaining_quantity (ms_incoming s))
                 (remaining_quantity top_order)).

(** One evaluation of the loop condition and, if it holds, of the body. *)
Definition match_step (sym : string) (no_cross : Order -> Order -> bool)
    (s : MatchState) : LoopStep :=
  match PriorityQueue.top (ms_heap s) with
  | None => Exit s
  | Some p =>
      if negb (remaining_quantity (ms_incoming s) >? 0) then Exit s
      else
        let top_order := deref (ms_orders s) p in
        if bool_decide (status top_order = CANCELLED)
        then Again (mkMatchState (ms_incoming s) (ms_orders s)
                      (PriorityQueue.pop (ms_heap s))
                      (ms_next_trade_id s) (ms_trades s))
        else if no_cross (ms_incoming s) top_order then Exit s
        else
          let trade := make_trade sym s top_order in
          let incoming' := fill (trade_quantity trade) (ms_incoming s) in
          let top' := fill (trade_quantity trade) top_order in
          Again (mkMatchState incoming'
                   (<[p := top']> (ms_orders s))
                   (if is_filled top' then PriorityQueue.pop (ms_heap s)
                    else ms_heap s)
                   (u64 (ms_next_trade_id s + 1))
                   (ms_trades s ++ [trade]))
  end.

(** The [while] loop; [None] when [fuel] evaluations of the condition were
    not enough. *)
Fixpoint match_loop (sym : string) (no_cross : Order -> Order -> bool)
    (fuel : nat) (s : MatchState) : option MatchState :=
  match fuel with
  | O => None
  | S fuel' =>
      match match_step sym no_cross s with
      | Exit s' => Some s'
      | Again s' => match_loop sym no_cross fuel' s'
      end
  end.

(** Every iteration but the last one pops an entry or exhausts the incoming
    order, so this many evaluations of the condition suffice
    (see [match_loop_fuel]). *)
Definition match_fuel (heap : list Z) : nat := S (S (2 * length heap)).

(** [OrderBook::match_order]: the trades, the incoming order afterwards and
    the book afterwards. *)
Definition match_order (incoming : Order) (b : OrderBook)
    : option (list Trade * Order * OrderBook) :=
  if is_buy incoming then
    match match_loop (symbol_ b) buy_no_cross (match_fuel (asks_ b))
            (mkMatchState incoming (orders_ b) (asks_ b) (next_trade_id_ b) [])
    with
    | None => None
    | Some s =>
        Some (ms_trades s, ms_incoming s,
              mkOrderBook (symbol_ b) (ms_orders s) (bids_ b) (ms_heap s)
                          (ms_next_trade_id s))
    end
  else
    match match_loop (symbol_ b) sell_no_cross (match_fuel (bids_ b))
            (mkMatchState incoming (orders_ b) (bids_ b) (next_trade_id_ b) [])
    with
    | None => None
    | Some s =>
        Some (ms_trades s, ms_incoming s,
              mkOrderBook (symbol_ b) (ms_orders s) (ms_heap s) (asks_ b)
                          (ms_next_trade_id s))
    end.

(** The condition under which the loops of [clean_filled_orders] pop. *)
Definition dead (o : Order) : bool :=
  is_filled o || bool_decide (status o = CANCELLED).

(** [while (!q.empty() && dead(q.top())) q.pop();] *)
Fixpoint clean_heap (m : gmap Z Order) (q : list Z) : list Z :=
  match q with
  | [] => []
  | p :: q' => if dead (deref m p) then clean_heap m q' else q
  end.

Definition clean_filled_orders (b : OrderBook) : OrderBook :=
  mkOrderBook (symbol_ b) (orders_ b)
              (clean_heap (orders_ b) (bids_ b))
              (clean_heap (orders_ b) (asks_ b))
              (next_trade_id_ b).

(** [OrderBook::process_order].  The third component is the incoming order
    as the caller's [order_ptr] sees it after the call. *)
Definition process_order (order : Order) (b : OrderBook)
    : option (list Trade * Order * OrderBook) :=
  match match_order order b with
  | None => None
  | Some (trades, order', b1) =>
      let b2 :=
        if negb (is_filled order') && bool_decide (status order' ≠ CANCELLED)
        then add_order_unlocked order' b1
        else b1 in
      Some (trades, order', clean_filled_orders b2)
  end.

(** The search loop of [get_best_bid] and [get_best_ask] over a copy of the
    heap; [0.0] when no live order is found. *)
Fixpoint first_live_price (m : gmap Z Order) (q : list Z) : float :=
  match q with
  | [] => 0%float
  | p :: q' =>
      let order := deref m p in
      if bool_decide (status order ≠ CANCELLED) && negb (is_filled order)
      then price order
      else first_live_price m q'
  end.

Definition book_get_best_bid (b : OrderBook) : float :=
  first_live_price (orders_ b) (bids_ b).

Definition book_get_best_ask (b : OrderBook) : float :=
  first_live_price (orders_ b) (asks_ b).

Definition book_get_spread (b : OrderBook) : float :=
  let best_bid := book_get_best_bid b in
  let best_ask := book_get_best_ask b in
  if PrimFloat.eqb best_bid 0 || PrimFloat.eqb best_ask 0 then 0%float
  else PrimFloat.sub best_ask best_bid.

(** *** Level aggregation

    [std::map<double, BookLevel>] is the list of its entries in increasing
    key order (the order in which the map is iterated); [level_map_at k f]
    is [f(level_map[k])], a missing entry being value-initialised first. *)

Definition BookLevel_zero : BookLevel := mkBookLevel 0%float 0 0.

Fixpoint level_map_at (k : float) (f : BookLevel -> BookLevel)
    (lm : list (float * BookLevel)) : list (float * BookLevel) :=
  match lm with
  | [] => [(k, f BookLevel_zero)]
  | (k', v) :: lm' =>
      if PrimFloat.ltb k k' then (k, f BookLevel_zero) :: lm
      else if PrimFloat.ltb k' k then (k', v) :: level_map_at k f lm'
      else (k', f v) :: lm'
  end.

(** The three assignments to [level] in the loop body. *)
Definition add_to_level (order : Order) (level : BookLevel) : BookLevel :=
  mkBookLevel (price order)
              (u64 (level_quantity level + remaining_quantity order))
              (u32 (order_count level + 1)).

(** The [while] loop of [aggregate_levels_impl] over its copy of the heap. *)
Fixpoint aggregate_loop (m : gmap Z Order) (max_levels : nat)
    (container : list Z) (level_map : list (float * BookLevel))
    : list (float * BookLevel) :=
  match container with
  | [] => level_map
  | p :: container' =>
      if (length level_map <? max_levels)%nat then
        let order := deref m p in
        if bool_decide (status order = CANCELLED) || is_filled order
        then aggregate_loop m max_levels container' level_map
        else aggregate_loop m max_levels container'
               (level_map_at (price order) (add_to_level order) level_map)
      else level_map
  end.

Definition aggregate_levels_impl (m : gmap Z Order) (container : list Z)
    (max_levels : nat) : list BookLevel :=
  (aggregate_loop m max_levels container []).*2.

Definition book_get_bid_levels (max_levels : nat) (b : OrderBook) : list BookLevel :=
  aggregate_levels_impl (orders_ b) (bids_ b) max_levels.

Definition book_get_ask_levels (max_levels : nat) (b : OrderBook) : list BookLevel :=
  aggregate_levels_impl (orders_ b) (asks_ b) max_levels.

(** Modelled from the spec: [OrderBook::get_order], which
    [MatchingEngine::update_stats_for_trade] calls but which is neither
    declared in OrderBook.h nor defined in OrderBook.cpp.  The spec (4.3,
    step 8) has the engine test whether "the maker for that trade is now
    FILLED"; the lookup is by id in the owning map and yields no order for an
    id the book does not hold. *)
Definition get_order (id : Z) (b : OrderBook) : option Order :=
  orders_ b !! id.

(** ** MatchingEngine.h / MatchingEngine.cpp *)

Record EngineStats := mkEngineStats {
  total_orders : Z;
  active_orders : Z;
  total_trades : Z;
  cancelled_orders : Z;
  rejected_orders : Z
}.

(** An [OrderBook*] of the engine is the symbol under which the book is
    owned in [order_books_].  The trade callback is represented by what it
    is called with: [submit_order] returns the trades it passes to
    [notify_trade], in call order. *)
Record MatchingEngine := mkMatchingEngine {
  order_books_ : gmap string OrderBook;
  order_to_symbol_ : gmap Z string;
  next_order_id_ : Z;
  stats_ : EngineStats
}.

(** [MatchingEngine::MatchingEngine()] *)
Definition MatchingEngine_new : MatchingEngine :=
  mkMatchingEngine ∅ ∅ 1 (mkEngineStats 0 0 0 0 0).

(** [stats_.total_orders++; stats_.active_orders++;] *)
Definition stats_on_submit (st : EngineStats) : EngineStats :=
  mkEngineStats (u64 (total_orders st + 1)) (u64 (active_orders st + 1))
                (total_trades st) (cancelled_orders st) (rejected_orders st).

(** [stats_.active_orders--;] *)
Definition stats_dec_active (st : EngineStats) : EngineStats :=
  mkEngineStats (total_orders st) (u64 (active_orders st - 1))
                (total_trades st) (cancelled_orders st) (rejected_orders st).

(** [stats_.cancelled_orders++; stats_.active_orders--;] *)
Definition stats_on_cancel (st : EngineStats) : EngineStats :=
  mkEngineStats (total_orders st) (u64 (active_orders st - 1))
                (total_trades st) (u64 (cancelled_orders st + 1))
                (rejected_orders st).

(** [get_or_create_book]: the book found or created, and the map afterwards. *)
Definition get_or_create_book (sym : string) (bs : gmap string OrderBook)
    : OrderBook * gmap string OrderBook :=
  match bs !! sym with
  | Some book => (book, bs)
  | None => (OrderBook_new sym, <[sym := OrderBook_new sym]> bs)
  end.

(** [update_stats_for_trade(trade, book)] *)
Definition update_stats_for_trade (trade : Trade) (book : OrderBook)
    (st : EngineStats) : EngineStats :=
  let st := mkEngineStats (total_orders st) (active_orders st)
              (u64 (total_trades st + 1)) (cancelled_orders st)
              (rejected_orders st) in
  match get_order (maker_order_id trade) book with
  | Some maker_order =>
      if is_filled maker_order then stats_dec_active st else st
  | None => st
  end.

(** [MatchingEngine::submit_order]: the order id returned, the trades
    notified, and the engine afterwards.

    [order_ptr->is_filled()] is evaluated after [process_order], which has
    taken the order over.  An order that rests is then owned by [orders_]
    and the read is good.  An order that does not rest has been destroyed
    with the parameter of [process_order], and the read is of a destroyed
    object: undefined behaviour.  This definition gives the read the value
    the order had when it was destroyed, as in a run in which the freed
    memory has not been written to; [submit_order_reading] leaves the value
    open.  Only [active_orders] depends on it. *)
Definition submit_order (client : Z) (sym : string) (s : Side) (p : float)
    (q : Z) (e : MatchingEngine) : option (Z * list Trade * MatchingEngine) :=
  let id := next_order_id_ e in
  let order := Order_new id client sym s p q in
  let st := stats_on_submit (stats_ e) in
  let o2s := <[id := sym]> (order_to_symbol_ e) in
  let '(book, bs) := get_or_create_book sym (order_books_ e) in
  match process_order order book with
  | None => None
  | Some (trades, order', book') =>
      let st := if is_filled order' then stats_dec_active st else st in
      let st := fold_left (fun st trade => update_stats_for_trade trade book' st)
                          trades st in
      Some (id, trades,
            mkMatchingEngine (<[sym := book']> bs) o2s (u64 (id + 1)) st)
  end.

(** [MatchingEngine::cancel_order] *)
Definition cancel_order (id : Z) (e : MatchingEngine) : bool * MatchingEngine :=
  match order_to_symbol_ e !! id with
  | None => (false, e)
  | Some sym =>
      match order_books_ e !! sym with
      | None => (false, e)
      | Some book =>
          match book_cancel_order id book with
          | (true, book') =>
              (true, mkMatchingEngine (<[sym := book']> (order_books_ e))
                       (order_to_symbol_ e) (next_order_id_ e)
                       (stats_on_cancel (stats_ e)))
          | (false, _) => (false, e)
          end
      end
  end.

Definition get_best_bid (sym : string) (e : MatchingEngine) : float :=
  match order_books_ e !! sym with
  | Some book => book_get_best_bid book
  | None => 0%float
  end.

Definition get_best_ask (sym : string) (e : MatchingEngine) : float :=
  match order_books_ e !! sym with
  | Some book => book_get_best_ask book
  | None => 0%float
  end.

Definition get_spread (sym : string) (e : MatchingEngine) : float :=
  match order_books_ e !! sym with
  | Some book => book_get_spread book
  | None => 0%float
  end.

Definition get_bid_levels (sym : string) (max_levels : nat) (e : MatchingEngine)
    : list BookLevel :=
  match order_books_ e !! sym with
  | Some book => book_get_bid_levels max_levels book
  | None => []
  end.

Definition get_ask_levels (sym : string) (max_levels : nat) (e : MatchingEngine)
    : list BookLevel :=
  match order_books_ e !! sym with
  | Some book => book_get_ask_levels max_levels book
  | None => []
  end.

Definition get_stats (e : MatchingEngine) : EngineStats := stats_ e.

(** [get_all_symbols]: the keys of [order_books_] in the map's iteration
    order. *)
Definition get_all_symbols (e : MatchingEngine) : list string :=
  (map_to_list (order_books_ e)).*1.

(** ** Call sequences

    A client drives the engine through [submit_order] and [cancel_order];
    [run] performs a sequence of such calls and collects what each one
    returned. *)

Inductive Call :=
| Submit (client : Z) (sym : string) (s : Side) (p : float) (q : Z)
| Cancel (id : Z).

Inductive Reply :=
| Submitted (id : Z) (trades : list Trade)
| Cancelled (success : bool).

Definition call (c : Call) (e : MatchingEngine) : option (Reply * MatchingEngine) :=
  match c with
  | Submit client sym s p q =>
      match submit_order client sym s p q e with
      | Some (id, trades, e') => Some (Submitted id trades, e')
      | None => None
      end
  | Cancel id =>
      let '(success, e') := cancel_order id e in Some (Cancelled success, e')
  end.

Fixpoint run (cs : list Call) (e : MatchingEngine)
    : option (list Reply * MatchingEngine) :=
  match cs with
  | [] => Some ([], e)
  | c :: cs' =>
      match call c e with
      | None => None
      | Some (r, e') =>
          match run cs' e' with
          | None => None
          | Some (rs, e'') => Some (r :: rs, e'')
          end
      end
  end.

(** ** Vocabulary for the properties *)

(** The order stored under [id] in the book of [sym], if any. *)
Definition find_order (sym : string) (id : Z) (e : MatchingEngine) : option Order :=
  match order_books_ e !! sym with
  | Some book => orders_ book !! id
  | None => None
  end.

(** The book [submit_order] works on: the one of [sym], or a new one. *)
Definition book_of (sym : string) (e : MatchingEngine) : OrderBook :=
  default (OrderBook_new sym) (order_books_ e !! sym).

(** [book] with [orders_[id]] replaced by [o]. *)
Definition with_order (id : Z) (o : Order) (b : OrderBook) : OrderBook :=
  mkOrderBook (symbol_ b) (<[id := o]> (orders_ b)) (bids_ b) (asks_ b)
              (next_trade_id_ b).

(** The heap an incoming order is matched against, the break test of its
    branch of [match_order], and the state in which its loop starts. *)
Definition resting_side (incoming : Order) (b : OrderBook) : list Z :=
  if is_buy incoming then asks_ b else bids_ b.

Definition no_cross_of (incoming : Order) : Order -> Order -> bool :=
  if is_buy incoming then buy_no_cross else sell_no_cross.

Definition match_start (incoming : Order) (b : OrderBook) : MatchState :=
  mkMatchState incoming (orders_ b) (resting_side incoming b)
               (next_trade_id_ b) [].

(** The heap on which the makers of an order of side [s] rest. *)
Definition opposite_heap (s : Side) (b : OrderBook) : list Z :=
  if bool_decide (s = BUY) then asks_ b else bids_ b.

(** The state at the start of the iteration number [k] (from 0) of the match
    loop, if the loop gets that far. *)
Fixpoint iteration (sym : string) (no_cross : Order -> Order -> bool)
    (k : nat) (s : MatchState) : option MatchState :=
  match k with
  | O => Some s
  | S k' =>
      match match_step sym no_cross s with
      | Again s' => iteration sym no_cross k' s'
      | Exit _ => None
      end
  end.

(** The cases of one loop iteration, read off [match_step]. *)
Inductive step_case (sym : string) (no_cross : Order -> Order -> bool)
    (s : MatchState) : LoopStep -> Prop :=
| step_empty :
    ms_heap s = [] ->
    step_case sym no_cross s (Exit s)
| step_exhausted p q :
    ms_heap s = p :: q ->
    remaining_quantity (ms_incoming s) <= 0 ->
    step_case sym no_cross s (Exit s)
| step_skip p q :
    ms_heap s = p :: q ->
    0 < remaining_quantity (ms_incoming s) ->
    status (deref (ms_orders s) p) = CANCELLED ->
    step_case sym no_cross s
      (Again (mkMatchState (ms_incoming s) (ms_orders s) q
                (ms_next_trade_id s) (ms_trades s)))
| step_break p q :
    ms_heap s = p :: q ->
    0 < remaining_quantity (ms_incoming s) ->
    status (deref (ms_orders s) p) <> CANCELLED ->
    no_cross (ms_incoming s) (deref (ms_orders s) p) = true ->
    step_case sym no_cross s (Exit s)
| step_trade p q :
    ms_heap s = p :: q ->
    0 < remaining_quantity (ms_incoming s) ->
    status (deref (ms_orders s) p) <> CANCELLED ->
    no_cross (ms_incoming s) (deref (ms_orders s) p) = false ->
    let top_order := deref (ms_orders s) p in
    let trade := make_trade sym s top_order in
    let top' := fill (trade_quantity trade) top_order in
    step_case sym no_cross s
      (Again (mkMatchState (fill (trade_quantity trade) (ms_incoming s))
                (<[p := top']> (ms_orders s))
                (if is_filled top' then q else p :: q)
                (u64 (ms_next_trade_id s + 1))
                (ms_trades s ++ [trade]))).

(** Trade [t] is the one the loop emits in state [s] against the order at
    [p]: [p] is the top of the heap, its order is not cancelled, and the
    trade's fields are taken from the two orders as they are in [s]. *)
Definition matched_at (s : MatchState) (p : Z) (t : Trade) : Prop :=
  PriorityQueue.top (ms_heap s) = Some p /\
  status (deref (ms_orders s) p) <> CANCELLED /\
  taker_order_id t = order_id (ms_incoming s) /\
  maker_order_id t = order_id (deref (ms_orders s) p) /\
  trade_price t = price (deref (ms_orders s) p) /\
  trade_quantity t =
    Z.min (remaining_quantity (ms_incoming s))
          (remaining_quantity (deref (ms_orders s) p)).

(** Every pointer of a heap has its pointee in the owning map. *)
Definition heap_backed (m : gmap Z Order) (q : list Z) : Prop :=
  forall p, In p q -> is_Some (m !! p).

(** What an iteration never changes: the heap only loses entries from its
    top, every order keeps its id and price, and, when the heap holds no
    dangling pointer, the map keeps its set of keys. *)
Record step_stable (s s' : MatchState) : Prop := {
  stable_heap : forall p, In p (ms_heap s') -> In p (ms_heap s);
  stable_id : forall p,
      order_id (deref (ms_orders s') p) = order_id (deref (ms_orders s) p);
  stable_price : forall p,
      price (deref (ms_orders s') p) = price (deref (ms_orders s) p);
  stable_incoming_id : order_id (ms_incoming s') = order_id (ms_incoming s);
  stable_incoming_price : price (ms_incoming s') = price (ms_incoming s);
  stable_suffix : exists l, ms_heap s = l ++ ms_heap s';
  stable_dom :
      heap_backed (ms_orders s) (ms_heap s) ->
      forall p, is_Some (ms_orders s' !! p) <-> is_Some (ms_orders s !! p)
}.

(** Every stored quantity is a [uint64_t] value. *)
Definition orders_wf (m : gmap Z Order) : Prop :=
  forall p o, m !! p = Some o -> is_u64 (quantity o).

(** Well-formed engines and calls: every quantity is a [uint64_t] value. *)
Definition engine_wf (e : MatchingEngine) : Prop :=
  forall sym b, order_books_ e !! sym = Some b -> orders_wf (orders_ b).

Definition call_wf (c : Call) : Prop :=
  match c with
  | Submit _ _ _ _ q => is_u64 q
  | Cancel _ => True
  end.

(** What is left to do in the match loop: two units per heap entry and one
    for an incoming order that still has quantity. *)
Definition loop_measure (s : MatchState) : nat :=
  (2 * length (ms_heap s) +
   (if remaining_quantity (ms_incoming s) >? 0 then 1 else 0))%nat.

(** The number of active orders a book holds, and their number over all the
    books of the engine. *)
Definition book_active_count (b : OrderBook) : nat :=
  length (filter (fun kv => is_active kv.2 = true) (map_to_list (orders_ b))).

Definition engine_active_count (e : MatchingEngine) : nat :=
  sum_list (book_active_count <$> (map_to_list (order_books_ e)).*2).

(** [c] is a [submit_order] for symbol [sym]. *)
Definition submits_to (sym : string) (c : Call) : Prop :=
  match c with
  | Submit _ sym' _ _ _ => sym' = sym
  | Cancel _ => False
  end.

(** ** Order on prices

    [PrimFloat.ltb] and [PrimFloat.eqb] are specified through the comparison
    of [SpecFloat]; the lemmas on them go through a key that places every
    float other than NaN on a line of integer triples. *)

(** The position of a float that is not NaN on the extended real line:
    its class (-2 for -inf, -1 negative, 0 zero, 1 positive, 2 for +inf) and,
    within the finite classes, exponent and mantissa signed alike. *)
Definition sf_key (f : spec_float) : Z * Z * Z :=
  match f with
  | S754_zero _ => (0, 0, 0)
  | S754_infinity true => (-2, 0, 0)
  | S754_infinity false => (2, 0, 0)
  | S754_nan => (0, 0, 0)
  | S754_finite true m e => (-1, - e, Z.neg m)
  | S754_finite false m e => (1, e, Z.pos m)
  end.

Definition key_lt (a b : Z * Z * Z) : Prop :=
  a.1.1 < b.1.1 \/
  (a.1.1 = b.1.1 /\ (a.1.2 < b.1.2 \/ (a.1.2 = b.1.2 /\ a.2 < b.2))).

Definition sf_ordered (f : spec_float) : Prop := f <> S754_nan.

Definition float_key (x : float) : Z * Z * Z := sf_key (Prim2SF x).
Definition ordered (x : float) : Prop := sf_ordered (Prim2SF x).

(** [a] ranks below [b] on the bid side (higher price first, then smaller
    id) and on the ask side (lower price first, then smaller id). *)
Definition below_bid (a b : Order) : Prop :=
  ordered (price a) /\ ordered (price b) /\
  (key_lt (float_key (price a)) (float_key (price b)) \/
   (float_key (price a) = float_key (price b) /\ order_id b < order_id a)).

Definition below_ask (a b : Order) : Prop :=
  ordered (price a) /\ ordered (price b) /\
  (key_lt (float_key (price b)) (float_key (price a)) \/
   (float_key (price a) = float_key (price b) /\ order_id b < order_id a)).

(** A comparator that reads nothing of an order but its price and id. *)
Definition reads_key (cmp : Order -> Order -> bool) : Prop :=
  forall a b a' b',
    price a = price a' -> order_id a = order_id a' ->
    price b = price b' -> order_id b = order_id b' ->
    cmp a b = cmp a' b'.

(** The comparator of a heap of pointers into [m]. *)
Definition ptr_comp (cmp : Order -> Order -> bool) (m : gmap Z Order)
    (a b : Z) : bool :=
  cmp (deref m a) (deref m b).

(** A queue is in delivery order when no element is ranked below a later
    one. *)
Definition delivery_order {A : Type} (comp : A -> A -> bool) (q : list A) : Prop :=
  StronglySorted (fun x y => comp x y = false) q.

(** ** Book invariants *)

(** The invariants of the spec's data model that the priority argument
    needs: an order is stored under its own id, the heaps hold no dangling
    pointer, and each heap delivers its orders by priority. *)
Record book_inv (b : OrderBook) : Prop := {
  inv_ids : forall p o, orders_ b !! p = Some o -> order_id o = p;
  inv_bids_backed : heap_backed (orders_ b) (bids_ b);
  inv_asks_backed : heap_backed (orders_ b) (asks_ b);
  inv_bids_order : delivery_order (bid_comp (orders_ b)) (bids_ b);
  inv_asks_order : delivery_order (ask_comp (orders_ b)) (asks_ b)
}.

(** Every book of the engine satisfies [book_inv] and holds only ids that
    the engine has already handed out. *)
Definition engine_inv (e : MatchingEngine) : Prop :=
  forall sym b, order_books_ e !! sym = Some b ->
    book_inv b /\
    forall p, is_Some (orders_ b !! p) -> p < next_order_id_ e.

(** ** Scenarios and inputs *)

Definition BTC : string := "BTC-USD".

Definition ETH : string := "ETH-USD".

(** Scenario C of the spec; MultipleTradesFromSingleTaker in
    MatchingEngineTests.cpp. *)
Definition scenario_C : list Call :=
  [ Submit 101 BTC SELL 50000%float 3;
    Submit 102 BTC SELL 50001%float 4;
    Submit 103 BTC SELL 50002%float 5;
    Submit 100 BTC BUY 50003%float 15 ].

(** Scenario B of the spec at book level (OrderBookTests, SimpleMatch): a
    resting buy of 10 at 50000 and an incoming sell of 5 at 50000. *)
Definition book_B : OrderBook :=
  add_order (Order_new 1 100 BTC BUY 50000%float 10) (OrderBook_new BTC).

Definition sell_B : Order := Order_new 2 101 BTC SELL 50000%float 5.

(** The book of scenario B after [cancel_order(1)]. *)
Definition book_B_cancelled : OrderBook := snd (book_cancel_order 1 book_B).

(** Scenario F of the spec: two buys at one price, then a crossing sell of 5;
    and the same book hit by a sell of 8, which reaches the second buy. *)
Definition two_equal_bids : list Call :=
  [ Submit 100 BTC BUY 50000%float 5; Submit 101 BTC BUY 50000%float 5 ].

Definition scenario_F : list Call :=
  two_equal_bids ++ [ Submit 102 BTC SELL 50000%float 5 ].

Definition engine_F : MatchingEngine :=
  default MatchingEngine_new (snd <$> run two_equal_bids MatchingEngine_new).

Definition book_F : OrderBook := book_of BTC engine_F.

(** A buy of 10 at 50000 completely filled by a sell of 10: order 1 stays in
    the book's map with status FILLED. *)
Definition filled_maker_calls : list Call :=
  [ Submit 100 BTC BUY 50000%float 10;
    Submit 101 BTC SELL 50000%float 10 ].

(** A filled maker that is then cancelled. *)
Definition cancel_filled_calls : list Call :=
  filled_maker_calls ++ [Cancel 1].

(** One resting order, cancelled once and cancelled twice. *)
Definition cancel_once_calls : list Call :=
  [ Submit 100 BTC BUY 50000%float 10; Cancel 1 ].

Definition cancel_twice_calls : list Call :=
  [ Submit 100 BTC BUY 50000%float 10; Cancel 1; Cancel 1 ].

(** An order of 10 cancelled before any fill, and the same order filled
    completely. *)
Definition cancelled_order : Order :=
  cancel (Order_new 1 100 BTC BUY 50000%float 10).

Definition filled_order : Order :=
  fill 10 (Order_new 1 100 BTC BUY 50000%float 10).

(** Two bids at different prices; two bids and two asks at one price. *)
Definition two_bid_prices_calls : list Call :=
  [ Submit 100 BTC BUY 100%float 5; Submit 101 BTC BUY 101%float 7 ].

Definition two_bids_one_price_calls : list Call :=
  [ Submit 100 BTC BUY 100%float 5; Submit 101 BTC BUY 100%float 7 ].

Definition two_asks_one_price_calls : list Call :=
  [ Submit 100 BTC SELL 100%float 5; Submit 101 BTC SELL 100%float 7 ].

(** ** Further members of Order.h / Order.cpp *)

(** [Order::can_match_with]; [price >= other.price] is
    [other.price <= price]. *)
Definition can_match_with (o other : Order) : bool :=
  if bool_decide (symbol o <> symbol other) then false
  else if bool_decide (side o = side other) then false
  else if bool_decide (status o <> NEW) &&
          bool_decide (status o <> PARTIALLY_FILLED) then false
  else if bool_decide (status other <> NEW) &&
          bool_decide (status other <> PARTIALLY_FILLED) then false
  else if is_buy o && is_sell other
       then PrimFloat.leb (price other) (price o)
  else if is_sell o && is_buy other
       then PrimFloat.leb (price o) (price other)
  else false.

(** The data-model invariant of an order: [filled_quantity] is between 0
    and [quantity], which is a [uint64_t] value. *)
Definition order_ok (o : Order) : Prop :=
  0 <= filled_quantity o <= quantity o /\ quantity o < 2 ^ 64.

(** [status] is NEW or PARTIALLY_FILLED. *)
Definition status_open (o : Order) : Prop :=
  status o = NEW \/ status o = PARTIALLY_FILLED.

(** ** Vocabulary for the further properties *)

(** The quantity traded in a list of trades, and the part of it traded
    against the maker [p]. *)
Definition total_quantity (trades : list Trade) : Z :=
  foldr (fun t acc => trade_quantity t + acc) 0 trades.

Definition quantity_against (p : Z) (trades : list Trade) : Z :=
  total_quantity (filter (fun t => maker_order_id t = p) trades).

(** Every stored order satisfies [order_ok]. *)
Definition orders_ok (m : gmap Z Order) : Prop :=
  forall p o, m !! p = Some o -> order_ok o.

(** The trade ids [n], [n + 1], ... of [k] trades, on [uint64_t]. *)
Definition trade_ids_from (n : Z) (k : nat) : list Z :=
  (fun i => u64 (n + Z.of_nat i)) <$> seq 0 k.

(** The first three submissions of scenario C, the book they leave, and the
    fourth order. *)
Definition engine_C3 : MatchingEngine :=
  default MatchingEngine_new
    (snd <$> run (take 3 scenario_C) MatchingEngine_new).

Definition book_C3 : OrderBook := book_of BTC engine_C3.

Definition buy_C : Order := Order_new 4 100 BTC BUY 50003%float 15.

Definition trades_C : list Trade :=
  [ mkTrade 1 4 1 100 101 BTC 50000%float 3;
    mkTrade 2 4 2 100 102 BTC 50001%float 4;
    mkTrade 3 4 3 100 103 BTC 50002%float 5 ].

(** The test under which the queries look at an order: not cancelled and
    not filled. *)
Definition live (o : Order) : bool :=
  bool_decide (status o <> CANCELLED) && negb (is_filled o).

(** No entry of the heap is a filled order that was not cancelled. *)
Definition heap_open (m : gmap Z Order) (q : list Z) : Prop :=
  forall p, In p q ->
    status (deref m p) = CANCELLED \/ is_filled (deref m p) = false.

(** No stored price is NaN. *)
Definition prices_ordered (m : gmap Z Order) : Prop :=
  forall p o, m !! p = Some o -> ordered (price o).

(** No live bid is priced at or above a live ask. *)
Definition uncrossed (b : OrderBook) : Prop :=
  forall pb pa, In pb (bids_ b) -> In pa (asks_ b) ->
    live (deref (orders_ b) pb) = true ->
    live (deref (orders_ b) pa) = true ->
    PrimFloat.ltb (price (deref (orders_ b) pb))
                  (price (deref (orders_ b) pa)) = true.

(** Every live stored order is indexed by the heap of its side. *)
Definition live_indexed (b : OrderBook) : Prop :=
  forall p o, orders_ b !! p = Some o -> live o = true ->
    In p (if is_buy o then bids_ b else asks_ b).

(** The heaps hold orders of their side. *)
Definition sides_ok (b : OrderBook) : Prop :=
  (forall p, In p (bids_ b) -> side (deref (orders_ b) p) = BUY) /\
  (forall p, In p (asks_ b) -> side (deref (orders_ b) p) = SELL).

(** The book invariants of the data model, all together. *)
Record book_sound (b : OrderBook) : Prop := {
  sound_inv : book_inv b;
  sound_orders : orders_ok (orders_ b);
  sound_prices : prices_ordered (orders_ b);
  sound_nodup : NoDup (bids_ b ++ asks_ b);
  sound_open : heap_open (orders_ b) (bids_ b ++ asks_ b);
  sound_sides : sides_ok b;
  sound_indexed : live_indexed b;
  sound_uncrossed : uncrossed b
}.

(** The heap an incoming order is pushed on when it rests. *)
Definition own_side (incoming : Order) (b : OrderBook) : list Z :=
  if is_buy incoming then bids_ b else asks_ b.

(** What the positivity and liveness arguments need of a loop state. *)
Definition loop_ok (s : MatchState) : Prop :=
  NoDup (ms_heap s) /\
  heap_open (ms_orders s) (ms_heap s) /\
  orders_ok (ms_orders s).

(** The status an order has and how far it is filled agree: a NEW order is
    untouched, a PARTIALLY_FILLED one is filled in part, a FILLED one in
    full; no order is REJECTED. *)
Definition status_ok (o : Order) : Prop :=
  match status o with
  | NEW => filled_quantity o = 0
  | PARTIALLY_FILLED => 0 < filled_quantity o < quantity o
  | FILLED => filled_quantity o = quantity o
  | CANCELLED => True
  | REJECTED => False
  end.

(** The orders a book holds: their status agrees with their fill, and they
    have a quantity. *)
Definition statuses_ok (m : gmap Z Order) : Prop :=
  forall p o, m !! p = Some o -> status_ok o /\ 0 < quantity o.

(** Every book of the engine is sound, is owned under its own symbol, and
    holds only ids that the engine has already handed out. *)
Definition engine_sound (e : MatchingEngine) : Prop :=
  forall sym b, order_books_ e !! sym = Some b ->
    book_sound b /\ symbol_ b = sym /\
    (forall p, is_Some (orders_ b !! p) -> p < next_order_id_ e) /\
    statuses_ok (orders_ b).

(** Calls whose quantity is a [uint64_t] value and whose price is not a
    NaN. *)
Definition call_ok (c : Call) : Prop :=
  match c with
  | Submit _ _ _ p q => is_u64 q /\ ordered p
  | Cancel _ => True
  end.

(** The trades notified over a sequence of calls, in order. *)
Definition trades_of (replies : list Reply) : list Trade :=
  flat_map (fun r => match r with
                     | Submitted _ trades => trades
                     | Cancelled _ => []
                     end) replies.

(** Two bids and an ask that rest, a sell that fills the better bid in
    part, and a cancel of the other bid. *)
Definition resting_calls : list Call :=
  [ Submit 100 BTC BUY 49990%float 5;
    Submit 101 BTC SELL 50010%float 3;
    Submit 102 BTC BUY 50000%float 2;
    Submit 103 BTC SELL 50000%float 1;
    Cancel 1 ].

Definition engine_R : MatchingEngine :=
  default MatchingEngine_new (snd <$> run resting_calls MatchingEngine_new).

Definition replies_R : list Reply :=
  default [] (fst <$> run resting_calls MatchingEngine_new).

(** The book of scenario C after its fourth order. *)
Definition book_C4 : OrderBook :=
  book_of BTC (default MatchingEngine_new (snd <$> run scenario_C MatchingEngine_new)).

Definition book_R : OrderBook := book_of BTC engine_R.

(** The order ids returned by the submits of a sequence of calls, in
    order. *)
Definition ids_of (replies : list Reply) : list Z :=
  flat_map (fun r => match r with
                     | Submitted id _ => [id]
                     | Cancelled _ => []
                     end) replies.

(** The cancels that reported success. *)
Definition cancelled_ok (r : Reply) : bool :=
  match r with
  | Cancelled true => true
  | _ => false
  end.

Definition cancels_of (replies : list Reply) : nat :=
  length (List.filter cancelled_ok replies).

(** The trades of one symbol. *)
Definition trades_in (sym : string) (trades : list Trade) : list Trade :=
  List.filter (fun t => bool_decide (trade_symbol t = sym)) trades.

(** A reply and the call it answers: a submit is answered by an id and
    trades that carry the submit's symbol and name the new order and its
    client as taker. *)
Definition reply_matches (c : Call) (r : Reply) : Prop :=
  match c, r with
  | Submit client sym _ _ _, Submitted id trades =>
      Forall (fun t => trade_symbol t = sym /\ taker_order_id t = id /\
                       taker_client_id t = client) trades
  | Cancel _, Cancelled _ => True
  | _, _ => False
  end.

(** ** Further members of Trade.h / Trade.cpp *)

(** [Trade::involves_order] *)
Definition involves_order (t : Trade) (order_id : Z) : bool :=
  (taker_order_id t =? order_id) || (maker_order_id t =? order_id).

(** [Trade::get_order_for_side] *)
Definition get_order_for_side (is_taker : bool) (t : Trade) : Z :=
  if is_taker then taker_order_id t else maker_order_id t.

(** What an order has traded: the quantities of the trades that involve
    it. *)
Definition traded (p : Z) (trades : list Trade) : Z :=
  total_quantity (List.filter (fun t => involves_order t p) trades).

(** ** Vocabulary for the level snapshots *)

(** The loop of [aggregate_levels_impl] when [max_levels] does not cut it
    short. *)
Definition aggregate_all (m : gmap Z Order) (container : list Z)
    (level_map : list (float * BookLevel)) : list (float * BookLevel) :=
  fold_left (fun lm p =>
               let order := deref m p in
               if bool_decide (status order = CANCELLED) || is_filled order
               then lm
               else level_map_at (price order) (add_to_level order) lm)
            container level_map.

(** The live orders of a heap at the price [k]. *)
Definition live_at (m : gmap Z Order) (k : float) (q : list Z) : list Z :=
  List.filter (fun p => live (deref m p) && PrimFloat.eqb (price (deref m p)) k) q.

Definition sum_remaining (m : gmap Z Order) (q : list Z) : Z :=
  foldr (fun p acc => remaining_quantity (deref m p) + acc) 0 q.

(** [level_map.find(k)], a missing entry read as a value-initialised
    level. *)
Definition level_at (k : float) (lm : list (float * BookLevel)) : BookLevel :=
  default BookLevel_zero (snd <$> List.find (fun kv => PrimFloat.eqb kv.1 k) lm).

(** A level map as [std::map] keeps it: keys increasing, none a NaN. *)
Definition level_map_ok (lm : list (float * BookLevel)) : Prop :=
  StronglySorted (fun a b => key_lt (float_key a.1) (float_key b.1)) lm /\
  Forall (fun kv => ordered kv.1) lm.

(** ** Further members of OrderBook.h / OrderBook.cpp *)

(** The loop of [get_bid_volume] and [get_ask_volume] over a copy of the
    heap. *)
Fixpoint volume_loop (m : gmap Z Order) (q : list Z) (total_volume : Z) : Z :=
  match q with
  | [] => total_volume
  | p :: q' =>
      let order := deref m p in
      if bool_decide (status order <> CANCELLED) && negb (is_filled order)
      then volume_loop m q' (u64 (total_volume + remaining_quantity order))
      else volume_loop m q' total_volume
  end.

(** [OrderBook::get_bid_volume] *)
Definition book_get_bid_volume (b : OrderBook) : Z :=
  volume_loop (orders_ b) (bids_ b) 0.

(** [OrderBook::get_ask_volume] *)
Definition book_get_ask_volume (b : OrderBook) : Z :=
  volume_loop (orders_ b) (asks_ b) 0.

(** The quantity still open on one side of a book: what remains of the live
    orders of that side among the orders the book holds. *)
Definition open_orders (s : Side) (b : OrderBook) : list (Z * Order) :=
  List.filter (fun kv => live kv.2 && bool_decide (side kv.2 = s))
              (map_to_list (orders_ b)).

Definition open_quantity (s : Side) (b : OrderBook) : Z :=
  foldr (fun kv acc => remaining_quantity kv.2 + acc) 0 (open_orders s b).

(** The sum of the quantities of a list of levels. *)
Definition levels_quantity (levels : list BookLevel) : Z :=
  foldr (fun l acc => level_quantity l + acc) 0 levels.

(** ** pipeline_main.cpp *)

(** [std::getline(stream, token, delimiter)] on a stream that holds [s]: the
    characters up to the first delimiter, and what is left of the stream
    once the delimiter has been discarded. *)
Fixpoint getline_from (s : string) (delimiter : Ascii.ascii) : string * string :=
  match s with
  | EmptyString => (EmptyString, EmptyString)
  | String c s' =>
      if Ascii.eqb c delimiter then (EmptyString, s')
      else let '(token, rest) := getline_from s' delimiter in
           (String c token, rest)
  end.

(** The call extracts nothing from a stream that has nothing left; the
    stream then tests false, which ends the loop. *)
Definition getline (stream : string) (delimiter : Ascii.ascii)
    : option (string * string) :=
  match stream with
  | EmptyString => None
  | _ => Some (getline_from stream delimiter)
  end.

(** The [while] loop of [split]. *)
Fixpoint split_loop (fuel : nat) (tokenStream : string) (delimiter : Ascii.ascii)
    (tokens : list string) : option (list string) :=
  match fuel with
  | O => None
  | S fuel' =>
      match getline tokenStream delimiter with
      | None => Some tokens
      | Some (token, rest) =>
          split_loop fuel' rest delimiter (tokens ++ [token])
      end
  end.

(** [split(s, delimiter)]: every call of [getline] but the last takes at
    least one character off the stream. *)
Definition split (s : string) (delimiter : Ascii.ascii) : option (list string) :=
  split_loop (S (String.length s)) s delimiter [].

Fixpoint contains (c : Ascii.ascii) (s : string) : bool :=
  match s with
  | EmptyString => false
  | String c' s' => Ascii.eqb c' c || contains c s'
  end.

(** The tokens written one after the other with the delimiter between
    them. *)
Definition join (delimiter : Ascii.ascii) (tokens : list string) : string :=
  String.concat (String delimiter EmptyString) tokens.

(** ** Vocabulary for price priority *)

(** [x] is at least as good a price as [y] for an order of side [s]: no
    higher for a buy, no lower for a sell. *)
Definition no_worse (s : Side) (x y : float) : bool :=
  if bool_decide (s = BUY) then PrimFloat.leb x y else PrimFloat.leb y x.

(** The comparator of the heap an incoming order is matched against. *)
Definition resting_comp (incoming : Order) (m : gmap Z Order) : Z -> Z -> bool :=
  if is_buy incoming then ask_comp m else bid_comp m.

(** The trades of a submit come best price first and stay within the
    limit price of the submit. *)
Definition reply_sweeps (c : Call) (r : Reply) : Prop :=
  match c, r with
  | Submit _ _ s p _, Submitted _ trades =>
      StronglySorted
        (fun t1 t2 => no_worse s (trade_price t1) (trade_price t2) = true)
        trades /\
      Forall (fun t => no_worse s (trade_price t) p = true) trades
  | Cancel _, Cancelled _ => True
  | _, _ => False
  end.

(** The line ends with the delimiter. *)
Fixpoint ends_with (c : Ascii.ascii) (s : string) : bool :=
  match s with
  | EmptyString => false
  | String c' s' =>
      match s' with
      | EmptyString => Ascii.eqb c' c
      | String _ _ => ends_with c s'
      end
  end.

(** What [split] returns, said without its loop: tokens free of the
    delimiter which, joined by it, give the line back, the delimiter the
    line may end with left aside; none for the empty line only. *)
Definition split_spec (s : string) (delimiter : Ascii.ascii)
    (tokens : list string) : Prop :=
  Forall (fun t => contains delimiter t = false) tokens /\
  (tokens = [] <-> s = EmptyString) /\
  s = String.append (join delimiter tokens)
        (if ends_with delimiter s then String delimiter EmptyString
         else EmptyString).

(** ** [submit_order] and the order it has given away *)

(** [MatchingEngine::submit_order] with the read of a destroyed order left
    open.  [process_order] moves the order into [orders_] under the test
    written here as [rests]; when the test fails the order is destroyed and
    [order_ptr->is_filled()] yields [freed], whatever the memory then
    holds. *)
Definition submit_order_reading (freed : bool) (client : Z) (sym : string)
    (s : Side) (p : float) (q : Z) (e : MatchingEngine)
    : option (Z * list Trade * MatchingEngine) :=
  let id := next_order_id_ e in
  let order := Order_new id client sym s p q in
  let st := stats_on_submit (stats_ e) in
  let o2s := <[id := sym]> (order_to_symbol_ e) in
  let '(book, bs) := get_or_create_book sym (order_books_ e) in
  match process_order order book with
  | None => None
  | Some (trades, order', book') =>
      let rests :=
        negb (is_filled order') && bool_decide (status order' <> CANCELLED) in
      let taker_filled := if rests then is_filled order' else freed in
      let st := if taker_filled then stats_dec_active st else st in
      let st := fold_left (fun st trade => update_stats_for_trade trade book' st)
                          trades st in
      Some (id, trades,
            mkMatchingEngine (<[sym := book']> bs) o2s (u64 (id + 1)) st)
  end.

(** ** std::priority_queue as libstdc++ has it

    [std::priority_queue<Order*, std::vector<Order*>, Compare>] keeps a
    binary heap in its vector [c]: [top] is [c.front()], [push] is
    [c.push_back] followed by [std::push_heap], and [pop] is [std::pop_heap]
    followed by [c.pop_back].  The functions of this module follow
    [<bits/stl_heap.h>] statement by statement, on the vector as a list.
    Indices are natural numbers; the truncated subtractions agree with the
    signed ones of the header wherever the header's loops get to
    ([__adjust_heap] is entered with [len >= 1] only).  A read off the end
    of the vector, which the loops never make, yields [value].

    [PriorityQueue] above is what this heap delivers when [comp] is a
    strict weak ordering of the elements queued.  The order comparators are
    one as long as no price is a NaN; with a NaN among the prices they are
    not, and the order in which the heap delivers then depends on where the
    elements sit in the vector. *)

Module Heap.
Section Heap.
Context {A : Type} (comp : A -> A -> bool).

(** The loop of [std::__push_heap(first, holeIndex, topIndex, value, comp)]
    and the store that follows it.  [holeIndex] gets smaller in every
    iteration, so [fuel = holeIndex] runs the loop to its end
    (see [push_heap_fuel]). *)
Fixpoint push_heap (fuel : nat) (c : list A) (holeIndex topIndex : nat)
    (value : A) : list A :=
  let parent := ((holeIndex - 1) / 2)%nat in
  match fuel with
  | O => <[holeIndex := value]> c
  | S fuel' =>
      if (topIndex <? holeIndex)%nat && comp (nth parent c value) value
      then push_heap fuel' (<[holeIndex := nth parent c value]> c)
                     parent topIndex value
      else <[holeIndex := value]> c
  end.

(** The [while] loop of [std::__adjust_heap]: the vector, [holeIndex] and
    [secondChild] when it is left. *)
Fixpoint adjust_heap_loop (fuel : nat) (c : list A) (len : nat)
    (holeIndex secondChild : nat) (value : A) : list A * nat * nat :=
  match fuel with
  | O => (c, holeIndex, secondChild)
  | S fuel' =>
      if (secondChild <? (len - 1) / 2)%nat
      then
        let secondChild := (2 * (secondChild + 1))%nat in
        let secondChild :=
          if comp (nth secondChild c value) (nth (secondChild - 1) c value)
          then (secondChild - 1)%nat else secondChild in
        adjust_heap_loop fuel' (<[holeIndex := nth secondChild c value]> c)
                         len secondChild secondChild value
      else (c, holeIndex, secondChild)
  end.

(** [std::__adjust_heap(first, holeIndex, len, value, comp)].
    [secondChild] grows in every iteration of the loop and stays below
    [len], so [len] iterations are enough. *)
Definition adjust_heap (c : list A) (holeIndex len : nat) (value : A)
    : list A :=
  let topIndex := holeIndex in
  let '(c, holeIndex, secondChild) :=
    adjust_heap_loop len c len holeIndex holeIndex value in
  let '(c, holeIndex) :=
    if Nat.even len && (secondChild =? (len - 2) / 2)%nat
    then
      let secondChild := (2 * (secondChild + 1))%nat in
      (<[holeIndex := nth (secondChild - 1) c value]> c,
       (secondChild - 1)%nat)
    else (c, holeIndex) in
  push_heap holeIndex c holeIndex topIndex value.

(** [std::pop_heap(first, last, comp)]: with more than one element,
    [--last], then [__pop_heap(first, last, last, comp)], which saves
    [*last], stores [*first] there and adjusts the heap of the elements
    before it. *)
Definition pop_heap (c : list A) : list A :=
  match c with
  | [] => c
  | front :: _ =>
      if (1 <? length c)%nat
      then
        let last := (length c - 1)%nat in
        let value := nth last c front in
        adjust_heap (<[last := front]> c) 0 last value
      else c
  end.

Definition empty (c : list A) : bool :=
  match c with [] => true | _ => false end.

(** [c.front()]; undefined in the source when the queue is empty. *)
Definition top (c : list A) : option A := head c.

(** [c.push_back(x); std::push_heap(c.begin(), c.end(), comp);] *)
Definition push (x : A) (c : list A) : list A :=
  let c := c ++ [x] in
  push_heap (length c - 1) c (length c - 1) 0 x.

(** [std::pop_heap(c.begin(), c.end(), comp); c.pop_back();] *)
Definition pop (c : list A) : list A :=
  let c := pop_heap c in
  take (length c - 1) c.
End Heap.
End Heap.

(** ** What the heap delivers

    Vocabulary for relating the heap to the list in delivery order. *)

Module HeapSpec.
Section HeapSpec.
Context {A : Type} (comp : A -> A -> bool).

(** [std::is_heap]: no element is ranked below one of its children. *)
Definition is_heap (c : list A) : Prop :=
  forall i x y, (0 < i)%nat ->
    c !! i = Some x -> c !! ((i - 1) / 2)%nat = Some y -> comp y x = false.

(** The same on the first [len] elements, read as the loops read them. *)
Definition heap_upto (len : nat) (c : list A) (d : A) : Prop :=
  forall i, (0 < i < len)%nat ->
    comp (nth ((i - 1) / 2) c d) (nth i c d) = false.

(** The first [len] elements are a heap once the hole at [h] is left out:
    the heap condition holds between every element other than the hole and
    its parent other than the hole, and between the parent of the hole and
    the children of the hole. *)
Definition heap_but (len : nat) (c : list A) (d : A) (h : nat) : Prop :=
  (forall i, (0 < i < len)%nat -> i <> h -> ((i - 1) / 2)%nat <> h ->
     comp (nth ((i - 1) / 2) c d) (nth i c d) = false) /\
  (forall j, (0 < j < len)%nat -> ((j - 1) / 2)%nat = h -> (0 < h)%nat ->
     comp (nth ((h - 1) / 2) c d) (nth j c d) = false).

(** [v] is not ranked below a child of the hole. *)
Definition above (len : nat) (c : list A) (d : A) (h : nat) (v : A) : Prop :=
  forall j, (0 < j < len)%nat -> ((j - 1) / 2)%nat = h ->
    comp v (nth j c d) = false.

(** [comp] is a strict total order of the elements that satisfy [P]. *)
Record strict_total (P : A -> Prop) : Prop := {
  st_irrefl : forall x, P x -> comp x x = false;
  st_trans : forall x y z, P x -> P y -> P z ->
      comp x y = true -> comp y z = true -> comp x z = true;
  st_total : forall x y, P x -> P y -> x <> y ->
      comp x y = true \/ comp y x = true
}.

(** The list [l] holds the elements of the heap [c] in the order in which
    the comparator ranks them, best first. *)
Definition represents (c l : list A) : Prop :=
  is_heap c /\ l ≡ₚ c /\ delivery_order comp l.
End HeapSpec.
End HeapSpec.

(** ** The order book over the heap

    The member functions of [OrderBook] that touch [bids_] and [asks_],
    with the queues as libstdc++ keeps them: [bids_ b] and [asks_ b] are
    read as the vectors inside the two [std::priority_queue]s.  Apart from
    the queue operations, which take the comparator, the definitions are
    those given above. *)

Module HeapBook.

(** [add_order_unlocked] *)
Definition add_order_unlocked (order : Order) (b : OrderBook) : OrderBook :=
  let order_ptr := order_id order in
  let m := <[order_id order := order]> (orders_ b) in
  if is_buy order
  then mkOrderBook (symbol_ b) m
         (Heap.push (bid_comp m) order_ptr (bids_ b)) (asks_ b)
         (next_trade_id_ b)
  else mkOrderBook (symbol_ b) m (bids_ b)
         (Heap.push (ask_comp m) order_ptr (asks_ b))
         (next_trade_id_ b).

(** One evaluation of the loop condition of [match_order] and, if it holds,
    of the body; [comp] is the comparator of the queue being matched
    against, reading the orders through the map given. *)
Definition match_step (sym : string) (no_cross : Order -> Order -> bool)
    (comp : gmap Z Order -> Z -> Z -> bool) (s : MatchState) : LoopStep :=
  match Heap.top (ms_heap s) with
  | None => Exit s
  | Some p =>
      if negb (remaining_quantity (ms_incoming s) >? 0) then Exit s
      else
        let top_order := deref (ms_orders s) p in
        if bool_decide (status top_order = CANCELLED)
        then Again (mkMatchState (ms_incoming s) (ms_orders s)
                      (Heap.pop (comp (ms_orders s)) (ms_heap s))
                      (ms_next_trade_id s) (ms_trades s))
        else if no_cross (ms_incoming s) top_order then Exit s
        else
          let trade := make_trade sym s top_order in
          let incoming' := fill (trade_quantity trade) (ms_incoming s) in
          let top' := fill (trade_quantity trade) top_order in
          let m := <[p := top']> (ms_orders s) in
          Again (mkMatchState incoming' m
                   (if is_filled top' then Heap.pop (comp m) (ms_heap s)
                    else ms_heap s)
                   (u64 (ms_next_trade_id s + 1))
                   (ms_trades s ++ [trade]))
  end.

Fixpoint match_loop (sym : string) (no_cross : Order -> Order -> bool)
    (comp : gmap Z Order -> Z -> Z -> bool)
    (fuel : nat) (s : MatchState) : option MatchState :=
  match fuel with
  | O => None
  | S fuel' =>
      match match_step sym no_cross comp s with
      | Exit s' => Some s'
      | Again s' => match_loop sym no_cross comp fuel' s'
      end
  end.

(** [OrderBook::match_order] *)
Definition match_order (incoming : Order) (b : OrderBook)
    : option (list Trade * Order * OrderBook) :=
  if is_buy incoming then
    match match_loop (symbol_ b) buy_no_cross ask_comp (match_fuel (asks_ b))
            (mkMatchState incoming (orders_ b) (asks_ b) (next_trade_id_ b) [])
    with
    | None => None
    | Some s =>
        Some (ms_trades s, ms_incoming s,
              mkOrderBook (symbol_ b) (ms_orders s) (bids_ b) (ms_heap s)
                          (ms_next_trade_id s))
    end
  else
    match match_loop (symbol_ b) sell_no_cross bid_comp (match_fuel (bids_ b))
            (mkMatchState incoming (orders_ b) (bids_ b) (next_trade_id_ b) [])
    with
    | None => None
    | Some s =>
        Some (ms_trades s, ms_incoming s,
              mkOrderBook (symbol_ b) (ms_orders s) (ms_heap s) (asks_ b)
                          (ms_next_trade_id s))
    end.

(** [while (!q.empty() && dead(q.top())) q.pop();] Every iteration pops an
    element, so [fuel = length q] runs the loop to its end. *)
Fixpoint clean_heap (fuel : nat) (comp : Z -> Z -> bool) (m : gmap Z Order)
    (q : list Z) : list Z :=
  match fuel with
  | O => q
  | S fuel' =>
      match Heap.top q with
      | None => q
      | Some p =>
          if dead (deref m p)
          then clean_heap fuel' comp m (Heap.pop comp q)
          else q
      end
  end.

Definition clean_filled_orders (b : OrderBook) : OrderBook :=
  mkOrderBook (symbol_ b) (orders_ b)
    (clean_heap (length (bids_ b)) (bid_comp (orders_ b)) (orders_ b) (bids_ b))
    (clean_heap (length (asks_ b)) (ask_comp (orders_ b)) (orders_ b) (asks_ b))
    (next_trade_id_ b).

(** [OrderBook::process_order] *)
Definition process_order (order : Order) (b : OrderBook)
    : option (list Trade * Order * OrderBook) :=
  match match_order order b with
  | None => None
  | Some (trades, order', b1) =>
      let b2 :=
        if negb (is_filled order') && bool_decide (status order' ≠ CANCELLED)
        then add_order_unlocked order' b1
        else b1 in
      Some (trades, order', clean_filled_orders b2)
  end.

(** [MatchingEngine::submit_order], with the read of the order it has
    given away modelled as in the definition of that name above. *)
Definition submit_order (client : Z) (sym : string) (s : Side) (p : float)
    (q : Z) (e : MatchingEngine) : option (Z * list Trade * MatchingEngine) :=
  let id := next_order_id_ e in
  let order := Order_new id client sym s p q in
  let st := stats_on_submit (stats_ e) in
  let o2s := <[id := sym]> (order_to_symbol_ e) in
  let '(book, bs) := get_or_create_book sym (order_books_ e) in
  match process_order order book with
  | None => None
  | Some (trades, order', book') =>
      let st := if is_filled order' then stats_dec_active st else st in
      let st := fold_left (fun st trade => update_stats_for_trade trade book' st)
                          trades st in
      Some (id, trades,
            mkMatchingEngine (<[sym := book']> bs) o2s (u64 (id + 1)) st)
  end.

(** A call on the engine; [cancel_order] does not touch the queues. *)
Definition call (c : Call) (e : MatchingEngine) : option (Reply * MatchingEngine) :=
  match c with
  | Submit client sym s p q =>
      match submit_order client sym s p q e with
      | Some (id, trades, e') => Some (Submitted id trades, e')
      | None => None
      end
  | Cancel id =>
      let '(success, e') := cancel_order id e in Some (Cancelled success, e')
  end.

Fixpoint run (cs : list Call) (e : MatchingEngine)
    : option (list Reply * MatchingEngine) :=
  match cs with
  | [] => Some ([], e)
  | c :: cs' =>
      match call c e with
      | None => None
      | Some (r, e') =>
          match run cs' e' with
          | None => None
          | Some (rs, e'') => Some (r :: rs, e'')
          end
      end
  end.

End HeapBook.

(** Five bids, the second with a NaN price, and a sell that takes out the
    first; the engine and the book they leave. *)
Definition nan_calls : list Call :=
  [ Submit 100 BTC BUY 200%float 1;
    Submit 100 BTC BUY PrimFloat.nan 1;
    Submit 100 BTC BUY 50%float 1;
    Submit 100 BTC BUY 100%float 1;
    Submit 100 BTC BUY 100%float 1;
    Submit 101 BTC SELL 200%float 1 ].

Definition engine_nan : MatchingEngine :=
  match HeapBook.run nan_calls MatchingEngine_new with
  | Some (_, e) => e
  | None => MatchingEngine_new
  end.

Definition book_nan : OrderBook := book_of BTC engine_nan.

(** ** The two models of the book side by side *)

(** An id under which the map holds an order of that id whose price is not
    a NaN. *)
Definition keyed (m : gmap Z Order) (p : Z) : Prop :=
  exists o, m !! p = Some o /\ order_id o = p /\ ordered (price o).

(** A loop state over the heap and one over the list that differ in the
    queue only, the list holding what the heap delivers. *)
Definition state_rep (comp : gmap Z Order -> Z -> Z -> bool)
    (sh s : MatchState) : Prop :=
  ms_incoming sh = ms_incoming s /\ ms_orders sh = ms_orders s /\
  ms_next_trade_id sh = ms_next_trade_id s /\ ms_trades sh = ms_trades s /\
  HeapSpec.represents (comp (ms_orders s)) (ms_heap sh) (ms_heap s).

(** The same for books. *)
Definition book_rep (bh b : OrderBook) : Prop :=
  symbol_ bh = symbol_ b /\ orders_ bh = orders_ b /\
  next_trade_id_ bh = next_trade_id_ b /\
  HeapSpec.represents (bid_comp (orders_ b)) (bids_ bh) (bids_ b) /\
  HeapSpec.represents (ask_comp (orders_ b)) (asks_ bh) (asks_ b).

(** The same for engines: the books correspond, the rest is equal. *)
Definition engine_rep (eh e : MatchingEngine) : Prop :=
  order_to_symbol_ eh = order_to_symbol_ e /\
  next_order_id_ eh = next_order_id_ e /\
  stats_ eh = stats_ e /\
  forall sym,
    match order_books_ eh !! sym, order_books_ e !! sym with
    | Some bh, Some b => book_rep bh b
    | None, None => True
    | _, _ => False
    end.

(** * Properties *)

(** ** Machine arithmetic and [Order] *)

Lemma u64_range z : 0 <= u64 z < 2 ^ 64.
Proof. unfold u64. apply Z.mod_pos_bound. lia. Qed.

Lemma u64_small z : is_u64 z -> u64 z = z.
Proof. unfold u64, is_u64. intros H. apply Z.mod_small. exact H. Qed.

Lemma u64_add_sub a b : u64 (a + u64 (b - a)) = u64 b.
Proof.
  unfold u64. rewrite Zplus_mod_idemp_r. f_equal. lia.
Qed.

Lemma u64_sub_self_mod a : u64 (a - u64 a) = 0.
Proof.
  unfold u64. rewrite Zminus_mod_idemp_r. rewrite Z.sub_diag. reflexivity.
Qed.

Section FillFacts.
Variables (n : Z) (o : Order).

Lemma fill_order_id : order_id (fill n o) = order_id o.
Proof. unfold fill. repeat case_match; reflexivity. Qed.

Lemma fill_client_id : client_id (fill n o) = client_id o.
Proof. unfold fill. repeat case_match; reflexivity. Qed.

Lemma fill_price : price (fill n o) = price o.
Proof. unfold fill. repeat case_match; reflexivity. Qed.

Lemma fill_side : side (fill n o) = side o.
Proof. unfold fill. repeat case_match; reflexivity. Qed.

Lemma fill_quantity : quantity (fill n o) = quantity o.
Proof. unfold fill. repeat case_match; reflexivity. Qed.

Lemma fill_filled_quantity :
  filled_quantity (fill n o) =
  u64 (filled_quantity o +
       (if n >? remaining_quantity o then remaining_quantity o else n)).
Proof. unfold fill. repeat case_match; reflexivity. Qed.

Lemma fill_not_cancelled : status o <> CANCELLED -> status (fill n o) <> CANCELLED.
Proof. unfold fill. repeat case_match; simpl; congruence. Qed.
End FillFacts.

(** Filling an order by exactly what remains leaves nothing. *)
Lemma fill_all_remaining o :
  remaining_quantity (fill (remaining_quantity o) o) = 0.
Proof.
  unfold remaining_quantity at 1.
  rewrite fill_quantity, fill_filled_quantity.
  rewrite Z.gtb_ltb, Z.ltb_irrefl.
  unfold remaining_quantity. rewrite u64_add_sub. apply u64_sub_self_mod.
Qed.

(** A fill by the whole remaining quantity completes a well-formed order. *)
Lemma fill_all_is_filled o :
  is_u64 (quantity o) -> is_filled (fill (remaining_quantity o) o) = true.
Proof.
  intros Hq. unfold is_filled.
  rewrite fill_quantity, fill_filled_quantity.
  rewrite Z.gtb_ltb, Z.ltb_irrefl.
  unfold remaining_quantity. rewrite u64_add_sub, (u64_small _ Hq).
  apply Z.geb_le. lia.
Qed.

(** ** Termination of the match loop *)

Lemma deref_wf m p : orders_wf m -> is_u64 (quantity (deref m p)).
Proof.
  intros Hwf. unfold deref. destruct (m !! p) as [o|] eqn:E; simpl.
  - eapply Hwf, E.
  - unfold is_u64. simpl. lia.
Qed.

Lemma orders_wf_insert m p o :
  orders_wf m -> is_u64 (quantity o) -> orders_wf (<[p := o]> m).
Proof.
  intros Hwf Ho p' o'. rewrite lookup_insert. case_decide.
  - intros [= <-]. exact Ho.
  - apply Hwf.
Qed.

(** An iteration that does not leave the loop decreases [loop_measure]. *)
Lemma match_step_decreases sym nc s s' :
  orders_wf (ms_orders s) ->
  match_step sym nc s = Again s' ->
  (loop_measure s' < loop_measure s)%nat /\ orders_wf (ms_orders s').
Proof.
  intros Hwf. unfold match_step, loop_measure.
  destruct (ms_heap s) as [|p q] eqn:Hh; simpl; [discriminate|].
  destruct (remaining_quantity (ms_incoming s) >? 0) eqn:Hr; simpl; [|discriminate].
  set (top_order := deref (ms_orders s) p).
  case_bool_decide as Hc.
  { intros [= <-]. simpl. split; [|exact Hwf]. case_match; lia. }
  destruct (nc (ms_incoming s) top_order); [discriminate|].
  intros [= <-]. simpl.
  assert (Hq : is_u64 (quantity top_order)) by (apply deref_wf; exact Hwf).
  split; [|apply orders_wf_insert; [exact Hwf|rewrite fill_quantity; exact Hq]].
  destruct (is_filled (fill _ top_order)) eqn:Hf.
  { simpl. case_match; lia. }
  simpl.
  destruct (Z.min_spec (remaining_quantity (ms_incoming s))
                       (remaining_quantity top_order)) as [[_ Hm]|[_ Hm]];
    rewrite Hm in Hf |- *.
  - rewrite fill_all_remaining. simpl. lia.
  - rewrite (fill_all_is_filled _ Hq) in Hf. discriminate.
Qed.

(** Enough fuel gives the result of the loop. *)
Lemma match_loop_fuel sym nc fuel s :
  orders_wf (ms_orders s) ->
  (loop_measure s < fuel)%nat ->
  exists s', match_loop sym nc fuel s = Some s'.
Proof.
  revert s. induction fuel as [|fuel IH]; intros s Hwf Hlt; [lia|].
  simpl. destruct (match_step sym nc s) as [s1|s1] eqn:Hs.
  - eauto.
  - destruct (match_step_decreases _ _ _ _ Hwf Hs) as [Hd Hwf1].
    apply IH; [exact Hwf1|lia].
Qed.

Lemma match_fuel_enough q inc m n tr :
  (loop_measure (mkMatchState inc m q n tr) < match_fuel q)%nat.
Proof. unfold loop_measure, match_fuel. simpl. case_match; lia. Qed.

(** [match_order] in terms of the side-independent vocabulary. *)
Lemma match_order_unfold incoming b :
  match_order incoming b =
  match match_loop (symbol_ b) (no_cross_of incoming)
          (match_fuel (resting_side incoming b)) (match_start incoming b) with
  | None => None
  | Some s =>
      Some (ms_trades s, ms_incoming s,
            if is_buy incoming
            then mkOrderBook (symbol_ b) (ms_orders s) (bids_ b) (ms_heap s)
                             (ms_next_trade_id s)
            else mkOrderBook (symbol_ b) (ms_orders s) (ms_heap s) (asks_ b)
                             (ms_next_trade_id s))
  end.
Proof.
  unfold match_order, no_cross_of, match_start, resting_side.
  destruct (is_buy incoming); reflexivity.
Qed.

(** [process_order] returns on every book whose quantities are machine
    integers. *)
Lemma process_order_total order b :
  orders_wf (orders_ b) ->
  exists trades order' b', process_order order b = Some (trades, order', b').
Proof.
  intros Hwf. unfold process_order. rewrite match_order_unfold.
  destruct (match_loop_fuel (symbol_ b) (no_cross_of order)
              (match_fuel (resting_side order b)) (match_start order b))
    as [s' Hs'].
  - exact Hwf.
  - apply match_fuel_enough.
  - rewrite Hs'. eauto.
Qed.

(** ** The order on prices and the two comparators *)

Ltac key_forward H :=
  first [ discriminate H
        | split; [|split]; first [congruence | simpl; lia | reflexivity] ].

Ltac key_backward H :=
  first [ reflexivity
        | exfalso;
          first [ congruence | simpl in H; lia
                | injection H; intros; lia ] ].

Ltac key_iff :=
  let H := fresh "H" in
  split;
  [ intros H; key_forward H
  | intros (? & ? & H); key_backward H ].

Ltac key_cases f1 f2 :=
  let m1 := fresh "m" in let e1 := fresh "e" in
  let m2 := fresh "m" in let e2 := fresh "e" in
  destruct f1 as [[]|[]| |[] m1 e1], f2 as [[]|[]| |[] m2 e2]; simpl;
  try (key_iff; fail);
  change (PosDef.Pos.compare_cont Eq m1 m2) with (Pos.compare m1 m2);
  (destruct (Z.compare_spec e1 e2) as [->| |]; simpl;
   [destruct (Pos.compare_spec m1 m2) as [->| |]; simpl| |]);
  key_iff.

Lemma SFcompare_Lt_key f1 f2 :
  SFcompare f1 f2 = Some Lt <->
  sf_ordered f1 /\ sf_ordered f2 /\ key_lt (sf_key f1) (sf_key f2).
Proof. unfold sf_ordered, key_lt. key_cases f1 f2. Qed.

Lemma SFcompare_Eq_key f1 f2 :
  SFcompare f1 f2 = Some Eq <->
  sf_ordered f1 /\ sf_ordered f2 /\ sf_key f1 = sf_key f2.
Proof. unfold sf_ordered. key_cases f1 f2. Qed.

Lemma ltb_key x y :
  PrimFloat.ltb x y = true <->
  ordered x /\ ordered y /\ key_lt (float_key x) (float_key y).
Proof.
  rewrite ltb_spec. unfold SFltb, ordered, float_key.
  rewrite <- SFcompare_Lt_key.
  destruct (SFcompare _ _) as [[]|]; split; congruence.
Qed.

Lemma eqb_key x y :
  PrimFloat.eqb x y = true <->
  ordered x /\ ordered y /\ float_key x = float_key y.
Proof.
  rewrite FloatAxioms.eqb_spec. unfold SFeqb, ordered, float_key.
  rewrite <- SFcompare_Eq_key.
  destruct (SFcompare _ _) as [[]|]; split; congruence.
Qed.

Lemma key_lt_irrefl k : ~ key_lt k k.
Proof. unfold key_lt. lia. Qed.

Lemma key_lt_trans k1 k2 k3 : key_lt k1 k2 -> key_lt k2 k3 -> key_lt k1 k3.
Proof. unfold key_lt. lia. Qed.

Lemma key_lt_asym k1 k2 : key_lt k1 k2 -> ~ key_lt k2 k1.
Proof. unfold key_lt. lia. Qed.

Lemma BuyOrderComparator_below a b :
  BuyOrderComparator a b = true <-> below_bid a b.
Proof.
  unfold BuyOrderComparator, below_bid.
  destruct (PrimFloat.eqb (price a) (price b)) eqn:E; simpl.
  - apply eqb_key in E as (Ha & Hb & Hk). rewrite Z.gtb_ltb, Z.ltb_lt.
    split.
    + intros Hid. auto.
    + intros (_ & _ & [Hlt|[_ Hid]]); [|exact Hid].
      rewrite Hk in Hlt. destruct (key_lt_irrefl _ Hlt).
  - rewrite ltb_key. split.
    + intros (Ha & Hb & Hlt). auto.
    + intros (Ha & Hb & [Hlt|[Hk _]]); [auto|].
      assert (PrimFloat.eqb (price a) (price b) = true) by (apply eqb_key; auto).
      congruence.
Qed.

Lemma SellOrderComparator_below a b :
  SellOrderComparator a b = true <-> below_ask a b.
Proof.
  unfold SellOrderComparator, below_ask.
  destruct (PrimFloat.eqb (price a) (price b)) eqn:E; simpl.
  - apply eqb_key in E as (Ha & Hb & Hk). rewrite Z.gtb_ltb, Z.ltb_lt.
    split.
    + intros Hid. auto.
    + intros (_ & _ & [Hlt|[_ Hid]]); [|exact Hid].
      rewrite Hk in Hlt. destruct (key_lt_irrefl _ Hlt).
  - rewrite ltb_key. split.
    + intros (Hb & Ha & Hlt). auto.
    + intros (Ha & Hb & [Hlt|[Hk _]]); [auto|].
      assert (PrimFloat.eqb (price a) (price b) = true) by (apply eqb_key; auto).
      congruence.
Qed.

Lemma below_bid_trans a b c : below_bid a b -> below_bid b c -> below_bid a c.
Proof.
  unfold below_bid. intros (Ha & Hb & H1) (_ & Hc & H2).
  split; [exact Ha|]. split; [exact Hc|].
  destruct H1 as [H1|[E1 I1]], H2 as [H2|[E2 I2]].
  - left. eapply key_lt_trans; eauto.
  - left. rewrite <- E2. exact H1.
  - left. rewrite E1. exact H2.
  - right. split; [congruence|lia].
Qed.

Lemma below_bid_asym a b : below_bid a b -> ~ below_bid b a.
Proof.
  unfold below_bid. intros (_ & _ & H1) (_ & _ & H2).
  destruct H1 as [H1|[E1 I1]], H2 as [H2|[E2 I2]].
  - exact (key_lt_asym _ _ H1 H2).
  - rewrite E2 in H1. exact (key_lt_irrefl _ H1).
  - rewrite E1 in H2. exact (key_lt_irrefl _ H2).
  - lia.
Qed.

Lemma below_ask_trans a b c : below_ask a b -> below_ask b c -> below_ask a c.
Proof.
  unfold below_ask. intros (Ha & Hb & H1) (_ & Hc & H2).
  split; [exact Ha|]. split; [exact Hc|].
  destruct H1 as [H1|[E1 I1]], H2 as [H2|[E2 I2]].
  - left. eapply key_lt_trans; eauto.
  - left. rewrite <- E2. exact H1.
  - left. rewrite E1. exact H2.
  - right. split; [congruence|lia].
Qed.

Lemma below_ask_asym a b : below_ask a b -> ~ below_ask b a.
Proof.
  unfold below_ask. intros (_ & _ & H1) (_ & _ & H2).
  destruct H1 as [H1|[E1 I1]], H2 as [H2|[E2 I2]].
  - exact (key_lt_asym _ _ H2 H1).
  - rewrite E2 in H1. exact (key_lt_irrefl _ H1).
  - rewrite E1 in H2. exact (key_lt_irrefl _ H2).
  - lia.
Qed.

(** ** [push] keeps a queue in delivery order *)

Section PushOrder.
Context {A : Type} (comp : A -> A -> bool).
Hypothesis comp_asym : forall a b, comp a b = true -> comp b a = false.
Hypothesis comp_trans :
  forall a b c, comp a b = true -> comp b c = true -> comp a c = true.

Lemma In_push x y q :
  In y (PriorityQueue.push comp x q) <-> y = x \/ In y q.
Proof.
  induction q as [|z q IH]; simpl.
  - intuition.
  - destruct (comp z x); simpl; [intuition|]. rewrite IH. intuition.
Qed.

Lemma push_delivery_order x q :
  delivery_order comp q -> delivery_order comp (PriorityQueue.push comp x q).
Proof.
  unfold delivery_order.
  induction q as [|z q IH]; simpl; intros Hs.
  - constructor; constructor.
  - apply StronglySorted_inv in Hs as [Hq Hz].
    destruct (comp z x) eqn:Hzx.
    + constructor; [constructor; assumption|].
      constructor; [apply comp_asym, Hzx|].
      rewrite Forall_forall in Hz |- *. intros y Hy.
      destruct (comp x y) eqn:Hxy; [|reflexivity].
      specialize (Hz y Hy). simpl in Hz.
      rewrite (comp_trans _ _ _ Hzx Hxy) in Hz. discriminate.
    + constructor; [apply IH, Hq|].
      rewrite Forall_forall in Hz |- *. intros y Hy.
      apply list_elem_of_In, In_push in Hy as [->|Hy]; [exact Hzx|].
      apply Hz, list_elem_of_In, Hy.
Qed.
End PushOrder.

(** ** The match loop, case by case *)

Lemma match_step_case sym nc s : step_case sym nc s (match_step sym nc s).
Proof.
  unfold match_step.
  destruct (ms_heap s) as [|p q] eqn:Hh; simpl.
  { apply step_empty. exact Hh. }
  destruct (remaining_quantity (ms_incoming s) >? 0) eqn:Hr; simpl.
  2:{ eapply step_exhausted; [exact Hh|]. rewrite Z.gtb_ltb in Hr. apply Z.ltb_ge in Hr. exact Hr. }
  rewrite Z.gtb_ltb in Hr. apply Z.ltb_lt in Hr.
  case_bool_decide as Hc.
  { eapply step_skip; eauto. }
  destruct (nc (ms_incoming s) (deref (ms_orders s) p)) eqn:Hn.
  { eapply step_break; eauto. }
  pose proof (step_trade sym nc s p q Hh Hr Hc Hn) as H. simpl in H.
  destruct (is_filled _); exact H.
Qed.

Lemma deref_insert m p o p' :
  deref (<[p := o]> m) p' = if decide (p = p') then o else deref m p'.
Proof. unfold deref. rewrite lookup_insert. case_decide; reflexivity. Qed.

Lemma step_stable_refl s : step_stable s s.
Proof. split; auto. exists []. reflexivity. Qed.

Lemma step_stable_trans s1 s2 s3 :
  step_stable s1 s2 -> step_stable s2 s3 -> step_stable s1 s3.
Proof.
  intros [H1 H2 H3 H4 H5 [l1 H6] H7] [G1 G2 G3 G4 G5 [l2 G6] G7]. split; intros.
  - auto.
  - rewrite G2. apply H2.
  - rewrite G3. apply H3.
  - congruence.
  - congruence.
  - exists (l1 ++ l2). rewrite H6, G6, app_assoc. reflexivity.
  - rewrite G7; [apply H7; assumption|].
    intros p' Hp'. apply H7; [assumption|]. auto.
Qed.

Lemma match_step_stable sym nc s s' :
  match_step sym nc s = Again s' -> step_stable s s'.
Proof.
  intros Hs. pose proof (match_step_case sym nc s) as Hc. rewrite Hs in Hc.
  inversion Hc as [| | p q Hh _ _ | | p q Hh _ _ _ top_order trade top']; subst.
  - split; simpl; auto.
    + intros p' Hp'. rewrite Hh. right. exact Hp'.
    + exists [p]. exact Hh.
  - split; simpl.
    + intros p' Hp'. rewrite Hh. destruct (is_filled top'); [right|]; exact Hp'.
    + intros p'. rewrite deref_insert. case_decide; [subst p'|reflexivity].
      apply fill_order_id.
    + intros p'. rewrite deref_insert. case_decide; [subst p'|reflexivity].
      apply fill_price.
    + apply fill_order_id.
    + apply fill_price.
    + rewrite Hh. destruct (is_filled top'); [exists [p]|exists []]; reflexivity.
    + intros Hback p'. rewrite lookup_insert. case_decide; [subst p'|reflexivity].
      split; [intros _|eauto]. apply Hback. rewrite Hh. left. reflexivity.
Qed.

Lemma iteration_stable sym nc k s s' :
  iteration sym nc k s = Some s' -> step_stable s s'.
Proof.
  revert s. induction k as [|k IH]; intros s; simpl.
  - intros [= <-]. apply step_stable_refl.
  - destruct (match_step sym nc s) as [|s1] eqn:Hs; [discriminate|].
    intros Hk. eapply step_stable_trans; [eapply match_step_stable, Hs|].
    apply IH, Hk.
Qed.

(** The trades of a run of the loop are appended to those already emitted,
    and each of them was emitted by some iteration against the top of the
    heap of that iteration. *)
Lemma match_loop_trades sym nc fuel s s' :
  match_loop sym nc fuel s = Some s' ->
  exists new,
    ms_trades s' = ms_trades s ++ new /\
    Forall (fun t => exists k s1 p,
                iteration sym nc k s = Some s1 /\ matched_at s1 p t) new.
Proof.
  revert s. induction fuel as [|fuel IH]; intros s; simpl; [discriminate|].
  pose proof (match_step_case sym nc s) as Hc.
  destruct (match_step sym nc s) as [s1|s1] eqn:Hs.
  - intros [= <-]. exists []. split; [|constructor].
    inversion Hc; subst; rewrite app_nil_r; reflexivity.
  - intros Hl. destruct (IH _ Hl) as (new & Hnew & Hall).
    assert (Hlift : Forall (fun t => exists k s2 p,
                iteration sym nc k s = Some s2 /\ matched_at s2 p t) new).
    { eapply Forall_impl; [exact Hall|]. intros t (k & s2 & p & Hk & Hm).
      exists (S k), s2, p. simpl. rewrite Hs. auto. }
    inversion Hc as [| | p q Hh _ _ | | p q Hh Hr Hst Hn top_order trade top'];
      subst s1.
    + exists new. simpl in Hnew. auto.
    + exists (trade :: new). simpl in Hnew. rewrite Hnew, <- app_assoc.
      split; [reflexivity|]. constructor; [|exact Hlift].
      exists O, s, p. split; [reflexivity|].
      unfold matched_at. rewrite Hh. simpl. auto 10.
Qed.

Lemma match_step_exit sym nc s s' : match_step sym nc s = Exit s' -> s' = s.
Proof.
  intros Hs. pose proof (match_step_case sym nc s) as Hc. rewrite Hs in Hc.
  inversion Hc; reflexivity.
Qed.

(** The match loop never writes to a stored order whose status is
    CANCELLED. *)
Lemma match_step_keeps_cancelled sym nc s s' p o :
  match_step sym nc s = Again s' ->
  ms_orders s !! p = Some o -> status o = CANCELLED ->
  ms_orders s' !! p = Some o.
Proof.
  intros Hs Hp Hst. pose proof (match_step_case sym nc s) as Hc.
  rewrite Hs in Hc.
  inversion Hc as [| | | | p0 q Hh _ Hlive _ top_order trade top']; subst;
    simpl; [exact Hp|].
  rewrite lookup_insert_ne; [exact Hp|].
  intros ->. apply Hlive. unfold deref. rewrite Hp. exact Hst.
Qed.

Lemma match_loop_keeps_cancelled sym nc fuel s s' p o :
  match_loop sym nc fuel s = Some s' ->
  ms_orders s !! p = Some o -> status o = CANCELLED ->
  ms_orders s' !! p = Some o.
Proof.
  revert s. induction fuel as [|fuel IH]; intros s; simpl; [discriminate|].
  destruct (match_step sym nc s) as [s1|s1] eqn:Hs.
  - intros [= <-] Hp _. apply match_step_exit in Hs. subst s1. exact Hp.
  - intros Hl Hp Hst. eapply IH; [exact Hl| |exact Hst].
    eapply match_step_keeps_cancelled; eauto.
Qed.

Lemma match_loop_incoming_id sym nc fuel s s' :
  match_loop sym nc fuel s = Some s' ->
  order_id (ms_incoming s') = order_id (ms_incoming s).
Proof.
  revert s. induction fuel as [|fuel IH]; intros s; simpl; [discriminate|].
  destruct (match_step sym nc s) as [s1|s1] eqn:Hs.
  - intros [= <-]. apply match_step_exit in Hs. subst s1. reflexivity.
  - intros Hl. rewrite (IH _ Hl).
    apply (stable_incoming_id _ _ (match_step_stable _ _ _ _ Hs)).
Qed.

Lemma add_order_unlocked_orders order b :
  orders_ (add_order_unlocked order b) = <[order_id order := order]> (orders_ b).
Proof. unfold add_order_unlocked. destruct (is_buy order); reflexivity. Qed.

Lemma cancel_cancelled o : status o = CANCELLED -> cancel o = o.
Proof. destruct o; simpl. intros ->. reflexivity. Qed.


(** ** The outcomes of a cancel *)

Lemma cancel_cancel o : cancel (cancel o) = cancel o.
Proof. reflexivity. Qed.

(** The two outcomes of [MatchingEngine::cancel_order]. *)
Lemma cancel_order_cases id e :
  (exists sym book o,
      order_to_symbol_ e !! id = Some sym /\
      order_books_ e !! sym = Some book /\
      orders_ book !! id = Some o /\
      cancel_order id e =
        (true, mkMatchingEngine
                 (<[sym := with_order id (cancel o) book]> (order_books_ e))
                 (order_to_symbol_ e) (next_order_id_ e)
                 (stats_on_cancel (stats_ e)))) \/
  ((forall sym book, order_to_symbol_ e !! id = Some sym ->
      order_books_ e !! sym = Some book -> orders_ book !! id = None) /\
   cancel_order id e = (false, e)).
Proof.
  unfold cancel_order.
  destruct (order_to_symbol_ e !! id) as [sym|] eqn:Hsym; [|right; split; [discriminate|reflexivity]].
  destruct (order_books_ e !! sym) as [book|] eqn:Hbook.
  2:{ right. split; [|reflexivity]. intros ? ? [= <-]. rewrite Hbook. discriminate. }
  unfold book_cancel_order.
  destruct (orders_ book !! id) as [o|] eqn:Ho.
  - left. exists sym, book, o. auto.
  - right. split; [|reflexivity]. intros ? ? [= <-]. rewrite Hbook. intros [= <-]. exact Ho.
Qed.


(** ** C1: the sweep of scenario C *)

(** C1.  From an empty engine the four submissions of scenario C return the
    ids 1, 2, 3, 4; the first three produce no trade and the fourth exactly
    the trades 3 @ 50000 (maker 1), 4 @ 50001 (maker 2), 5 @ 50002 (maker 3)
    in this order; afterwards order 4 is the only entry of the bid heap, a
    buy with 3 remaining, the best bid is 50003 and the best ask is the
    empty-side value 0.0. *)
Theorem C1_scenario_C_sweep :
  match run scenario_C MatchingEngine_new with
  | None => False
  | Some (replies, e) =>
      replies =
        [ Submitted 1 []; Submitted 2 []; Submitted 3 [];
          Submitted 4
            [ mkTrade 1 4 1 100 101 BTC 50000%float 3;
              mkTrade 2 4 2 100 102 BTC 50001%float 4;
              mkTrade 3 4 3 100 103 BTC 50002%float 5 ] ] /\
      (bids_ <$> order_books_ e !! BTC) = Some [4] /\
      (asks_ <$> order_books_ e !! BTC) = Some [] /\
      (side <$> find_order BTC 4 e) = Some BUY /\
      (price <$> find_order BTC 4 e) = Some 50003%float /\
      (remaining_quantity <$> find_order BTC 4 e) = Some 3 /\
      (is_active <$> find_order BTC 4 e) = Some true /\
      get_best_bid BTC e = 50003%float /\
      get_best_ask BTC e = 0%float
  end.
Proof.
  vm_compute. repeat split.
Qed.


(** ** C2: price and quantity of every trade *)

(** C2.  [process_order] returns on every book whose stored quantities are
    machine integers, and every trade it returns was emitted by an iteration
    of the match loop against the order on top of the resting side: the
    trade's price is that maker's price, which is the limit price the maker
    has in the book the call started from, and its quantity is the minimum
    of the incoming order's and the maker's remaining quantities as they are
    at that iteration.  The book and the incoming order are arbitrary, so
    this covers every book a sequence of submits and cancels can produce. *)
Theorem C2_trade_price_and_quantity order b :
  (orders_wf (orders_ b) ->
   exists trades order' b', process_order order b = Some (trades, order', b')) /\
  forall trades order' b',
    process_order order b = Some (trades, order', b') ->
    Forall (fun t =>
      exists k s p,
        iteration (symbol_ b) (no_cross_of order) k (match_start order b)
          = Some s /\
        matched_at s p t /\
        In p (resting_side order b) /\
        taker_order_id t = order_id order /\
        trade_price t = price (deref (orders_ b) p) /\
        trade_quantity t =
          Z.min (remaining_quantity (ms_incoming s))
                (remaining_quantity (deref (ms_orders s) p))) trades.
Proof.
  split; [apply process_order_total|].
  intros trades order' b'.
  unfold process_order. rewrite match_order_unfold.
  destruct (match_loop _ _ _ _) as [s'|] eqn:Hl; [|discriminate].
  intros [= <- _ _].
  destruct (match_loop_trades _ _ _ _ _ Hl) as (new & Hnew & Hall).
  simpl in Hnew. rewrite Hnew.
  eapply Forall_impl; [exact Hall|].
  intros t (k & s & p & Hk & Hm).
  exists k, s, p. split; [exact Hk|]. split; [exact Hm|].
  destruct (iteration_stable _ _ _ _ _ Hk) as [Hheap _ Hprice Hid _ _ _].
  destruct Hm as (Htop & _ & Htaker & _ & Hp & Hq).
  repeat split.
  - apply (Hheap p). destruct (ms_heap s); simplify_eq/=. left. reflexivity.
  - rewrite Htaker. exact Hid.
  - rewrite Hp. apply Hprice.
  - exact Hq.
Qed.

Lemma book_B_wf : orders_wf (orders_ book_B).
Proof.
  intros p o. unfold book_B, add_order. rewrite add_order_unlocked_orders.
  simpl. rewrite lookup_insert. case_decide.
  - intros [= <-]. vm_compute. split; [discriminate|reflexivity].
  - rewrite lookup_empty. discriminate.
Qed.

(** The theorem at scenario B: the call returns, with one trade of 5 at the
    maker's 50000. *)
Lemma C2_trade_price_and_quantity_witness :
  (exists trades order' b',
      process_order sell_B book_B = Some (trades, order', b')) /\
  Forall (fun t =>
    exists k s p,
      iteration (symbol_ book_B) (no_cross_of sell_B) k
                (match_start sell_B book_B) = Some s /\
      matched_at s p t /\
      In p (resting_side sell_B book_B) /\
      taker_order_id t = order_id sell_B /\
      trade_price t = price (deref (orders_ book_B) p) /\
      trade_quantity t =
        Z.min (remaining_quantity (ms_incoming s))
              (remaining_quantity (deref (ms_orders s) p)))
    [mkTrade 1 2 1 101 100 BTC 50000%float 5].
Proof.
  split.
  - apply (proj1 (C2_trade_price_and_quantity sell_B book_B)), book_B_wf.
  - eapply (proj2 (C2_trade_price_and_quantity sell_B book_B)).
    vm_compute. reflexivity.
Defined.

(** ** The book invariants are kept *)

Lemma match_loop_stable sym nc fuel s s' :
  match_loop sym nc fuel s = Some s' -> step_stable s s'.
Proof.
  revert s. induction fuel as [|fuel IH]; intros s; simpl; [discriminate|].
  destruct (match_step sym nc s) as [s1|s1] eqn:Hs.
  - intros [= <-]. apply match_step_exit in Hs. subst s1.
    apply step_stable_refl.
  - intros Hl. eapply step_stable_trans; [eapply match_step_stable, Hs|].
    apply IH, Hl.
Qed.

Lemma BuyOrderComparator_reads_key : reads_key BuyOrderComparator.
Proof.
  intros a b a' b' Hpa Hia Hpb Hib. unfold BuyOrderComparator.
  rewrite Hpa, Hia, Hpb, Hib. reflexivity.
Qed.

Lemma SellOrderComparator_reads_key : reads_key SellOrderComparator.
Proof.
  intros a b a' b' Hpa Hia Hpb Hib. unfold SellOrderComparator.
  rewrite Hpa, Hia, Hpb, Hib. reflexivity.
Qed.

Lemma ptr_comp_stable cmp m m' :
  reads_key cmp ->
  (forall p, order_id (deref m' p) = order_id (deref m p)) ->
  (forall p, price (deref m' p) = price (deref m p)) ->
  forall x y, ptr_comp cmp m' x y = ptr_comp cmp m x y.
Proof. intros Hk Hid Hp x y. unfold ptr_comp. apply Hk; auto. Qed.

Lemma delivery_order_ext {A} (comp comp' : A -> A -> bool) q :
  (forall x y, In x q -> In y q -> comp x y = comp' x y) ->
  delivery_order comp q -> delivery_order comp' q.
Proof.
  unfold delivery_order. induction q as [|z q IH]; intros Heq Hs.
  - constructor.
  - apply StronglySorted_inv in Hs as [Hq Hz]. constructor.
    + apply IH; [|exact Hq]. intros x y Hx Hy. apply Heq; right; assumption.
    + rewrite Forall_forall in Hz |- *. intros y Hy.
      rewrite <- Heq; [apply Hz, Hy|left; reflexivity|].
      right. apply list_elem_of_In, Hy.
Qed.

Lemma delivery_order_suffix {A} (comp : A -> A -> bool) l q :
  delivery_order comp (l ++ q) -> delivery_order comp q.
Proof.
  unfold delivery_order. induction l as [|z l IH]; simpl; intros Hs; [exact Hs|].
  apply StronglySorted_inv in Hs as [Hq _]. apply IH, Hq.
Qed.

Lemma clean_heap_suffix m q : exists l, q = l ++ clean_heap m q.
Proof.
  induction q as [|p q [l IH]]; simpl.
  - exists []. reflexivity.
  - destruct (dead (deref m p)).
    + exists (p :: l). simpl. f_equal. exact IH.
    + exists []. reflexivity.
Qed.

Lemma bid_comp_asym m a b : bid_comp m a b = true -> bid_comp m b a = false.
Proof.
  unfold bid_comp. intros H. apply BuyOrderComparator_below in H.
  destruct (BuyOrderComparator (deref m b) (deref m a)) eqn:E; [|reflexivity].
  apply BuyOrderComparator_below in E. destruct (below_bid_asym _ _ H E).
Qed.

Lemma bid_comp_trans m a b c :
  bid_comp m a b = true -> bid_comp m b c = true -> bid_comp m a c = true.
Proof.
  unfold bid_comp. rewrite !BuyOrderComparator_below. apply below_bid_trans.
Qed.

Lemma ask_comp_asym m a b : ask_comp m a b = true -> ask_comp m b a = false.
Proof.
  unfold ask_comp. intros H. apply SellOrderComparator_below in H.
  destruct (SellOrderComparator (deref m b) (deref m a)) eqn:E; [|reflexivity].
  apply SellOrderComparator_below in E. destruct (below_ask_asym _ _ H E).
Qed.

Lemma ask_comp_trans m a b c :
  ask_comp m a b = true -> ask_comp m b c = true -> ask_comp m a c = true.
Proof.
  unfold ask_comp. rewrite !SellOrderComparator_below. apply below_ask_trans.
Qed.

(** The invariant survives any rewrite of the stored orders that keeps the
    keys of the map and every id and price, together with pops from the top
    of the heaps. *)
Lemma book_inv_update b m' bids' asks' n' :
  book_inv b ->
  (forall p, is_Some (m' !! p) <-> is_Some (orders_ b !! p)) ->
  (forall p, order_id (deref m' p) = order_id (deref (orders_ b) p)) ->
  (forall p, price (deref m' p) = price (deref (orders_ b) p)) ->
  (exists l, bids_ b = l ++ bids') ->
  (exists l, asks_ b = l ++ asks') ->
  book_inv (mkOrderBook (symbol_ b) m' bids' asks' n').
Proof.
  intros [Hids Hbb Hab Hbo Hao] Hdom Hid Hprice [lb Hlb] [la Hla].
  split; simpl.
  - intros p o Hp.
    assert (Hs : is_Some (orders_ b !! p)) by (apply Hdom; eauto).
    destruct Hs as [o0 Ho0]. specialize (Hid p). unfold deref in Hid.
    rewrite Hp, Ho0 in Hid. simpl in Hid. rewrite Hid. eapply Hids, Ho0.
  - intros p Hp. apply Hdom, Hbb. rewrite Hlb. apply in_or_app. right. exact Hp.
  - intros p Hp. apply Hdom, Hab. rewrite Hla. apply in_or_app. right. exact Hp.
  - rewrite Hlb in Hbo. apply delivery_order_suffix in Hbo.
    eapply delivery_order_ext; [|exact Hbo]. intros x y _ _. symmetry.
    apply (ptr_comp_stable _ _ _ BuyOrderComparator_reads_key Hid Hprice).
  - rewrite Hla in Hao. apply delivery_order_suffix in Hao.
    eapply delivery_order_ext; [|exact Hao]. intros x y _ _. symmetry.
    apply (ptr_comp_stable _ _ _ SellOrderComparator_reads_key Hid Hprice).
Qed.

Lemma book_inv_new sym : book_inv (OrderBook_new sym).
Proof.
  split; simpl.
  - intros p o. rewrite lookup_empty. discriminate.
  - intros p [].
  - intros p [].
  - constructor.
  - constructor.
Qed.

Lemma deref_insert_other m id o p :
  m !! id = None -> is_Some (m !! p) -> deref (<[id := o]> m) p = deref m p.
Proof.
  intros Hn [o' Hp]. rewrite deref_insert. case_decide; [|reflexivity].
  congruence.
Qed.

(** Storing a fresh order and pushing its pointer keeps the invariant. *)
Lemma add_order_unlocked_inv order b :
  book_inv b -> orders_ b !! order_id order = None ->
  book_inv (add_order_unlocked order b).
Proof.
  intros [Hids Hbb Hab Hbo Hao] Hfresh.
  assert (Hold : forall (cmp : Order -> Order -> bool) q,
    heap_backed (orders_ b) q ->
    delivery_order (ptr_comp cmp (orders_ b)) q ->
    delivery_order
      (ptr_comp cmp (<[order_id order := order]> (orders_ b))) q).
  { intros cmp q Hback. apply delivery_order_ext. intros x y Hx Hy.
    unfold ptr_comp. rewrite !deref_insert_other; auto. }
  assert (Hback : forall q,
    heap_backed (orders_ b) q ->
    heap_backed (<[order_id order := order]> (orders_ b)) q).
  { intros q Hq p Hp. rewrite lookup_insert. case_decide; eauto. }
  assert (Hids' : forall p o,
    <[order_id order := order]> (orders_ b) !! p = Some o -> order_id o = p).
  { intros p o. rewrite lookup_insert. case_decide.
    - intros [= <-]. assumption.
    - apply Hids. }
  unfold add_order_unlocked. destruct (is_buy order); split; simpl.
  - exact Hids'.
  - intros p Hp. apply In_push in Hp as [->|Hp].
    + rewrite lookup_insert_eq. eauto.
    + apply (Hback _ Hbb p Hp).
  - apply Hback, Hab.
  - apply push_delivery_order.
    + apply bid_comp_asym.
    + apply bid_comp_trans.
    + apply (Hold BuyOrderComparator); assumption.
  - apply (Hold SellOrderComparator); assumption.
  - exact Hids'.
  - apply Hback, Hbb.
  - intros p Hp. apply In_push in Hp as [->|Hp].
    + rewrite lookup_insert_eq. eauto.
    + apply (Hback _ Hab p Hp).
  - apply (Hold BuyOrderComparator); assumption.
  - apply push_delivery_order.
    + apply ask_comp_asym.
    + apply ask_comp_trans.
    + apply (Hold SellOrderComparator); assumption.
Qed.

Lemma add_order_unlocked_dom order b p :
  is_Some (orders_ (add_order_unlocked order b) !! p) <->
  p = order_id order \/ is_Some (orders_ b !! p).
Proof.
  rewrite add_order_unlocked_orders, lookup_insert. case_decide.
  - subst p. split; eauto.
  - split; [auto|]. intros [?|?]; [congruence|assumption].
Qed.

(** [process_order] of an order with a fresh id keeps the invariant, and
    stores at most that order. *)
Lemma process_order_inv order b trades order' b' :
  book_inv b -> orders_ b !! order_id order = None ->
  process_order order b = Some (trades, order', b') ->
  book_inv b' /\
  forall p, is_Some (orders_ b' !! p) ->
            p = order_id order \/ is_Some (orders_ b !! p).
Proof.
  intros Hinv Hfresh. unfold process_order. rewrite match_order_unfold.
  destruct (match_loop _ _ _ _) as [s'|] eqn:Hl; [|discriminate].
  intros [= _ <- <-].
  pose proof (match_loop_stable _ _ _ _ _ Hl) as [_ Hid Hprice Hiid _ Hsuf Hdom].
  simpl in Hid, Hprice, Hiid, Hsuf, Hdom.
  assert (Hback : heap_backed (orders_ b) (resting_side order b)).
  { unfold resting_side. destruct (is_buy order); apply Hinv. }
  specialize (Hdom Hback).
  set (b1 := if is_buy order
             then mkOrderBook (symbol_ b) (ms_orders s') (bids_ b) (ms_heap s')
                    (ms_next_trade_id s')
             else mkOrderBook (symbol_ b) (ms_orders s') (ms_heap s') (asks_ b)
                    (ms_next_trade_id s')).
  assert (H1 : book_inv b1 /\ orders_ b1 = ms_orders s').
  { unfold b1, resting_side in *. destruct (is_buy order); (split; [|reflexivity]);
      apply book_inv_update; auto; exists []; reflexivity. }
  destruct H1 as [Hinv1 Ho1].
  set (b2 := if negb _ && _ then add_order_unlocked (ms_incoming s') b1 else b1).
  assert (H2 : book_inv b2 /\
               forall p, is_Some (orders_ b2 !! p) ->
                         p = order_id order \/ is_Some (orders_ b !! p)).
  { unfold b2. case_match.
    - split.
      + apply add_order_unlocked_inv; [exact Hinv1|].
        rewrite Ho1, Hiid. apply eq_None_not_Some. rewrite Hdom.
        rewrite Hfresh. apply is_Some_None.
      + intros p Hp. apply add_order_unlocked_dom in Hp as [->|Hp]; [auto|].
        right. rewrite Ho1 in Hp. apply Hdom, Hp.
    - split; [exact Hinv1|]. intros p Hp. right. rewrite Ho1 in Hp.
      apply Hdom, Hp. }
  destruct H2 as [Hinv2 Hdom2]. split; [|exact Hdom2].
  unfold clean_filled_orders.
  apply book_inv_update; auto using clean_heap_suffix.
Qed.

Lemma book_cancel_order_inv id b :
  book_inv b ->
  book_inv (snd (book_cancel_order id b)) /\
  forall p, is_Some (orders_ (snd (book_cancel_order id b)) !! p) <->
            is_Some (orders_ b !! p).
Proof.
  intros Hinv. unfold book_cancel_order.
  destruct (orders_ b !! id) as [o|] eqn:Ho; simpl; [|split; [exact Hinv|reflexivity]].
  assert (Hdom : forall p, is_Some (<[id := cancel o]> (orders_ b) !! p) <->
                           is_Some (orders_ b !! p)).
  { intros p. rewrite lookup_insert. case_decide; [subst p|reflexivity].
    rewrite Ho. split; eauto. }
  split; [|exact Hdom].
  apply book_inv_update; auto; try (exists []; reflexivity).
  - intros p. rewrite deref_insert. case_decide; [subst p|reflexivity].
    unfold deref. rewrite Ho. reflexivity.
  - intros p. rewrite deref_insert. case_decide; [subst p|reflexivity].
    unfold deref. rewrite Ho. reflexivity.
Qed.

(** ** The engine keeps the invariants of its books *)

Lemma engine_inv_new : engine_inv MatchingEngine_new.
Proof. intros sym b. simpl. rewrite lookup_empty. discriminate. Qed.

Lemma submit_order_inv client sym s p q e id trades e' :
  engine_inv e ->
  0 <= next_order_id_ e -> next_order_id_ e + 1 < 2 ^ 64 ->
  submit_order client sym s p q e = Some (id, trades, e') ->
  engine_inv e' /\ next_order_id_ e' = next_order_id_ e + 1.
Proof.
  intros Hinv H0 Hmax. unfold submit_order.
  destruct (get_or_create_book sym (order_books_ e)) as [book bs] eqn:Hg.
  assert (Hbook : book_inv book /\
                  (forall p', is_Some (orders_ book !! p') ->
                              p' < next_order_id_ e) /\
                  forall sym', sym' <> sym ->
                               bs !! sym' = order_books_ e !! sym').
  { unfold get_or_create_book in Hg.
    destruct (order_books_ e !! sym) as [b0|] eqn:Hb0; injection Hg as <- <-.
    - destruct (Hinv _ _ Hb0). auto.
    - split; [apply book_inv_new|]. split.
      + intros p'. simpl. rewrite lookup_empty. intros [? [=]].
      + intros sym' Hne. apply lookup_insert_ne. congruence. }
  destruct Hbook as (Hbinv & Hbids & Hother).
  destruct (process_order _ book) as [[[tr o'] b']|] eqn:Hp; [|discriminate].
  intros [= <- <- <-]. simpl.
  assert (Hnext : u64 (next_order_id_ e + 1) = next_order_id_ e + 1).
  { apply u64_small. unfold is_u64. lia. }
  split; [|exact Hnext].
  assert (Hfresh : orders_ book !! next_order_id_ e = None).
  { apply eq_None_not_Some. intros Hs. apply Hbids in Hs. lia. }
  destruct (process_order_inv (Order_new (next_order_id_ e) client sym s p q)
              _ _ _ _ Hbinv Hfresh Hp) as [Hinv' Hdom'].
  intros sym' b0. simpl. rewrite lookup_insert, Hnext. case_decide.
  - intros [= <-]. split; [exact Hinv'|].
    intros p' Hp'. apply Hdom' in Hp' as [->|Hp']; simpl; [lia|].
    apply Hbids in Hp'. lia.
  - rewrite Hother by congruence. intros Hb0.
    destruct (Hinv _ _ Hb0) as [? Hlt]. split; [assumption|].
    intros p' Hp'. apply Hlt in Hp'. lia.
Qed.

Lemma cancel_order_inv id e :
  engine_inv e ->
  engine_inv (snd (cancel_order id e)) /\
  next_order_id_ (snd (cancel_order id e)) = next_order_id_ e.
Proof.
  intros Hinv.
  destruct (cancel_order_cases id e)
    as [(sym & book & o & _ & Hbook & Ho & Hc)|[_ Hc]]; rewrite Hc; simpl;
    [|auto].
  split; [|reflexivity].
  destruct (Hinv _ _ Hbook) as [Hbinv Hlt].
  pose proof (book_cancel_order_inv id book Hbinv) as [Hinv' Hdom'].
  unfold book_cancel_order in Hinv', Hdom'. rewrite Ho in Hinv', Hdom'.
  simpl in Hinv', Hdom'.
  intros sym' b0. simpl. rewrite lookup_insert. case_decide.
  - intros [= <-]. split; [exact Hinv'|].
    intros p' Hp'. apply Hlt, Hdom', Hp'.
  - apply Hinv.
Qed.

(** Every engine reached while order ids have not wrapped keeps the
    invariants. *)
Lemma run_inv cs : forall e replies e',
  engine_inv e ->
  0 <= next_order_id_ e ->
  next_order_id_ e + Z.of_nat (length cs) < 2 ^ 64 ->
  run cs e = Some (replies, e') ->
  engine_inv e' /\
  next_order_id_ e <= next_order_id_ e' <=
    next_order_id_ e + Z.of_nat (length cs).
Proof.
  induction cs as [|c cs IH]; intros e replies e' Hinv H0 Hmax; simpl.
  - intros [= _ <-]. split; [exact Hinv|]. simpl. lia.
  - destruct (call c e) as [[r e1]|] eqn:Hc; [|discriminate].
    destruct (run cs e1) as [[rs e2]|] eqn:Hr; [|discriminate].
    intros [= _ <-].
    assert (H1 : engine_inv e1 /\
                 next_order_id_ e <= next_order_id_ e1 <= next_order_id_ e + 1).
    { destruct c as [client sym s p q|id]; simpl in Hc.
      - destruct (submit_order client sym s p q e) as [[[id tr] e1']|] eqn:Hs;
          [|discriminate].
        injection Hc as _ <-.
        destruct (submit_order_inv _ _ _ _ _ _ _ _ _ Hinv H0 ltac:(simpl in Hmax; lia) Hs)
          as [Hinv1 Hn1].
        split; [exact Hinv1|lia].
      - destruct (cancel_order id e) as [ok e1'] eqn:Hcc. injection Hc as _ <-.
        destruct (cancel_order_inv id e Hinv) as [Hinv1 Hn1].
        rewrite Hcc in Hinv1, Hn1. simpl in Hinv1, Hn1.
        split; [exact Hinv1|lia]. }
    destruct H1 as [Hinv1 Hn1].
    destruct (IH e1 rs e2 Hinv1 ltac:(lia) ltac:(simpl in Hmax; lia) Hr)
      as [Hinv2 Hn2].
    split; [exact Hinv2|]. simpl length. lia.
Qed.

(** ** Every call returns *)

Lemma match_loop_wf sym nc fuel s s' :
  orders_wf (ms_orders s) ->
  match_loop sym nc fuel s = Some s' ->
  orders_wf (ms_orders s') /\
  quantity (ms_incoming s') = quantity (ms_incoming s).
Proof.
  revert s. induction fuel as [|fuel IH]; intros s Hwf; simpl; [discriminate|].
  destruct (match_step sym nc s) as [s1|s1] eqn:Hs.
  - intros [= <-]. apply match_step_exit in Hs. subst s1. auto.
  - intros Hl.
    destruct (match_step_decreases _ _ _ _ Hwf Hs) as [_ Hwf1].
    destruct (IH _ Hwf1 Hl) as [Hwf' Hq]. split; [exact Hwf'|].
    rewrite Hq. pose proof (match_step_case sym nc s) as Hc. rewrite Hs in Hc.
    inversion Hc; subst; simpl; [reflexivity|apply fill_quantity].
Qed.

Lemma process_order_wf order b trades order' b' :
  orders_wf (orders_ b) -> is_u64 (quantity order) ->
  process_order order b = Some (trades, order', b') ->
  orders_wf (orders_ b').
Proof.
  intros Hwf Hq. unfold process_order. rewrite match_order_unfold.
  destruct (match_loop _ _ _ _) as [s'|] eqn:Hl; [|discriminate].
  intros [= _ <- <-].
  destruct (match_loop_wf _ _ _ (match_start order b) _ Hwf Hl) as [Hwf' Hq'].
  simpl in Hq'.
  unfold clean_filled_orders. simpl. case_match.
  - rewrite add_order_unlocked_orders. apply orders_wf_insert.
    + destruct (is_buy order); exact Hwf'.
    + rewrite Hq'. exact Hq.
  - destruct (is_buy order); exact Hwf'.
Qed.

Lemma engine_wf_new : engine_wf MatchingEngine_new.
Proof. intros sym b. simpl. rewrite lookup_empty. discriminate. Qed.

(** [submit_order] returns on every well-formed engine. *)
Lemma submit_order_total client sym s p q e :
  engine_wf e -> is_u64 q ->
  exists id trades e',
    submit_order client sym s p q e = Some (id, trades, e') /\ engine_wf e'.
Proof.
  intros Hwf Hq. unfold submit_order.
  destruct (get_or_create_book sym (order_books_ e)) as [book bs] eqn:Hg.
  assert (Hbook : orders_wf (orders_ book) /\
                  forall sym', sym' <> sym ->
                               bs !! sym' = order_books_ e !! sym').
  { unfold get_or_create_book in Hg.
    destruct (order_books_ e !! sym) as [b0|] eqn:Hb0; injection Hg as <- <-.
    - split; [eapply Hwf, Hb0|reflexivity].
    - split.
      + intros p' o'. simpl. rewrite lookup_empty. discriminate.
      + intros sym' Hne. apply lookup_insert_ne. congruence. }
  destruct Hbook as [Hbwf Hother].
  destruct (process_order_total (Order_new (next_order_id_ e) client sym s p q)
              book Hbwf) as (tr & o' & b' & Hp).
  rewrite Hp. eexists _, _, _. split; [reflexivity|].
  intros sym' b0. simpl. rewrite lookup_insert. case_decide.
  - intros [= <-].
    exact (process_order_wf (Order_new (next_order_id_ e) client sym s p q)
             _ _ _ _ Hbwf Hq Hp).
  - rewrite Hother by congruence. apply Hwf.
Qed.

Lemma cancel_order_wf id e : engine_wf e -> engine_wf (snd (cancel_order id e)).
Proof.
  intros Hwf.
  destruct (cancel_order_cases id e)
    as [(sym & book & o & _ & Hbook & Ho & Hc)|[_ Hc]]; rewrite Hc; simpl;
    [|exact Hwf].
  intros sym' b0. simpl. rewrite lookup_insert. case_decide.
  - intros [= <-]. simpl. apply orders_wf_insert; [eapply Hwf, Hbook|].
    change (quantity (cancel o)) with (quantity o).
    eapply (Hwf _ _ Hbook), Ho.
  - apply Hwf.
Qed.

(** A sequence of calls with machine-integer quantities runs to its end. *)
Lemma run_total cs : forall e,
  engine_wf e -> Forall call_wf cs ->
  exists replies e', run cs e = Some (replies, e') /\ engine_wf e'.
Proof.
  induction cs as [|c cs IH]; intros e Hwf Hall; simpl.
  - eauto.
  - apply Forall_cons in Hall as [Hc Hall].
    assert (H1 : exists r e1, call c e = Some (r, e1) /\ engine_wf e1).
    { destruct c as [client sym s p q|id]; simpl in *.
      - destruct (submit_order_total client sym s p q e Hwf Hc)
          as (id & tr & e1 & Hs & Hwf1).
        rewrite Hs. eauto.
      - pose proof (cancel_order_wf id e Hwf) as Hwf1.
        destruct (cancel_order id e) as [ok e1]. eauto. }
    destruct H1 as (r & e1 & Hcall & Hwf1). rewrite Hcall.
    destruct (IH e1 Hwf1 Hall) as (rs & e2 & Hr & Hwf2).
    rewrite Hr. eauto.
Qed.

(** ** C3: time priority among equal prices *)

(** In a queue in delivery order, nothing in front of [x] is ranked below
    [x]. *)
Lemma delivery_order_before {A} (comp : A -> A -> bool) l1 x l2 y :
  delivery_order comp (l1 ++ x :: l2) -> In y l1 -> comp y x = false.
Proof.
  unfold delivery_order. induction l1 as [|z l1 IH]; simpl; intros Hs Hy.
  - destruct Hy.
  - apply StronglySorted_inv in Hs as [Hq Hz]. destruct Hy as [->|Hy].
    + rewrite Forall_forall in Hz. apply Hz.
      apply list_elem_of_In, in_or_app. right. left. reflexivity.
    + apply IH; assumption.
Qed.

(** An entry ranked below another entry of the queue is behind it. *)
Lemma delivery_order_split {A} (comp : A -> A -> bool) q x y :
  delivery_order comp q -> In x q -> comp y x = true ->
  exists l1 l2, q = l1 ++ x :: l2 /\ ~ In y l1.
Proof.
  intros Hs Hx Hyx. apply in_split in Hx as (l1 & l2 & ->).
  exists l1, l2. split; [reflexivity|]. intros Hy.
  rewrite (delivery_order_before _ _ _ _ _ Hs Hy) in Hyx. discriminate.
Qed.

(** While [p1] waits in the heap with [p2] not in front of it, every trade
    against [p2] comes after a trade against [p1]. *)
Lemma match_loop_priority sym nc p1 p2 fuel : forall s s' l1 l2,
  match_loop sym nc fuel s = Some s' ->
  ms_heap s = l1 ++ p1 :: l2 -> ~ In p2 l1 -> p1 <> p2 ->
  status (deref (ms_orders s) p1) <> CANCELLED ->
  (forall p, In p (ms_heap s) -> order_id (deref (ms_orders s) p) = p) ->
  exists new,
    ms_trades s' = ms_trades s ++ new /\
    forall k1 t k2, new = k1 ++ t :: k2 -> maker_order_id t = p2 ->
      exists t1, In t1 k1 /\ maker_order_id t1 = p1.
Proof.
  induction fuel as [|fuel IH]; intros s s' l1 l2; simpl; [discriminate|].
  pose proof (match_step_case sym nc s) as Hc.
  destruct (match_step sym nc s) as [s1|s1] eqn:Hs.
  { intros [= <-] _ _ _ _ _. apply match_step_exit in Hs. subst s1.
    exists []. split; [rewrite app_nil_r; reflexivity|].
    intros k1 t k2 Hk. destruct k1; discriminate. }
  intros Hl Hheap Hnot Hne Hlive Hids.
  pose proof (match_step_stable _ _ _ _ Hs) as Hst.
  inversion Hc as [| | p q Hh _ Hcan | | p q Hh _ Hnc _ top_order trade top'];
    subst s1.
  - (* the top is cancelled and popped *)
    rewrite Hheap in Hh. destruct l1 as [|z l1]; simpl in Hh.
    { injection Hh as -> _. contradiction. }
    injection Hh as -> <-.
    apply (IH _ _ l1 l2 Hl); simpl; auto.
    + intros Hin. apply Hnot. right. exact Hin.
    + intros p' Hp'. apply Hids. rewrite Hheap. right. exact Hp'.
  - (* a trade against the top *)
    assert (Hmaker : maker_order_id trade = p).
    { simpl. apply Hids. rewrite Hh. left. reflexivity. }
    assert (Hlive' : status (deref (<[p := top']> (ms_orders s)) p1) <> CANCELLED).
    { rewrite deref_insert. case_decide; [|exact Hlive].
      apply fill_not_cancelled. exact Hnc. }
    assert (Hids' : forall p', In p' (ms_heap s) ->
              order_id (deref (<[p := top']> (ms_orders s)) p') = p').
    { intros p' Hp'. pose proof (stable_id _ _ Hst p') as Hsid.
      simpl in Hsid. rewrite Hsid. apply Hids, Hp'. }
    rewrite Hheap in Hh. destruct l1 as [|z l1]; simpl in Hh.
    + (* the top is [p1] itself *)
      injection Hh as Hp _.
      destruct (match_loop_trades _ _ _ _ _ Hl) as (new & Hnew & _).
      simpl in Hnew. exists (trade :: new).
      split; [rewrite Hnew, <- app_assoc; reflexivity|].
      intros k1 t k2 Hk Ht. destruct k1 as [|t0 k1]; simpl in Hk.
      * injection Hk as Ht0 _. congruence.
      * injection Hk as Ht0 _. exists t0.
        split; [left; reflexivity|congruence].
    + (* the top is in front of [p1] *)
      injection Hh as Hz Hq.
      assert (Hzp : p <> p2).
      { intros Hpp. apply Hnot. left. congruence. }
      assert (Hrest : exists new,
        ms_trades s' = (ms_trades s ++ [trade]) ++ new /\
        forall k1 t k2, new = k1 ++ t :: k2 -> maker_order_id t = p2 ->
          exists t1, In t1 k1 /\ maker_order_id t1 = p1).
      { destruct (is_filled top') eqn:Hf.
        - apply (IH _ _ l1 l2 Hl); simpl; auto.
          + intros Hin. apply Hnot. right. exact Hin.
          + intros p' Hp'. apply Hids'. rewrite Hheap. right.
            rewrite Hq. exact Hp'.
        - apply (IH _ _ (z :: l1) l2 Hl); simpl; auto.
          + rewrite Hq, Hz. reflexivity.
          + intros p' Hp'. apply Hids'. rewrite Hheap. simpl.
            rewrite Hq, Hz. exact Hp'. }
      destruct Hrest as (new & Hnew & Hprio).
      exists (trade :: new).
      split; [rewrite Hnew, <- app_assoc; reflexivity|].
      intros k1 t k2 Hk Ht. destruct k1 as [|t0 k1]; simpl in Hk.
      * injection Hk as Ht0 _. congruence.
      * injection Hk as _ Hk.
        destruct (Hprio _ _ _ Hk Ht) as (t1 & Hin & Ht1).
        exists t1. split; [right; exact Hin|exact Ht1].
Qed.

Lemma eqb_sym_true x y :
  PrimFloat.eqb x y = true -> PrimFloat.eqb y x = true.
Proof. rewrite !eqb_key. intros (? & ? & ?). auto. Qed.

(** With equal prices, either comparator ranks the larger id below. *)
Lemma later_id_ranks_below o1 o2 :
  PrimFloat.eqb (price o1) (price o2) = true ->
  order_id o1 < order_id o2 ->
  BuyOrderComparator o2 o1 = true /\ SellOrderComparator o2 o1 = true.
Proof.
  intros He Hlt. apply eqb_sym_true in He.
  unfold BuyOrderComparator, SellOrderComparator. rewrite He. simpl.
  rewrite Z.gtb_ltb. split; apply Z.ltb_lt; exact Hlt.
Qed.

(** Time priority in one book that satisfies the invariants. *)
Lemma process_order_priority order b trades order' b' p1 p2 o1 o2 :
  book_inv b ->
  process_order order b = Some (trades, order', b') ->
  In p1 (resting_side order b) -> In p2 (resting_side order b) ->
  orders_ b !! p1 = Some o1 -> orders_ b !! p2 = Some o2 ->
  PrimFloat.eqb (price o1) (price o2) = true ->
  order_id o1 < order_id o2 ->
  status o1 <> CANCELLED ->
  forall k1 t k2, trades = k1 ++ t :: k2 ->
    maker_order_id t = order_id o2 ->
    exists t1, In t1 k1 /\ maker_order_id t1 = order_id o1.
Proof.
  intros Hinv Hp Hin1 Hin2 Ho1 Ho2 He Hlt Hlive.
  pose proof (inv_ids _ Hinv _ _ Ho1) as Hid1.
  pose proof (inv_ids _ Hinv _ _ Ho2) as Hid2.
  destruct (later_id_ranks_below _ _ He Hlt) as [Hbuy Hsell].
  assert (Hsplit : exists l1 l2,
            resting_side order b = l1 ++ p1 :: l2 /\ ~ In p2 l1).
  { unfold resting_side in *. destruct (is_buy order).
    - apply (delivery_order_split (ask_comp (orders_ b))); auto.
      + apply Hinv.
      + unfold ask_comp, deref. rewrite Ho1, Ho2. exact Hsell.
    - apply (delivery_order_split (bid_comp (orders_ b))); auto.
      + apply Hinv.
      + unfold bid_comp, deref. rewrite Ho1, Ho2. exact Hbuy. }
  destruct Hsplit as (l1 & l2 & Hheap & Hnot).
  unfold process_order in Hp. rewrite match_order_unfold in Hp.
  destruct (match_loop _ _ _ _) as [s'|] eqn:Hl; [|discriminate].
  injection Hp as <- _ _.
  destruct (match_loop_priority _ _ p1 p2 _ _ _ l1 l2 Hl) as (new & Hnew & Hprio).
  - exact Hheap.
  - exact Hnot.
  - lia.
  - simpl. unfold deref. rewrite Ho1. exact Hlive.
  - simpl. intros p Hp.
    assert (Hs : is_Some (orders_ b !! p)).
    { unfold resting_side in Hp.
      destruct (is_buy order);
        [apply (inv_asks_backed _ Hinv)|apply (inv_bids_backed _ Hinv)];
        exact Hp. }
    destruct Hs as [o Ho]. unfold deref. rewrite Ho. simpl.
    eapply (inv_ids _ Hinv), Ho.
  - simpl in Hnew. rewrite Hnew, Hid1, Hid2. exact Hprio.
Qed.

(** ** C4: what [OrderBook::cancel_order] reports *)

(** C4, counterexample.  After a buy of 10 has been filled by a sell of 10,
    order 1 is stored with status FILLED and is not active; yet
    [cancel_order(1)] on that book returns [true] and turns the status into
    CANCELLED. *)
Lemma C4_counterexample :
  match run filled_maker_calls MatchingEngine_new with
  | None => False
  | Some (_, e) =>
      match order_books_ e !! BTC with
      | None => False
      | Some b =>
          (status <$> orders_ b !! 1) = Some FILLED /\
          (is_active <$> orders_ b !! 1) = Some false /\
          fst (book_cancel_order 1 b) = true /\
          (status <$> orders_ (snd (book_cancel_order 1 b)) !! 1) = Some CANCELLED
      end
  end.
Proof. vm_compute. repeat split. Qed.

(** C4, amended.  [cancel_order(id)] returns [true] exactly when the book's
    map holds a record under [id], whatever its status; it then sets that
    record's status to CANCELLED and touches nothing else.  For an id without
    a record it returns [false] and leaves the book as it is.  In particular
    it returns [true] for every active order. *)
Theorem C4_cancel_reports_record id b :
  (fst (book_cancel_order id b) = true <-> is_Some (orders_ b !! id)) /\
  (orders_ b !! id = None -> book_cancel_order id b = (false, b)) /\
  (forall o, orders_ b !! id = Some o ->
     book_cancel_order id b = (true, with_order id (cancel o) b) /\
     status (cancel o) = CANCELLED) /\
  (forall o, orders_ b !! id = Some o -> is_active o = true ->
     fst (book_cancel_order id b) = true).
Proof.
  unfold book_cancel_order, with_order.
  destruct (orders_ b !! id) as [o|] eqn:E; simpl.
  - split; [split; eauto|]. split; [discriminate|].
    split; [intros o' [= <-]; auto|auto].
  - split; [split; [discriminate|intros [? ?]; discriminate]|].
    split; [reflexivity|]. split; intros; discriminate.
Qed.

(** The theorem at the book of scenario B, whose order 1 is active. *)
Lemma C4_cancel_reports_record_witness :
  fst (book_cancel_order 1 book_B) = true.
Proof.
  refine (proj2 (proj2 (proj2 (C4_cancel_reports_record 1 book_B))) _ _ _).
  - vm_compute. reflexivity.
  - vm_compute. reflexivity.
Defined.

(** ** C5: cancelling twice *)

(** C5, counterexample.  With one resting order, one [cancel_order(1)]
    leaves [cancelled_orders = 1]; a second one in succession returns [true]
    again and leaves [cancelled_orders = 2]: the counters are not in the
    state one call leaves them in. *)
Lemma C5_counterexample :
  match run cancel_once_calls MatchingEngine_new,
        run cancel_twice_calls MatchingEngine_new with
  | Some (r1, e1), Some (r2, e2) =>
      r1 = [Submitted 1 []; Cancelled true] /\
      r2 = [Submitted 1 []; Cancelled true; Cancelled true] /\
      cancelled_orders (get_stats e1) = 1 /\
      cancelled_orders (get_stats e2) = 2 /\
      get_stats e1 <> get_stats e2
  | _, _ => False
  end.
Proof. vm_compute. repeat split; discriminate. Qed.

(** C5, amended.  Two [cancel_order(id)] calls in succession return the same
    boolean, and the second leaves every book, hence the best bid, best ask,
    spread and levels of every symbol, as the first left them;
    [cancelled_orders] is incremented by each call that returns [true], so
    by the second call as well when [id] has a record. *)
Theorem C5_cancel_twice id e :
  let r1 := fst (cancel_order id e) in
  let e1 := snd (cancel_order id e) in
  let r2 := fst (cancel_order id e1) in
  let e2 := snd (cancel_order id e1) in
  r2 = r1 /\
  order_books_ e2 = order_books_ e1 /\
  (forall sym n,
     get_best_bid sym e2 = get_best_bid sym e1 /\
     get_best_ask sym e2 = get_best_ask sym e1 /\
     get_spread sym e2 = get_spread sym e1 /\
     get_bid_levels sym n e2 = get_bid_levels sym n e1 /\
     get_ask_levels sym n e2 = get_ask_levels sym n e1) /\
  cancelled_orders (get_stats e1) =
    (if r1 then u64 (cancelled_orders (get_stats e) + 1)
     else cancelled_orders (get_stats e)) /\
  cancelled_orders (get_stats e2) =
    (if r1 then u64 (cancelled_orders (get_stats e1) + 1)
     else cancelled_orders (get_stats e1)).
Proof.
  cbv zeta.
  assert (Hbooks :
    fst (cancel_order id (snd (cancel_order id e))) = fst (cancel_order id e) /\
    order_books_ (snd (cancel_order id (snd (cancel_order id e)))) =
      order_books_ (snd (cancel_order id e))).
  { destruct (cancel_order_cases id e)
      as [(sym & book & o & Hsym & Hbook & Ho & Hc)|[Hnone Hc]];
      rewrite Hc; simpl; [|rewrite Hc; auto].
    destruct (cancel_order_cases id (mkMatchingEngine
                 (<[sym := with_order id (cancel o) book]> (order_books_ e))
                 (order_to_symbol_ e) (next_order_id_ e)
                 (stats_on_cancel (stats_ e))))
      as [(sym' & book' & o' & Hsym' & Hbook' & Ho' & Hc')|[Hnone' Hc']];
      simpl in *.
    - rewrite Hc'. simpl. rewrite Hsym in Hsym'. injection Hsym' as <-.
      rewrite lookup_insert_eq in Hbook'. injection Hbook' as <-.
      simpl in Ho'. rewrite lookup_insert_eq in Ho'. injection Ho' as <-.
      unfold with_order. simpl. rewrite cancel_cancel, !insert_insert_eq. auto.
    - exfalso. specialize (Hnone' sym (with_order id (cancel o) book) Hsym).
      rewrite lookup_insert_eq in Hnone'. specialize (Hnone' eq_refl).
      simpl in Hnone'. rewrite lookup_insert_eq in Hnone'. discriminate. }
  destruct Hbooks as (Hr & Hb).
  split; [exact Hr|]. split; [exact Hb|]. split.
  { intros sym n.
    unfold get_best_bid, get_best_ask, get_spread, get_bid_levels, get_ask_levels.
    rewrite Hb. auto. }
  split.
  - destruct (cancel_order_cases id e)
      as [(sym & book & o & _ & _ & _ & Hc)|[_ Hc]]; rewrite Hc; reflexivity.
  - rewrite <- Hr. destruct (cancel_order_cases id (snd (cancel_order id e)))
      as [(sym & book & o & _ & _ & _ & Hc)|[_ Hc]]; rewrite Hc; reflexivity.
Qed.

(** ** C6: terminal statuses *)

(** C6, counterexample.  [fill(5)] on a CANCELLED order of 10 is not a
    no-op: it raises [filled_quantity] from 0 to 5 and sets the status to
    PARTIALLY_FILLED; and [cancel()] on a FILLED order sets CANCELLED. *)
Lemma C6_counterexample :
  status cancelled_order = CANCELLED /\
  filled_quantity cancelled_order = 0 /\
  status (fill 5 cancelled_order) = PARTIALLY_FILLED /\
  filled_quantity (fill 5 cancelled_order) = 5 /\
  status filled_order = FILLED /\
  status (cancel filled_order) = CANCELLED.
Proof. vm_compute. repeat split. Qed.

(** C6, amended.  CANCELLED is terminal for the orders a book holds:
    [process_order] of another order leaves a stored CANCELLED order exactly
    as it is (the match loop skips it and never calls [fill] on it), and so
    does [cancel_order]; hence its status stays and its filled quantity never
    increases.  [Order::cancel] always yields CANCELLED and never changes
    [filled_quantity].  [Order::fill] on an order with status FILLED and
    [filled_quantity = quantity] changes nothing.  ([Order::fill] itself has
    no status guard, and [Order::cancel] overwrites FILLED.) *)
Theorem C6_terminal_statuses :
  (forall o, status (cancel o) = CANCELLED /\
             filled_quantity (cancel o) = filled_quantity o) /\
  (forall o n, 0 <= n -> is_u64 (quantity o) ->
     status o = FILLED -> filled_quantity o = quantity o ->
     fill n o = o) /\
  (forall order b trades order' b' p o,
     process_order order b = Some (trades, order', b') ->
     orders_ b !! p = Some o -> status o = CANCELLED -> p <> order_id order ->
     orders_ b' !! p = Some o) /\
  (forall id b p o,
     orders_ b !! p = Some o -> status o = CANCELLED ->
     orders_ (snd (book_cancel_order id b)) !! p = Some o).
Proof.
  split; [intros o; split; reflexivity|]. split; [|split].
  - intros o n Hn Hq Hst Hf. unfold fill.
    assert (Hr : remaining_quantity o = 0).
    { unfold remaining_quantity. rewrite Hf, Z.sub_diag. reflexivity. }
    rewrite Hr.
    assert (Hn' : (if n >? 0 then 0 else n) = 0).
    { destruct (n >? 0) eqn:E; [reflexivity|].
      rewrite Z.gtb_ltb in E. apply Z.ltb_ge in E. lia. }
    rewrite Hn', Z.add_0_r, Hf, (u64_small _ Hq).
    unfold is_filled. simpl. rewrite Z.geb_leb, Z.leb_refl.
    destruct o; simpl in *. subst. reflexivity.
  - intros order b trades order' b' p o Hp Ho Hst Hne.
    unfold process_order in Hp. rewrite match_order_unfold in Hp.
    destruct (match_loop _ _ _ _) as [s'|] eqn:Hl; [|discriminate].
    injection Hp as _ <- <-.
    pose proof (match_loop_keeps_cancelled _ _ _ _ _ p o Hl Ho Hst) as Hkeep.
    pose proof (match_loop_incoming_id _ _ _ _ _ Hl) as Hid. simpl in Hid.
    unfold clean_filled_orders. simpl.
    case_match.
    + rewrite add_order_unlocked_orders.
      rewrite lookup_insert_ne; [|congruence].
      destruct (is_buy order); exact Hkeep.
    + destruct (is_buy order); exact Hkeep.
  - intros id b p o Ho Hst. unfold book_cancel_order.
    destruct (orders_ b !! id) as [o'|] eqn:E; simpl; [|exact Ho].
    destruct (decide (id = p)) as [->|Hne].
    + rewrite lookup_insert_eq. rewrite E in Ho. injection Ho as ->.
      rewrite (cancel_cancelled _ Hst). reflexivity.
    + rewrite lookup_insert_ne; [exact Ho|exact Hne].
Qed.

(** The theorem at concrete inputs: a completed order of 10 filled again,
    and the cancelled order 1 of scenario B's book under an incoming sell and
    under a second cancel. *)
Lemma C6_terminal_statuses_witness :
  fill 3 filled_order = filled_order /\
  orders_ (clean_filled_orders (add_order_unlocked sell_B book_B_cancelled)) !! 1
    = Some cancelled_order /\
  orders_ (snd (book_cancel_order 1 book_B_cancelled)) !! 1 = Some cancelled_order.
Proof.
  destruct C6_terminal_statuses as (_ & Hfill & Hproc & Hcancel).
  split; [|split].
  - apply (Hfill filled_order 3); [lia|vm_compute; split; [discriminate|reflexivity]|reflexivity|reflexivity].
  - apply (Hproc sell_B book_B_cancelled [] sell_B).
    + vm_compute. reflexivity.
    + vm_compute. reflexivity.
    + reflexivity.
    + vm_compute. discriminate.
  - apply (Hcancel 1 book_B_cancelled 1 cancelled_order); [vm_compute; reflexivity|reflexivity].
Defined.

(** ** C7: [active_orders] against the number of active orders *)

(** C7, the code at the failing inputs.  One resting order cancelled twice:
    both cancels return [true], no order is active afterwards, and
    [active_orders] has wrapped below zero to 2^64 - 1.  The same happens
    when a completely filled maker is cancelled: the fill already took it out
    of [active_orders], and the cancel decrements once more. *)
Theorem C7_active_orders_underflow :
  match run cancel_twice_calls MatchingEngine_new,
        run cancel_filled_calls MatchingEngine_new with
  | Some (r1, e1), Some (r2, e2) =>
      r1 = [Submitted 1 []; Cancelled true; Cancelled true] /\
      engine_active_count e1 = 0%nat /\
      active_orders (get_stats e1) = 2 ^ 64 - 1 /\
      r2 = [Submitted 1 [];
            Submitted 2 [mkTrade 1 2 1 101 100 BTC 50000%float 10];
            Cancelled true] /\
      engine_active_count e2 = 0%nat /\
      active_orders (get_stats e2) = 2 ^ 64 - 1
  | _, _ => False
  end.
Proof. vm_compute. repeat split. Qed.

(** ** C8: level snapshots *)

(** C8, the code at the failing inputs.  With bids of 5 at 100 and 7 at 101,
    [get_bid_levels(10)] lists the level at 100 before the level at 101: the
    levels come out in increasing price, the worst bid first.  With two bids
    (or two asks) of 5 and 7 at the one price 100, [get_bid_levels(1)]
    (resp. [get_ask_levels(1)]) returns quantity 5 and count 1: the loop
    stops as soon as the level exists, before the second order of the level
    is added. *)
Theorem C8_levels_at_failing_inputs :
  match run two_bid_prices_calls MatchingEngine_new,
        run two_bids_one_price_calls MatchingEngine_new,
        run two_asks_one_price_calls MatchingEngine_new with
  | Some (_, e1), Some (_, e2), Some (_, e3) =>
      get_best_bid BTC e1 = 101%float /\
      get_bid_levels BTC 10 e1 =
        [mkBookLevel 100%float 5 1; mkBookLevel 101%float 7 1] /\
      engine_active_count e2 = 2%nat /\
      get_bid_levels BTC 1 e2 = [mkBookLevel 100%float 5 1] /\
      get_bid_levels BTC 2 e2 = [mkBookLevel 100%float 12 2] /\
      engine_active_count e3 = 2%nat /\
      get_ask_levels BTC 1 e3 = [mkBookLevel 100%float 5 1] /\
      get_ask_levels BTC 2 e3 = [mkBookLevel 100%float 12 2]
  | _, _, _ => False
  end.
Proof. vm_compute. repeat split. Qed.

(** ** C9: queries on a symbol that has no book *)

Lemma submit_order_books client sym s p q e id trades e' :
  submit_order client sym s p q e = Some (id, trades, e') ->
  forall sym', sym' <> sym -> order_books_ e' !! sym' = order_books_ e !! sym'.
Proof.
  unfold submit_order, get_or_create_book.
  destruct (order_books_ e !! sym) as [book|] eqn:Hb.
  - destruct (process_order _ book) as [[[tr o'] b']|]; [|discriminate].
    intros [= _ _ <-] sym' Hne. simpl. rewrite lookup_insert_ne; auto.
  - destruct (process_order _ _) as [[[tr o'] b']|]; [|discriminate].
    intros [= _ _ <-] sym' Hne. simpl. rewrite !lookup_insert_ne; auto.
Qed.

Lemma cancel_order_books id e sym :
  order_books_ e !! sym = None ->
  order_books_ (snd (cancel_order id e)) !! sym = None.
Proof.
  intros Hnone.
  destruct (cancel_order_cases id e)
    as [(sym0 & book & o & _ & Hbook & _ & Hc)|[_ Hc]]; rewrite Hc; simpl;
    [|exact Hnone].
  rewrite lookup_insert_ne; [exact Hnone|]. intros ->. congruence.
Qed.

(** Only a submission for [sym] creates the book of [sym]. *)
Lemma run_no_book sym cs : forall e replies e',
  run cs e = Some (replies, e') ->
  Forall (fun c => ~ submits_to sym c) cs ->
  order_books_ e !! sym = None ->
  order_books_ e' !! sym = None.
Proof.
  induction cs as [|c cs IH]; intros e replies e'; simpl.
  - intros [= _ <-] _ Hn. exact Hn.
  - destruct (call c e) as [[r e1]|] eqn:Hc; [|discriminate].
    destruct (run cs e1) as [[rs e2]|] eqn:Hr; [|discriminate].
    intros [= _ <-] Hall Hn.
    apply Forall_cons in Hall as [Hc0 Hall].
    eapply IH; [exact Hr|exact Hall|].
    destruct c as [client sym' s p q|id]; simpl in Hc, Hc0.
    + destruct (submit_order client sym' s p q e) as [[[id tr] e1']|] eqn:Hs;
        [|discriminate].
      injection Hc as _ <-.
      rewrite (submit_order_books _ _ _ _ _ _ _ _ _ Hs sym); [exact Hn|].
      intros ->. apply Hc0. reflexivity.
    + destruct (cancel_order id e) as [ok e1'] eqn:Hcc. injection Hc as _ <-.
      replace e1' with (snd (cancel_order id e)) by (rewrite Hcc; reflexivity).
      apply cancel_order_books, Hn.
Qed.

Lemma get_all_symbols_absent sym e :
  order_books_ e !! sym = None -> sym ∉ get_all_symbols e.
Proof.
  intros Hn Hin. unfold get_all_symbols in Hin.
  apply list_elem_of_fmap in Hin as [[k b] [-> Hkb]]. simpl in Hn.
  apply elem_of_map_to_list in Hkb. congruence.
Qed.

(** C9.  In an engine reached from the empty one by calls none of which is a
    submission for [sym], the engine has no book for [sym], and the queries
    on [sym] answer without one: best bid, best ask and spread are the
    sentinel 0.0 and both level queries are empty.  The queries are [const]
    members that look the symbol up with [find]; they are functions of the
    engine that return no engine, so the engine, and with it what
    [get_all_symbols] returns (a list without [sym]), is the same before and
    after them. *)
Theorem C9_queries_without_book sym cs replies e n :
  run cs MatchingEngine_new = Some (replies, e) ->
  Forall (fun c => ~ submits_to sym c) cs ->
  order_books_ e !! sym = None /\
  get_best_bid sym e = 0%float /\
  get_best_ask sym e = 0%float /\
  get_spread sym e = 0%float /\
  get_bid_levels sym n e = [] /\
  get_ask_levels sym n e = [] /\
  sym ∉ get_all_symbols e.
Proof.
  intros Hrun Hall.
  assert (Hn : order_books_ e !! sym = None).
  { eapply run_no_book; [exact Hrun|exact Hall|]. apply lookup_empty. }
  unfold get_best_bid, get_best_ask, get_spread, get_bid_levels, get_ask_levels.
  rewrite Hn. repeat split; try reflexivity.
  apply get_all_symbols_absent, Hn.
Qed.

(** The theorem after scenario C, for a symbol other than the one traded. *)
Lemma C9_queries_without_book_witness :
  get_best_bid ETH (default MatchingEngine_new
                      (snd <$> run scenario_C MatchingEngine_new)) = 0%float.
Proof.
  refine (proj1 (proj2 (C9_queries_without_book ETH scenario_C _ _ 10%nat _ _))).
  - vm_compute. reflexivity.
  - repeat constructor; vm_compute; discriminate.
Defined.

(** ** C10: a submission with quantity zero *)







(** * Further properties *)

(** ** Order: fills *)

Lemma remaining_quantity_nonneg o : 0 <= remaining_quantity o.
Proof. apply u64_range. Qed.

Lemma order_ok_remaining o :
  order_ok o -> remaining_quantity o = quantity o - filled_quantity o.
Proof.
  intros [Hf Hq]. unfold remaining_quantity. apply u64_small.
  unfold is_u64. lia.
Qed.

Lemma order_ok_fill_filled o n :
  order_ok o -> 0 <= n ->
  filled_quantity (fill n o) =
    filled_quantity o + Z.min n (remaining_quantity o).
Proof.
  intros Hok Hn. rewrite fill_filled_quantity.
  pose proof (order_ok_remaining o Hok) as Hr. destruct Hok as [Hf Hq].
  assert (Hmin : (if n >? remaining_quantity o then remaining_quantity o else n)
                 = Z.min n (remaining_quantity o)).
  { destruct (n >? remaining_quantity o) eqn:E; rewrite Z.gtb_ltb in E.
    - apply Z.ltb_lt in E. lia.
    - apply Z.ltb_ge in E. lia. }
  rewrite Hmin. apply u64_small. unfold is_u64. lia.
Qed.

Lemma fill_status n o :
  status (fill n o) =
    if is_filled (fill n o) then FILLED
    else if filled_quantity (fill n o) >? 0 then PARTIALLY_FILLED
    else status o.
Proof.
  unfold fill.
  destruct (is_filled (set_filled_quantity _ o)) eqn:Hf.
  - change (is_filled (set_status FILLED ?x)) with (is_filled x).
    rewrite Hf. reflexivity.
  - destruct (filled_quantity (set_filled_quantity _ o) >? 0) eqn:Hp.
    + change (is_filled (set_status PARTIALLY_FILLED ?x)) with (is_filled x).
      rewrite Hf.
      change (filled_quantity (set_status PARTIALLY_FILLED ?x))
        with (filled_quantity x).
      rewrite Hp. reflexivity.
    + rewrite Hf, Hp. reflexivity.
Qed.

(** Two orders with the same members are the same order. *)
Lemma Order_eq o1 o2 :
  order_id o1 = order_id o2 -> client_id o1 = client_id o2 ->
  symbol o1 = symbol o2 -> side o1 = side o2 -> price o1 = price o2 ->
  quantity o1 = quantity o2 -> filled_quantity o1 = filled_quantity o2 ->
  status o1 = status o2 -> o1 = o2.
Proof. destruct o1, o2; simpl; intros; subst; reflexivity. Qed.

Lemma fill_symbol n o : symbol (fill n o) = symbol o.
Proof. unfold fill. repeat case_match; reflexivity. Qed.

Lemma fill_order_ok o n : order_ok o -> 0 <= n -> order_ok (fill n o).
Proof.
  intros Hok Hn. pose proof (order_ok_fill_filled o n Hok Hn) as Hf.
  pose proof (order_ok_remaining o Hok) as Hr.
  destruct Hok as [H1 H2]. unfold order_ok. rewrite fill_quantity, Hf. lia.
Qed.

Lemma fill_remaining o n :
  order_ok o -> 0 <= n ->
  remaining_quantity (fill n o) =
    remaining_quantity o - Z.min n (remaining_quantity o).
Proof.
  intros Hok Hn. pose proof (order_ok_fill_filled o n Hok Hn) as Hf.
  pose proof (order_ok_remaining o Hok) as Hr.
  pose proof (order_ok_remaining _ (fill_order_ok o n Hok Hn)) as Hr'.
  rewrite fill_quantity in Hr'. lia.
Qed.

(** X1.  On an order that satisfies the data-model invariant, [fill(n)]
    adds [min(n, remaining)] to [filled_quantity] and takes it off the
    remaining quantity, so the order is never overfilled and the invariant
    is kept; a fill of at least the remaining quantity leaves nothing and
    sets FILLED, a smaller positive fill sets PARTIALLY_FILLED. *)
Theorem X1_fill_saturates o n :
  order_ok o -> 0 <= n ->
  filled_quantity (fill n o) =
    filled_quantity o + Z.min n (remaining_quantity o) /\
  remaining_quantity (fill n o) =
    remaining_quantity o - Z.min n (remaining_quantity o) /\
  order_ok (fill n o) /\
  (remaining_quantity o <= n ->
     remaining_quantity (fill n o) = 0 /\ status (fill n o) = FILLED) /\
  (0 < n < remaining_quantity o -> status (fill n o) = PARTIALLY_FILLED).
Proof.
  intros Hok Hn.
  pose proof (order_ok_fill_filled o n Hok Hn) as Hf.
  pose proof (order_ok_remaining o Hok) as Hr.
  assert (Hok' : order_ok (fill n o)).
  { destruct Hok as [H1 H2]. unfold order_ok.
    rewrite fill_quantity, Hf. lia. }
  pose proof (order_ok_remaining _ Hok') as Hr'.
  rewrite fill_quantity in Hr'.
  split; [exact Hf|]. split; [lia|]. split; [exact Hok'|].
  rewrite fill_status. unfold is_filled. rewrite fill_quantity, Hf.
  destruct Hok as [H1 H2]. split.
  - intros Hle. split; [lia|].
    rewrite Z.min_r by lia.
    destruct (_ >=? _) eqn:E; [reflexivity|].
    rewrite Z.geb_leb in E. apply Z.leb_gt in E. lia.
  - intros [H0 Hlt]. rewrite Z.min_l by lia.
    destruct (_ >=? _) eqn:E.
    + rewrite Z.geb_leb in E. apply Z.leb_le in E. lia.
    + destruct (_ >? _) eqn:E2; [reflexivity|].
      rewrite Z.gtb_ltb in E2. apply Z.ltb_ge in E2. lia.
Qed.

(** The theorem at an order of 10 with 4 filled, filled by 3. *)
Lemma X1_fill_saturates_witness :
  filled_quantity (fill 3 (fill 4 (Order_new 1 100 BTC BUY 50000%float 10)))
  = 4 + Z.min 3 (remaining_quantity
                   (fill 4 (Order_new 1 100 BTC BUY 50000%float 10))).
Proof.
  refine (proj1 (X1_fill_saturates
            (fill 4 (Order_new 1 100 BTC BUY 50000%float 10)) 3 _ _)).
  - vm_compute. repeat split; (discriminate || reflexivity).
  - lia.
Defined.

(** Two fills in a row, on unbounded integers: they leave the order as one
    fill of the sum does. *)
Lemma fill_fill_sum o a b :
  order_ok o -> 0 <= a -> 0 <= b ->
  fill b (fill a o) = fill (a + b) o.
Proof.
  intros Hok Ha Hb.
  pose proof (order_ok_fill_filled o a Hok Ha) as Hfa.
  pose proof (fill_remaining o a Hok Ha) as Hra.
  pose proof (fill_order_ok o a Hok Ha) as Hoka.
  pose proof (order_ok_fill_filled _ b Hoka Hb) as Hfb.
  pose proof (order_ok_fill_filled o (a + b) Hok ltac:(lia)) as Hfc.
  pose proof (order_ok_remaining o Hok) as Hr.
  assert (Hfilled : filled_quantity (fill b (fill a o)) =
                    filled_quantity (fill (a + b) o)).
  { rewrite Hfb, Hfc, Hra, Hfa. destruct Hok. lia. }
  apply Order_eq; rewrite ?fill_order_id, ?fill_client_id, ?fill_symbol,
    ?fill_side, ?fill_price, ?fill_quantity; try reflexivity; [exact Hfilled|].
  rewrite (fill_status b), (fill_status (a + b)).
  unfold is_filled. rewrite !fill_quantity, Hfilled.
  destruct (_ >=? _) eqn:E; [reflexivity|].
  destruct (_ >? _) eqn:E2; [reflexivity|].
  rewrite (fill_status a). unfold is_filled. rewrite fill_quantity.
  rewrite Z.geb_leb in E. apply Z.leb_gt in E.
  rewrite Z.gtb_ltb in E2. apply Z.ltb_ge in E2.
  assert (H0 : filled_quantity (fill a o) = 0).
  { rewrite <- Hfilled, Hfb in E2. destruct Hoka as [[? ?] ?].
    pose proof (remaining_quantity_nonneg (fill a o)). lia. }
  rewrite H0.
  destruct (0 >=? quantity o) eqn:E3.
  - rewrite Z.geb_leb in E3. apply Z.leb_le in E3. destruct Hok. lia.
  - reflexivity.
Qed.

(** A fill by more than what remains is a fill by what remains. *)
Lemma fill_clamped o n :
  remaining_quantity o < n -> fill n o = fill (remaining_quantity o) o.
Proof.
  intros Hn. unfold fill.
  rewrite (proj2 (Z.gtb_lt _ _) Hn).
  destruct (remaining_quantity o >? remaining_quantity o); reflexivity.
Qed.

(** X2.  Fills compose as long as the sum fits [uint64_t]: on an order that
    satisfies the invariant, for [uint64_t] values [a] and [b] with
    [a + b < 2^64], [fill(a)] followed by [fill(b)] leaves the order exactly
    as [fill(a + b)] does.  When [a + b] does not fit, the argument of
    [fill(a + b)] wraps and the law is lost; the two fills then fill the
    order up, as [fill(remaining_quantity())] does. *)
Theorem X2_fill_fill o a b :
  order_ok o -> is_u64 a -> is_u64 b ->
  (a + b < 2 ^ 64 -> fill b (fill a o) = fill (a + b) o) /\
  (2 ^ 64 <= a + b ->
     fill b (fill a o) = fill (remaining_quantity o) o).
Proof.
  intros Hok [Ha0 Ha] [Hb0 Hb].
  pose proof (fill_fill_sum o a b Hok Ha0 Hb0) as Hsum.
  split.
  - intros _. exact Hsum.
  - intros Hge. rewrite Hsum. apply fill_clamped.
    pose proof (order_ok_remaining o Hok) as Hr. destruct Hok as [[? ?] ?]. lia.
Qed.

(** The theorem at an order of 10 filled by 4 and then by 3. *)
Lemma X2_fill_fill_witness :
  fill 3 (fill 4 (Order_new 1 100 BTC BUY 50000%float 10)) =
  fill (4 + 3) (Order_new 1 100 BTC BUY 50000%float 10).
Proof.
  refine (proj1 (X2_fill_fill (Order_new 1 100 BTC BUY 50000%float 10)
                   4 3 _ _ _) _).
  - vm_compute. repeat split; (discriminate || reflexivity).
  - unfold is_u64. lia.
  - unfold is_u64. lia.
  - lia.
Defined.

(** ** Order: the matching test *)

Lemma leb_key x y :
  PrimFloat.leb x y = true <->
  ordered x /\ ordered y /\
  (key_lt (float_key x) (float_key y) \/ float_key x = float_key y).
Proof.
  rewrite leb_spec. unfold SFleb, ordered, float_key.
  pose proof (SFcompare_Lt_key (Prim2SF x) (Prim2SF y)) as HL.
  pose proof (SFcompare_Eq_key (Prim2SF x) (Prim2SF y)) as HE.
  destruct (SFcompare _ _) as [[]|]; split; try discriminate.
  - intros _. destruct (proj1 HE eq_refl) as (? & ? & ?). auto.
  - reflexivity.
  - intros _. destruct (proj1 HL eq_refl) as (? & ? & ?). auto.
  - reflexivity.
  - intros (Hx & Hy & [Hlt|Heq]).
    + assert (Some Gt = Some Lt) by (apply HL; auto). discriminate.
    + assert (Some Gt = Some Eq) by (apply HE; auto). discriminate.
  - intros (Hx & Hy & [Hlt|Heq]).
    + assert (@None comparison = Some Lt) by (apply HL; auto). discriminate.
    + assert (@None comparison = Some Eq) by (apply HE; auto). discriminate.
Qed.

Lemma key_total (a b : Z * Z * Z) : key_lt a b \/ a = b \/ key_lt b a.
Proof.
  destruct a as [[a1 a2] a3], b as [[b1 b2] b3]. unfold key_lt. simpl.
  destruct (Z.lt_trichotomy a1 b1) as [?|[->|?]]; [lia| |lia].
  destruct (Z.lt_trichotomy a2 b2) as [?|[->|?]]; [lia| |lia].
  destruct (Z.lt_trichotomy a3 b3) as [?|[->|?]]; [lia| |lia].
  right. left. reflexivity.
Qed.

(** For two floats other than NaN, [x <= y] is the negation of [y < x]. *)
Lemma leb_negb_ltb x y :
  ordered x -> ordered y -> PrimFloat.leb x y = negb (PrimFloat.ltb y x).
Proof.
  intros Hx Hy.
  destruct (PrimFloat.ltb y x) eqn:Hlt; simpl.
  - apply ltb_key in Hlt as (_ & _ & Hlt).
    destruct (PrimFloat.leb x y) eqn:Hle; [|reflexivity].
    apply leb_key in Hle as (_ & _ & [H|H]).
    + destruct (key_lt_asym _ _ H Hlt).
    + rewrite H in Hlt. destruct (key_lt_irrefl _ Hlt).
  - apply leb_key. split; [exact Hx|]. split; [exact Hy|].
    destruct (key_total (float_key x) (float_key y)) as [H|[H|H]]; auto.
    assert (PrimFloat.ltb y x = true) by (apply ltb_key; auto). congruence.
Qed.

Lemma leb_true_ltb_false x y :
  PrimFloat.leb x y = true -> PrimFloat.ltb y x = false.
Proof.
  intros Hle. pose proof Hle as Hk. apply leb_key in Hk as (Hx & Hy & _).
  rewrite (leb_negb_ltb _ _ Hx Hy) in Hle.
  destruct (PrimFloat.ltb y x); [discriminate|reflexivity].
Qed.

(** A comparison with NaN is false. *)
Lemma ltb_unordered x y :
  ~ ordered x \/ ~ ordered y -> PrimFloat.ltb x y = false.
Proof.
  intros H. destruct (PrimFloat.ltb x y) eqn:E; [|reflexivity].
  apply ltb_key in E as (? & ? & _). tauto.
Qed.

Lemma leb_unordered x y :
  ~ ordered x \/ ~ ordered y -> PrimFloat.leb x y = false.
Proof.
  intros H. destruct (PrimFloat.leb x y) eqn:E; [|reflexivity].
  apply leb_key in E as (? & ? & _). tauto.
Qed.

(** X3.  [can_match_with] is symmetric: [a.can_match_with(b)] and
    [b.can_match_with(a)] always agree. *)
Theorem X3_can_match_with_sym a b :
  can_match_with a b = can_match_with b a.
Proof.
  unfold can_match_with, is_buy, is_sell.
  destruct (decide (symbol a = symbol b)) as [Hs|Hs].
  2:{ rewrite !bool_decide_eq_true_2; [reflexivity|congruence|congruence]. }
  rewrite (bool_decide_eq_false_2 (symbol a <> symbol b)) by tauto.
  rewrite (bool_decide_eq_false_2 (symbol b <> symbol a)) by (intros H; apply H; congruence).
  destruct (side a), (side b); simpl;
    repeat (rewrite ?bool_decide_eq_true_2 by congruence;
            rewrite ?bool_decide_eq_false_2 by congruence); simpl;
    try reflexivity;
    destruct (bool_decide (status a <> NEW) &&
              bool_decide (status a <> PARTIALLY_FILLED)),
             (bool_decide (status b <> NEW) &&
              bool_decide (status b <> PARTIALLY_FILLED)); reflexivity.
Qed.

Lemma status_open_test o :
  status_open o ->
  bool_decide (status o <> NEW) && bool_decide (status o <> PARTIALLY_FILLED)
  = false.
Proof.
  intros [H|H]; rewrite H.
  - rewrite bool_decide_eq_false_2 by tauto. reflexivity.
  - rewrite (bool_decide_eq_false_2 (PARTIALLY_FILLED <> PARTIALLY_FILLED))
      by tauto.
    apply andb_false_r.
Qed.

(** X4.  For an incoming order and a resting order of the same symbol, on
    opposite sides and both open, [can_match_with] and the price test of the
    match loop agree whenever neither price is NaN: the loop breaks exactly
    when [can_match_with] is false.  In every case a pair that
    [can_match_with] accepts is not stopped by the loop.  With a NaN price
    the two differ: [can_match_with] is false, and the loop's test does not
    break either. *)
Theorem X4_can_match_with_loop_test incoming top_order :
  symbol incoming = symbol top_order ->
  side incoming <> side top_order ->
  status_open incoming -> status_open top_order ->
  (can_match_with incoming top_order = true ->
     no_cross_of incoming incoming top_order = false) /\
  (ordered (price incoming) -> ordered (price top_order) ->
     can_match_with incoming top_order =
       negb (no_cross_of incoming incoming top_order)) /\
  (~ ordered (price incoming) \/ ~ ordered (price top_order) ->
     can_match_with incoming top_order = false /\
     no_cross_of incoming incoming top_order = false).
Proof.
  intros Hsym Hside Hoi Hot.
  assert (Hcan : can_match_with incoming top_order =
                 if is_buy incoming
                 then PrimFloat.leb (price top_order) (price incoming)
                 else PrimFloat.leb (price incoming) (price top_order)).
  { unfold can_match_with, is_buy, is_sell.
    rewrite (bool_decide_eq_false_2 (symbol incoming <> symbol top_order))
      by tauto.
    rewrite (bool_decide_eq_false_2 (side incoming = side top_order))
      by exact Hside.
    rewrite (status_open_test _ Hoi), (status_open_test _ Hot).
    destruct (side incoming), (side top_order); try congruence; reflexivity. }
  assert (Hno : no_cross_of incoming incoming top_order =
                if is_buy incoming
                then PrimFloat.ltb (price incoming) (price top_order)
                else PrimFloat.ltb (price top_order) (price incoming)).
  { unfold no_cross_of, buy_no_cross, sell_no_cross.
    destruct (is_buy incoming); reflexivity. }
  rewrite Hcan, Hno. split; [|split].
  - destruct (is_buy incoming); apply leb_true_ltb_false.
  - intros Hi Ht. destruct (is_buy incoming); apply leb_negb_ltb; assumption.
  - intros Hnan. destruct (is_buy incoming); split;
      first [apply leb_unordered | apply ltb_unordered]; tauto.
Qed.

(** The theorem at scenario B's sell of 5 at 50000 against the resting buy
    at 50000. *)
Lemma X4_can_match_with_loop_test_witness :
  no_cross_of sell_B sell_B (Order_new 1 100 BTC BUY 50000%float 10) = false /\
  can_match_with sell_B (Order_new 1 100 BTC BUY 50000%float 10) =
    negb (no_cross_of sell_B sell_B (Order_new 1 100 BTC BUY 50000%float 10)).
Proof.
  destruct (X4_can_match_with_loop_test sell_B
              (Order_new 1 100 BTC BUY 50000%float 10))
    as (H1 & H2 & _).
  - reflexivity.
  - discriminate.
  - left. reflexivity.
  - left. reflexivity.
  - split.
    + apply H1. vm_compute. reflexivity.
    + apply H2; vm_compute; discriminate.
Defined.

(** ** The trades of one call *)

Lemma u64_add_l a b : u64 (u64 a + b) = u64 (a + b).
Proof. unfold u64. apply Zplus_mod_idemp_l. Qed.

Lemma trade_ids_from_cons n k :
  trade_ids_from n (S k) = u64 n :: trade_ids_from (u64 (n + 1)) k.
Proof.
  unfold trade_ids_from. simpl. rewrite Z.add_0_r. f_equal.
  rewrite <- fmap_S_seq, <- list_fmap_compose. apply list_fmap_ext.
  intros i x _. simpl. rewrite u64_add_l. f_equal. lia.
Qed.

(** The loop numbers its trades consecutively and copies the taker's
    members and the book's symbol into each of them. *)
Lemma match_loop_trade_fields sym nc fuel : forall s s',
  match_loop sym nc fuel s = Some s' ->
  is_u64 (ms_next_trade_id s) ->
  exists new,
    ms_trades s' = ms_trades s ++ new /\
    trade_id <$> new = trade_ids_from (ms_next_trade_id s) (length new) /\
    ms_next_trade_id s' = u64 (ms_next_trade_id s + Z.of_nat (length new)) /\
    Forall (fun t =>
      taker_order_id t = order_id (ms_incoming s) /\
      taker_client_id t = client_id (ms_incoming s) /\
      trade_symbol t = sym) new.
Proof.
  induction fuel as [|fuel IH]; intros s s'; simpl; [discriminate|].
  pose proof (match_step_case sym nc s) as Hc.
  destruct (match_step sym nc s) as [s1|s1] eqn:Hs.
  { intros [= <-] Hn. apply match_step_exit in Hs. subst s1.
    exists []. simpl. rewrite app_nil_r, Z.add_0_r, (u64_small _ Hn).
    repeat split. constructor. }
  intros Hl Hn.
  inversion Hc as [| | p q Hh _ Hcan | | p q Hh _ Hnc _ top_order trade top'];
    subst s1.
  - destruct (IH _ _ Hl Hn) as (new & H1 & H2 & H3 & H4).
    exists new. auto.
  - destruct (IH _ _ Hl) as (new & H1 & H2 & H3 & H4).
    { simpl. apply u64_range. }
    simpl in H1, H2, H3, H4.
    exists (trade :: new). split; [rewrite H1, <- app_assoc; reflexivity|].
    split; [|split].
    + simpl length. rewrite trade_ids_from_cons, fmap_cons, H2.
      f_equal. simpl. symmetry. apply u64_small, Hn.
    + rewrite H3, u64_add_l. f_equal. simpl length. lia.
    + constructor.
      * simpl. auto.
      * eapply Forall_impl; [exact H4|]. intros t (Ha & Hb & Hc').
        rewrite Ha, Hb, fill_order_id, fill_client_id. auto.
Qed.

(** X5.  The trades returned by one [process_order] call carry the
    consecutive trade ids [next_trade_id_], [next_trade_id_ + 1], ... of the
    book (on [uint64_t]), and the book's counter is advanced by their
    number; each trade names the incoming order and its client as taker and
    carries the book's symbol. *)
Theorem X5_trade_ids order b trades order' b' :
  is_u64 (next_trade_id_ b) ->
  process_order order b = Some (trades, order', b') ->
  trade_id <$> trades = trade_ids_from (next_trade_id_ b) (length trades) /\
  next_trade_id_ b' = u64 (next_trade_id_ b + Z.of_nat (length trades)) /\
  Forall (fun t =>
    taker_order_id t = order_id order /\
    taker_client_id t = client_id order /\
    trade_symbol t = symbol_ b) trades.
Proof.
  intros Hn. unfold process_order. rewrite match_order_unfold.
  destruct (match_loop _ _ _ _) as [s'|] eqn:Hl; [|discriminate].
  intros [= <- _ <-].
  destruct (match_loop_trade_fields _ _ _ _ _ Hl Hn) as (new & H1 & H2 & H3 & H4).
  simpl in H1, H2, H3, H4. rewrite H1. split; [exact H2|]. split; [|exact H4].
  unfold clean_filled_orders. simpl.
  destruct (_ && _); unfold add_order_unlocked;
    destruct (is_buy order); try destruct (is_buy (ms_incoming s'));
    simpl; exact H3.
Qed.

(** The theorem at the fourth order of scenario C: trade ids 1, 2, 3. *)
Lemma X5_trade_ids_witness :
  trade_id <$> trades_C = trade_ids_from (next_trade_id_ book_C3) 3.
Proof.
  refine (proj1 (X5_trade_ids buy_C book_C3 trades_C _ _ _ _)).
  - vm_compute. split; [discriminate|reflexivity].
  - vm_compute. reflexivity.
Defined.

Lemma total_quantity_app l1 l2 :
  total_quantity (l1 ++ l2) = total_quantity l1 + total_quantity l2.
Proof.
  unfold total_quantity. induction l1 as [|t l1 IH]; simpl; [reflexivity|].
  rewrite IH. lia.
Qed.

Lemma make_trade_quantity_range sym s top_order :
  0 <= trade_quantity (make_trade sym s top_order) /\
  trade_quantity (make_trade sym s top_order)
    <= remaining_quantity (ms_incoming s) /\
  trade_quantity (make_trade sym s top_order)
    <= remaining_quantity top_order.
Proof.
  simpl. pose proof (remaining_quantity_nonneg (ms_incoming s)).
  pose proof (remaining_quantity_nonneg top_order). lia.
Qed.

(** A fill by no more than what remains adds exactly that much. *)
Lemma fill_within o n :
  order_ok o -> 0 <= n <= remaining_quantity o ->
  filled_quantity (fill n o) = filled_quantity o + n /\ order_ok (fill n o).
Proof.
  intros Hok Hn. split; [|apply fill_order_ok; [exact Hok|lia]].
  rewrite order_ok_fill_filled by (exact Hok || lia). lia.
Qed.

Lemma match_loop_incoming_filled sym nc fuel : forall s s',
  match_loop sym nc fuel s = Some s' ->
  order_ok (ms_incoming s) ->
  exists new,
    ms_trades s' = ms_trades s ++ new /\
    filled_quantity (ms_incoming s') =
      filled_quantity (ms_incoming s) + total_quantity new /\
    order_ok (ms_incoming s') /\
    Forall (fun t => 0 <= trade_quantity t) new.
Proof.
  induction fuel as [|fuel IH]; intros s s'; simpl; [discriminate|].
  pose proof (match_step_case sym nc s) as Hc.
  destruct (match_step sym nc s) as [s1|s1] eqn:Hs.
  { intros [= <-] Hok. apply match_step_exit in Hs. subst s1.
    exists []. simpl. rewrite app_nil_r.
    unfold total_quantity. simpl. rewrite Z.add_0_r. auto. }
  intros Hl Hok.
  inversion Hc as [| | p q Hh _ Hcan | | p q Hh _ Hnc _ top_order trade top'];
    subst s1.
  - destruct (IH _ _ Hl Hok) as (new & H1 & H2 & H3 & H4). exists new. auto.
  - pose proof (make_trade_quantity_range sym s top_order) as (Hq0 & Hq1 & _).
    destruct (fill_within (ms_incoming s) (trade_quantity trade) Hok
                ltac:(split; assumption)) as [Hf Hok1].
    destruct (IH _ _ Hl Hok1) as (new & H1 & H2 & H3 & H4).
    cbn [ms_incoming ms_trades] in H1, H2.
    exists (trade :: new). split; [rewrite H1, <- app_assoc; reflexivity|].
    split; [|split; [exact H3|constructor; assumption]].
    rewrite H2.
    change (fill _ (ms_incoming s))
      with (fill (trade_quantity trade) (ms_incoming s)).
    rewrite Hf. unfold total_quantity. cbn [foldr]. lia.
Qed.

Lemma match_loop_incoming_quantity sym nc fuel s s' :
  match_loop sym nc fuel s = Some s' ->
  quantity (ms_incoming s') = quantity (ms_incoming s).
Proof.
  revert s. induction fuel as [|fuel IH]; intros s; simpl; [discriminate|].
  pose proof (match_step_case sym nc s) as Hc.
  destruct (match_step sym nc s) as [s1|s1] eqn:Hs.
  - intros [= <-]. apply match_step_exit in Hs. subst s1. reflexivity.
  - intros Hl. rewrite (IH _ Hl).
    inversion Hc; subst; simpl; [reflexivity|apply fill_quantity].
Qed.

(** X6.  The incoming order is filled by exactly what its trades add up
    to: after [process_order], its filled quantity is the one it came with
    plus the sum of the quantities of the trades returned; no trade has a
    negative quantity, and the order is not overfilled. *)
Theorem X6_taker_conservation order b trades order' b' :
  order_ok order ->
  process_order order b = Some (trades, order', b') ->
  filled_quantity order' = filled_quantity order + total_quantity trades /\
  Forall (fun t => 0 <= trade_quantity t) trades /\
  quantity order' = quantity order /\
  order_ok order'.
Proof.
  intros Hok. unfold process_order. rewrite match_order_unfold.
  destruct (match_loop _ _ _ _) as [s'|] eqn:Hl; [|discriminate].
  intros [= <- <- _].
  destruct (match_loop_incoming_filled _ _ _ _ _ Hl Hok) as (new & H1 & H2 & H3 & H4).
  simpl in H1, H2. rewrite H1. split; [exact H2|]. split; [exact H4|].
  split; [|exact H3].
  apply (match_loop_incoming_quantity _ _ _ _ _ Hl).
Qed.

(** The theorem at the fourth order of scenario C: 12 of 15 filled. *)
Lemma X6_taker_conservation_witness :
  12 = filled_quantity buy_C + total_quantity trades_C.
Proof.
  refine (proj1 (X6_taker_conservation buy_C book_C3 trades_C
                   (mkOrder 4 100 BTC BUY 50003%float 15 12 PARTIALLY_FILLED)
                   _ _ _)).
  - vm_compute. repeat split; (discriminate || reflexivity).
  - vm_compute. reflexivity.
Defined.

(** ** What the match loop does to the stored orders *)

(** A property kept by every iteration holds when the loop returns. *)
Lemma match_loop_invariant (P : MatchState -> Prop) sym nc fuel : forall s s',
  (forall s0 s1, P s0 -> match_step sym nc s0 = Again s1 -> P s1) ->
  P s -> match_loop sym nc fuel s = Some s' -> P s'.
Proof.
  induction fuel as [|fuel IH]; intros s s' Hstep HP; simpl; [discriminate|].
  destruct (match_step sym nc s) as [s1|s1] eqn:Hs.
  - intros [= <-]. apply match_step_exit in Hs. subst s1. exact HP.
  - apply IH; [exact Hstep|]. eapply Hstep; eauto.
Qed.

(** An iteration writes to the order on top of the heap only. *)
Lemma match_step_writes_top sym nc s s1 p :
  match_step sym nc s = Again s1 ->
  PriorityQueue.top (ms_heap s) <> Some p ->
  ms_orders s1 !! p = ms_orders s !! p.
Proof.
  intros Hs Hp. pose proof (match_step_case sym nc s) as Hc. rewrite Hs in Hc.
  inversion Hc as [| | | | p0 q Hh _ _ _ top_order trade top']; subst;
    simpl; [reflexivity|].
  apply lookup_insert_ne. intros ->. apply Hp. rewrite Hh. reflexivity.
Qed.

(** The loop leaves every order outside its heap as it is. *)
Lemma match_loop_outside sym nc fuel s s' p :
  match_loop sym nc fuel s = Some s' ->
  ~ In p (ms_heap s) ->
  ms_orders s' !! p = ms_orders s !! p.
Proof.
  intros Hl Hp.
  apply (match_loop_invariant
           (fun s0 => ~ In p (ms_heap s0) /\
                      ms_orders s0 !! p = ms_orders s !! p)
           sym nc fuel s s'); [|auto|exact Hl].
  intros s0 s1 [Hn He] Hs. split.
  - intros Hin. apply Hn. eapply stable_heap; [eapply match_step_stable, Hs|].
    exact Hin.
  - rewrite <- He. eapply match_step_writes_top; [exact Hs|].
    intros Htop. apply Hn. destruct (ms_heap s0); simplify_eq/=. left.
    reflexivity.
Qed.

Lemma deref_ok m p : orders_ok m -> order_ok (deref m p).
Proof.
  intros Hok. unfold deref. destruct (m !! p) as [o|] eqn:E; simpl.
  - eapply Hok, E.
  - unfold order_ok. simpl. lia.
Qed.

Lemma orders_ok_insert m p o :
  orders_ok m -> order_ok o -> orders_ok (<[p := o]> m).
Proof.
  intros Hm Ho p' o'. rewrite lookup_insert. case_decide.
  - intros [= <-]. exact Ho.
  - apply Hm.
Qed.

Lemma quantity_against_cons p t trades :
  quantity_against p (t :: trades) =
    (if decide (maker_order_id t = p) then trade_quantity t else 0) +
    quantity_against p trades.
Proof.
  unfold quantity_against. rewrite filter_cons.
  case_decide; reflexivity.
Qed.

(** Each stored order is filled by exactly what the trades against it add
    up to, and every stored order keeps the data-model invariant. *)
Lemma match_loop_makers sym nc fuel : forall s s',
  match_loop sym nc fuel s = Some s' ->
  orders_ok (ms_orders s) ->
  (forall p, In p (ms_heap s) -> order_id (deref (ms_orders s) p) = p) ->
  exists new,
    ms_trades s' = ms_trades s ++ new /\
    orders_ok (ms_orders s') /\
    forall p, filled_quantity (deref (ms_orders s') p) =
              filled_quantity (deref (ms_orders s) p) + quantity_against p new.
Proof.
  induction fuel as [|fuel IH]; intros s s'; simpl; [discriminate|].
  pose proof (match_step_case sym nc s) as Hc.
  destruct (match_step sym nc s) as [s1|s1] eqn:Hs.
  { intros [= <-] Hok _. apply match_step_exit in Hs. subst s1.
    exists []. rewrite app_nil_r. split; [reflexivity|]. split; [exact Hok|].
    intros p. unfold quantity_against, total_quantity. simpl. lia. }
  intros Hl Hok Hids.
  pose proof (match_step_stable _ _ _ _ Hs) as Hst.
  assert (Hids1 : forall p, In p (ms_heap s1) ->
                            order_id (deref (ms_orders s1) p) = p).
  { intros p Hp. rewrite (stable_id _ _ Hst). apply Hids.
    apply (stable_heap _ _ Hst), Hp. }
  inversion Hc as [| | p0 q Hh _ Hcan | | p0 q Hh _ Hnc _ top_order trade top'];
    subst s1.
  - destruct (IH _ _ Hl Hok Hids1) as (new & H1 & H2 & H3). exists new. auto.
  - pose proof (make_trade_quantity_range sym s top_order) as (Hq0 & _ & Hq1).
    destruct (fill_within top_order (trade_quantity trade)
                (deref_ok _ p0 Hok) ltac:(split; assumption)) as [Hf Hok0].
    destruct (IH _ _ Hl) as (new & H1 & H2 & H3).
    { cbn [ms_orders]. apply orders_ok_insert; assumption. }
    { exact Hids1. }
    cbn [ms_orders ms_trades] in H1, H3.
    exists (trade :: new). split; [rewrite H1, <- app_assoc; reflexivity|].
    split; [exact H2|]. intros p. rewrite H3, quantity_against_cons.
    rewrite deref_insert.
    assert (Hmaker : maker_order_id trade = p0).
    { simpl. apply Hids. rewrite Hh. left. reflexivity. }
    rewrite Hmaker. destruct (decide (p0 = p)) as [Hpp|Hpp].
    + rewrite <- Hpp.
      fold top_order. unfold top'. rewrite Hf. lia.
    + lia.
Qed.

Lemma match_loop_wf_lookup sym nc fuel s s' p :
  match_loop sym nc fuel s = Some s' ->
  quantity (deref (ms_orders s') p) = quantity (deref (ms_orders s) p).
Proof.
  intros Hl.
  apply (match_loop_invariant
           (fun s0 => quantity (deref (ms_orders s0) p) =
                      quantity (deref (ms_orders s) p))
           sym nc fuel s s'); [|reflexivity|exact Hl].
  intros s0 s1 He Hs. rewrite <- He.
  pose proof (match_step_case sym nc s0) as Hc. rewrite Hs in Hc.
  inversion Hc; subst; simpl; [reflexivity|].
  rewrite deref_insert. case_decide; [|reflexivity].
  subst. apply fill_quantity.
Qed.

Lemma heap_ids b :
  book_inv b ->
  forall p, In p (bids_ b ++ asks_ b) -> order_id (deref (orders_ b) p) = p.
Proof.
  intros Hinv p Hp.
  assert (Hs : is_Some (orders_ b !! p)).
  { apply in_app_or in Hp as [Hp|Hp];
      [apply (inv_bids_backed _ Hinv)|apply (inv_asks_backed _ Hinv)];
      exact Hp. }
  destruct Hs as [o Ho]. unfold deref. rewrite Ho. simpl.
  eapply (inv_ids _ Hinv), Ho.
Qed.

Lemma resting_side_in order b p :
  In p (resting_side order b) -> In p (bids_ b ++ asks_ b).
Proof.
  unfold resting_side. intros Hp. apply in_or_app.
  destruct (is_buy order); auto.
Qed.

(** X7.  In a book that satisfies the invariants, each resting order is
    filled by exactly the quantity of the trades of the call that name it as
    maker: after [process_order] of an order with a fresh id, the record
    stored under [p] has its former filled quantity plus the sum of the
    quantities of the returned trades whose maker is [p], and it still
    satisfies [0 <= filled_quantity <= quantity]. *)
Theorem X7_maker_conservation order b trades order' b' :
  book_inv b -> orders_ok (orders_ b) ->
  order_ok order -> orders_ b !! order_id order = None ->
  process_order order b = Some (trades, order', b') ->
  orders_ok (orders_ b') /\
  forall p o, orders_ b !! p = Some o ->
    exists o',
      orders_ b' !! p = Some o' /\
      filled_quantity o' = filled_quantity o + quantity_against p trades /\
      quantity o' = quantity o.
Proof.
  intros Hinv Hok Hoko Hfresh Hp.
  unfold process_order in Hp. rewrite match_order_unfold in Hp.
  destruct (match_loop _ _ _ _) as [s'|] eqn:Hl; [|discriminate].
  injection Hp as <- <- <-.
  destruct (match_loop_incoming_filled _ _ _ _ _ Hl Hoko)
    as (new0 & _ & _ & Hoko' & _).
  destruct (match_loop_makers _ _ _ _ _ Hl Hok) as (new & H1 & H2 & H3).
  { intros p Hp. apply (heap_ids b Hinv), (resting_side_in order), Hp. }
  cbn [ms_trades ms_orders match_start] in H1, H3. simpl in H1.
  pose proof (match_loop_stable _ _ _ _ _ Hl) as Hst.
  assert (Horders : orders_ (clean_filled_orders
            (if negb (is_filled (ms_incoming s')) &&
                bool_decide (status (ms_incoming s') <> CANCELLED)
             then add_order_unlocked (ms_incoming s')
                    (if is_buy order
                     then mkOrderBook (symbol_ b) (ms_orders s') (bids_ b)
                            (ms_heap s') (ms_next_trade_id s')
                     else mkOrderBook (symbol_ b) (ms_orders s') (ms_heap s')
                            (asks_ b) (ms_next_trade_id s'))
             else if is_buy order
                  then mkOrderBook (symbol_ b) (ms_orders s') (bids_ b)
                         (ms_heap s') (ms_next_trade_id s')
                  else mkOrderBook (symbol_ b) (ms_orders s') (ms_heap s')
                         (asks_ b) (ms_next_trade_id s'))) =
          if negb (is_filled (ms_incoming s')) &&
             bool_decide (status (ms_incoming s') <> CANCELLED)
          then <[order_id order := ms_incoming s']> (ms_orders s')
          else ms_orders s').
  { unfold clean_filled_orders. simpl. destruct (_ && _).
    - rewrite add_order_unlocked_orders.
      rewrite (stable_incoming_id _ _ Hst). simpl.
      destruct (is_buy order); reflexivity.
    - destruct (is_buy order); reflexivity. }
  rewrite Horders. split.
  - destruct (_ && _); [apply orders_ok_insert; assumption|exact H2].
  - intros p o Ho.
    assert (Hne : p <> order_id order) by congruence.
    assert (Hs : is_Some (ms_orders s' !! p)).
    { apply (stable_dom _ _ Hst); [|simpl; eauto].
      intros p' Hp'. simpl in Hp'.
      unfold resting_side in Hp'.
      destruct (is_buy order);
        [apply (inv_asks_backed _ Hinv)|apply (inv_bids_backed _ Hinv)];
        exact Hp'. }
    destruct Hs as [o' Ho']. exists o'.
    split.
    + destruct (_ && _); [rewrite lookup_insert_ne by congruence|]; exact Ho'.
    + specialize (H3 p). unfold deref in H3. rewrite Ho', Ho in H3.
      simpl in H3. rewrite H1. split; [exact H3|].
      pose proof (match_loop_wf_lookup _ _ _ _ _ p Hl) as Hq.
      simpl in Hq. unfold deref in Hq. rewrite Ho', Ho in Hq. exact Hq.
Qed.

(** ** Liveness through the match loop *)

Lemma order_ok_open_remaining o :
  order_ok o -> is_filled o = false -> 0 < remaining_quantity o.
Proof.
  intros Hok Hf. rewrite (order_ok_remaining o Hok).
  unfold is_filled in Hf. rewrite Z.geb_leb in Hf. apply Z.leb_gt in Hf. lia.
Qed.

Lemma order_ok_filled_remaining o :
  order_ok o -> is_filled o = true -> remaining_quantity o = 0.
Proof.
  intros Hok Hf. rewrite (order_ok_remaining o Hok).
  unfold is_filled in Hf. rewrite Z.geb_leb in Hf. apply Z.leb_le in Hf.
  destruct Hok. lia.
Qed.

Lemma live_true o :
  live o = true <-> status o <> CANCELLED /\ is_filled o = false.
Proof.
  unfold live. rewrite andb_true_iff, bool_decide_eq_true, negb_true_iff.
  reflexivity.
Qed.

Lemma live_dead o : live o = negb (dead o).
Proof.
  unfold live, dead. destruct (is_filled o); simpl.
  - apply andb_false_r.
  - rewrite andb_true_r. repeat case_bool_decide; tauto || reflexivity.
Qed.

(** A fill does not bring a filled order back. *)
Lemma fill_keeps_filled o n :
  order_ok o -> 0 <= n -> is_filled o = true -> is_filled (fill n o) = true.
Proof.
  intros Hok Hn Hf. pose proof (order_ok_fill_filled o n Hok Hn) as Hq.
  pose proof (remaining_quantity_nonneg o).
  unfold is_filled in *. rewrite fill_quantity, Hq.
  rewrite Z.geb_leb in *. apply Z.leb_le in Hf. apply Z.leb_le. lia.
Qed.

Lemma match_step_loop_ok sym nc s0 s1 :
  loop_ok s0 -> match_step sym nc s0 = Again s1 -> loop_ok s1.
Proof.
  intros (Hnd & Hopen & Hok) Hs.
  pose proof (match_step_case sym nc s0) as Hc. rewrite Hs in Hc.
  inversion Hc as [| | p q Hh _ Hcan | | p q Hh _ Hnc _ top_order trade top'];
    subst s1; rewrite Hh in Hnd, Hopen; unfold loop_ok; simpl.
  - apply NoDup_cons in Hnd as [_ Hnd]. split; [exact Hnd|]. split; [|exact Hok].
    intros p' Hp'. apply Hopen. right. exact Hp'.
  - pose proof (make_trade_quantity_range sym s0 top_order) as (Hq0 & _ & Hq1).
    destruct (fill_within top_order (trade_quantity trade)
                (deref_ok _ p Hok) ltac:(split; assumption)) as [_ Hok0].
    apply NoDup_cons in Hnd as [Hnp Hnd].
    split; [|split].
    + destruct (is_filled top'); [exact Hnd|].
      apply NoDup_cons. auto.
    + destruct (is_filled top') eqn:Hf; intros p' Hp'.
      * rewrite deref_insert. case_decide as Hpp.
        { subst p'. exfalso. apply Hnp, list_elem_of_In, Hp'. }
        apply Hopen. right. exact Hp'.
      * rewrite deref_insert. case_decide as Hpp; [right; exact Hf|].
        apply Hopen. destruct Hp' as [?|?]; [congruence|right; assumption].
    + apply orders_ok_insert; assumption.
Qed.

(** With no filled entry in the heap, no trade is empty. *)
Lemma match_loop_positive sym nc fuel : forall s s',
  match_loop sym nc fuel s = Some s' -> loop_ok s ->
  exists new,
    ms_trades s' = ms_trades s ++ new /\
    Forall (fun t => 0 < trade_quantity t) new.
Proof.
  induction fuel as [|fuel IH]; intros s s'; simpl; [discriminate|].
  pose proof (match_step_case sym nc s) as Hc.
  destruct (match_step sym nc s) as [s1|s1] eqn:Hs.
  { intros [= <-] _. apply match_step_exit in Hs. subst s1.
    exists []. rewrite app_nil_r. auto. }
  intros Hl Hok.
  pose proof (match_step_loop_ok _ _ _ _ Hok Hs) as Hok1.
  destruct (IH _ _ Hl Hok1) as (new & H1 & H2).
  destruct Hok as (_ & Hopen & Hoks).
  inversion Hc as [| | p q Hh _ Hcan | | p q Hh Hri Hnc _ top_order trade top'];
    subst s1.
  - exists new. auto.
  - cbn [ms_trades] in H1.
    exists (trade :: new). split; [rewrite H1, <- app_assoc; reflexivity|].
    constructor; [|exact H2].
    assert (Hrt : 0 < remaining_quantity top_order).
    { apply order_ok_open_remaining; [apply deref_ok, Hoks|].
      destruct (Hopen p) as [Hc'|Hf]; [rewrite Hh; left; reflexivity| |exact Hf].
      contradiction. }
    simpl. lia.
Qed.

(** What the loop keeps of liveness: no dead order comes back, the entries
    it popped are dead, and no order changes side. *)
Lemma match_loop_liveness sym nc fuel s s' :
  match_loop sym nc fuel s = Some s' -> loop_ok s ->
  loop_ok s' /\
  (forall p, live (deref (ms_orders s') p) = true ->
             live (deref (ms_orders s) p) = true) /\
  (forall p, In p (ms_heap s) -> ~ In p (ms_heap s') ->
             live (deref (ms_orders s') p) = false) /\
  (forall p, side (deref (ms_orders s') p) = side (deref (ms_orders s) p)).
Proof.
  intros Hl Hok.
  apply (match_loop_invariant
    (fun s0 =>
       loop_ok s0 /\
       (forall p, live (deref (ms_orders s0) p) = true ->
                  live (deref (ms_orders s) p) = true) /\
       (forall p, In p (ms_heap s) -> ~ In p (ms_heap s0) ->
                  live (deref (ms_orders s0) p) = false) /\
       (forall p, side (deref (ms_orders s0) p) = side (deref (ms_orders s) p)))
    sym nc fuel s s'); [|auto|exact Hl].
  - intros s0 s1 (Hok0 & Hmono & Hpop & Hside) Hs.
    pose proof (match_step_loop_ok _ _ _ _ Hok0 Hs) as Hok1.
    split; [exact Hok1|].
    destruct Hok0 as (Hnd & Hopen & Hoks).
    pose proof (match_step_case sym nc s0) as Hc. rewrite Hs in Hc.
    inversion Hc as [| | p0 q Hh _ Hcan | | p0 q Hh _ Hnc _ top_order trade top'];
      subst s1; rewrite Hh in Hnd; apply NoDup_cons in Hnd as [Hnp Hnd];
      cbn [ms_orders ms_heap].
    + split; [exact Hmono|]. split; [|exact Hside].
      intros p Hp Hnq. destruct (decide (p = p0)) as [->|Hne].
      * apply not_true_is_false. rewrite live_true. tauto.
      * apply Hpop; [exact Hp|]. rewrite Hh. intros [?|?]; [congruence|tauto].
    + pose proof (make_trade_quantity_range sym s0 top_order) as (Hq0 & _ & Hq1).
      split; [|split].
      * intros p. rewrite deref_insert. case_decide as Hpp; [|apply Hmono].
        subst p. intros Hlive. apply Hmono. apply live_true in Hlive as [_ Hf].
        apply live_true. split; [exact Hnc|]. fold top_order.
        destruct (is_filled top_order) eqn:E; [|reflexivity].
        pose proof (fill_keeps_filled top_order _ (deref_ok _ p0 Hoks) Hq0 E)
          as Hk.
        fold trade in Hk. fold top' in Hk. congruence.
      * intros p Hp Hnq. rewrite deref_insert. case_decide as Hpp.
        { subst p. destruct (is_filled top') eqn:Hf.
          - apply not_true_is_false. rewrite live_true. intros [_ ?]. congruence.
          - exfalso. apply Hnq. left. reflexivity. }
        apply Hpop; [exact Hp|]. rewrite Hh. intros [?|Hq]; [congruence|].
        apply Hnq. destruct (is_filled top'); [exact Hq|right; exact Hq].
      * intros p. rewrite deref_insert. case_decide as Hpp; [|apply Hside].
        subst p. unfold top'. rewrite fill_side. apply Hside.
  - split; [exact Hok|]. split; [auto|]. split; [|auto].
    intros p Hp Hn. contradiction.
Qed.

(** How the loop ends: the incoming order is exhausted, or the heap is
    empty, or the order on top is not cancelled and fails the price test. *)
Lemma match_loop_exit sym nc fuel : forall s s',
  match_loop sym nc fuel s = Some s' ->
  remaining_quantity (ms_incoming s') = 0 \/
  ms_heap s' = [] \/
  exists p q,
    ms_heap s' = p :: q /\
    status (deref (ms_orders s') p) <> CANCELLED /\
    nc (ms_incoming s') (deref (ms_orders s') p) = true.
Proof.
  induction fuel as [|fuel IH]; intros s s'; simpl; [discriminate|].
  pose proof (match_step_case sym nc s) as Hc.
  destruct (match_step sym nc s) as [s1|s1] eqn:Hs; [|apply IH].
  intros [= <-]. pose proof (match_step_exit _ _ _ _ Hs) as Hss.
  rewrite Hss in Hc |- *.
  inversion Hc as [Hh Heq|p q Hh Hr Heq| |p q Hh Hr Hnc Hb Heq|].
  - auto.
  - left. pose proof (remaining_quantity_nonneg (ms_incoming s)). lia.
  - right. right. eauto.
Qed.

(** ** The book after [process_order] *)

Lemma match_loop_incoming_side sym nc fuel s s' :
  match_loop sym nc fuel s = Some s' ->
  side (ms_incoming s') = side (ms_incoming s).
Proof.
  intros Hl.
  apply (match_loop_invariant
           (fun s0 => side (ms_incoming s0) = side (ms_incoming s))
           sym nc fuel s s'); [|reflexivity|exact Hl].
  intros s0 s1 He Hs. rewrite <- He.
  pose proof (match_step_case sym nc s0) as Hc. rewrite Hs in Hc.
  inversion Hc; subst; simpl; [reflexivity|apply fill_side].
Qed.

Lemma clean_heap_keeps_live m q p :
  In p q -> dead (deref m p) = false -> In p (clean_heap m q).
Proof.
  induction q as [|z q IH]; simpl; [tauto|].
  intros Hin Hd. destruct (dead (deref m z)) eqn:E.
  - destruct Hin as [->|Hin]; [congruence|]. apply IH; assumption.
  - exact Hin.
Qed.

Lemma clean_heap_In m q p : In p (clean_heap m q) -> In p q.
Proof.
  destruct (clean_heap_suffix m q) as [l Hl]. intros Hp. rewrite Hl.
  apply in_or_app. right. exact Hp.
Qed.

Lemma push_Permutation {A} (comp : A -> A -> bool) x q :
  PriorityQueue.push comp x q ≡ₚ x :: q.
Proof.
  induction q as [|z q IH]; simpl; [reflexivity|].
  destruct (comp z x); [reflexivity|]. rewrite IH. apply Permutation_swap.
Qed.

(** The result of [process_order] written with the final loop state: what
    the map holds, and what the two heaps are, the heap the order was matched
    against and the heap of its own side. *)
Lemma process_order_shape order b trades order' b' :
  process_order order b = Some (trades, order', b') ->
  exists s' comp,
    match_loop (symbol_ b) (no_cross_of order)
      (match_fuel (resting_side order b)) (match_start order b) = Some s' /\
    trades = ms_trades s' /\ order' = ms_incoming s' /\
    order_id order' = order_id order /\ side order' = side order /\
    price order' = price order /\
    orders_ b' =
      (if negb (is_filled order') && bool_decide (status order' <> CANCELLED)
       then <[order_id order := order']> (ms_orders s') else ms_orders s') /\
    resting_side order b' = clean_heap (orders_ b') (ms_heap s') /\
    own_side order b' =
      clean_heap (orders_ b')
        (if negb (is_filled order') && bool_decide (status order' <> CANCELLED)
         then PriorityQueue.push comp (order_id order) (own_side order b)
         else own_side order b).
Proof.
  unfold process_order. rewrite match_order_unfold.
  destruct (match_loop _ _ _ _) as [s'|] eqn:Hl; [|discriminate].
  intros [= <- <- <-].
  pose proof (match_loop_incoming_id _ _ _ _ _ Hl) as Hid.
  pose proof (match_loop_incoming_side _ _ _ _ _ Hl) as Hside.
  pose proof (stable_incoming_price _ _ (match_loop_stable _ _ _ _ _ Hl)) as Hpr.
  simpl in Hid, Hside, Hpr.
  assert (Hbuy : is_buy (ms_incoming s') = is_buy order).
  { unfold is_buy. rewrite Hside. reflexivity. }
  exists s', (if is_buy order
              then bid_comp (<[order_id order := ms_incoming s']> (ms_orders s'))
              else ask_comp (<[order_id order := ms_incoming s']> (ms_orders s'))).
  split; [reflexivity|]. split; [reflexivity|]. split; [reflexivity|].
  split; [exact Hid|]. split; [exact Hside|]. split; [exact Hpr|].
  unfold clean_filled_orders, add_order_unlocked, resting_side, own_side.
  rewrite Hbuy, Hid.
  destruct (_ && _); destruct (is_buy order); simpl; auto.
Qed.

Lemma sides_In order b p :
  In p (bids_ b ++ asks_ b) <->
  In p (own_side order b) \/ In p (resting_side order b).
Proof.
  unfold own_side, resting_side. rewrite in_app_iff.
  destruct (is_buy order); tauto.
Qed.

Lemma sides_NoDup order b :
  NoDup (bids_ b ++ asks_ b) <->
  NoDup (own_side order b ++ resting_side order b).
Proof.
  unfold own_side, resting_side. destruct (is_buy order); [reflexivity|].
  split; intros H; apply NoDup_app; apply NoDup_app in H as (H1 & H2 & H3);
    (split; [exact H3|split; [|exact H1]]);
    intros x Hx Hx'; exact (H2 x Hx' Hx).
Qed.

Lemma suffix_sublist {A} (l q q' : list A) : q = l ++ q' -> q' `sublist_of` q.
Proof. intros ->. apply sublist_inserts_l. reflexivity. Qed.

Lemma process_order_not_cancelled order b trades order' b' :
  process_order order b = Some (trades, order', b') ->
  status order <> CANCELLED -> status order' <> CANCELLED.
Proof.
  intros Hp Hst.
  destruct (process_order_shape _ _ _ _ _ Hp) as (s' & comp & Hl & _ & -> & _).
  apply (match_loop_invariant
           (fun s0 => status (ms_incoming s0) <> CANCELLED)
           _ _ _ _ _) with (3 := Hl); [|exact Hst].
  intros s0 s1 He Hs.
  pose proof (match_step_case (symbol_ b) (no_cross_of order) s0) as Hc.
  rewrite Hs in Hc.
  inversion Hc; subst; simpl; [exact He|apply fill_not_cancelled, He].
Qed.

(** When the destroyed order still reads as filled, [submit_order_reading]
    is [submit_order]. *)
Lemma submit_order_reading_true client sym s p q e :
  submit_order_reading true client sym s p q e = submit_order client sym s p q e.
Proof.
  unfold submit_order_reading, submit_order.
  destruct (get_or_create_book sym (order_books_ e)) as [book bs].
  destruct (process_order _ book) as [[[trades order'] book']|] eqn:Hp;
    [|reflexivity].
  apply process_order_not_cancelled in Hp; [|discriminate].
  destruct (is_filled order'); simpl; [reflexivity|].
  rewrite bool_decide_eq_true_2 by exact Hp. reflexivity.
Qed.

(** An order that rests is read from [orders_]: the value of the dangling
    read plays no part. *)
Lemma submit_order_reading_rests freed client sym s p q e id trades e' :
  submit_order client sym s p q e = Some (id, trades, e') ->
  (forall order' book',
     process_order (Order_new (next_order_id_ e) client sym s p q)
                   (book_of sym e) = Some (trades, order', book') ->
     is_filled order' = false) ->
  submit_order_reading freed client sym s p q e = Some (id, trades, e').
Proof.
  unfold submit_order_reading, submit_order, book_of, get_or_create_book.
  destruct (order_books_ e !! sym) as [b0|]; simpl;
    destruct (process_order _ _) as [[[trades0 order'] book']|] eqn:Hp;
    try discriminate; intros He Hf;
    pose proof (process_order_not_cancelled _ _ _ _ _ Hp) as Hc;
    injection He as <- <- <-;
    rewrite (Hf _ _ eq_refl), bool_decide_eq_true_2 by (apply Hc; discriminate);
    reflexivity.
Qed.

(** ** Heaps in delivery order, against their top *)

Lemma deref_lookup m p o : m !! p = Some o -> deref m p = o.
Proof. intros H. unfold deref. rewrite H. reflexivity. Qed.

(** In a heap of asks in delivery order, no price is below the top's. *)
Lemma asks_above_top m t rest pa x :
  delivery_order (ask_comp m) (t :: rest) -> In pa (t :: rest) ->
  ordered (price (deref m pa)) ->
  PrimFloat.ltb x (price (deref m t)) = true ->
  PrimFloat.ltb x (price (deref m pa)) = true.
Proof.
  intros Hs Hin Hpa Hlt. destruct Hin as [<-|Hin]; [exact Hlt|].
  apply StronglySorted_inv in Hs as [_ Hall]. rewrite Forall_forall in Hall.
  specialize (Hall pa (proj2 (list_elem_of_In _ _) Hin)). simpl in Hall.
  unfold ask_comp in Hall.
  apply ltb_key in Hlt as (Hx & Ht & Hlt). apply ltb_key.
  split; [exact Hx|]. split; [exact Hpa|].
  destruct (key_total (float_key (price (deref m pa)))
                      (float_key (price (deref m t)))) as [H|[H|H]].
  - exfalso.
    assert (SellOrderComparator (deref m t) (deref m pa) = true).
    { apply SellOrderComparator_below. unfold below_ask. auto. }
    congruence.
  - rewrite H. exact Hlt.
  - eapply key_lt_trans; eauto.
Qed.

(** In a heap of bids in delivery order, no price is above the top's. *)
Lemma bids_below_top m t rest pb x :
  delivery_order (bid_comp m) (t :: rest) -> In pb (t :: rest) ->
  ordered (price (deref m pb)) ->
  PrimFloat.ltb (price (deref m t)) x = true ->
  PrimFloat.ltb (price (deref m pb)) x = true.
Proof.
  intros Hs Hin Hpb Hlt. destruct Hin as [<-|Hin]; [exact Hlt|].
  apply StronglySorted_inv in Hs as [_ Hall]. rewrite Forall_forall in Hall.
  specialize (Hall pb (proj2 (list_elem_of_In _ _) Hin)). simpl in Hall.
  unfold bid_comp in Hall.
  apply ltb_key in Hlt as (Ht & Hx & Hlt). apply ltb_key.
  split; [exact Hpb|]. split; [exact Hx|].
  destruct (key_total (float_key (price (deref m pb)))
                      (float_key (price (deref m t)))) as [H|[H|H]].
  - eapply key_lt_trans; eauto.
  - rewrite H. exact Hlt.
  - exfalso.
    assert (BuyOrderComparator (deref m t) (deref m pb) = true).
    { apply BuyOrderComparator_below. unfold below_bid. auto. }
    congruence.
Qed.

Lemma deref_ordered m p :
  prices_ordered m -> ordered (price (deref m p)).
Proof.
  intros Hm. unfold deref. destruct (m !! p) as [o|] eqn:E; simpl.
  - eapply Hm, E.
  - vm_compute. discriminate.
Qed.

(** ** What [process_order] does to a sound book *)

Lemma loop_ok_start order b :
  book_sound b -> loop_ok (match_start order b).
Proof.
  intros Hb. unfold loop_ok, match_start. simpl.
  pose proof (sound_nodup _ Hb) as Hn. apply (sides_NoDup order) in Hn.
  apply NoDup_app in Hn as (_ & _ & Hn).
  split; [exact Hn|]. split; [|apply Hb].
  intros p Hp. apply (sound_open _ Hb). apply resting_side_in in Hp. exact Hp.
Qed.

Lemma fresh_not_in_heap b id p :
  book_inv b -> orders_ b !! id = None -> In p (bids_ b ++ asks_ b) -> p <> id.
Proof.
  intros Hi Hn Hp ->. apply in_app_or in Hp as [Hp|Hp].
  - apply (inv_bids_backed _ Hi) in Hp as [o Ho]. congruence.
  - apply (inv_asks_backed _ Hi) in Hp as [o Ho]. congruence.
Qed.

(** What the book-level proofs need of a call of [process_order] on a sound
    book, in terms of the side the order rests on and the side it matches
    against. *)
Lemma process_order_facts order b trades order' b' :
  book_sound b -> order_ok order -> orders_ b !! order_id order = None ->
  process_order order b = Some (trades, order', b') ->
  exists s' q,
    let rests := negb (is_filled order') && bool_decide (status order' <> CANCELLED) in
    match_loop (symbol_ b) (no_cross_of order)
      (match_fuel (resting_side order b)) (match_start order b) = Some s' /\
    loop_ok s' /\
    trades = ms_trades s' /\ order' = ms_incoming s' /\
    order_id order' = order_id order /\ side order' = side order /\
    price order' = price order /\ order_ok order' /\
    (forall p, p <> order_id order ->
       orders_ b' !! p = ms_orders s' !! p) /\
    orders_ b' !! order_id order = (if rests then Some order' else None) /\
    resting_side order b' = clean_heap (orders_ b') (ms_heap s') /\
    own_side order b' = clean_heap (orders_ b') q /\
    (forall p, In p q <-> (rests = true /\ p = order_id order) \/ In p (own_side order b)) /\
    NoDup (q ++ ms_heap s') /\
    (forall p, In p (own_side order b) ->
       ms_orders s' !! p = orders_ b !! p) /\
    step_stable (match_start order b) s'.
Proof.
  intros Hb Hok Hfresh Hp.
  destruct (process_order_shape _ _ _ _ _ Hp)
    as (s' & comp & Hl & Ht & Ho & Hid & Hside & Hprice & Hm & Hr & Hown).
  pose proof (sound_inv _ Hb) as Hi.
  pose proof (loop_ok_start order b Hb) as Hs0.
  destruct (match_loop_liveness _ _ _ _ _ Hl Hs0) as (Hs' & _).
  pose proof (match_loop_stable _ _ _ _ _ Hl) as Hst.
  destruct (match_loop_incoming_filled _ _ _ _ _ Hl Hok) as (new & _ & _ & Hok' & _).
  rewrite <- Ho in Hok'.
  set (rests := negb (is_filled order') && bool_decide (status order' <> CANCELLED)) in *.
  exists s', (if rests then PriorityQueue.push comp (order_id order) (own_side order b)
              else own_side order b).
  cbv zeta. fold rests.
  assert (Hout : forall p, In p (own_side order b) ->
            ms_orders s' !! p = orders_ b !! p).
  { intros p Hp'. apply (match_loop_outside _ _ _ _ _ _ Hl). simpl.
    pose proof (sound_nodup _ Hb) as Hn. apply (sides_NoDup order) in Hn.
    apply NoDup_app in Hn as (_ & Hn & _).
    intros Hin. apply (Hn p); apply list_elem_of_In; assumption. }
  assert (Hfr : ms_orders s' !! order_id order = None).
  { rewrite (match_loop_outside _ _ _ _ _ _ Hl); [exact Hfresh|]. simpl.
    intros Hin. apply resting_side_in in Hin.
    exact (fresh_not_in_heap _ _ _ Hi Hfresh Hin eq_refl). }
  do 8 (split; [assumption|]).
  split.
  { intros p Hne. rewrite Hm. destruct rests; [|reflexivity].
    rewrite lookup_insert_ne; [reflexivity|congruence]. }
  split.
  { rewrite Hm. destruct rests; [apply lookup_insert_eq|exact Hfr]. }
  do 2 (split; [assumption|]).
  split.
  { intros p. destruct rests; [rewrite In_push|]; intuition congruence. }
  split; [|split; assumption].
  - pose proof (sound_nodup _ Hb) as Hn. apply (sides_NoDup order) in Hn.
    destruct (stable_suffix _ _ Hst) as [l Hsuf]. simpl in Hsuf.
    assert (Hsub : own_side order b ++ ms_heap s' `sublist_of`
                   own_side order b ++ resting_side order b).
    { apply sublist_app; [reflexivity|]. eapply suffix_sublist, Hsuf. }
    pose proof (sublist_NoDup _ _ Hn Hsub) as Hn'.
    destruct rests; [|exact Hn'].
    rewrite (push_Permutation comp (order_id order) (own_side order b)).
    simpl. apply NoDup_cons. split; [|exact Hn'].
    intros Hin. apply list_elem_of_In, in_app_or in Hin.
    assert (Hin' : In (order_id order) (bids_ b ++ asks_ b)).
    { apply (sides_In order). destruct Hin as [Hin|Hin]; [left; exact Hin|].
      right. rewrite Hsuf. apply in_or_app. right. exact Hin. }
    exact (fresh_not_in_heap _ _ _ Hi Hfresh Hin' eq_refl).
Qed.

(** ** The book as seen from an incoming order

    The soundness conditions on [bids_] and [asks_], restated for the side
    an order rests on and the side it is matched against. *)

Lemma side_cases (s : Side) : s = BUY \/ s = SELL.
Proof. destruct s; auto. Qed.

Lemma sides_ok_view order b :
  sides_ok b <->
  (forall p, In p (own_side order b) -> side (deref (orders_ b) p) = side order) /\
  (forall p, In p (resting_side order b) -> side (deref (orders_ b) p) <> side order).
Proof.
  unfold sides_ok, own_side, resting_side, is_buy.
  destruct (side_cases (side order)) as [E|E]; rewrite E;
    case_bool_decide; try congruence.
  - split; intros [H1 H2]; split; intros p Hp.
    + apply H1, Hp.
    + rewrite (H2 p Hp). discriminate.
    + apply H1, Hp.
    + specialize (H2 p Hp). destruct (side (deref (orders_ b) p)); congruence.
  - split; intros [H1 H2]; split; intros p Hp.
    + apply H2, Hp.
    + rewrite (H1 p Hp). discriminate.
    + specialize (H2 p Hp). destruct (side (deref (orders_ b) p)); congruence.
    + apply H1, Hp.
Qed.

Lemma live_indexed_view order b :
  live_indexed b <->
  forall p o, orders_ b !! p = Some o -> live o = true ->
    In p (if bool_decide (side o = side order)
          then own_side order b else resting_side order b).
Proof.
  unfold live_indexed, own_side, resting_side, is_buy.
  destruct (side_cases (side order)) as [E|E]; rewrite E;
    split; intros H p o Ho Hl; specialize (H p o Ho Hl);
    destruct (side_cases (side o)) as [E'|E']; rewrite E' in *;
    repeat (case_bool_decide; try congruence).
Qed.

Lemma uncrossed_view order b :
  uncrossed b <->
  forall po pr, In po (own_side order b) -> In pr (resting_side order b) ->
    live (deref (orders_ b) po) = true -> live (deref (orders_ b) pr) = true ->
    no_cross_of order (deref (orders_ b) po) (deref (orders_ b) pr) = true.
Proof.
  unfold uncrossed, own_side, resting_side, no_cross_of, buy_no_cross, sell_no_cross.
  destruct (is_buy order); split; intros H; intros; apply H; assumption.
Qed.

(** No entry of the resting side is priced better than its top. *)
Lemma resting_beyond_top order b t rest pr x :
  book_inv b -> prices_ordered (orders_ b) ->
  resting_side order b = t :: rest -> In pr (t :: rest) ->
  no_cross_of order x (deref (orders_ b) t) = true ->
  no_cross_of order x (deref (orders_ b) pr) = true.
Proof.
  intros Hi Hp. unfold resting_side, no_cross_of, buy_no_cross, sell_no_cross.
  destruct (is_buy order); intros Hr Hin Hx.
  - eapply asks_above_top; eauto using deref_ordered.
    rewrite <- Hr. apply Hi.
  - eapply bids_below_top; eauto using deref_ordered.
    rewrite <- Hr. apply Hi.
Qed.

(** ** Status and fill level *)

Lemma fill_status_ok o n :
  order_ok o -> 0 < n -> 0 < remaining_quantity o -> status_ok (fill n o).
Proof.
  intros Hok Hn Hr.
  pose proof (order_ok_fill_filled o n Hok ltac:(lia)) as Hf.
  pose proof (fill_order_ok o n Hok ltac:(lia)) as [Hok1 Hok2].
  rewrite fill_quantity in Hok1, Hok2. destruct Hok as [[Hf0 _] _].
  unfold status_ok. rewrite fill_status, fill_quantity.
  unfold is_filled. rewrite fill_quantity.
  destruct (_ >=? _) eqn:E.
  - rewrite Z.geb_leb in E. apply Z.leb_le in E. lia.
  - rewrite Z.geb_leb in E. apply Z.leb_gt in E.
    destruct (_ >? _) eqn:E2.
    + rewrite Z.gtb_ltb in E2. apply Z.ltb_lt in E2. lia.
    + rewrite Z.gtb_ltb in E2. apply Z.ltb_ge in E2. lia.
Qed.

Lemma match_step_statuses sym nc s0 s1 :
  loop_ok s0 /\ order_ok (ms_incoming s0) /\ status_ok (ms_incoming s0) /\
    statuses_ok (ms_orders s0) /\ heap_backed (ms_orders s0) (ms_heap s0) ->
  match_step sym nc s0 = Again s1 ->
  loop_ok s1 /\ order_ok (ms_incoming s1) /\ status_ok (ms_incoming s1) /\
    statuses_ok (ms_orders s1) /\ heap_backed (ms_orders s1) (ms_heap s1).
Proof.
  intros (Hok & Hio & Hist & Hst & Hbk) Hs.
  split; [exact (match_step_loop_ok _ _ _ _ Hok Hs)|].
  pose proof (match_step_case sym nc s0) as Hc. rewrite Hs in Hc.
  destruct Hok as (_ & Hopen & Hoks).
  inversion Hc as [| | p q Hh _ Hcan | | p q Hh Hri Hnc _ top_order trade top'];
    subst s1; simpl.
  - do 3 (split; [assumption|]). intros p' Hp'. apply Hbk. rewrite Hh. right. exact Hp'.
  - assert (Hrt : 0 < remaining_quantity top_order).
    { apply order_ok_open_remaining; [apply deref_ok, Hoks|].
      destruct (Hopen p) as [Hc'|Hf]; [rewrite Hh; left; reflexivity| |exact Hf].
      contradiction. }
    assert (Hq : 0 < trade_quantity trade) by (simpl; lia).
    destruct (Hbk p) as [o Ho]; [rewrite Hh; left; reflexivity|].
    split; [apply fill_order_ok; [exact Hio|lia]|].
    split; [apply fill_status_ok; assumption|].
    split.
    + intros p' o'. rewrite lookup_insert. case_decide.
      * intros [= <-]. split.
        -- apply fill_status_ok; [apply deref_ok, Hoks|exact Hq|exact Hrt].
        -- unfold top'. rewrite fill_quantity. unfold top_order.
           rewrite (deref_lookup _ _ _ Ho). apply (Hst _ _ Ho).
      * apply Hst.
    + intros p' Hp'. rewrite lookup_insert. case_decide; [eauto|].
      apply Hbk. rewrite Hh. destruct (is_filled top'); [right|]; exact Hp'.
Qed.

(** [process_order] keeps status and fill level in agreement, for the orders
    of the book and for the incoming one. *)
Lemma process_order_statuses order b trades order' b' :
  book_sound b -> statuses_ok (orders_ b) ->
  order_ok order -> status_ok order ->
  process_order order b = Some (trades, order', b') ->
  statuses_ok (orders_ b') /\ status_ok order'.
Proof.
  intros Hb Hst Hok Hso Hp.
  destruct (process_order_shape _ _ _ _ _ Hp)
    as (s' & comp & Hl & _ & Ho & _ & _ & _ & Hm & _).
  assert (HP : loop_ok s' /\ order_ok (ms_incoming s') /\
               status_ok (ms_incoming s') /\ statuses_ok (ms_orders s') /\
               heap_backed (ms_orders s') (ms_heap s')).
  { apply (match_loop_invariant _ _ _ _ _ _ (match_step_statuses _ _)) in Hl;
      [exact Hl|].
    split; [apply loop_ok_start, Hb|]. simpl. do 3 (split; [assumption|]).
    unfold resting_side. destruct (is_buy order); apply Hb. }
  destruct HP as (_ & Hok' & Hso' & Hst' & _). rewrite <- Ho in Hok', Hso'.
  split; [|exact Hso'].
  rewrite Hm. destruct (negb (is_filled order')) eqn:Hf; simpl; [|exact Hst'].
  destruct (bool_decide _); [|exact Hst'].
  intros p o. rewrite lookup_insert. case_decide; [|apply Hst'].
  intros [= <-]. split; [exact Hso'|].
  unfold is_filled in Hf. destruct (_ >=? _) eqn:E; [discriminate|].
  rewrite Z.geb_leb in E. apply Z.leb_gt in E. destruct Hok' as [[? ?] ?]. lia.
Qed.

Lemma book_cancel_order_statuses id b :
  statuses_ok (orders_ b) -> statuses_ok (orders_ (snd (book_cancel_order id b))).
Proof.
  intros Hst. unfold book_cancel_order.
  destruct (orders_ b !! id) as [o|] eqn:Ho; simpl; [|exact Hst].
  intros p o'. rewrite lookup_insert. case_decide; [|apply Hst].
  intros [= <-]. split; [exact I|]. apply (Hst _ _ Ho).
Qed.

(** ** [process_order] keeps the book sound *)

Lemma live_deref_lookup m p :
  live (deref m p) = true -> m !! p = Some (deref m p).
Proof.
  unfold deref. destruct (m !! p) as [o|]; simpl; [reflexivity|].
  vm_compute. discriminate.
Qed.

Lemma no_cross_of_price order a a' c c' :
  price a = price a' -> price c = price c' ->
  no_cross_of order a c = no_cross_of order a' c'.
Proof.
  intros Ha Hc. unfold no_cross_of, buy_no_cross, sell_no_cross.
  destruct (is_buy order); rewrite Ha, Hc; reflexivity.
Qed.

Lemma clean_heap_sublist m q : clean_heap m q `sublist_of` q.
Proof.
  destruct (clean_heap_suffix m q) as [l Hl]. eapply suffix_sublist, Hl.
Qed.

Lemma process_order_sound order b trades order' b' :
  book_sound b -> order_ok order -> ordered (price order) ->
  orders_ b !! order_id order = None ->
  process_order order b = Some (trades, order', b') ->
  book_sound b' /\ Forall (fun t => 0 < trade_quantity t) trades.
Proof.
  intros Hb Hok Hord Hfresh Hp.
  destruct (process_order_facts _ _ _ _ _ Hb Hok Hfresh Hp)
    as (s' & q & Hl & Hs' & Htr & Ho & Hid & Hside & Hprice & Hok' & Hne & Hnew
        & Hr & Hown & Hq & Hnd & Hout & Hst).
  cbv zeta in *.
  set (rests := negb (is_filled order') && bool_decide (status order' <> CANCELLED)) in *.
  pose proof (sound_inv _ Hb) as Hi.
  destruct (match_loop_liveness _ _ _ _ _ Hl (loop_ok_start order b Hb))
    as (_ & Hmono & Hpop & Hsd).
  simpl in Hmono, Hpop, Hsd.
  destruct (process_order_inv _ _ _ _ _ Hi Hfresh Hp) as [Hi' _].
  assert (D1 : forall p, p <> order_id order ->
            deref (orders_ b') p = deref (ms_orders s') p).
  { intros p Hpn. unfold deref. rewrite Hne by exact Hpn. reflexivity. }
  assert (D2 : rests = true -> deref (orders_ b') (order_id order) = order').
  { intros Hre. unfold deref. rewrite Hnew, Hre. reflexivity. }
  assert (D3 : forall p, In p (own_side order b) \/ In p (resting_side order b) ->
            p <> order_id order).
  { intros p Hin. apply (sides_In order) in Hin.
    exact (fresh_not_in_heap _ _ _ Hi Hfresh Hin). }
  assert (D4 : forall p, In p (ms_heap s') -> In p (resting_side order b)).
  { intros p Hin. exact (stable_heap _ _ Hst p Hin). }
  assert (D5 : forall p, In p (own_side order b) ->
            deref (orders_ b') p = deref (orders_ b) p).
  { intros p Hin. rewrite D1 by (apply D3; auto). unfold deref.
    rewrite Hout by exact Hin. reflexivity. }
  assert (Hprices : prices_ordered (orders_ b')).
  { intros p o Hpo. destruct (decide (p = order_id order)) as [->|Hpn].
    - rewrite Hnew in Hpo. destruct rests; [|discriminate].
      injection Hpo as <-. rewrite Hprice. exact Hord.
    - rewrite Hne in Hpo by exact Hpn.
      rewrite <- (deref_lookup _ _ _ Hpo), (stable_price _ _ Hst p). simpl.
      apply deref_ordered, Hb. }
  split; [|rewrite Htr;
           destruct (match_loop_positive _ _ _ _ _ Hl (loop_ok_start order b Hb))
             as (new & Hnw & Hall); simpl in Hnw; rewrite Hnw; exact Hall].
  split.
  - exact Hi'.
  - intros p o Hpo. destruct (decide (p = order_id order)) as [->|Hpn].
    + rewrite Hnew in Hpo. destruct rests; [|discriminate].
      injection Hpo as <-. exact Hok'.
    + rewrite Hne in Hpo by exact Hpn. destruct Hs' as (_ & _ & Hoks).
      eapply Hoks, Hpo.
  - exact Hprices.
  - apply (sides_NoDup order). rewrite Hown, Hr.
    eapply sublist_NoDup; [exact Hnd|].
    apply sublist_app; apply clean_heap_sublist.
  - intros p Hin. apply (sides_In order) in Hin. destruct Hin as [Hin|Hin].
    + rewrite Hown in Hin. apply clean_heap_In, Hq in Hin.
      destruct Hin as [[Hre ->]|Hin].
      * rewrite (D2 Hre). right. unfold rests in Hre.
        apply andb_prop in Hre as [Hf _]. destruct (is_filled order'); [discriminate|reflexivity].
      * rewrite (D5 p Hin). apply (sound_open _ Hb), (sides_In order). auto.
    + rewrite Hr in Hin. apply clean_heap_In in Hin.
      rewrite D1 by (apply D3; auto). destruct Hs' as (_ & Hop & _).
      apply Hop, Hin.
  - apply (sides_ok_view order).
    destruct (proj1 (sides_ok_view order b) (sound_sides _ Hb)) as [Ho1 Ho2].
    split; intros p Hin.
    + rewrite Hown in Hin. apply clean_heap_In, Hq in Hin.
      destruct Hin as [[Hre ->]|Hin].
      * rewrite (D2 Hre). exact Hside.
      * rewrite (D5 p Hin). apply Ho1, Hin.
    + rewrite Hr in Hin. apply clean_heap_In in Hin.
      rewrite D1 by (apply D3; auto). rewrite Hsd. apply Ho2, D4, Hin.
  - apply (live_indexed_view order). intros p o Hpo Hlive.
    assert (Hdd : dead (deref (orders_ b') p) = false).
    { rewrite (deref_lookup _ _ _ Hpo). rewrite live_dead in Hlive.
      destruct (dead o); [discriminate|reflexivity]. }
    destruct (decide (p = order_id order)) as [->|Hpn].
    + rewrite Hnew in Hpo. destruct rests eqn:Hre; [|discriminate].
      injection Hpo as <-. rewrite Hside.
      rewrite bool_decide_eq_true_2 by reflexivity.
      rewrite Hown. apply clean_heap_keeps_live; [|exact Hdd].
      apply Hq. left. auto.
    + rewrite Hne in Hpo by exact Hpn.
      pose proof (deref_lookup _ _ _ Hpo) as Hd.
      assert (Hl0 : live (deref (orders_ b) p) = true).
      { apply Hmono. rewrite Hd. exact Hlive. }
      pose proof (proj1 (live_indexed_view order b) (sound_indexed _ Hb)
                    p _ (live_deref_lookup _ _ Hl0) Hl0) as Hin.
      rewrite <- (Hsd p), Hd in Hin.
      destruct (bool_decide (side o = side order)).
      * rewrite Hown. apply clean_heap_keeps_live; [|exact Hdd].
        apply Hq. right. exact Hin.
      * rewrite Hr. apply clean_heap_keeps_live; [|exact Hdd].
        destruct (in_dec Z.eq_dec p (ms_heap s')) as [Hy|Hn]; [exact Hy|].
        specialize (Hpop p Hin Hn). rewrite Hd in Hpop. congruence.
  - apply (uncrossed_view order). intros po pr Hpo Hpr Hlo Hlr.
    rewrite Hr in Hpr. pose proof (clean_heap_In _ _ _ Hpr) as Hpr'.
    rewrite Hown in Hpo. apply clean_heap_In, Hq in Hpo.
    assert (Hdr : deref (orders_ b') pr = deref (ms_orders s') pr).
    { apply D1, D3. auto. }
    destruct Hpo as [[Hre ->]|Hpo].
    + rewrite (D2 Hre).
      destruct (match_loop_exit _ _ _ _ _ Hl) as [Hz|[Hz|(t & rest & Hh & Hnc & Hx)]].
      * exfalso. rewrite <- Ho in Hz. unfold rests in Hre.
        apply andb_prop in Hre as [Hf _].
        destruct (is_filled order') eqn:Hfl; [discriminate|].
        pose proof (order_ok_open_remaining _ Hok' Hfl). lia.
      * rewrite Hz in Hpr'. destruct Hpr'.
      * rewrite <- Ho in Hx.
        assert (Hdt : deref (orders_ b') t = deref (ms_orders s') t).
        { apply D1, D3. right. apply D4. rewrite Hh. left. reflexivity. }
        apply (resting_beyond_top order b' t rest pr order' Hi' Hprices).
        -- rewrite Hr, Hh. simpl. rewrite Hdt.
           destruct Hs' as (_ & Hop & _).
           destruct (Hop t) as [Hc|Hf]; [rewrite Hh; left; reflexivity|congruence|].
           unfold dead. rewrite Hf. simpl.
           rewrite bool_decide_eq_false_2 by exact Hnc. reflexivity.
        -- rewrite <- Hh. exact Hpr'.
        -- rewrite Hdt. exact Hx.
    + rewrite (D5 po Hpo) in Hlo |- *. rewrite Hdr in Hlr.
      rewrite (no_cross_of_price order _ (deref (orders_ b) po)
                 _ (deref (orders_ b) pr)); [|reflexivity|].
      * apply (proj1 (uncrossed_view order b) (sound_uncrossed _ Hb));
          auto.
      * rewrite Hdr. apply (stable_price _ _ Hst pr).
Qed.

(** ** The engine keeps its books sound *)

Lemma book_sound_new sym : book_sound (OrderBook_new sym).
Proof.
  split; simpl.
  - apply book_inv_new.
  - intros p o. rewrite lookup_empty. discriminate.
  - intros p o. rewrite lookup_empty. discriminate.
  - constructor.
  - intros p [].
  - split; intros p [].
  - intros p o. simpl. rewrite lookup_empty. discriminate.
  - intros pb pa [].
Qed.

Lemma live_cancel o : live (cancel o) = false.
Proof.
  unfold live, cancel. change (status (set_status CANCELLED o)) with CANCELLED.
  rewrite bool_decide_eq_false_2; auto.
Qed.

Lemma book_cancel_order_sound id b :
  book_sound b -> book_sound (snd (book_cancel_order id b)).
Proof.
  intros Hb. pose proof (book_cancel_order_inv id b (sound_inv _ Hb)) as [Hi' _].
  revert Hi'. unfold book_cancel_order.
  destruct (orders_ b !! id) as [o|] eqn:Ho; simpl; [|intros _; exact Hb].
  intros Hi'.
  assert (Hd : forall p, p <> id ->
            deref (<[id := cancel o]> (orders_ b)) p = deref (orders_ b) p).
  { intros p Hne. rewrite deref_insert. case_decide; congruence. }
  assert (Hc : deref (<[id := cancel o]> (orders_ b)) id = cancel o).
  { rewrite deref_insert. case_decide; congruence. }
  assert (Hs : forall p, side (deref (<[id := cancel o]> (orders_ b)) p) =
                         side (deref (orders_ b) p)).
  { intros p. destruct (decide (p = id)) as [->|Hne]; [|rewrite Hd; auto].
    rewrite Hc, (deref_lookup _ _ _ Ho). reflexivity. }
  assert (Hl : forall p, live (deref (<[id := cancel o]> (orders_ b)) p) = true ->
                 p <> id /\ live (deref (orders_ b) p) = true).
  { intros p. destruct (decide (p = id)) as [->|Hne].
    - rewrite Hc, live_cancel. discriminate.
    - rewrite Hd by exact Hne. auto. }
  split; simpl.
  - exact Hi'.
  - intros p o'. rewrite lookup_insert. case_decide.
    + intros [= <-]. exact (sound_orders _ Hb _ _ Ho).
    + apply (sound_orders _ Hb).
  - intros p o'. rewrite lookup_insert. case_decide.
    + intros [= <-]. exact (sound_prices _ Hb _ _ Ho).
    + apply (sound_prices _ Hb).
  - apply Hb.
  - intros p Hin. destruct (decide (p = id)) as [->|Hne].
    + rewrite Hc. left. reflexivity.
    + rewrite Hd by exact Hne. apply (sound_open _ Hb), Hin.
  - destruct (sound_sides _ Hb) as [H1 H2].
    split; intros p Hin; simpl; rewrite Hs; auto.
  - intros p o'. simpl. rewrite lookup_insert. case_decide.
    + intros [= <-]. rewrite live_cancel. discriminate.
    + intros Hp Hlv. apply (sound_indexed _ Hb _ _ Hp Hlv).
  - intros pb pa Hpb Hpa. simpl in *. intros Hlb Hla.
    apply Hl in Hlb as [Hnb Hlb], Hla as [Hna Hla].
    rewrite !Hd by assumption. apply (sound_uncrossed _ Hb); assumption.
Qed.

Lemma engine_sound_new : engine_sound MatchingEngine_new.
Proof. intros sym b. simpl. rewrite lookup_empty. discriminate. Qed.

Lemma engine_sound_inv e : engine_sound e -> engine_inv e.
Proof.
  intros He sym b Hb. destruct (He _ _ Hb) as (H1 & _ & H2 & _).
  split; [apply H1|exact H2].
Qed.

Lemma process_order_symbol order b trades order' b' :
  process_order order b = Some (trades, order', b') -> symbol_ b' = symbol_ b.
Proof.
  unfold process_order, match_order.
  destruct (is_buy order);
    destruct (match_loop _ _ _ _) as [s'|]; try discriminate;
    intros [= _ <- <-]; simpl;
    destruct (negb _ && _); unfold add_order_unlocked;
    try destruct (is_buy _); reflexivity.
Qed.

Lemma submit_order_sound client sym s p q e id trades e' :
  engine_sound e ->
  0 <= next_order_id_ e -> next_order_id_ e + 1 < 2 ^ 64 ->
  is_u64 q -> ordered p ->
  submit_order client sym s p q e = Some (id, trades, e') ->
  engine_sound e' /\ Forall (fun t => 0 < trade_quantity t) trades.
Proof.
  intros Hinv H0 Hmax Hq Hpr. unfold submit_order.
  destruct (get_or_create_book sym (order_books_ e)) as [book bs] eqn:Hg.
  assert (Hbook : book_sound book /\ symbol_ book = sym /\
                  (forall p', is_Some (orders_ book !! p') ->
                              p' < next_order_id_ e) /\
                  statuses_ok (orders_ book) /\
                  forall sym', sym' <> sym ->
                               bs !! sym' = order_books_ e !! sym').
  { unfold get_or_create_book in Hg.
    destruct (order_books_ e !! sym) as [b0|] eqn:Hb0; injection Hg as <- <-.
    - destruct (Hinv _ _ Hb0) as (? & ? & ? & ?). auto.
    - split; [apply book_sound_new|]. split; [reflexivity|]. split; [|split].
      + intros p'. simpl. rewrite lookup_empty. intros [? [=]].
      + intros p' o'. simpl. rewrite lookup_empty. discriminate.
      + intros sym' Hne. apply lookup_insert_ne. congruence. }
  destruct Hbook as (Hbs & Hsym & Hbids & Hstat & Hother).
  destruct (process_order _ book) as [[[tr o'] b']|] eqn:Hp; [|discriminate].
  intros [= <- <- <-]. simpl.
  assert (Hnext : u64 (next_order_id_ e + 1) = next_order_id_ e + 1).
  { apply u64_small. unfold is_u64. lia. }
  assert (Hfresh : orders_ book !! next_order_id_ e = None).
  { apply eq_None_not_Some. intros Hs. apply Hbids in Hs. lia. }
  assert (Hok : order_ok (Order_new (next_order_id_ e) client sym s p q)).
  { unfold order_ok, is_u64 in *. simpl. lia. }
  destruct (process_order_sound (Order_new (next_order_id_ e) client sym s p q)
              _ _ _ _ Hbs Hok Hpr Hfresh Hp) as [Hs' Hpos].
  destruct (process_order_inv (Order_new (next_order_id_ e) client sym s p q)
              _ _ _ _ (sound_inv _ Hbs) Hfresh Hp) as [_ Hdom'].
  destruct (process_order_statuses _ _ _ _ _ Hbs Hstat Hok eq_refl Hp)
    as [Hstat' _].
  split; [|exact Hpos].
  intros sym' b0. simpl. rewrite lookup_insert, Hnext. case_decide.
  - intros [= <-]. split; [exact Hs'|]. split; [|split; [|exact Hstat']].
    + rewrite (process_order_symbol _ _ _ _ _ Hp). congruence.
    + intros p' Hp'. apply Hdom' in Hp' as [->|Hp']; simpl; [lia|].
      apply Hbids in Hp'. lia.
  - rewrite Hother by congruence. intros Hb0.
    destruct (Hinv _ _ Hb0) as (? & ? & Hlt & ?). split; [assumption|].
    split; [assumption|]. split; [|assumption].
    intros p' Hp'. apply Hlt in Hp'. lia.
Qed.

Lemma cancel_order_sound id e :
  engine_sound e -> engine_sound (snd (cancel_order id e)).
Proof.
  intros Hinv.
  destruct (cancel_order_cases id e)
    as [(sym & book & o & _ & Hbook & Ho & Hc)|[_ Hc]]; rewrite Hc; simpl;
    [|auto].
  destruct (Hinv _ _ Hbook) as (Hbs & Hsym & Hlt & Hstat).
  pose proof (book_cancel_order_statuses id book Hstat) as Hstat'.
  unfold book_cancel_order in Hstat'. rewrite Ho in Hstat'. simpl in Hstat'.
  pose proof (book_cancel_order_sound id book Hbs) as Hs'.
  pose proof (book_cancel_order_inv id book (sound_inv _ Hbs)) as [_ Hdom'].
  unfold book_cancel_order in Hs', Hdom'. rewrite Ho in Hs', Hdom'.
  simpl in Hs', Hdom'.
  intros sym' b0. simpl. rewrite lookup_insert. case_decide.
  - intros [= <-]. split; [exact Hs'|]. split; [simpl; congruence|].
    split; [|exact Hstat'].
    intros p' Hp'. apply Hlt, Hdom', Hp'.
  - apply Hinv.
Qed.

Lemma trades_of_cons r rs : trades_of (r :: rs) = trades_of [r] ++ trades_of rs.
Proof. unfold trades_of. simpl. rewrite app_nil_r. reflexivity. Qed.

(** Every engine reached by valid calls while order ids have not wrapped is
    sound, and every trade notified on the way has a positive quantity. *)
Lemma run_sound cs : forall e replies e',
  engine_sound e ->
  0 <= next_order_id_ e ->
  next_order_id_ e + Z.of_nat (length cs) < 2 ^ 64 ->
  Forall call_ok cs ->
  run cs e = Some (replies, e') ->
  engine_sound e' /\
  Forall (fun t => 0 < trade_quantity t) (trades_of replies).
Proof.
  induction cs as [|c cs IH]; intros e replies e' Hinv H0 Hmax Hcs; simpl.
  - intros [= <- <-]. split; [exact Hinv|constructor].
  - destruct (call c e) as [[r e1]|] eqn:Hc; [|discriminate].
    destruct (run cs e1) as [[rs e2]|] eqn:Hr; [|discriminate].
    intros [= <- <-].
    apply Forall_cons in Hcs as [Hc0 Hcs].
    assert (H1 : engine_sound e1 /\
                 next_order_id_ e <= next_order_id_ e1 <= next_order_id_ e + 1 /\
                 Forall (fun t => 0 < trade_quantity t) (trades_of [r])).
    { destruct c as [client sym s p q|id]; simpl in Hc.
      - destruct (submit_order client sym s p q e) as [[[id tr] e1']|] eqn:Hs;
          [|discriminate].
        injection Hc as <- <-. destruct Hc0 as [Hq Hp].
        destruct (submit_order_sound _ _ _ _ _ _ _ _ _ Hinv H0
                    ltac:(simpl in Hmax; lia) Hq Hp Hs) as [Hinv1 Hpos].
        destruct (submit_order_inv _ _ _ _ _ _ _ _ _ (engine_sound_inv _ Hinv) H0
                    ltac:(simpl in Hmax; lia) Hs) as [_ Hn1].
        split; [exact Hinv1|]. split; [lia|].
        simpl. rewrite app_nil_r. exact Hpos.
      - destruct (cancel_order id e) as [ok e1'] eqn:Hcc. injection Hc as <- <-.
        pose proof (cancel_order_sound id e Hinv) as Hinv1.
        destruct (cancel_order_inv id e (engine_sound_inv _ Hinv)) as [_ Hn1].
        rewrite Hcc in Hinv1, Hn1. simpl in Hinv1, Hn1.
        split; [exact Hinv1|]. split; [lia|]. constructor. }
    destruct H1 as (Hinv1 & Hn1 & Hpos1).
    destruct (IH e1 rs e2 Hinv1 ltac:(lia) ltac:(simpl in Hmax; lia) Hcs Hr)
      as [Hinv2 Hpos2].
    split; [exact Hinv2|].
    rewrite (trades_of_cons r rs). apply Forall_app. split; assumption.
Qed.

(** ** Best prices of a sound book *)

Lemma first_live_split m q p :
  In p q -> live (deref m p) = true ->
  exists l t r,
    q = l ++ t :: r /\ live (deref m t) = true /\
    first_live_price m q = price (deref m t) /\ In p (t :: r).
Proof.
  induction q as [|x q IH]; simpl; [intros []|].
  intros Hin Hl. fold (live (deref m x)).
  destruct (live (deref m x)) eqn:Hx.
  - exists [], x, q. simpl. auto.
  - destruct Hin as [->|Hin]; [congruence|].
    destruct (IH Hin Hl) as (l & t & r & -> & Ht & Hf & Hp).
    exists (x :: l), t, r. auto.
Qed.

Lemma bids_le_top m t rest pb :
  delivery_order (bid_comp m) (t :: rest) -> In pb (t :: rest) ->
  prices_ordered m ->
  PrimFloat.leb (price (deref m pb)) (price (deref m t)) = true.
Proof.
  intros Hs Hin Hm.
  pose proof (deref_ordered m pb Hm) as Hpb.
  pose proof (deref_ordered m t Hm) as Ht.
  apply leb_key. split; [exact Hpb|]. split; [exact Ht|].
  destruct Hin as [<-|Hin]; [right; reflexivity|].
  apply StronglySorted_inv in Hs as [_ Hall]. rewrite Forall_forall in Hall.
  specialize (Hall pb (proj2 (list_elem_of_In _ _) Hin)). simpl in Hall.
  unfold bid_comp in Hall.
  destruct (key_total (float_key (price (deref m pb)))
                      (float_key (price (deref m t)))) as [H|[H|H]]; auto.
  exfalso.
  assert (BuyOrderComparator (deref m t) (deref m pb) = true).
  { apply BuyOrderComparator_below. unfold below_bid. auto. }
  congruence.
Qed.

Lemma asks_ge_top m t rest pa :
  delivery_order (ask_comp m) (t :: rest) -> In pa (t :: rest) ->
  prices_ordered m ->
  PrimFloat.leb (price (deref m t)) (price (deref m pa)) = true.
Proof.
  intros Hs Hin Hm.
  pose proof (deref_ordered m pa Hm) as Hpa.
  pose proof (deref_ordered m t Hm) as Ht.
  apply leb_key. split; [exact Ht|]. split; [exact Hpa|].
  destruct Hin as [<-|Hin]; [right; reflexivity|].
  apply StronglySorted_inv in Hs as [_ Hall]. rewrite Forall_forall in Hall.
  specialize (Hall pa (proj2 (list_elem_of_In _ _) Hin)). simpl in Hall.
  unfold ask_comp in Hall.
  destruct (key_total (float_key (price (deref m pa)))
                      (float_key (price (deref m t)))) as [H|[H|H]]; auto.
  exfalso.
  assert (SellOrderComparator (deref m t) (deref m pa) = true).
  { apply SellOrderComparator_below. unfold below_ask. auto. }
  congruence.
Qed.

Lemma live_bid_indexed b p o :
  book_sound b -> orders_ b !! p = Some o -> side o = BUY -> live o = true ->
  In p (bids_ b) /\ deref (orders_ b) p = o.
Proof.
  intros Hb Ho Hs Hl. split; [|apply deref_lookup, Ho].
  pose proof (sound_indexed _ Hb p o Ho Hl) as Hin.
  unfold is_buy in Hin. rewrite bool_decide_eq_true_2 in Hin; assumption.
Qed.

Lemma live_ask_indexed b p o :
  book_sound b -> orders_ b !! p = Some o -> side o = SELL -> live o = true ->
  In p (asks_ b) /\ deref (orders_ b) p = o.
Proof.
  intros Hb Ho Hs Hl. split; [|apply deref_lookup, Ho].
  pose proof (sound_indexed _ Hb p o Ho Hl) as Hin.
  unfold is_buy in Hin. rewrite bool_decide_eq_false_2 in Hin; congruence.
Qed.

(** With a live buy order in the book, the best bid is the price of a live
    buy order, and no live buy order is priced above it. *)
Lemma book_best_bid b p o :
  book_sound b -> orders_ b !! p = Some o -> side o = BUY -> live o = true ->
  PrimFloat.leb (price o) (book_get_best_bid b) = true /\
  exists p' o',
    orders_ b !! p' = Some o' /\ In p' (bids_ b) /\ side o' = BUY /\
    live o' = true /\ book_get_best_bid b = price o'.
Proof.
  intros Hb Ho Hs Hl.
  destruct (live_bid_indexed b p o Hb Ho Hs Hl) as [Hin Hd].
  destruct (first_live_split (orders_ b) (bids_ b) p Hin) as (l & t & r & Hq & Ht & Hf & Hp).
  { rewrite Hd. exact Hl. }
  unfold book_get_best_bid. rewrite Hf. split.
  - rewrite <- Hd. apply (bids_le_top _ t r p); [|exact Hp|apply Hb].
    apply (delivery_order_suffix _ l). rewrite <- Hq. apply Hb.
  - exists t, (deref (orders_ b) t).
    assert (Hint : In t (bids_ b)).
    { rewrite Hq. apply in_or_app. right. left. reflexivity. }
    split; [apply live_deref_lookup, Ht|]. split; [exact Hint|].
    split; [apply (sound_sides _ Hb), Hint|]. auto.
Qed.

Lemma book_best_ask b p o :
  book_sound b -> orders_ b !! p = Some o -> side o = SELL -> live o = true ->
  PrimFloat.leb (book_get_best_ask b) (price o) = true /\
  exists p' o',
    orders_ b !! p' = Some o' /\ In p' (asks_ b) /\ side o' = SELL /\
    live o' = true /\ book_get_best_ask b = price o'.
Proof.
  intros Hb Ho Hs Hl.
  destruct (live_ask_indexed b p o Hb Ho Hs Hl) as [Hin Hd].
  destruct (first_live_split (orders_ b) (asks_ b) p Hin) as (l & t & r & Hq & Ht & Hf & Hp).
  { rewrite Hd. exact Hl. }
  unfold book_get_best_ask. rewrite Hf. split.
  - rewrite <- Hd. apply (asks_ge_top _ t r p); [|exact Hp|apply Hb].
    apply (delivery_order_suffix _ l). rewrite <- Hq. apply Hb.
  - exists t, (deref (orders_ b) t).
    assert (Hint : In t (asks_ b)).
    { rewrite Hq. apply in_or_app. right. left. reflexivity. }
    split; [apply live_deref_lookup, Ht|]. split; [exact Hint|].
    split; [apply (sound_sides _ Hb), Hint|]. auto.
Qed.

(** The engines reached from the empty one. *)
Lemma run_new_sound cs replies e :
  Forall call_ok cs -> 1 + Z.of_nat (length cs) < 2 ^ 64 ->
  run cs MatchingEngine_new = Some (replies, e) ->
  engine_sound e /\ Forall (fun t => 0 < trade_quantity t) (trades_of replies).
Proof.
  intros Hcs Hlen Hr.
  apply (run_sound cs MatchingEngine_new replies e engine_sound_new); auto.
  simpl. lia.
Qed.

Lemma find_order_book sym p e o :
  find_order sym p e = Some o ->
  exists b, order_books_ e !! sym = Some b /\ orders_ b !! p = Some o.
Proof.
  unfold find_order. destruct (order_books_ e !! sym) as [b|]; [|discriminate].
  intros H. exists b. auto.
Qed.


(** ** Properties of every engine reached from the empty one *)

Ltac calls_ok := repeat constructor; try (vm_compute; intuition discriminate).

(** X8.  No trade is empty: over any sequence of submits and cancels on a
    new engine (quantities in [uint64_t], prices not NaN, order ids not
    wrapped), every trade notified has a quantity of at least 1. *)
Theorem X8_trades_positive cs replies e :
  Forall call_ok cs -> 1 + Z.of_nat (length cs) < 2 ^ 64 ->
  run cs MatchingEngine_new = Some (replies, e) ->
  Forall (fun t => 0 < trade_quantity t) (trades_of replies).
Proof. intros Hcs Hlen Hr. apply (run_new_sound cs replies e Hcs Hlen Hr). Qed.

(** The theorem at [resting_calls], whose one trade has quantity 1. *)
Lemma X8_trades_positive_witness :
  Forall (fun t => 0 < trade_quantity t) (trades_of replies_R).
Proof.
  apply (X8_trades_positive resting_calls replies_R engine_R).
  - calls_ok.
  - vm_compute. reflexivity.
  - vm_compute. reflexivity.
Defined.

(** X9.  The book is never left crossed: in every engine so reached, a
    live (neither cancelled nor filled) buy order of a symbol is priced
    strictly below every live sell order of that symbol, and
    [get_best_bid] is strictly below [get_best_ask]. *)
Theorem X9_book_uncrossed cs replies e sym pb ob pa oa :
  Forall call_ok cs -> 1 + Z.of_nat (length cs) < 2 ^ 64 ->
  run cs MatchingEngine_new = Some (replies, e) ->
  find_order sym pb e = Some ob -> side ob = BUY -> live ob = true ->
  find_order sym pa e = Some oa -> side oa = SELL -> live oa = true ->
  PrimFloat.ltb (price ob) (price oa) = true /\
  PrimFloat.ltb (get_best_bid sym e) (get_best_ask sym e) = true.
Proof.
  intros Hcs Hlen Hr Hb Hsb Hlb Ha Hsa Hla.
  destruct (run_new_sound cs replies e Hcs Hlen Hr) as [He _].
  apply find_order_book in Hb as (b & Hbook & Hb).
  apply find_order_book in Ha as (b' & Hbook' & Ha).
  assert (b' = b) by congruence. subst b'.
  destruct (He _ _ Hbook) as (Hs & _).
  unfold get_best_bid, get_best_ask. rewrite Hbook.
  destruct (live_bid_indexed b pb ob Hs Hb Hsb Hlb) as [Hinb Hdb].
  destruct (live_ask_indexed b pa oa Hs Ha Hsa Hla) as [Hina Hda].
  split.
  - rewrite <- Hdb, <- Hda. apply (sound_uncrossed _ Hs); auto; congruence.
  - destruct (book_best_bid b pb ob Hs Hb Hsb Hlb)
      as (_ & tb & otb & Htb & Hintb & _ & Hltb & ->).
    destruct (book_best_ask b pa oa Hs Ha Hsa Hla)
      as (_ & ta & ota & Hta & Hinta & _ & Hlta & ->).
    rewrite <- (deref_lookup _ _ _ Htb), <- (deref_lookup _ _ _ Hta).
    apply (sound_uncrossed _ Hs); auto;
      rewrite (deref_lookup _ _ _ Htb) || rewrite (deref_lookup _ _ _ Hta);
      assumption.
Qed.

(** The theorem at [resting_calls]: bid 3 rests at 50000 with 1 left, ask 2
    at 50010. *)
Lemma X9_book_uncrossed_witness :
  PrimFloat.ltb 50000 50010 = true /\
  PrimFloat.ltb (get_best_bid BTC engine_R) (get_best_ask BTC engine_R) = true.
Proof.
  apply (X9_book_uncrossed resting_calls replies_R engine_R BTC
           3 (mkOrder 3 102 BTC BUY 50000%float 2 1 PARTIALLY_FILLED)
           2 (Order_new 2 101 BTC SELL 50010%float 3)).
  - calls_ok.
  - vm_compute. reflexivity.
  - vm_compute. reflexivity.
  - vm_compute. reflexivity.
  - reflexivity.
  - vm_compute. reflexivity.
  - vm_compute. reflexivity.
  - reflexivity.
  - vm_compute. reflexivity.
Defined.

(** X10.  [get_best_bid] and [get_best_ask] are the best prices of the
    live orders: in every engine so reached, when a symbol holds a live buy
    order, [get_best_bid] is the price of a live buy order of that symbol
    and no live buy order is priced above it; likewise [get_best_ask] is the
    price of a live sell order and none is priced below it. *)
Theorem X10_best_prices cs replies e sym :
  Forall call_ok cs -> 1 + Z.of_nat (length cs) < 2 ^ 64 ->
  run cs MatchingEngine_new = Some (replies, e) ->
  (forall p o,
     find_order sym p e = Some o -> side o = BUY -> live o = true ->
     PrimFloat.leb (price o) (get_best_bid sym e) = true /\
     exists p' o',
       find_order sym p' e = Some o' /\ side o' = BUY /\ live o' = true /\
       get_best_bid sym e = price o') /\
  (forall p o,
     find_order sym p e = Some o -> side o = SELL -> live o = true ->
     PrimFloat.leb (get_best_ask sym e) (price o) = true /\
     exists p' o',
       find_order sym p' e = Some o' /\ side o' = SELL /\ live o' = true /\
       get_best_ask sym e = price o').
Proof.
  intros Hcs Hlen Hr.
  destruct (run_new_sound cs replies e Hcs Hlen Hr) as [He _].
  split; intros p o Ho Hs Hl;
    apply find_order_book in Ho as (b & Hbook & Ho);
    destruct (He _ _ Hbook) as (Hsd & _);
    unfold get_best_bid, get_best_ask, find_order; rewrite Hbook.
  - destruct (book_best_bid b p o Hsd Ho Hs Hl)
      as (Hle & p' & o' & Ho' & _ & Hs' & Hl' & Hbest).
    split; [exact Hle|]. exists p', o'. auto.
  - destruct (book_best_ask b p o Hsd Ho Hs Hl)
      as (Hle & p' & o' & Ho' & _ & Hs' & Hl' & Hbest).
    split; [exact Hle|]. exists p', o'. auto.
Qed.

(** The theorem at [resting_calls], for the ask at 50010. *)
Lemma X10_best_prices_witness :
  PrimFloat.leb (get_best_ask BTC engine_R) 50010 = true.
Proof.
  refine (proj1 (proj2 (X10_best_prices resting_calls replies_R engine_R BTC
                          _ _ _)
                   2 (Order_new 2 101 BTC SELL 50010%float 3) _ _ _)).
  - calls_ok.
  - vm_compute. reflexivity.
  - vm_compute. reflexivity.
  - vm_compute. reflexivity.
  - reflexivity.
  - vm_compute. reflexivity.
Defined.

Lemma book_C3_sound : book_sound book_C3.
Proof.
  destruct (run_new_sound (take 3 scenario_C)
              (default [] (fst <$> run (take 3 scenario_C) MatchingEngine_new))
              engine_C3) as [He _].
  - calls_ok.
  - vm_compute. reflexivity.
  - vm_compute. reflexivity.
  - apply (He BTC book_C3). vm_compute. reflexivity.
Qed.

(** The theorem at the fourth order of scenario C, for the maker with id 1:
    its 3 units are the quantity of the one trade against it. *)
Lemma X7_maker_conservation_witness :
  exists o',
    orders_ book_C4 !! 1 = Some o' /\
    filled_quantity o' = 0 + quantity_against 1 trades_C /\
    quantity o' = 3.
Proof.
  refine (proj2 (X7_maker_conservation buy_C book_C3 trades_C
                   (mkOrder 4 100 BTC BUY 50003%float 15 12 PARTIALLY_FILLED)
                   book_C4 _ _ _ _ _)
            1 (Order_new 1 101 BTC SELL 50000%float 3) _).
  - apply book_C3_sound.
  - apply book_C3_sound.
  - vm_compute. repeat split; (discriminate || reflexivity).
  - vm_compute. reflexivity.
  - vm_compute. reflexivity.
  - vm_compute. reflexivity.
Defined.

(** X11.  The books stay well formed: in every engine so reached, an order
    held by a book is stored under its own id, which the engine has already
    handed out, and is not overfilled; every entry of the two heaps points
    to an order the book holds, of the heap's side, and no order is queued
    twice; and a live order is queued on the heap of its side. *)
Theorem X11_books_well_formed cs replies e sym b :
  Forall call_ok cs -> 1 + Z.of_nat (length cs) < 2 ^ 64 ->
  run cs MatchingEngine_new = Some (replies, e) ->
  order_books_ e !! sym = Some b ->
  symbol_ b = sym /\
  (forall p o, orders_ b !! p = Some o ->
     order_id o = p /\ p < next_order_id_ e /\
     0 <= filled_quantity o <= quantity o /\
     (live o = true -> In p (if is_buy o then bids_ b else asks_ b))) /\
  (forall p, In p (bids_ b) ->
     exists o, orders_ b !! p = Some o /\ side o = BUY) /\
  (forall p, In p (asks_ b) ->
     exists o, orders_ b !! p = Some o /\ side o = SELL) /\
  NoDup (bids_ b ++ asks_ b).
Proof.
  intros Hcs Hlen Hr Hbook.
  destruct (run_new_sound cs replies e Hcs Hlen Hr) as [He _].
  destruct (He _ _ Hbook) as (Hs & Hsym & Hlt & _).
  pose proof (sound_inv _ Hs) as Hi.
  split; [exact Hsym|]. split; [|split; [|split]].
  - intros p o Ho. split; [apply (inv_ids _ Hi), Ho|].
    split; [apply Hlt; eauto|].
    split; [apply (sound_orders _ Hs _ _ Ho)|].
    apply (sound_indexed _ Hs _ _ Ho).
  - intros p Hin. destruct (inv_bids_backed _ Hi p Hin) as [o Ho].
    exists o. split; [exact Ho|].
    rewrite <- (deref_lookup _ _ _ Ho). apply (sound_sides _ Hs), Hin.
  - intros p Hin. destruct (inv_asks_backed _ Hi p Hin) as [o Ho].
    exists o. split; [exact Ho|].
    rewrite <- (deref_lookup _ _ _ Ho). apply (sound_sides _ Hs), Hin.
  - apply Hs.
Qed.

(** The theorem at the book of [resting_calls]. *)
Lemma X11_books_well_formed_witness : NoDup (bids_ book_R ++ asks_ book_R).
Proof.
  refine (proj2 (proj2 (proj2 (proj2
            (X11_books_well_formed resting_calls replies_R engine_R BTC book_R
               _ _ _ _))))).
  - calls_ok.
  - vm_compute. reflexivity.
  - vm_compute. reflexivity.
  - vm_compute. reflexivity.
Defined.

(** X12.  Status reflects the fill level: in every engine so reached, an
    order held by a book has a positive quantity and is never REJECTED; it
    is NEW only while nothing of it is filled, PARTIALLY_FILLED only while
    it is filled in part, FILLED only when filled in full; and it is active
    (open status, something remaining) exactly when its status is NEW or
    PARTIALLY_FILLED. *)
Theorem X12_status_reflects_fill cs replies e sym p o :
  Forall call_ok cs -> 1 + Z.of_nat (length cs) < 2 ^ 64 ->
  run cs MatchingEngine_new = Some (replies, e) ->
  find_order sym p e = Some o ->
  0 < quantity o /\ status o <> REJECTED /\
  (status o = NEW -> filled_quantity o = 0) /\
  (status o = PARTIALLY_FILLED -> 0 < filled_quantity o < quantity o) /\
  (status o = FILLED -> filled_quantity o = quantity o) /\
  (is_active o = true <-> status o = NEW \/ status o = PARTIALLY_FILLED).
Proof.
  intros Hcs Hlen Hr Ho.
  destruct (run_new_sound cs replies e Hcs Hlen Hr) as [He _].
  apply find_order_book in Ho as (b & Hbook & Ho).
  destruct (He _ _ Hbook) as (Hs & _ & _ & Hst).
  destruct (Hst _ _ Ho) as [Hso Hq].
  pose proof (sound_orders _ Hs _ _ Ho) as Hok.
  pose proof (order_ok_remaining o Hok) as Hrem.
  unfold status_ok in Hso. unfold is_active. rewrite Hrem.
  destruct (status o) eqn:E; repeat split; try congruence; try lia;
    try contradiction; try (intros; exact Hso);
    repeat (case_bool_decide; try congruence); simpl;
    try (intros [?|?]; discriminate); try discriminate; auto.
  - intros _. apply Z.gtb_lt. lia.
  - intros _. apply Z.gtb_lt. lia.
Qed.

(** The theorem at [resting_calls], for bid 3 of which 1 of 2 is filled. *)
Lemma X12_status_reflects_fill_witness : 0 < 1 < 2.
Proof.
  refine (proj1 (proj2 (proj2 (proj2
            (X12_status_reflects_fill resting_calls replies_R engine_R BTC 3
               (mkOrder 3 102 BTC BUY 50000%float 2 1 PARTIALLY_FILLED)
               _ _ _ _)))) eq_refl).
  - calls_ok.
  - vm_compute. reflexivity.
  - vm_compute. reflexivity.
  - vm_compute. reflexivity.
Defined.

(** ** Histories

    Properties of an engine that depend on the calls that led to it are
    proved by induction on the sequence of calls, taken from its end. *)

Lemma run_app cs1 : forall cs2 e,
  run (cs1 ++ cs2) e =
    match run cs1 e with
    | Some (r1, e1) =>
        match run cs2 e1 with
        | Some (r2, e2) => Some (r1 ++ r2, e2)
        | None => None
        end
    | None => None
    end.
Proof.
  induction cs1 as [|c cs1 IH]; intros cs2 e; simpl.
  - destruct (run cs2 e) as [[r2 e2]|]; reflexivity.
  - destruct (call c e) as [[r e1]|]; [|reflexivity].
    rewrite IH. destruct (run cs1 e1) as [[r1 e2]|]; [|reflexivity].
    destruct (run cs2 e2) as [[r2 e3]|]; reflexivity.
Qed.

Lemma run_single c e :
  run [c] e = match call c e with
              | Some (r, e') => Some ([r], e')
              | None => None
              end.
Proof. simpl. destruct (call c e) as [[r e']|]; reflexivity. Qed.

Lemma run_snoc cs c e replies e' :
  run (cs ++ [c]) e = Some (replies, e') ->
  exists rs e1 r,
    run cs e = Some (rs, e1) /\ call c e1 = Some (r, e') /\
    replies = rs ++ [r].
Proof.
  rewrite run_app. destruct (run cs e) as [[rs e1]|]; [|discriminate].
  rewrite run_single. destruct (call c e1) as [[r e2]|] eqn:Hc; [|discriminate].
  intros [= <- <-]. exists rs, e1, r. auto.
Qed.

Lemma run_history (P : list Call -> list Reply -> MatchingEngine -> Prop) e0 :
  P [] [] e0 ->
  (forall cs rs e c r e',
     run cs e0 = Some (rs, e) -> P cs rs e -> call c e = Some (r, e') ->
     P (cs ++ [c]) (rs ++ [r]) e') ->
  forall cs replies e, run cs e0 = Some (replies, e) -> P cs replies e.
Proof.
  intros H0 Hstep cs. induction cs as [|c cs IH] using rev_ind;
    intros replies e Hr.
  - injection Hr as <- <-. exact H0.
  - apply run_snoc in Hr as (rs & e1 & r & Hr & Hc & ->).
    eapply Hstep; eauto.
Qed.

Lemma trades_of_app r1 r2 : trades_of (r1 ++ r2) = trades_of r1 ++ trades_of r2.
Proof. unfold trades_of. apply flat_map_app. Qed.

Lemma ids_of_app r1 r2 : ids_of (r1 ++ r2) = ids_of r1 ++ ids_of r2.
Proof. unfold ids_of. apply flat_map_app. Qed.

Lemma cancels_of_app r1 r2 :
  cancels_of (r1 ++ r2) = (cancels_of r1 + cancels_of r2)%nat.
Proof. unfold cancels_of. rewrite List.filter_app, length_app. reflexivity. Qed.

Lemma u64_u64_add a b : u64 (u64 a + b) = u64 (a + b).
Proof. unfold u64. rewrite Zplus_mod_idemp_l. reflexivity. Qed.

Lemma trade_ids_from_snoc n k :
  trade_ids_from n (S k) = trade_ids_from n k ++ [u64 (n + Z.of_nat k)].
Proof.
  unfold trade_ids_from. rewrite seq_S, fmap_app. reflexivity.
Qed.

(** Folding [update_stats_for_trade] over the trades of a submit counts
    them and touches no other counter but [active_orders]. *)
Lemma fold_update_stats trades book : forall st,
  let st' := fold_left (fun st trade => update_stats_for_trade trade book st)
               trades st in
  total_orders st' = total_orders st /\
  u64 (total_trades st') = u64 (total_trades st + Z.of_nat (length trades)) /\
  (is_u64 (total_trades st) -> is_u64 (total_trades st')) /\
  cancelled_orders st' = cancelled_orders st /\
  rejected_orders st' = rejected_orders st.
Proof.
  induction trades as [|t trades IH]; intros st; simpl.
  - rewrite Z.add_0_r. auto.
  - specialize (IH (update_stats_for_trade t book st)). simpl in IH.
    destruct IH as (H1 & H2 & H3 & H4 & H5).
    assert (Hu : total_orders (update_stats_for_trade t book st) = total_orders st /\
                 total_trades (update_stats_for_trade t book st) =
                   u64 (total_trades st + 1) /\
                 cancelled_orders (update_stats_for_trade t book st) =
                   cancelled_orders st /\
                 rejected_orders (update_stats_for_trade t book st) =
                   rejected_orders st).
    { unfold update_stats_for_trade.
      destruct (get_order _ _) as [o|]; [destruct (is_filled o)|]; simpl; auto. }
    destruct Hu as (U1 & U2 & U3 & U4).
    rewrite H1, H2, H4, H5, U1, U2, U3, U4, u64_u64_add.
    split; [reflexivity|]. split; [f_equal; lia|].
    split; [|auto]. intros _. apply H3. rewrite U2. apply u64_range.
Qed.

(** ** Counters *)

Lemma submit_order_stats client sym s p q e id trades e' :
  submit_order client sym s p q e = Some (id, trades, e') ->
  id = next_order_id_ e /\ next_order_id_ e' = u64 (next_order_id_ e + 1) /\
  total_orders (stats_ e') = u64 (total_orders (stats_ e) + 1) /\
  u64 (total_trades (stats_ e')) =
    u64 (total_trades (stats_ e) + Z.of_nat (length trades)) /\
  (is_u64 (total_trades (stats_ e)) -> is_u64 (total_trades (stats_ e'))) /\
  cancelled_orders (stats_ e') = cancelled_orders (stats_ e) /\
  rejected_orders (stats_ e') = rejected_orders (stats_ e).
Proof.
  unfold submit_order.
  destruct (get_or_create_book sym (order_books_ e)) as [book bs].
  destruct (process_order _ book) as [[[tr o'] b']|]; [|discriminate].
  intros [= <- <- <-]. simpl.
  split; [reflexivity|]. split; [reflexivity|].
  match goal with
  | |- context [fold_left _ tr ?st] =>
      destruct (fold_update_stats tr b' st) as (H1 & H2 & H3 & H4 & H5)
  end.
  rewrite H1, H2, H4, H5.
  destruct (is_filled o'); simpl; auto.
Qed.

(** X13.  The counters of [get_stats] count events: after any sequence of
    calls on a new engine, [total_orders] is the number of submits,
    [total_trades] the number of trades notified and [cancelled_orders] the
    number of cancels that returned true, each modulo 2^64;
    [rejected_orders] stays 0. *)
Theorem X13_stats_count cs replies e :
  run cs MatchingEngine_new = Some (replies, e) ->
  total_orders (get_stats e) = u64 (Z.of_nat (length (ids_of replies))) /\
  total_trades (get_stats e) = u64 (Z.of_nat (length (trades_of replies))) /\
  cancelled_orders (get_stats e) = u64 (Z.of_nat (cancels_of replies)) /\
  rejected_orders (get_stats e) = 0.
Proof.
  unfold get_stats. revert cs replies e.
  apply (run_history (fun _ rs e =>
    total_orders (stats_ e) = u64 (Z.of_nat (length (ids_of rs))) /\
    total_trades (stats_ e) = u64 (Z.of_nat (length (trades_of rs))) /\
    cancelled_orders (stats_ e) = u64 (Z.of_nat (cancels_of rs)) /\
    rejected_orders (stats_ e) = 0)).
  { simpl. repeat split; reflexivity. }
  intros cs rs e c r e' _ (Ho & Ht & Hc & Hr) Hcall.
  rewrite ids_of_app, trades_of_app, cancels_of_app, !length_app.
  destruct c as [client sym s p q|id]; simpl in Hcall.
  - destruct (submit_order client sym s p q e) as [[[id tr] e1]|] eqn:Hs;
      [|discriminate].
    injection Hcall as <- <-.
    destruct (submit_order_stats _ _ _ _ _ _ _ _ _ Hs)
      as (_ & _ & S1 & S2 & S3 & S4 & S5).
    rewrite S1, S4, S5, Ho, Hc, Hr, u64_u64_add. simpl.
    rewrite app_nil_r, Nat.add_0_r.
    split; [f_equal; lia|]. split; [|auto].
    rewrite <- (u64_small (total_trades (stats_ e1))).
    + rewrite S2, Ht, u64_u64_add. f_equal. lia.
    + apply S3. rewrite Ht. apply u64_range.
  - destruct (cancel_order_cases id e)
      as [(sym & book & o & _ & _ & _ & Hcc)|[_ Hcc]];
      rewrite Hcc in Hcall; injection Hcall as <- <-; simpl;
      rewrite ?Nat.add_0_r, ?Ho, ?Ht, ?Hc, ?Hr.
    + rewrite u64_u64_add.
      change (cancels_of [Cancelled true]) with 1%nat.
      repeat split; f_equal; lia.
    + auto.
Qed.

(** The theorem at [resting_calls]: four orders, one trade, one cancel. *)
Lemma X13_stats_count_witness :
  total_orders (get_stats engine_R) = u64 4 /\
  total_trades (get_stats engine_R) = u64 1 /\
  cancelled_orders (get_stats engine_R) = u64 1 /\
  rejected_orders (get_stats engine_R) = 0.
Proof.
  apply (X13_stats_count resting_calls replies_R engine_R).
  vm_compute. reflexivity.
Defined.

(** X14.  Order ids are handed out in sequence: the submits of any sequence
    of calls on a new engine return 1, 2, 3, ... (modulo 2^64) in call
    order, whatever happens to the orders, and cancels use up no id. *)
Theorem X14_order_ids cs replies e :
  run cs MatchingEngine_new = Some (replies, e) ->
  ids_of replies = trade_ids_from 1 (length (ids_of replies)) /\
  next_order_id_ e = u64 (1 + Z.of_nat (length (ids_of replies))).
Proof.
  revert cs replies e.
  apply (run_history (fun _ rs e =>
    ids_of rs = trade_ids_from 1 (length (ids_of rs)) /\
    next_order_id_ e = u64 (1 + Z.of_nat (length (ids_of rs))))).
  { split; reflexivity. }
  intros cs rs e c r e' _ (Hi & Hn) Hcall.
  rewrite ids_of_app, !length_app.
  destruct c as [client sym s p q|id]; simpl in Hcall.
  - destruct (submit_order client sym s p q e) as [[[id tr] e1]|] eqn:Hs;
      [|discriminate].
    injection Hcall as <- <-.
    destruct (submit_order_stats _ _ _ _ _ _ _ _ _ Hs) as (-> & Hn' & _).
    simpl. rewrite Nat.add_1_r, trade_ids_from_snoc, <- Hi, Hn', Hn, u64_u64_add.
    split; [reflexivity|]. f_equal. lia.
  - destruct (cancel_order_cases id e)
      as [(sym & book & o & _ & _ & _ & Hcc)|[_ Hcc]];
      rewrite Hcc in Hcall; injection Hcall as <- <-; simpl;
      rewrite app_nil_r, Nat.add_0_r; auto.
Qed.

(** The theorem at [resting_calls]: ids 1 to 4. *)
Lemma X14_order_ids_witness :
  ids_of replies_R = trade_ids_from 1 (length (ids_of replies_R)) /\
  next_order_id_ engine_R = u64 (1 + Z.of_nat (length (ids_of replies_R))).
Proof.
  apply (X14_order_ids resting_calls replies_R engine_R).
  vm_compute. reflexivity.
Defined.

(** ** Trade ids *)

Lemma trade_ids_from_app n k1 k2 :
  trade_ids_from n (k1 + k2) =
    trade_ids_from n k1 ++ trade_ids_from (u64 (n + Z.of_nat k1)) k2.
Proof.
  induction k2 as [|k2 IH].
  - rewrite Nat.add_0_r. unfold trade_ids_from at 3. simpl.
    rewrite app_nil_r. reflexivity.
  - rewrite Nat.add_succ_r, !trade_ids_from_snoc, IH, app_assoc, u64_u64_add.
    do 3 f_equal. lia.
Qed.

Lemma trades_in_app sym l1 l2 :
  trades_in sym (l1 ++ l2) = trades_in sym l1 ++ trades_in sym l2.
Proof. unfold trades_in. apply List.filter_app. Qed.

Lemma trades_in_all sym l :
  Forall (fun t => trade_symbol t = sym) l -> trades_in sym l = l.
Proof.
  unfold trades_in. induction 1 as [|t l Ht _ IH]; simpl; [reflexivity|].
  rewrite bool_decide_eq_true_2 by exact Ht. rewrite IH. reflexivity.
Qed.

Lemma trades_in_none sym sym' l :
  sym' <> sym -> Forall (fun t => trade_symbol t = sym') l -> trades_in sym l = [].
Proof.
  unfold trades_in. intros Hne. induction 1 as [|t l Ht _ IH]; simpl; [reflexivity|].
  rewrite bool_decide_eq_false_2 by congruence. exact IH.
Qed.

(** The trade counter and the symbol of the book after [process_order]. *)
Lemma process_order_counter order b trades order' b' :
  is_u64 (next_trade_id_ b) ->
  process_order order b = Some (trades, order', b') ->
  symbol_ b' = symbol_ b /\
  trade_id <$> trades = trade_ids_from (next_trade_id_ b) (length trades) /\
  next_trade_id_ b' = u64 (next_trade_id_ b + Z.of_nat (length trades)) /\
  Forall (fun t => trade_symbol t = symbol_ b /\
                   taker_order_id t = order_id order /\
                   taker_client_id t = client_id order) trades.
Proof.
  intros Hn Hp. split; [exact (process_order_symbol _ _ _ _ _ Hp)|].
  revert Hp. unfold process_order. rewrite match_order_unfold.
  destruct (match_loop _ _ _ _) as [s'|] eqn:Hl; [|discriminate].
  intros [= <- _ <-].
  destruct (match_loop_trade_fields _ _ _ _ _ Hl Hn) as (new & H1 & H2 & H3 & H4).
  simpl in H1, H2, H3, H4. rewrite H1. split; [exact H2|]. split.
  - unfold clean_filled_orders. simpl.
    destruct (_ && _); unfold add_order_unlocked;
      destruct (is_buy order); try destruct (is_buy (ms_incoming s'));
      simpl; exact H3.
  - eapply Forall_impl; [exact H4|]. simpl. intuition.
Qed.

Lemma book_of_submit client sym s p q e id trades e' :
  submit_order client sym s p q e = Some (id, trades, e') ->
  exists order',
    process_order (Order_new (next_order_id_ e) client sym s p q) (book_of sym e)
      = Some (trades, order', book_of sym e') /\
    forall sym', sym' <> sym -> book_of sym' e' = book_of sym' e.
Proof.
  intros Hs. pose proof (submit_order_books _ _ _ _ _ _ _ _ _ Hs) as Hother.
  revert Hs. unfold submit_order, book_of, get_or_create_book.
  destruct (order_books_ e !! sym) as [b0|] eqn:Hb0; simpl;
    destruct (process_order _ _) as [[[tr o'] b']|] eqn:Hp; try discriminate;
    intros [= <- <- <-]; simpl; exists o'; rewrite lookup_insert_eq; simpl;
    (split; [reflexivity|]); intros sym' Hne;
    rewrite lookup_insert_ne by congruence;
    rewrite ?lookup_insert_ne by congruence; reflexivity.
Qed.

Lemma book_of_cancel id e sym :
  symbol_ (book_of sym (snd (cancel_order id e))) = symbol_ (book_of sym e) /\
  next_trade_id_ (book_of sym (snd (cancel_order id e))) =
    next_trade_id_ (book_of sym e).
Proof.
  destruct (cancel_order_cases id e)
    as [(sym0 & book & o & _ & Hb & _ & Hcc)|[_ Hcc]]; rewrite Hcc; simpl;
    [|auto].
  unfold book_of. simpl. rewrite lookup_insert. case_decide; [|auto].
  subst sym0. rewrite Hb. simpl. auto.
Qed.

(** X15.  Trade ids count per symbol, and a trade belongs to the submit
    that caused it: over any sequence of calls on a new engine, the trades
    of one symbol carry the ids 1, 2, 3, ... (modulo 2^64) in the order in
    which they were notified, the book's counter standing one past the last;
    and every trade of a submit carries that submit's symbol and names the
    order it created, and its client, as taker.  The counter is the member
    OrderBook.cpp increments as [next_trade_id_]; OrderBook.h declares it,
    initialised to 1, under the name [net_trade_id]. *)
Theorem X15_trade_ids_per_symbol cs replies e sym :
  run cs MatchingEngine_new = Some (replies, e) ->
  trade_id <$> trades_in sym (trades_of replies) =
    trade_ids_from 1 (length (trades_in sym (trades_of replies))) /\
  next_trade_id_ (book_of sym e) =
    u64 (1 + Z.of_nat (length (trades_in sym (trades_of replies)))) /\
  Forall2 reply_matches cs replies.
Proof.
  intros Hr.
  enough (H : (forall sym,
             symbol_ (book_of sym e) = sym /\
             trade_id <$> trades_in sym (trades_of replies) =
               trade_ids_from 1 (length (trades_in sym (trades_of replies))) /\
             next_trade_id_ (book_of sym e) =
               u64 (1 + Z.of_nat (length (trades_in sym (trades_of replies))))) /\
           Forall2 reply_matches cs replies).
  { destruct H as [H1 H2]. destruct (H1 sym) as (_ & ? & ?). auto. }
  clear sym. revert cs replies e Hr.
  apply (run_history (fun cs rs e =>
    (forall sym,
       symbol_ (book_of sym e) = sym /\
       trade_id <$> trades_in sym (trades_of rs) =
         trade_ids_from 1 (length (trades_in sym (trades_of rs))) /\
       next_trade_id_ (book_of sym e) =
         u64 (1 + Z.of_nat (length (trades_in sym (trades_of rs))))) /\
    Forall2 reply_matches cs rs)).
  { split; [|constructor]. intros sym. unfold book_of. simpl.
    rewrite lookup_empty. simpl. repeat split; reflexivity. }
  intros cs rs e c r e' _ [IH IH2] Hcall.
  destruct c as [client sym0 s p q|id]; simpl in Hcall.
  - destruct (submit_order client sym0 s p q e) as [[[id tr] e1]|] eqn:Hs;
      [|discriminate].
    injection Hcall as <- <-.
    destruct (submit_order_stats _ _ _ _ _ _ _ _ _ Hs) as (-> & _).
    destruct (book_of_submit _ _ _ _ _ _ _ _ _ Hs) as (o' & Hp & Hother).
    destruct (IH sym0) as (Hsym0 & Hids0 & Hn0).
    destruct (process_order_counter _ _ _ _ _
                ltac:(rewrite Hn0; apply u64_range) Hp)
      as (Hsym' & Hids' & Hn' & Hall).
    rewrite Hsym0 in Hall.
    split.
    + intros sym. rewrite trades_of_app, trades_in_app.
      change (trades_of [Submitted (next_order_id_ e) tr]) with (tr ++ []).
      rewrite app_nil_r.
      destruct (decide (sym = sym0)) as [->|Hne].
      * rewrite (trades_in_all sym0 tr)
          by (eapply Forall_impl; [exact Hall|]; simpl; intuition).
        split; [congruence|].
        rewrite fmap_app, length_app, trade_ids_from_app, <- Hids0, <- Hn0, <- Hids'.
        split; [reflexivity|].
        rewrite Hn', Hn0, u64_u64_add. f_equal. lia.
      * rewrite (trades_in_none sym sym0 tr)
          by (congruence || (eapply Forall_impl; [exact Hall|]; simpl; intuition)).
        rewrite app_nil_r, Hother by exact Hne. apply IH.
    + apply Forall2_app; [exact IH2|]. constructor; [|constructor].
      simpl. exact Hall.
  - destruct (cancel_order id e) as [ok e1] eqn:Hcc. injection Hcall as <- <-.
    split.
    + intros sym. destruct (book_of_cancel id e sym) as [H1 H2].
      rewrite Hcc in H1, H2. simpl in H1, H2.
      rewrite trades_of_app. change (trades_of [Cancelled ok]) with (@nil Trade).
      rewrite app_nil_r, H1, H2. apply IH.
    + apply Forall2_app; [exact IH2|]. constructor; [exact I|constructor].
Qed.

(** The theorem at [resting_calls]: its one trade has id 1. *)
Lemma X15_trade_ids_per_symbol_witness :
  trade_id <$> trades_in BTC (trades_of replies_R) =
    trade_ids_from 1 (length (trades_in BTC (trades_of replies_R))) /\
  next_trade_id_ (book_of BTC engine_R) =
    u64 (1 + Z.of_nat (length (trades_in BTC (trades_of replies_R)))) /\
  Forall2 reply_matches resting_calls replies_R.
Proof.
  apply (X15_trade_ids_per_symbol resting_calls replies_R engine_R BTC).
  vm_compute. reflexivity.
Defined.

(** ** The two sides of a trade *)

(** The parties of the trades of [process_order]: the incoming order is the
    taker, the maker is an order the book held. *)
Lemma process_order_parties order b trades order' b' :
  book_inv b ->
  process_order order b = Some (trades, order', b') ->
  Forall (fun t => taker_order_id t = order_id order /\
                   is_Some (orders_ b !! maker_order_id t)) trades.
Proof.
  intros Hi Hp.
  destruct (process_order_shape _ _ _ _ _ Hp) as (s' & comp & Hl & Htr & _).
  assert (Hbk : heap_backed (orders_ b) (resting_side order b)).
  { unfold resting_side. destruct (is_buy order); apply Hi. }
  destruct (match_loop_trades _ _ _ _ _ Hl) as (new & H1 & Hall).
  simpl in H1. rewrite <- Htr in H1. subst new.
  eapply Forall_impl; [exact Hall|]. simpl.
  intros t (k & s1 & p & Hk & Htop & _ & Htk & Hmk & _).
  pose proof (iteration_stable _ _ _ _ _ Hk) as Hst1.
  rewrite (stable_incoming_id _ _ Hst1) in Htk.
  rewrite (stable_id _ _ Hst1) in Hmk. simpl in Htk, Hmk.
  assert (Hin : In p (resting_side order b)).
  { apply (stable_heap _ _ Hst1). destruct (ms_heap s1) as [|x l]; [discriminate|].
    injection Htop as ->. left. reflexivity. }
  split; [exact Htk|].
  rewrite Hmk, (heap_ids b Hi p (resting_side_in order b p Hin)).
  apply Hbk, Hin.
Qed.

Lemma book_of_inv sym e :
  engine_inv e ->
  book_inv (book_of sym e) /\
  forall p, is_Some (orders_ (book_of sym e) !! p) -> p < next_order_id_ e.
Proof.
  intros He. unfold book_of.
  destruct (order_books_ e !! sym) as [b|] eqn:Hb; simpl.
  - apply (He _ _ Hb).
  - split; [apply book_inv_new|]. intros p. simpl. rewrite lookup_empty.
    intros [? [=]].
Qed.

(** ** Fills and trades *)

Lemma process_order_quantities order b trades order' b' :
  book_sound b -> order_ok order -> orders_ b !! order_id order = None ->
  process_order order b = Some (trades, order', b') ->
  filled_quantity order' = filled_quantity order + total_quantity trades /\
  Forall (fun t => taker_order_id t = order_id order /\
                   is_Some (orders_ b !! maker_order_id t)) trades /\
  forall p o', orders_ b' !! p = Some o' ->
    (p = order_id order /\ o' = order') \/
    (p <> order_id order /\
     exists o, orders_ b !! p = Some o /\
       filled_quantity o' = filled_quantity o + quantity_against p trades).
Proof.
  intros Hb Hok Hfresh Hp.
  destruct (process_order_facts _ _ _ _ _ Hb Hok Hfresh Hp)
    as (s' & q & Hl & Hs' & Htr & Ho & Hid & _ & _ & Hok' & Hne & Hnew & _).
  cbv zeta in *.
  pose proof (sound_inv _ Hb) as Hi.
  assert (Hbk : heap_backed (orders_ b) (resting_side order b)).
  { unfold resting_side. destruct (is_buy order); apply Hi. }
  destruct (match_loop_incoming_filled _ _ _ _ _ Hl Hok) as (new & H1 & H2 & _).
  simpl in H1, H2. rewrite <- Htr in H1. subst new. rewrite <- Ho in H2.
  split; [exact H2|]. split.
  - exact (process_order_parties _ _ _ _ _ Hi Hp).
  - intros p o' Hp'. destruct (decide (p = order_id order)) as [->|Hpn].
    + left. split; [reflexivity|]. rewrite Hnew in Hp'.
      destruct (_ && _); congruence.
    + right. split; [exact Hpn|]. rewrite Hne in Hp' by exact Hpn.
      destruct (match_loop_makers _ _ _ _ _ Hl (sound_orders _ Hb))
        as (new & H1 & _ & H3).
      { intros p0 Hp0. apply (heap_ids b Hi), (resting_side_in order), Hp0. }
      simpl in H1. rewrite <- Htr in H1. subst new.
      pose proof (match_loop_stable _ _ _ _ _ Hl) as Hst.
      destruct (proj1 (stable_dom _ _ Hst Hbk p)) as [o Hpo]; [eauto|].
      simpl in Hpo. exists o. split; [exact Hpo|].
      specialize (H3 p). simpl in H3.
      rewrite (deref_lookup _ _ _ Hp'), (deref_lookup _ _ _ Hpo) in H3. exact H3.
Qed.

Lemma traded_app p l1 l2 : traded p (l1 ++ l2) = traded p l1 + traded p l2.
Proof. unfold traded. rewrite List.filter_app. apply total_quantity_app. Qed.

Lemma traded_cons p t l :
  traded p (t :: l) =
    (if involves_order t p then trade_quantity t else 0) + traded p l.
Proof. unfold traded. simpl. destruct (involves_order t p); reflexivity. Qed.

Lemma traded_none p l :
  Forall (fun t => taker_order_id t <> p /\ maker_order_id t <> p) l ->
  traded p l = 0.
Proof.
  induction 1 as [|t l [H1 H2] _ IH]; [reflexivity|].
  rewrite traded_cons, IH. unfold involves_order.
  rewrite (proj2 (Z.eqb_neq _ _) H1), (proj2 (Z.eqb_neq _ _) H2). reflexivity.
Qed.

Lemma traded_taker p l :
  Forall (fun t => taker_order_id t = p) l -> traded p l = total_quantity l.
Proof.
  induction 1 as [|t l H1 _ IH]; [reflexivity|].
  rewrite traded_cons, IH. unfold involves_order. rewrite H1, Z.eqb_refl.
  reflexivity.
Qed.

Lemma traded_maker p l :
  Forall (fun t => taker_order_id t <> p) l -> traded p l = quantity_against p l.
Proof.
  induction 1 as [|t l H1 _ IH]; [reflexivity|].
  rewrite traded_cons, quantity_against_cons, IH. unfold involves_order.
  rewrite (proj2 (Z.eqb_neq _ _) H1). simpl.
  destruct (Z.eqb_spec (maker_order_id t) p) as [E|E];
    [rewrite decide_True by exact E|rewrite decide_False by exact E];
    reflexivity.
Qed.

Lemma find_order_book_of sym p e :
  find_order sym p e = orders_ (book_of sym e) !! p.
Proof.
  unfold find_order, book_of. destruct (order_books_ e !! sym); simpl;
    [reflexivity|]. rewrite lookup_empty. reflexivity.
Qed.

Lemma book_of_sound sym e :
  engine_sound e ->
  book_sound (book_of sym e) /\
  forall p, is_Some (orders_ (book_of sym e) !! p) -> p < next_order_id_ e.
Proof.
  intros He. unfold book_of.
  destruct (order_books_ e !! sym) as [b|] eqn:Hb; simpl.
  - destruct (He _ _ Hb) as (? & _ & ? & _). auto.
  - split; [apply book_sound_new|]. intros p. simpl. rewrite lookup_empty.
    intros [? [=]].
Qed.

Lemma submit_order_o2s client sym s p q e id trades e' :
  submit_order client sym s p q e = Some (id, trades, e') ->
  order_to_symbol_ e' = <[next_order_id_ e := sym]> (order_to_symbol_ e).
Proof.
  unfold submit_order.
  destruct (get_or_create_book sym (order_books_ e)) as [book bs].
  destruct (process_order _ book) as [[[tr o'] b']|]; [|discriminate].
  intros [= <- <- <-]. reflexivity.
Qed.

Lemma cancel_order_keeps id e :
  order_to_symbol_ (snd (cancel_order id e)) = order_to_symbol_ e /\
  next_order_id_ (snd (cancel_order id e)) = next_order_id_ e /\
  forall sym p,
    filled_quantity <$> find_order sym p (snd (cancel_order id e)) =
    filled_quantity <$> find_order sym p e.
Proof.
  destruct (cancel_order_cases id e)
    as [(sym0 & book & o & _ & Hb & Ho & Hcc)|[_ Hcc]]; rewrite Hcc; simpl;
    [|auto].
  split; [reflexivity|]. split; [reflexivity|].
  intros sym p. unfold find_order. simpl. rewrite lookup_insert.
  case_decide; [|reflexivity]. subst sym0. rewrite Hb. simpl.
  rewrite lookup_insert. case_decide; [|reflexivity].
  subst p. rewrite Ho. reflexivity.
Qed.

(** What a history keeps: the fill of a stored order is what it has traded,
    no trade names an id not yet handed out, and [order_to_symbol_] names
    the book that holds an order. *)
Lemma run_fills cs replies e :
  run cs MatchingEngine_new = Some (replies, e) ->
  Forall call_ok cs -> 1 + Z.of_nat (length cs) < 2 ^ 64 ->
  (forall sym p o, find_order sym p e = Some o ->
     filled_quantity o = traded p (trades_of replies)) /\
  Forall (fun t => taker_order_id t < next_order_id_ e /\
                   maker_order_id t < next_order_id_ e) (trades_of replies) /\
  (forall sym p, is_Some (find_order sym p e) ->
     order_to_symbol_ e !! p = Some sym).
Proof.
  revert cs replies e.
  apply (run_history (fun cs rs e =>
    Forall call_ok cs -> 1 + Z.of_nat (length cs) < 2 ^ 64 ->
    (forall sym p o, find_order sym p e = Some o ->
       filled_quantity o = traded p (trades_of rs)) /\
    Forall (fun t => taker_order_id t < next_order_id_ e /\
                     maker_order_id t < next_order_id_ e) (trades_of rs) /\
    (forall sym p, is_Some (find_order sym p e) ->
       order_to_symbol_ e !! p = Some sym))).
  { intros _ _. split; [|split; [constructor|]].
    - intros sym p o. unfold find_order. simpl. rewrite lookup_empty. discriminate.
    - intros sym p. unfold find_order. simpl. rewrite lookup_empty.
      intros [? [=]]. }
  intros cs rs e c r e' Hrun IH Hcall Hcs Hlen.
  apply Forall_app in Hcs as [Hcs Hc]. apply Forall_cons in Hc as [Hc _].
  rewrite length_app in Hlen. simpl in Hlen.
  destruct (IH Hcs ltac:(lia)) as (IA & IB & IC). clear IH.
  destruct (run_new_sound cs rs e Hcs ltac:(lia) Hrun) as [He _].
  destruct (run_inv cs MatchingEngine_new rs e engine_inv_new
              ltac:(simpl; lia) ltac:(simpl; lia) Hrun) as [_ Hnext].
  simpl in Hnext.
  rewrite trades_of_app.
  destruct c as [client sym0 s p q|id]; simpl in Hcall.
  - destruct (submit_order client sym0 s p q e) as [[[id tr] e1]|] eqn:Hs;
      [|discriminate].
    injection Hcall as <- <-.
    destruct (submit_order_stats _ _ _ _ _ _ _ _ _ Hs) as (-> & Hn' & _).
    rewrite u64_small in Hn' by (unfold is_u64; lia).
    pose proof (submit_order_o2s _ _ _ _ _ _ _ _ _ Hs) as Ho2s.
    destruct (book_of_submit _ _ _ _ _ _ _ _ _ Hs) as (o' & Hp & Hother).
    destruct (book_of_sound sym0 e He) as [Hbs Hlt].
    destruct Hc as [Hq Hpr].
    set (id := next_order_id_ e) in *.
    assert (Hok : order_ok (Order_new id client sym0 s p q)).
    { unfold order_ok, is_u64 in *. simpl. lia. }
    assert (Hfresh : orders_ (book_of sym0 e) !! id = None).
    { apply eq_None_not_Some. intros Hx. apply Hlt in Hx. lia. }
    destruct (process_order_quantities (Order_new id client sym0 s p q)
                _ _ _ _ Hbs Hok Hfresh Hp) as (Hfill & Htr & Hstored).
    simpl in Hfill, Htr, Hstored.
    change (trades_of [Submitted id tr]) with (tr ++ []). rewrite app_nil_r.
    assert (Hold : traded id (trades_of rs) = 0).
    { apply traded_none. eapply Forall_impl; [exact IB|]. simpl. lia. }
    assert (Htk : Forall (fun t => taker_order_id t = id) tr).
    { eapply Forall_impl; [exact Htr|]. simpl. intuition. }
    assert (Hmk : Forall (fun t => maker_order_id t < id /\
                   order_to_symbol_ e !! maker_order_id t = Some sym0) tr).
    { eapply Forall_impl; [exact Htr|]. simpl. intros t [_ Hm].
      split; [apply Hlt, Hm|]. apply IC. rewrite find_order_book_of. exact Hm. }
    split; [|split].
    + intros sym p' o. rewrite find_order_book_of, traded_app.
      destruct (decide (sym = sym0)) as [->|Hne].
      * intros Ho. destruct (Hstored _ _ Ho) as [[-> ->]|(Hpn & o0 & Ho0 & Hf)].
        -- rewrite Hold, (traded_taker id tr Htk). lia.
        -- rewrite Hf, (IA sym0 p' o0) by (rewrite find_order_book_of; exact Ho0).
           rewrite (traded_maker p' tr); [reflexivity|].
           eapply Forall_impl; [exact Htk|]. simpl. congruence.
      * rewrite Hother by exact Hne. rewrite <- find_order_book_of. intros Ho.
        rewrite (IA sym p' o Ho), (traded_none p' tr); [lia|].
        assert (Hp' : order_to_symbol_ e !! p' = Some sym) by (apply IC; eauto).
        assert (p' < id).
        { destruct (book_of_sound sym e He) as [_ Hlt'].
          apply Hlt'. rewrite <- find_order_book_of. eauto. }
        rewrite Forall_forall in Htk, Hmk. apply Forall_forall. intros t Ht.
        specialize (Htk t Ht). destruct (Hmk t Ht) as [_ Hms]. simpl in Htk.
        split; [lia|]. intros E. rewrite E in Hms. congruence.
    + apply Forall_app. split.
      * eapply Forall_impl; [exact IB|]. simpl. lia.
      * rewrite Forall_forall in Htk, Hmk. apply Forall_forall. intros t Ht.
        specialize (Htk t Ht). destruct (Hmk t Ht) as [Hm _]. simpl in Htk. lia.
    + intros sym p'. rewrite find_order_book_of, Ho2s. fold id.
      destruct (decide (sym = sym0)) as [->|Hne].
      * intros [o Ho]. destruct (Hstored _ _ Ho) as [[-> _]|(Hpn & o0 & Ho0 & _)].
        -- apply lookup_insert_eq.
        -- rewrite lookup_insert_ne by congruence. apply IC.
           rewrite find_order_book_of. eauto.
      * rewrite Hother by exact Hne. intros Hx.
        assert (p' < id).
        { destruct (book_of_sound sym e He) as [_ Hlt']. apply Hlt', Hx. }
        rewrite lookup_insert_ne by lia. apply IC.
        rewrite find_order_book_of. exact Hx.
  - destruct (cancel_order id e) as [ok e1] eqn:Hcc. injection Hcall as <- <-.
    destruct (cancel_order_keeps id e) as (K1 & K2 & K3).
    rewrite Hcc in K1, K2, K3. simpl in K1, K2, K3.
    change (trades_of [Cancelled ok]) with (@nil Trade). rewrite app_nil_r.
    rewrite K1, K2. split; [|split; [exact IB|]].
    + intros sym p o Ho. specialize (K3 sym p). rewrite Ho in K3. simpl in K3.
      destruct (find_order sym p e) as [o0|] eqn:Ho0; [|discriminate].
      injection K3 as ->. apply (IA _ _ _ Ho0).
    + intros sym p Hx. apply IC. specialize (K3 sym p).
      destruct Hx as [o Ho]. rewrite Ho in K3.
      destruct (find_order sym p e); [eauto|discriminate].
Qed.

(** X16.  Every fill is a trade: in every engine reached from a new one by
    valid calls, the filled quantity of an order held by a book is the sum
    of the quantities of the trades notified so far that involve it
    ([Trade::involves_order]), as taker or as maker; the order is held by
    the book [order_to_symbol_] names, and by no other. *)
Theorem X16_fills_are_trades cs replies e sym p o :
  Forall call_ok cs -> 1 + Z.of_nat (length cs) < 2 ^ 64 ->
  run cs MatchingEngine_new = Some (replies, e) ->
  find_order sym p e = Some o ->
  filled_quantity o = traded p (trades_of replies) /\
  remaining_quantity o = quantity o - traded p (trades_of replies) /\
  order_to_symbol_ e !! p = Some sym /\
  forall sym', is_Some (find_order sym' p e) -> sym' = sym.
Proof.
  intros Hcs Hlen Hr Ho.
  destruct (run_fills cs replies e Hr Hcs Hlen) as (HA & _ & HC).
  destruct (run_new_sound cs replies e Hcs Hlen Hr) as [He _].
  pose proof (HA _ _ _ Ho) as Hf.
  assert (Hs : order_to_symbol_ e !! p = Some sym) by (apply HC; eauto).
  split; [exact Hf|]. split; [|split; [exact Hs|]].
  - rewrite <- Hf. apply order_ok_remaining.
    apply find_order_book in Ho as (b & Hb & Ho).
    destruct (He _ _ Hb) as (Hbs & _). apply (sound_orders _ Hbs _ _ Ho).
  - intros sym' Hx. apply HC in Hx. congruence.
Qed.

(** The theorem at [resting_calls], for bid 3: 1 of its 2 was sold to
    order 4. *)
Lemma X16_fills_are_trades_witness :
  1 = traded 3 (trades_of replies_R).
Proof.
  refine (proj1 (X16_fills_are_trades resting_calls replies_R engine_R BTC 3
                   (mkOrder 3 102 BTC BUY 50000%float 2 1 PARTIALLY_FILLED)
                   _ _ _ _)).
  - calls_ok.
  - vm_compute. reflexivity.
  - vm_compute. reflexivity.
  - vm_compute. reflexivity.
Defined.

(** ** Level snapshots *)

Lemma ltb_false_key x y :
  ordered x -> ordered y -> PrimFloat.ltb x y = false ->
  ~ key_lt (float_key x) (float_key y).
Proof.
  intros Hx Hy Hl Hk.
  assert (PrimFloat.ltb x y = true) by (apply ltb_key; auto). congruence.
Qed.

Lemma eqb_refl_ordered x : ordered x -> PrimFloat.eqb x x = true.
Proof. intros Hx. apply eqb_key. auto. Qed.

Lemma eqb_false_key x y :
  ordered x -> ordered y -> PrimFloat.eqb x y = false ->
  float_key x <> float_key y.
Proof.
  intros Hx Hy Hl Hk.
  assert (PrimFloat.eqb x y = true) by (apply eqb_key; auto). congruence.
Qed.

Lemma level_map_at_length k f lm :
  (length lm <= length (level_map_at k f lm) <= S (length lm))%nat.
Proof.
  induction lm as [|[k' v] lm IH]; simpl; [lia|].
  destruct (PrimFloat.ltb k k'); simpl; [lia|].
  destruct (PrimFloat.ltb k' k); simpl; lia.
Qed.

(** The keys of the map after [level_map[k]] are those it had, and [k]. *)
Lemma level_map_at_keys k f lm kv :
  In kv (level_map_at k f lm) ->
  kv.1 = k \/ exists v, In (kv.1, v) lm.
Proof.
  induction lm as [|[k' v] lm IH]; simpl.
  - intros [<-|[]]. left. reflexivity.
  - destruct (PrimFloat.ltb k k'); simpl.
    + intros [<-|[<-|Hin]]; simpl; eauto. right. exists kv.2.
      right. destruct kv; exact Hin.
    + destruct (PrimFloat.ltb k' k); simpl.
      * intros [<-|Hin]; simpl; eauto.
        destruct (IH Hin) as [?|[v' ?]]; eauto.
      * intros [<-|Hin]; simpl; eauto. right. exists kv.2.
        right. destruct kv; exact Hin.
Qed.

Lemma level_map_at_ok k f lm :
  ordered k -> level_map_ok lm -> level_map_ok (level_map_at k f lm).
Proof.
  intros Hk [Hs Ho]. induction lm as [|[k' v] lm IH]; simpl.
  - split; repeat constructor. exact Hk.
  - apply StronglySorted_inv in Hs as [Hs Hall].
    apply Forall_cons in Ho as [Hk' Ho]. simpl in Hk'.
    specialize (IH Hs Ho). destruct IH as [IHs IHo].
    destruct (PrimFloat.ltb k k') eqn:E1.
    + apply ltb_key in E1 as (_ & _ & E1). split.
      * constructor; [constructor; assumption|].
        constructor; [exact E1|].
        eapply Forall_impl; [exact Hall|]. simpl. intros kv Hkv.
        eapply key_lt_trans; eauto.
      * constructor; [exact Hk|]. constructor; assumption.
    + destruct (PrimFloat.ltb k' k) eqn:E2.
      * apply ltb_key in E2 as (_ & _ & E2). split.
        -- constructor; [exact IHs|].
           apply Forall_forall. intros kv Hkv. simpl.
           apply list_elem_of_In, level_map_at_keys in Hkv as [->|[v' Hin]];
             [exact E2|].
           rewrite Forall_forall in Hall.
           apply (Hall (kv.1, v')), list_elem_of_In, Hin.
        -- constructor; assumption.
      * split; constructor; assumption.
Qed.

Lemma aggregate_loop_length m n q : forall lm,
  (length lm <= n)%nat ->
  (length lm <= length (aggregate_loop m n q lm) <= n)%nat.
Proof.
  induction q as [|p q IH]; intros lm Hl; simpl; [lia|].
  destruct (Nat.ltb_spec (length lm) n) as [Hlt|Hge]; [|lia].
  destruct (_ || _); [apply IH, Hl|].
  pose proof (level_map_at_length (price (deref m p))
                (add_to_level (deref m p)) lm) as Hlen.
  specialize (IH (level_map_at (price (deref m p))
                    (add_to_level (deref m p)) lm) ltac:(lia)). lia.
Qed.

Lemma aggregate_loop_all m n q : forall lm,
  (length (aggregate_loop m n q lm) < n)%nat ->
  aggregate_loop m n q lm = aggregate_all m q lm.
Proof.
  induction q as [|p q IH]; intros lm; simpl; [reflexivity|].
  destruct (Nat.ltb_spec (length lm) n) as [Hlt|Hge]; [|lia].
  destruct (_ || _); apply IH.
Qed.

Lemma aggregate_loop_ok m n q : forall lm,
  prices_ordered m -> level_map_ok lm ->
  level_map_ok (aggregate_loop m n q lm).
Proof.
  induction q as [|p q IH]; intros lm Hm Hl; simpl; [exact Hl|].
  destruct (_ <? _)%nat; [|exact Hl].
  destruct (_ || _); [apply IH; assumption|].
  apply IH; [assumption|]. apply level_map_at_ok; [|exact Hl].
  apply deref_ordered, Hm.
Qed.

(** What [level_map[k]] followed by an update with [f] leaves in the map. *)
Lemma level_map_at_In k f lm kv :
  In kv (level_map_at k f lm) ->
  In kv lm \/ kv = (k, f BookLevel_zero) \/
  exists v, In (kv.1, v) lm /\ PrimFloat.ltb k kv.1 = false /\
            PrimFloat.ltb kv.1 k = false /\ kv.2 = f v.
Proof.
  induction lm as [|[k' v] lm IH]; simpl.
  - intros [<-|[]]. auto.
  - destruct (PrimFloat.ltb k k') eqn:E1; simpl.
    + intros [<-|[<-|Hin]]; auto.
    + destruct (PrimFloat.ltb k' k) eqn:E2; simpl.
      * intros [<-|Hin]; auto.
        destruct (IH Hin) as [?|[?|(v' & ? & ?)]]; eauto 8.
      * intros [<-|Hin]; auto. right. right. exists v. simpl. auto.
Qed.

Lemma key_eq_of_ltb x y :
  ordered x -> ordered y ->
  PrimFloat.ltb x y = false -> PrimFloat.ltb y x = false ->
  float_key x = float_key y.
Proof.
  intros Hx Hy H1 H2.
  pose proof (ltb_false_key x y Hx Hy H1).
  pose proof (ltb_false_key y x Hy Hx H2).
  destruct (key_total (float_key x) (float_key y)) as [?|[?|?]];
    [contradiction|assumption|contradiction].
Qed.

(** The levels the loop builds carry the price of their key and come from
    live orders of the container. *)
Lemma aggregate_loop_prices m n q0 q : forall lm,
  prices_ordered m -> incl q q0 ->
  Forall (fun kv =>
    ordered kv.1 /\ float_key (level_price kv.2) = float_key kv.1 /\
    ordered (level_price kv.2) /\
    is_u64 (level_quantity kv.2) /\ 0 <= order_count kv.2 < 2 ^ 32 /\
    exists p, In p q0 /\ live (deref m p) = true /\
              float_key (price (deref m p)) = float_key kv.1) lm ->
  Forall (fun kv =>
    ordered kv.1 /\ float_key (level_price kv.2) = float_key kv.1 /\
    ordered (level_price kv.2) /\
    is_u64 (level_quantity kv.2) /\ 0 <= order_count kv.2 < 2 ^ 32 /\
    exists p, In p q0 /\ live (deref m p) = true /\
              float_key (price (deref m p)) = float_key kv.1)
    (aggregate_loop m n q lm).
Proof.
  induction q as [|p q IH]; intros lm Hm Hq Hl; simpl; [exact Hl|].
  destruct (_ <? _)%nat; [|exact Hl].
  assert (Hq' : incl q q0) by (intros x Hx; apply Hq; right; exact Hx).
  destruct (_ || _) eqn:Hd; [apply IH; assumption|].
  apply IH; [assumption|assumption|].
  pose proof (deref_ordered m p Hm) as Hp.
  assert (Hlive : live (deref m p) = true).
  { rewrite live_dead. unfold dead. rewrite orb_comm, Hd. reflexivity. }
  apply Forall_forall. intros kv Hkv.
  rewrite Forall_forall in Hl.
  apply list_elem_of_In, level_map_at_In in Hkv
    as [Hin|[->|(v & Hin & E1 & E2 & Hv)]].
  - apply Hl, list_elem_of_In, Hin.
  - simpl. split; [exact Hp|]. split; [reflexivity|]. split; [exact Hp|].
    split; [apply u64_range|]. split; [apply Z.mod_pos_bound; lia|].
    exists p. split; [apply Hq; left; reflexivity|]. auto.
  - destruct (Hl (kv.1, v) (proj2 (list_elem_of_In _ _) Hin))
      as (Ho & _ & _ & _ & _ & Hex).
    simpl in Ho, Hex. rewrite Hv. simpl.
    split; [exact Ho|]. split; [apply key_eq_of_ltb; assumption|].
    split; [exact Hp|]. split; [apply u64_range|].
    split; [apply Z.mod_pos_bound; lia|]. exact Hex.
Qed.

Lemma level_at_above k0 lm :
  Forall (fun kv => key_lt (float_key k0) (float_key kv.1)) lm ->
  level_at k0 lm = BookLevel_zero.
Proof.
  unfold level_at. induction 1 as [|[k v] lm Hk _ IH]; simpl; [reflexivity|].
  destruct (PrimFloat.eqb k k0) eqn:E; [|exact IH].
  apply eqb_key in E as (_ & _ & E). simpl in Hk. rewrite E in Hk.
  apply key_lt_irrefl in Hk. contradiction.
Qed.

Lemma level_at_cons k0 k v lm :
  level_at k0 ((k, v) :: lm) =
    if PrimFloat.eqb k k0 then v else level_at k0 lm.
Proof. unfold level_at. simpl. destruct (PrimFloat.eqb k k0); reflexivity. Qed.

Lemma eqb_keys x y x' y' :
  ordered x -> ordered y -> ordered x' -> ordered y' ->
  float_key x = float_key x' -> float_key y = float_key y' ->
  PrimFloat.eqb x y = PrimFloat.eqb x' y'.
Proof.
  intros Hx Hy Hx' Hy' E1 E2.
  destruct (PrimFloat.eqb x y) eqn:E, (PrimFloat.eqb x' y') eqn:E'; auto.
  - apply eqb_key in E as (_ & _ & E).
    assert (PrimFloat.eqb x' y' = true) by (apply eqb_key; intuition congruence).
    congruence.
  - apply eqb_key in E' as (_ & _ & E').
    assert (PrimFloat.eqb x y = true) by (apply eqb_key; intuition congruence).
    congruence.
Qed.

(** Reading the map after [level_map[k]] was updated with [f]. *)
Lemma level_at_level_map_at k0 k f lm :
  level_map_ok lm -> ordered k -> ordered k0 ->
  level_at k0 (level_map_at k f lm) =
    if PrimFloat.eqb k k0 then f (level_at k0 lm) else level_at k0 lm.
Proof.
  intros [Hs Ho] Hk Hk0. induction lm as [|[k' v] lm IH]; simpl.
  - rewrite level_at_cons. reflexivity.
  - apply StronglySorted_inv in Hs as [Hs Hall].
    apply Forall_cons in Ho as [Hk' Ho]. simpl in Hk'.
    specialize (IH Hs Ho).
    destruct (PrimFloat.ltb k k') eqn:E1.
    + rewrite level_at_cons.
      destruct (PrimFloat.eqb k k0) eqn:E; [|reflexivity].
      rewrite level_at_above; [reflexivity|].
      apply eqb_key in E as (_ & _ & E). apply ltb_key in E1 as (_ & _ & E1).
      rewrite <- E. constructor; [exact E1|].
      eapply Forall_impl; [exact Hall|]. simpl. intros kv Hkv.
      eapply key_lt_trans; eauto.
    + destruct (PrimFloat.ltb k' k) eqn:E2.
      * rewrite !level_at_cons, IH.
        destruct (PrimFloat.eqb k' k0) eqn:E; [|reflexivity].
        destruct (PrimFloat.eqb k k0) eqn:E'; [|reflexivity].
        apply eqb_key in E as (_ & _ & E). apply eqb_key in E' as (_ & _ & E').
        apply ltb_key in E2 as (_ & _ & E2). rewrite E, E' in E2.
        apply key_lt_irrefl in E2. contradiction.
      * rewrite !level_at_cons.
        pose proof (key_eq_of_ltb k k' Hk Hk' E1 E2) as Hkk.
        rewrite (eqb_keys k k0 k' k0) by auto.
        destruct (PrimFloat.eqb k' k0); reflexivity.
Qed.

Lemma level_at_In lm kv :
  level_map_ok lm -> In kv lm -> level_at kv.1 lm = kv.2.
Proof.
  intros [Hs Ho]. induction lm as [|[k v] lm IH]; simpl; [intros []|].
  apply StronglySorted_inv in Hs as [Hs Hall].
  apply Forall_cons in Ho as [Hk Ho]. simpl in Hk.
  rewrite level_at_cons. intros [<-|Hin]; simpl.
  - rewrite eqb_refl_ordered by exact Hk. reflexivity.
  - destruct (PrimFloat.eqb k kv.1) eqn:E; [|apply IH; assumption].
    apply eqb_key in E as (_ & _ & E). rewrite Forall_forall in Hall.
    specialize (Hall kv (proj2 (list_elem_of_In _ _) Hin)). simpl in Hall.
    rewrite E in Hall. apply key_lt_irrefl in Hall. contradiction.
Qed.

Lemma aggregate_all_cons m p q lm :
  aggregate_all m (p :: q) lm =
    aggregate_all m q
      (if live (deref m p)
       then level_map_at (price (deref m p)) (add_to_level (deref m p)) lm
       else lm).
Proof.
  unfold aggregate_all. simpl. rewrite live_dead. unfold dead.
  rewrite (orb_comm (is_filled _)). destruct (_ || _); reflexivity.
Qed.

Lemma live_at_cons m k p q :
  live_at m k (p :: q) =
    if live (deref m p) && PrimFloat.eqb (price (deref m p)) k
    then p :: live_at m k q else live_at m k q.
Proof. reflexivity. Qed.

Lemma u32_u32_add a b : u32 (u32 a + b) = u32 (a + b).
Proof. unfold u32. rewrite Zplus_mod_idemp_l. reflexivity. Qed.

(** Without the cut, the level at a price adds up the live orders at that
    price. *)
Lemma level_at_aggregate_all m k0 q : forall lm,
  prices_ordered m -> ordered k0 -> level_map_ok lm ->
  u64 (level_quantity (level_at k0 (aggregate_all m q lm))) =
    u64 (level_quantity (level_at k0 lm) + sum_remaining m (live_at m k0 q)) /\
  u32 (order_count (level_at k0 (aggregate_all m q lm))) =
    u32 (order_count (level_at k0 lm) + Z.of_nat (length (live_at m k0 q))).
Proof.
  induction q as [|p q IH]; intros lm Hm Hk0 Hl.
  - unfold aggregate_all. simpl. rewrite !Z.add_0_r. auto.
  - rewrite aggregate_all_cons, live_at_cons.
    pose proof (deref_ordered m p Hm) as Hp.
    destruct (live (deref m p)); simpl; [|apply IH; assumption].
    destruct (IH (level_map_at (price (deref m p)) (add_to_level (deref m p)) lm)
                Hm Hk0 (level_map_at_ok _ _ _ Hp Hl)) as [IH1 IH2].
    rewrite IH1, IH2, level_at_level_map_at by assumption.
    destruct (PrimFloat.eqb _ k0); [|auto].
    change (level_quantity (add_to_level ?o ?l))
      with (u64 (level_quantity l + remaining_quantity o)).
    change (order_count (add_to_level ?o ?l)) with (u32 (order_count l + 1)).
    change (sum_remaining m (p :: ?l))
      with (remaining_quantity (deref m p) + sum_remaining m l).
    rewrite u64_u64_add, u32_u32_add, length_cons, Nat2Z.inj_succ.
    split; f_equal; lia.
Qed.

Lemma level_map_at_has k f lm :
  ordered k -> Forall (fun kv => ordered kv.1) lm ->
  (exists kv, In kv (level_map_at k f lm) /\ float_key kv.1 = float_key k) /\
  forall kv, In kv lm -> exists v, In (kv.1, v) (level_map_at k f lm).
Proof.
  intros Hk Ho. induction lm as [|[k' v] lm IH]; simpl.
  - split; [|intros kv []]. exists (k, f BookLevel_zero). simpl. auto.
  - apply Forall_cons in Ho as [Hk' Ho]. simpl in Hk'.
    destruct (IH Ho) as [(kv0 & Hin0 & Hk0) IHk].
    destruct (PrimFloat.ltb k k') eqn:E1.
    + split; [exists (k, f BookLevel_zero); simpl; auto|].
      intros kv Hin. exists kv.2. right. destruct kv; exact Hin.
    + destruct (PrimFloat.ltb k' k) eqn:E2.
      * split; [exists kv0; simpl; auto|].
        intros kv [<-|Hin]; simpl; [eauto|].
        destruct (IHk kv Hin) as [v' Hv']. eauto.
      * split.
        -- exists (k', f v). simpl. split; [auto|].
           symmetry. apply key_eq_of_ltb; assumption.
        -- intros kv [<-|Hin]; simpl; [eauto|].
           exists kv.2. right. destruct kv; exact Hin.
Qed.

(** Without the cut, every live order of the container has a level. *)
Lemma aggregate_all_complete m q : forall lm,
  prices_ordered m -> Forall (fun kv => ordered kv.1) lm ->
  Forall (fun kv => ordered kv.1) (aggregate_all m q lm) /\
  (forall kv, In kv lm -> exists v, In (kv.1, v) (aggregate_all m q lm)) /\
  forall p, In p q -> live (deref m p) = true ->
    exists kv, In kv (aggregate_all m q lm) /\
               float_key kv.1 = float_key (price (deref m p)).
Proof.
  induction q as [|p q IH]; intros lm Hm Ho.
  - unfold aggregate_all. simpl. split; [exact Ho|]. split; [|intros p []].
    intros kv Hin. exists kv.2. destruct kv; exact Hin.
  - rewrite aggregate_all_cons.
    pose proof (deref_ordered m p Hm) as Hp.
    destruct (live (deref m p)) eqn:Hl.
    + destruct (level_map_at_has (price (deref m p)) (add_to_level (deref m p))
                  lm Hp Ho) as [(kv0 & Hin0 & Hk0) Hkeep].
      assert (Ho' : Forall (fun kv => ordered kv.1)
                (level_map_at (price (deref m p)) (add_to_level (deref m p)) lm)).
      { apply Forall_forall. intros kv Hkv.
        apply list_elem_of_In, level_map_at_keys in Hkv as [->|[v Hin]];
          [exact Hp|].
        rewrite Forall_forall in Ho.
        apply (Ho (kv.1, v)), list_elem_of_In, Hin. }
      destruct (IH _ Hm Ho') as (I1 & I2 & I3).
      split; [exact I1|]. split.
      * intros kv Hin. destruct (Hkeep kv Hin) as [v Hv].
        apply (I2 (kv.1, v) Hv).
      * intros p' [<-|Hin] Hl'; [|apply I3; assumption].
        destruct (I2 kv0 Hin0) as [v Hv]. exists (kv0.1, v). auto.
    + destruct (IH lm Hm Ho) as (I1 & I2 & I3).
      split; [exact I1|]. split; [exact I2|].
      intros p' [<-|Hin] Hl'; [congruence|apply I3; assumption].
Qed.

Lemma live_at_key m k k' q :
  ordered k -> ordered k' -> float_key k = float_key k' ->
  prices_ordered m -> live_at m k q = live_at m k' q.
Proof.
  intros Hk Hk' E Hm. unfold live_at. apply List.filter_ext. intros p.
  rewrite (eqb_keys (price (deref m p)) k (price (deref m p)) k');
    auto using deref_ordered.
Qed.

(** X17.  What a level snapshot holds.  [aggregate_levels_impl], which
    serves [get_bid_levels] and [get_ask_levels], returns at most
    [max_levels] levels, in strictly increasing price on either side, each
    at the price of a live order of the heap.  When it returns fewer than
    [max_levels], nothing is left out: each level holds the total remaining
    quantity (modulo 2^64) and the number (modulo 2^32) of the live orders
    at its price, and every live order has its level. *)
Theorem X17_level_snapshot m container max_levels :
  prices_ordered m ->
  let levels := aggregate_levels_impl m container max_levels in
  (length levels <= max_levels)%nat /\
  StronglySorted
    (fun a b => PrimFloat.ltb (level_price a) (level_price b) = true) levels /\
  (forall l, In l levels ->
     exists p, In p container /\ live (deref m p) = true /\
               PrimFloat.eqb (price (deref m p)) (level_price l) = true) /\
  ((length levels < max_levels)%nat ->
     (forall l, In l levels ->
        level_quantity l =
          u64 (sum_remaining m (live_at m (level_price l) container)) /\
        order_count l =
          u32 (Z.of_nat (length (live_at m (level_price l) container)))) /\
     (forall p, In p container -> live (deref m p) = true ->
        exists l, In l levels /\
          PrimFloat.eqb (price (deref m p)) (level_price l) = true)).
Proof.
  intros Hm levels. unfold levels, aggregate_levels_impl.
  set (lm := aggregate_loop m max_levels container []).
  assert (Hok0 : level_map_ok []) by (split; constructor).
  pose proof (aggregate_loop_ok m max_levels container [] Hm Hok0) as Hok.
  pose proof (aggregate_loop_prices m max_levels container container []
                Hm (incl_refl _) (Forall_nil_2 _)) as Hpr.
  fold lm in Hok, Hpr. rewrite Forall_forall in Hpr.
  assert (Hin2 : forall l, In l lm.*2 -> exists kv, In kv lm /\ l = kv.2).
  { intros l Hl. apply list_elem_of_In, list_elem_of_fmap in Hl as (kv & -> & Hkv).
    exists kv. split; [apply list_elem_of_In, Hkv|reflexivity]. }
  split; [|split; [|split]].
  - rewrite length_fmap. apply (aggregate_loop_length m max_levels container []).
    simpl. lia.
  - destruct Hok as [Hs _]. clear Hin2. induction lm as [|kv lm IH]; simpl.
    + constructor.
    + apply StronglySorted_inv in Hs as [Hs Hall]. constructor.
      * apply IH; [exact Hs|]. intros x Hx. apply Hpr. right. exact Hx.
      * apply Forall_forall. intros l Hl.
        apply list_elem_of_fmap in Hl as (kv' & -> & Hkv').
        rewrite Forall_forall in Hall. specialize (Hall kv' Hkv').
        destruct (Hpr kv (list_elem_of_here _ _)) as (_ & E1 & O1 & _).
        destruct (Hpr kv' (list_elem_of_further _ _ _ Hkv')) as (_ & E2 & O2 & _).
        apply ltb_key. rewrite E1, E2. auto.
  - intros l Hl. destruct (Hin2 l Hl) as (kv & Hkv & ->).
    destruct (Hpr kv (proj2 (list_elem_of_In _ _) Hkv))
      as (Ok & E & Ol & _ & _ & p & Hp & Hlive & Hkey).
    exists p. split; [exact Hp|]. split; [exact Hlive|].
    apply eqb_key. split; [apply deref_ordered, Hm|]. split; [exact Ol|].
    congruence.
  - intros Hlt. rewrite length_fmap in Hlt.
    pose proof (aggregate_loop_all m max_levels container [] Hlt) as Hall.
    fold lm in Hall. split.
    + intros l Hl. destruct (Hin2 l Hl) as (kv & Hkv & ->).
      destruct (Hpr kv (proj2 (list_elem_of_In _ _) Hkv))
        as (Ok & E & Ol & Hq & Hc & _).
      rewrite (live_at_key m (level_price kv.2) kv.1) by auto.
      destruct (level_at_aggregate_all m kv.1 container [] Hm Ok Hok0) as [Q C].
      rewrite <- Hall, (level_at_In lm kv Hok Hkv) in Q, C.
      change (level_at kv.1 []) with BookLevel_zero in Q, C.
      change (level_quantity BookLevel_zero) with 0 in Q.
      change (order_count BookLevel_zero) with 0 in C.
      rewrite Z.add_0_l in Q, C.
      rewrite <- Q, <- C. split; symmetry.
      * apply u64_small, Hq.
      * unfold u32. apply Z.mod_small, Hc.
    + intros p Hp Hlive.
      destruct (aggregate_all_complete m container [] Hm (Forall_nil_2 _))
        as (_ & _ & Hc).
      destruct (Hc p Hp Hlive) as (kv & Hkv & Hk). rewrite <- Hall in Hkv.
      exists kv.2. split.
      * apply list_elem_of_In, list_elem_of_fmap. exists kv.
        split; [reflexivity|apply list_elem_of_In, Hkv].
      * destruct (Hpr kv (proj2 (list_elem_of_In _ _) Hkv)) as (Ok & E & Ol & _).
        apply eqb_key. split; [apply deref_ordered, Hm|]. split; [exact Ol|].
        congruence.
Qed.

Lemma book_R_sound : book_sound book_R.
Proof.
  destruct (run_new_sound resting_calls replies_R engine_R) as [He _].
  - calls_ok.
  - vm_compute. reflexivity.
  - vm_compute. reflexivity.
  - apply (He BTC book_R). vm_compute. reflexivity.
Qed.

(** The theorem at the bids of [resting_calls], asked for 10 levels. *)
Lemma X17_level_snapshot_witness :
  (length (book_get_bid_levels 10 book_R) <= 10)%nat.
Proof.
  exact (proj1 (X17_level_snapshot (orders_ book_R) (bids_ book_R) 10
                  (sound_prices _ book_R_sound))).
Defined.

(** ** Volumes *)

Lemma volume_loop_sum m q : forall t,
  u64 (volume_loop m q t) =
    u64 (t + sum_remaining m (List.filter (fun p => live (deref m p)) q)) /\
  (is_u64 t -> is_u64 (volume_loop m q t)).
Proof.
  induction q as [|p q IH]; intros t; simpl.
  - rewrite Z.add_0_r. auto.
  - fold (live (deref m p)). destruct (live (deref m p)).
    + destruct (IH (u64 (t + remaining_quantity (deref m p)))) as [I1 I2].
      rewrite I1, u64_u64_add. split; [|intros _; apply I2, u64_range].
      change (sum_remaining m (p :: ?l))
        with (remaining_quantity (deref m p) + sum_remaining m l).
      f_equal. lia.
    + apply IH.
Qed.

Lemma sum_remaining_perm m l1 l2 :
  l1 ≡ₚ l2 -> sum_remaining m l1 = sum_remaining m l2.
Proof.
  unfold sum_remaining. induction 1; simpl; lia.
Qed.

Lemma sum_remaining_pairs m (l : list (Z * Order)) :
  Forall (fun kv => m !! kv.1 = Some kv.2) l ->
  foldr (fun kv acc => remaining_quantity kv.2 + acc) 0 l =
    sum_remaining m l.*1.
Proof.
  unfold sum_remaining. induction 1 as [|[p o] l Hp _ IH]; simpl; [reflexivity|].
  simpl in Hp. rewrite (deref_lookup _ _ _ Hp), IH. reflexivity.
Qed.

Lemma filter_fst_sublist {A B} (f : A * B -> bool) (l : list (A * B)) :
  (List.filter f l).*1 `sublist_of` l.*1.
Proof.
  induction l as [|x l IH]; simpl; [constructor|].
  destruct (f x); simpl; [apply sublist_skip|apply sublist_cons]; exact IH.
Qed.

Lemma side_heap_volume (s : Side) b q :
  book_sound b ->
  NoDup q ->
  (forall p, In p q -> side (deref (orders_ b) p) = s) ->
  (forall p, In p q -> is_Some (orders_ b !! p)) ->
  (forall p o, orders_ b !! p = Some o -> live o = true -> side o = s -> In p q) ->
  volume_loop (orders_ b) q 0 = u64 (open_quantity s b).
Proof.
  intros Hb Hnd Hside Hbk Hidx.
  destruct (volume_loop_sum (orders_ b) q 0) as [Hv Hr].
  rewrite <- (u64_small (volume_loop _ _ _))
    by (apply Hr; unfold is_u64; lia).
  rewrite Hv, Z.add_0_l. f_equal.
  unfold open_quantity. rewrite (sum_remaining_pairs (orders_ b)).
  2:{ apply Forall_forall. intros [p o] Hin. simpl.
      apply list_elem_of_In, List.filter_In in Hin as [Hin _].
      apply elem_of_map_to_list, list_elem_of_In, Hin. }
  apply sum_remaining_perm, NoDup_Permutation.
  - apply NoDup_ListNoDup, List.NoDup_filter, NoDup_ListNoDup, Hnd.
  - eapply sublist_NoDup; [apply (NoDup_fst_map_to_list (orders_ b))|].
    apply filter_fst_sublist.
  - intros p. rewrite list_elem_of_In, List.filter_In, list_elem_of_fmap. split.
    + intros [Hin Hl]. destruct (Hbk p Hin) as [o Ho].
      exists (p, o). split; [reflexivity|].
      apply list_elem_of_In, List.filter_In. split.
      * apply list_elem_of_In, elem_of_map_to_list, Ho.
      * simpl. rewrite <- (deref_lookup _ _ _ Ho), Hl.
        rewrite bool_decide_eq_true_2 by (apply Hside, Hin). reflexivity.
    + intros ([p' o] & -> & Hin). simpl.
      apply list_elem_of_In, List.filter_In in Hin as [Hin Hc]. simpl in Hc.
      apply list_elem_of_In, elem_of_map_to_list in Hin.
      apply andb_prop in Hc as [Hl Hs]. apply bool_decide_eq_true in Hs.
      split; [apply (Hidx _ _ Hin Hl Hs)|].
      rewrite (deref_lookup _ _ _ Hin). exact Hl.
Qed.

(** X18.  The volume of a side is what is open on it: in every engine
    reached from a new one by valid calls, [get_bid_volume] of a book is the
    total remaining quantity (modulo 2^64) of the live buy orders the book
    holds, and [get_ask_volume] that of its live sell orders. *)
Theorem X18_side_volumes cs replies e sym b :
  Forall call_ok cs -> 1 + Z.of_nat (length cs) < 2 ^ 64 ->
  run cs MatchingEngine_new = Some (replies, e) ->
  order_books_ e !! sym = Some b ->
  book_get_bid_volume b = u64 (open_quantity BUY b) /\
  book_get_ask_volume b = u64 (open_quantity SELL b).
Proof.
  intros Hcs Hlen Hr Hbook.
  destruct (run_new_sound cs replies e Hcs Hlen Hr) as [He _].
  destruct (He _ _ Hbook) as (Hs & _).
  pose proof (sound_nodup _ Hs) as Hnd.
  apply NoDup_app in Hnd as (Hnb & _ & Hna).
  destruct (sound_sides _ Hs) as [Hsb Hsa].
  pose proof (sound_inv _ Hs) as Hi.
  split; apply side_heap_volume; auto; try apply Hi.
  - intros p o Ho Hl Hsd. apply (live_bid_indexed b p o Hs Ho Hsd Hl).
  - intros p o Ho Hl Hsd. apply (live_ask_indexed b p o Hs Ho Hsd Hl).
Qed.

(** The theorem at the book of [resting_calls]: 1 open to buy, 3 to
    sell. *)
Lemma X18_side_volumes_witness :
  book_get_bid_volume book_R = u64 (open_quantity BUY book_R) /\
  book_get_ask_volume book_R = u64 (open_quantity SELL book_R).
Proof.
  apply (X18_side_volumes resting_calls replies_R engine_R BTC book_R).
  - calls_ok.
  - vm_compute. reflexivity.
  - vm_compute. reflexivity.
  - vm_compute. reflexivity.
Defined.

Lemma u64_add_u64_r a b : u64 (a + u64 b) = u64 (a + b).
Proof. unfold u64. rewrite Zplus_mod_idemp_r. reflexivity. Qed.

Lemma levels_quantity_cons l ls :
  levels_quantity (l :: ls) = level_quantity l + levels_quantity ls.
Proof. reflexivity. Qed.

Lemma level_map_at_quantity k o lm :
  u64 (levels_quantity (level_map_at k (add_to_level o) lm).*2) =
    u64 (levels_quantity lm.*2 + remaining_quantity o).
Proof.
  induction lm as [|[k' v] lm IH]; cbn [level_map_at].
  - rewrite fmap_cons, levels_quantity_cons. cbn [snd].
    change (level_quantity (add_to_level o BookLevel_zero))
      with (u64 (0 + remaining_quantity o)).
    rewrite u64_u64_add. f_equal. change (levels_quantity [].*2) with 0. lia.
  - destruct (PrimFloat.ltb k k').
    + rewrite !fmap_cons, !levels_quantity_cons. cbn [snd].
      change (level_quantity (add_to_level o BookLevel_zero))
        with (u64 (0 + remaining_quantity o)).
      rewrite u64_u64_add. f_equal. lia.
    + destruct (PrimFloat.ltb k' k);
        rewrite !fmap_cons, !levels_quantity_cons; cbn [snd].
      * rewrite <- u64_add_u64_r, IH, u64_add_u64_r. f_equal. lia.
      * change (level_quantity (add_to_level o v))
          with (u64 (level_quantity v + remaining_quantity o)).
        rewrite u64_u64_add. f_equal. lia.
Qed.

Lemma aggregate_all_quantity m q : forall lm,
  u64 (levels_quantity (aggregate_all m q lm).*2) =
    u64 (levels_quantity lm.*2 +
         sum_remaining m (List.filter (fun p => live (deref m p)) q)).
Proof.
  induction q as [|p q IH]; intros lm.
  - unfold aggregate_all. simpl. rewrite Z.add_0_r. reflexivity.
  - rewrite aggregate_all_cons, IH. cbn [List.filter].
    destruct (live (deref m p)); [|reflexivity].
    change (sum_remaining m (p :: ?l))
      with (remaining_quantity (deref m p) + sum_remaining m l).
    rewrite <- u64_u64_add, level_map_at_quantity, u64_u64_add.
    f_equal. lia.
Qed.

(** X19.  Levels and volume agree: with no NaN price stored, when
    [aggregate_levels_impl] returns fewer than [max_levels] levels, the
    quantities of the levels add up (modulo 2^64) to what the loop of
    [get_bid_volume] / [get_ask_volume] returns on the same heap. *)
Theorem X19_levels_add_up m container max_levels :
  prices_ordered m ->
  (length (aggregate_levels_impl m container max_levels) < max_levels)%nat ->
  u64 (levels_quantity (aggregate_levels_impl m container max_levels)) =
    volume_loop m container 0.
Proof.
  unfold aggregate_levels_impl. rewrite length_fmap. intros _ Hlt.
  rewrite (aggregate_loop_all m max_levels container [] Hlt).
  rewrite aggregate_all_quantity.
  destruct (volume_loop_sum m container 0) as [Hv Hr].
  change (levels_quantity [].*2) with 0. rewrite <- Hv.
  apply u64_small, Hr. unfold is_u64. lia.
Qed.

(** The theorem at the bids of [resting_calls], asked for 10 levels. *)
Lemma X19_levels_add_up_witness :
  u64 (levels_quantity (book_get_bid_levels 10 book_R)) =
    book_get_bid_volume book_R.
Proof.
  apply (X19_levels_add_up (orders_ book_R) (bids_ book_R) 10).
  - apply book_R_sound.
  - vm_compute. lia.
Defined.

(** ** The command line of pipeline_main.cpp *)

Lemma string_app_cons x (a b : string) :
  String.append (String x a) b = String x (String.append a b).
Proof. reflexivity. Qed.

Lemma string_app_assoc (a b c : string) :
  String.append (String.append a b) c = String.append a (String.append b c).
Proof.
  induction a as [|x a IH]; [reflexivity|].
  rewrite !string_app_cons, IH. reflexivity.
Qed.

Lemma string_app_nil_r (a : string) : String.append a EmptyString = a.
Proof.
  induction a as [|x a IH]; [reflexivity|].
  rewrite string_app_cons, IH. reflexivity.
Qed.

Lemma string_length_app (a b : string) :
  String.length (String.append a b) = (String.length a + String.length b)%nat.
Proof.
  induction a as [|x a IH]; [reflexivity|].
  rewrite string_app_cons. simpl. rewrite IH. reflexivity.
Qed.

Lemma string_app_inv_tail (a b c : string) :
  String.append a c = String.append b c -> a = b.
Proof.
  revert b. induction a as [|x a IH]; intros [|y b] H.
  - reflexivity.
  - apply (f_equal String.length) in H.
    rewrite string_app_cons in H. simpl in H.
    rewrite !string_length_app in H. simpl in H. lia.
  - apply (f_equal String.length) in H.
    rewrite string_app_cons in H. simpl in H.
    rewrite !string_length_app in H. simpl in H. lia.
  - rewrite !string_app_cons in H. injection H as -> H. f_equal. apply IH, H.
Qed.

(** One call of [getline]: the token holds no delimiter; either a delimiter
    followed it in the stream, or it ran to the end of the stream. *)
Lemma getline_from_spec s d token rest :
  getline_from s d = (token, rest) ->
  contains d token = false /\
  (String.length rest <= String.length s)%nat /\
  (s = String.append token (String d rest) \/
   (s = token /\ rest = EmptyString)).
Proof.
  revert token rest. induction s as [|c s IH]; intros token rest; simpl.
  - intros [= <- <-]. simpl. auto.
  - destruct (Ascii.eqb c d) eqn:E.
    + intros [= <- <-]. apply Ascii.eqb_eq in E. subst c. simpl. auto.
    + destruct (getline_from s d) as [t r]. intros [= <- <-].
      destruct (IH t r eq_refl) as (Hc & Hl & Hs). simpl. rewrite E, Hc.
      split; [reflexivity|]. split; [lia|].
      destruct Hs as [->|[-> ->]]; auto.
Qed.

Lemma join_cons d t ts :
  ts <> [] ->
  join d (t :: ts) = String.append t (String d (join d ts)).
Proof. destruct ts; [congruence|]. reflexivity. Qed.

Lemma ends_with_cons d c s :
  s <> EmptyString -> ends_with d (String c s) = ends_with d s.
Proof. destruct s; [congruence|]. reflexivity. Qed.

Lemma ends_with_app d a c r :
  ends_with d (String.append a (String c r)) = ends_with d (String c r).
Proof.
  induction a as [|x a IH]; [reflexivity|].
  rewrite string_app_cons, ends_with_cons; [exact IH|].
  destruct a; discriminate.
Qed.

Lemma ends_with_contains d s : contains d s = false -> ends_with d s = false.
Proof.
  induction s as [|c s IH]; [reflexivity|]. simpl.
  intros H. apply orb_false_elim in H as [H1 H2].
  destruct s; [exact H1|]. apply IH, H2.
Qed.

Lemma contains_app d a r : contains d (String.append a (String d r)) = true.
Proof.
  induction a as [|x a IH].
  - simpl. rewrite Ascii.eqb_refl. reflexivity.
  - rewrite string_app_cons. simpl. rewrite IH. apply orb_true_r.
Qed.

(** The loop of [split]: it ends, and the tokens it adds are those of what
    was left of the line. *)
Lemma split_loop_spec d fuel : forall s tokens,
  (String.length s < fuel)%nat ->
  exists new,
    split_loop fuel s d tokens = Some (tokens ++ new) /\ split_spec s d new.
Proof.
  induction fuel as [|fuel IH]; intros s tokens Hlen; [lia|].
  simpl. destruct s as [|c s].
  { exists []. rewrite app_nil_r. split; [reflexivity|].
    split; [constructor|]. split; [tauto|reflexivity]. }
  unfold getline.
  destruct (getline_from (String c s) d) as [token rest] eqn:Hg.
  destruct (getline_from_spec _ _ _ _ Hg) as (Hc & Hl & Hs).
  assert (Hlt : (String.length rest < fuel)%nat).
  { destruct Hs as [Hs|[_ ->]]; [|simpl in *; lia].
    apply (f_equal String.length) in Hs.
    rewrite string_length_app in Hs. simpl in Hs. simpl in Hlen. lia. }
  destruct (IH rest (tokens ++ [token]) Hlt) as (new & Hsp & Hall & He & Hj).
  exists (token :: new). rewrite Hsp, <- app_assoc.
  split; [reflexivity|]. split; [constructor; assumption|].
  split; [split; discriminate|].
  destruct Hs as [Hs|[Hs Hr]].
  - rewrite Hs, ends_with_app. destruct rest as [|c' rest'].
    + rewrite (proj2 He eq_refl). simpl. rewrite Ascii.eqb_refl. reflexivity.
    + assert (Hne : new <> []) by (intros E; apply He in E; discriminate).
      rewrite ends_with_cons by discriminate.
      rewrite join_cons by exact Hne.
      rewrite string_app_assoc, string_app_cons. do 2 f_equal. exact Hj.
  - rewrite (proj2 He Hr), Hs, (ends_with_contains _ _ Hc).
    symmetry. apply string_app_nil_r.
Qed.

(** Tokens free of the delimiter are determined by their join. *)
Lemma join_inj d : forall l1 l2,
  l1 <> [] -> l2 <> [] ->
  Forall (fun t => contains d t = false) l1 ->
  Forall (fun t => contains d t = false) l2 ->
  join d l1 = join d l2 -> l1 = l2.
Proof.
  assert (Hhead : forall t t' r r',
    contains d t = false -> contains d t' = false ->
    String.append t (String d r) = String.append t' (String d r') ->
    t = t' /\ r = r').
  { induction t as [|x t IH]; intros [|y t'] r r' Ht Ht' H; simpl in Ht, Ht'.
    - injection H as ->. auto.
    - rewrite string_app_cons in H. injection H as <- _.
      rewrite Ascii.eqb_refl in Ht'. discriminate.
    - rewrite string_app_cons in H. injection H as -> _.
      rewrite Ascii.eqb_refl in Ht. discriminate.
    - rewrite !string_app_cons in H. injection H as -> H.
      apply orb_false_elim in Ht as [_ Ht], Ht' as [_ Ht'].
      destruct (IH _ _ _ Ht Ht' H) as [-> ->]. auto. }
  induction l1 as [|t l1 IH]; intros [|t' l2] H1 H2 F1 F2 Hj; try congruence.
  apply Forall_cons in F1 as [Ht F1], F2 as [Ht' F2].
  destruct l1 as [|u l1], l2 as [|u' l2].
  - change (t = t') in Hj. congruence.
  - rewrite (join_cons d t' (u' :: l2)) in Hj by discriminate.
    change (join d [t]) with t in Hj. subst t.
    rewrite contains_app in Ht. discriminate.
  - rewrite (join_cons d t (u :: l1)) in Hj by discriminate.
    change (join d [t']) with t' in Hj. subst t'.
    rewrite contains_app in Ht'. discriminate.
  - rewrite (join_cons d t (u :: l1)), (join_cons d t' (u' :: l2)) in Hj
      by discriminate.
    destruct (Hhead _ _ _ _ Ht Ht' Hj) as [-> Hr]. f_equal.
    apply IH; try discriminate; assumption.
Qed.

Lemma split_spec_unique s d l1 l2 :
  split_spec s d l1 -> split_spec s d l2 -> l1 = l2.
Proof.
  intros (F1 & E1 & J1) (F2 & E2 & J2).
  destruct s as [|c s].
  { rewrite (proj2 E1 eq_refl), (proj2 E2 eq_refl). reflexivity. }
  apply (join_inj d); try assumption.
  - intros E. apply E1 in E. discriminate.
  - intros E. apply E2 in E. discriminate.
  - rewrite J1 in J2 at 1. apply string_app_inv_tail in J2. exact J2.
Qed.

(** X20.  [split] of pipeline_main.cpp returns (its loop ends) the one list
    of tokens such that: no token holds the delimiter; joined by the
    delimiter, the tokens give the line back when it does not end with the
    delimiter, and the line less its last character when it does, so that a
    delimiter at the end of the line is dropped and makes no empty token;
    and only the empty line has no token. *)
Theorem X20_split_tokens s delimiter :
  exists tokens,
    split s delimiter = Some tokens /\
    split_spec s delimiter tokens /\
    forall tokens', split_spec s delimiter tokens' -> tokens' = tokens.
Proof.
  destruct (split_loop_spec delimiter (S (String.length s)) s [] ltac:(lia))
    as (new & H1 & H2).
  exists new. split; [exact H1|]. split; [exact H2|].
  intros tokens' H'. exact (split_spec_unique _ _ _ _ H' H2).
Qed.

(** ** Makers and takers *)

(** X21.  The maker of a trade is an older order than its taker: over any
    sequence of calls on a new engine whose order ids have not wrapped,
    [get_order_for_side(false)] of every trade notified is smaller than its
    [get_order_for_side(true)]; no order trades with itself, and
    [involves_order] holds of both ids. *)
Theorem X21_maker_is_older cs replies e :
  1 + Z.of_nat (length cs) < 2 ^ 64 ->
  run cs MatchingEngine_new = Some (replies, e) ->
  Forall (fun t =>
            get_order_for_side false t < get_order_for_side true t /\
            involves_order t (get_order_for_side false t) = true /\
            involves_order t (get_order_for_side true t) = true)
         (trades_of replies).
Proof.
  intros Hlen Hr. revert cs replies e Hr Hlen.
  apply (run_history (fun cs rs e =>
    1 + Z.of_nat (length cs) < 2 ^ 64 ->
    Forall (fun t =>
              get_order_for_side false t < get_order_for_side true t /\
              involves_order t (get_order_for_side false t) = true /\
              involves_order t (get_order_for_side true t) = true)
           (trades_of rs))).
  { intros _. constructor. }
  intros cs rs e c r e' Hrun IH Hcall Hlen.
  rewrite length_app in Hlen. simpl in Hlen.
  rewrite trades_of_app. apply Forall_app. split; [apply IH; lia|].
  destruct (run_inv cs MatchingEngine_new rs e engine_inv_new
              ltac:(simpl; lia) ltac:(simpl; lia) Hrun) as [He _].
  destruct c as [client sym0 s p q|id]; simpl in Hcall.
  - destruct (submit_order client sym0 s p q e) as [[[id tr] e1]|] eqn:Hs;
      [|discriminate].
    injection Hcall as <- <-.
    destruct (submit_order_stats _ _ _ _ _ _ _ _ _ Hs) as (-> & _).
    destruct (book_of_submit _ _ _ _ _ _ _ _ _ Hs) as (o' & Hp & _).
    destruct (book_of_inv sym0 e He) as [Hi Hlt].
    change (trades_of [Submitted (next_order_id_ e) tr]) with (tr ++ []).
    rewrite app_nil_r.
    eapply Forall_impl; [exact (process_order_parties _ _ _ _ _ Hi Hp)|].
    simpl. intros t [Htk Hmk]. apply Hlt in Hmk.
    unfold get_order_for_side, involves_order.
    rewrite !Z.eqb_refl, orb_true_r. simpl. split; [lia|auto].
  - destruct (cancel_order id e) as [ok e1]. injection Hcall as <- <-.
    constructor.
Qed.

(** The theorem at [resting_calls]: order 3 made the trade order 4 took. *)
Lemma X21_maker_is_older_witness :
  Forall (fun t =>
            get_order_for_side false t < get_order_for_side true t /\
            involves_order t (get_order_for_side false t) = true /\
            involves_order t (get_order_for_side true t) = true)
         (trades_of replies_R).
Proof.
  apply (X21_maker_is_older resting_calls replies_R engine_R).
  - vm_compute. reflexivity.
  - vm_compute. reflexivity.
Defined.

(** ** Price priority *)

Lemma resting_le_top order m t rest p :
  prices_ordered m ->
  delivery_order (resting_comp order m) (t :: rest) -> In p (t :: rest) ->
  no_worse (side order) (price (deref m t)) (price (deref m p)) = true.
Proof.
  intros Hm. unfold resting_comp, no_worse. fold (is_buy order).
  destruct (is_buy order); intros Hs Hin.
  - eapply asks_ge_top; eauto.
  - eapply bids_le_top; eauto.
Qed.

Lemma no_cross_within_limit order incoming top_order :
  ordered (price incoming) -> ordered (price top_order) ->
  no_cross_of order incoming top_order = false ->
  no_worse (side order) (price top_order) (price incoming) = true.
Proof.
  intros Hi Ht. unfold no_cross_of, no_worse, buy_no_cross, sell_no_cross.
  fold (is_buy order). destruct (is_buy order); intros Hn;
    rewrite leb_negb_ltb by assumption; rewrite Hn; reflexivity.
Qed.

Lemma resting_comp_stable order s s' :
  step_stable s s' ->
  forall x y, resting_comp order (ms_orders s') x y =
              resting_comp order (ms_orders s) x y.
Proof.
  intros Hst x y. unfold resting_comp. destruct (is_buy order).
  - apply (ptr_comp_stable SellOrderComparator _ _ SellOrderComparator_reads_key
             (stable_id _ _ Hst) (stable_price _ _ Hst)).
  - apply (ptr_comp_stable BuyOrderComparator _ _ BuyOrderComparator_reads_key
             (stable_id _ _ Hst) (stable_price _ _ Hst)).
Qed.

Lemma step_stable_prices s s' :
  step_stable s s' -> prices_ordered (ms_orders s) ->
  prices_ordered (ms_orders s').
Proof.
  intros Hst Hm p o Ho. rewrite <- (deref_lookup _ _ _ Ho), (stable_price _ _ Hst).
  apply deref_ordered, Hm.
Qed.

(** The loop takes the heap from its top: the trades come best price first,
    each at the price of an entry of the heap and within the limit of the
    incoming order. *)
Lemma match_loop_sweep sym order fuel : forall s s',
  match_loop sym (no_cross_of order) fuel s = Some s' ->
  prices_ordered (ms_orders s) -> ordered (price (ms_incoming s)) ->
  delivery_order (resting_comp order (ms_orders s)) (ms_heap s) ->
  exists new,
    ms_trades s' = ms_trades s ++ new /\
    Forall (fun t =>
      (exists p, In p (ms_heap s) /\
                 trade_price t = price (deref (ms_orders s) p)) /\
      no_worse (side order) (trade_price t) (price (ms_incoming s)) = true) new /\
    StronglySorted
      (fun t1 t2 => no_worse (side order) (trade_price t1) (trade_price t2) = true)
      new.
Proof.
  induction fuel as [|fuel IH]; intros s s'; simpl; [discriminate|].
  pose proof (match_step_case sym (no_cross_of order) s) as Hc.
  destruct (match_step sym (no_cross_of order) s) as [s1|s1] eqn:Hs.
  { intros [= <-] _ _ _. apply match_step_exit in Hs. subst s1.
    exists []. rewrite app_nil_r. repeat constructor. }
  intros Hl Hm Hi Hd.
  pose proof (match_step_stable _ _ _ _ Hs) as Hst.
  assert (Hd1 : delivery_order (resting_comp order (ms_orders s1)) (ms_heap s1)).
  { destruct (stable_suffix _ _ Hst) as [l Hsuf]. rewrite Hsuf in Hd.
    apply delivery_order_suffix in Hd.
    eapply delivery_order_ext; [|exact Hd].
    intros x y _ _. symmetry. apply resting_comp_stable, Hst. }
  pose proof (step_stable_prices _ _ Hst Hm) as Hm1.
  destruct (IH s1 s' Hl Hm1
              ltac:(rewrite (stable_incoming_price _ _ Hst); exact Hi) Hd1)
    as (new & H1 & H2 & H3).
  assert (H2' : Forall (fun t =>
      (exists p, In p (ms_heap s) /\
                 trade_price t = price (deref (ms_orders s) p)) /\
      no_worse (side order) (trade_price t) (price (ms_incoming s)) = true) new).
  { eapply Forall_impl; [exact H2|]. simpl. intros t [(p & Hp & Ht) Hlim].
    rewrite (stable_incoming_price _ _ Hst) in Hlim.
    rewrite (stable_price _ _ Hst) in Ht.
    split; [|exact Hlim]. exists p. split; [apply (stable_heap _ _ Hst), Hp|exact Ht]. }
  inversion Hc as [| | p q Hh _ Hcan Heq | | p q Hh Hri Hnc Hx top_order trade top' Heq].
  - rewrite <- Heq in H1. simpl in H1. exists new. auto.
  - rewrite <- Heq in H1. cbn [ms_trades] in H1.
    exists (trade :: new). split; [rewrite H1, <- app_assoc; reflexivity|].
    assert (Hpt : trade_price trade = price (deref (ms_orders s) p)) by reflexivity.
    split.
    + constructor; [|exact H2'].
      split; [exists p; rewrite Hh; split; [left; reflexivity|exact Hpt]|].
      change (no_worse (side order) (price (deref (ms_orders s) p))
                (price (ms_incoming s)) = true).
      apply no_cross_within_limit; auto using deref_ordered.
    + constructor; [exact H3|].
      eapply Forall_impl; [exact H2'|]. simpl. intros t [(p' & Hp' & Ht) _].
      rewrite Ht. rewrite Hh in Hd, Hp'.
      change (no_worse (side order) (price (deref (ms_orders s) p))
                (price (deref (ms_orders s) p')) = true).
      apply (resting_le_top order _ p q p' Hm Hd Hp').
Qed.

Lemma process_order_sweep order b trades order' b' :
  book_sound b -> ordered (price order) ->
  process_order order b = Some (trades, order', b') ->
  StronglySorted
    (fun t1 t2 => no_worse (side order) (trade_price t1) (trade_price t2) = true)
    trades /\
  Forall (fun t => no_worse (side order) (trade_price t) (price order) = true)
         trades.
Proof.
  intros Hb Ho Hp.
  destruct (process_order_shape _ _ _ _ _ Hp) as (s' & comp & Hl & Htr & _).
  destruct (match_loop_sweep _ _ _ _ _ Hl (sound_prices _ Hb) Ho)
    as (new & H1 & H2 & H3).
  { simpl. unfold resting_comp, resting_side.
    destruct (is_buy order); apply (sound_inv _ Hb). }
  simpl in H1. rewrite <- Htr in H1. subst new.
  split; [exact H3|]. eapply Forall_impl; [exact H2|]. simpl. intuition.
Qed.

(** X22.  Price priority: over any sequence of valid calls on a new engine,
    the trades of each submit come best price first (for a buy no trade is
    priced below an earlier one of the same submit, for a sell none above),
    and none is priced beyond the limit of the submit (a buy never pays
    more than its price, a sell never receives less). *)
Theorem X22_price_priority cs replies e :
  Forall call_ok cs -> 1 + Z.of_nat (length cs) < 2 ^ 64 ->
  run cs MatchingEngine_new = Some (replies, e) ->
  Forall2 reply_sweeps cs replies.
Proof.
  intros Hcs Hlen Hr. revert cs replies e Hr Hcs Hlen.
  apply (run_history (fun cs rs e =>
    Forall call_ok cs -> 1 + Z.of_nat (length cs) < 2 ^ 64 ->
    Forall2 reply_sweeps cs rs)).
  { intros _ _. constructor. }
  intros cs rs e c r e' Hrun IH Hcall Hcs Hlen.
  apply Forall_app in Hcs as [Hcs Hc]. apply Forall_cons in Hc as [Hc _].
  rewrite length_app in Hlen. simpl in Hlen.
  apply Forall2_app; [apply IH; [exact Hcs|lia]|].
  constructor; [|constructor].
  destruct (run_new_sound cs rs e Hcs ltac:(lia) Hrun) as [He _].
  destruct c as [client sym0 s p q|id]; simpl in Hcall.
  - destruct (submit_order client sym0 s p q e) as [[[id tr] e1]|] eqn:Hs;
      [|discriminate].
    injection Hcall as <- <-.
    destruct (book_of_submit _ _ _ _ _ _ _ _ _ Hs) as (o' & Hp & _).
    destruct (book_of_sound sym0 e He) as [Hbs _].
    destruct Hc as [_ Hpr].
    exact (process_order_sweep (Order_new (next_order_id_ e) client sym0 s p q)
             _ _ _ _ Hbs Hpr Hp).
  - destruct (cancel_order id e) as [ok e1]. injection Hcall as <- <-.
    exact I.
Qed.

(** The theorem at scenario C, whose buy at 50003 trades at 50000, 50001
    and 50002. *)
Lemma X22_price_priority_witness :
  Forall2 reply_sweeps scenario_C
    (default [] (fst <$> run scenario_C MatchingEngine_new)).
Proof.
  apply (X22_price_priority scenario_C _
           (default MatchingEngine_new (snd <$> run scenario_C MatchingEngine_new))).
  - calls_ok.
  - vm_compute. reflexivity.
  - vm_compute. reflexivity.
Defined.

(** ** The binary heap of [std::priority_queue]

    [push_heap] and [pop_heap] keep the heap, and what the heap delivers is
    what the list in delivery order delivers, when the comparator is a
    strict total order of the elements queued. *)

Section HeapFacts.
Context {A : Type} `{EqDecision A} (comp : A -> A -> bool).
Import HeapSpec.

Lemma parent_cases i :
  (0 < i)%nat ->
  (i = 2 * ((i - 1) / 2) + 1 \/ i = 2 * ((i - 1) / 2) + 2)%nat.
Proof.
  intros Hi. pose proof (Nat.div_mod_eq (i - 1) 2) as Hd.
  pose proof (Nat.mod_upper_bound (i - 1) 2 ltac:(lia)) as Hm. lia.
Qed.

Lemma parent_of_left h : ((2 * h + 1 - 1) / 2 = h)%nat.
Proof.
  replace (2 * h + 1 - 1)%nat with (h * 2)%nat by lia. apply Nat.div_mul. lia.
Qed.

Lemma parent_of_right h : ((2 * h + 2 - 1) / 2 = h)%nat.
Proof.
  replace (2 * h + 2 - 1)%nat with (1 + h * 2)%nat by lia.
  rewrite Nat.div_add by lia. reflexivity.
Qed.

Lemma half_cases n :
  (n = 2 * (n / 2) \/ n = 2 * (n / 2) + 1)%nat.
Proof.
  pose proof (Nat.div_mod_eq n 2) as Hd.
  pose proof (Nat.mod_upper_bound n 2 ltac:(lia)) as Hm. lia.
Qed.

Lemma nth_insert (c : list A) h i x d :
  (h < length c)%nat ->
  nth i (<[h := x]> c) d = if decide (i = h) then x else nth i c d.
Proof.
  intros Hh. rewrite !nth_lookup. destruct (decide (i = h)) as [->|Hne].
  - rewrite list_lookup_insert_eq by exact Hh. reflexivity.
  - rewrite list_lookup_insert_ne by congruence. reflexivity.
Qed.

Lemma insert_head_perm (l : list A) k v d :
  (k < length l)%nat -> nth k l d :: <[k := v]> l ≡ₚ v :: l.
Proof.
  revert k. induction l as [|x l IH]; intros k Hk; simpl in *; [lia|].
  destruct k as [|k]; simpl.
  - apply Permutation_swap.
  - rewrite Permutation_swap. rewrite (IH k) by lia. apply Permutation_swap.
Qed.

Lemma insert_swap_perm (c : list A) h k v d :
  (h < length c)%nat -> (k < length c)%nat -> h <> k ->
  <[k := v]> (<[h := nth k c d]> c) ≡ₚ <[h := v]> c.
Proof.
  revert h k. induction c as [|x c IH]; intros h k Hh Hk Hne; simpl in *; [lia|].
  destruct h as [|h], k as [|k]; simpl; try lia.
  - apply insert_head_perm. lia.
  - pose proof (insert_head_perm (<[h := v]> c) h x d) as Hp.
    rewrite length_insert in Hp. specialize (Hp ltac:(lia)).
    rewrite list_insert_insert_eq in Hp.
    rewrite nth_insert in Hp by lia.
    destruct (decide (h = h)); [|congruence]. exact Hp.
  - rewrite (IH h k) by lia. reflexivity.
Qed.

Lemma take_insert_swap len (c : list A) h k v d :
  (len <= length c)%nat -> (h < len)%nat -> (k < len)%nat -> h <> k ->
  take len (<[k := v]> (<[h := nth k c d]> c)) ≡ₚ take len (<[h := v]> c).
Proof.
  intros Hlen Hh Hk Hne. rewrite !take_insert_lt by lia.
  replace (nth k c d) with (nth k (take len c) d).
  - apply insert_swap_perm; rewrite ?length_take; lia.
  - rewrite !nth_lookup, lookup_take_lt by lia. reflexivity.
Qed.

Section Order.
Variable P : A -> Prop.
Hypothesis Hst : strict_total comp P.

Lemma comp_asym x y : P x -> P y -> comp x y = true -> comp y x = false.
Proof.
  intros Hx Hy Hxy. destruct (comp y x) eqn:Hyx; [|reflexivity].
  rewrite <- (st_irrefl _ _ Hst x Hx). symmetry.
  apply (st_trans _ _ Hst x y x); auto.
Qed.

(** "Not ranked below" is transitive. *)
Lemma not_below_trans x y z :
  P x -> P y -> P z ->
  comp x y = false -> comp y z = false -> comp x z = false.
Proof.
  intros Hx Hy Hz Hxy Hyz. destruct (comp x z) eqn:Hxz; [|reflexivity].
  destruct (decide (x = y)) as [->|Nxy]; [congruence|].
  destruct (decide (y = z)) as [->|Nyz]; [congruence|].
  destruct (st_total _ _ Hst x y Hx Hy Nxy) as [E|Hyx]; [congruence|].
  destruct (st_total _ _ Hst y z Hy Hz Nyz) as [E|Hzy]; [congruence|].
  rewrite <- Hxy. symmetry. apply (st_trans _ _ Hst x z y); auto.
Qed.

(** Ranked below, then not ranked above: ranked below. *)
Lemma below_not_below x y z :
  P x -> P y -> P z ->
  comp x y = true -> comp x z = false -> comp y z = false.
Proof.
  intros Hx Hy Hz Hxy Hxz. destruct (comp y z) eqn:Hyz; [|reflexivity].
  rewrite <- Hxz. symmetry. apply (st_trans _ _ Hst x y z); auto.
Qed.

(** Writing [v] into the hole gives a heap when [v] fits between the parent
    and the children of the hole. *)
Lemma fill_hole len c v h :
  (len <= length c)%nat -> (h < len)%nat ->
  heap_but comp len c v h -> above comp len c v h v ->
  (h = 0%nat \/ comp (nth ((h - 1) / 2) c v) v = false) ->
  heap_upto comp len (<[h := v]> c) v.
Proof.
  intros Hlen Hh [H1 H3] H2 Hp i Hi.
  rewrite !nth_insert by lia.
  destruct (decide (i = h)) as [->|Nih].
  - destruct (decide (((h - 1) / 2)%nat = h)) as [E|_].
    + pose proof (parent_cases h ltac:(lia)). lia.
    + destruct Hp as [->|Hp]; [lia|exact Hp].
  - destruct (decide (((i - 1) / 2)%nat = h)) as [E|Npi].
    + apply H2; [lia|exact E].
    + apply H1; auto.
Qed.

Lemma push_heap_O (c : list A) h top v :
  Heap.push_heap comp 0 c h top v = <[h := v]> c.
Proof. reflexivity. Qed.

Lemma push_heap_S fuel (c : list A) h top v :
  Heap.push_heap comp (S fuel) c h top v =
    if (top <? h)%nat && comp (nth ((h - 1) / 2) c v) v
    then Heap.push_heap comp fuel (<[h := nth ((h - 1) / 2) c v]> c)
           ((h - 1) / 2) top v
    else <[h := v]> c.
Proof. reflexivity. Qed.

Lemma push_heap_spec fuel : forall c h v len,
  (len <= length c)%nat -> (h < len)%nat -> (h <= fuel)%nat ->
  (forall i, (i < len)%nat -> P (nth i c v)) -> P v ->
  heap_but comp len c v h -> above comp len c v h v ->
  heap_upto comp len (Heap.push_heap comp fuel c h 0 v) v /\
  length (Heap.push_heap comp fuel c h 0 v) = length c /\
  take len (Heap.push_heap comp fuel c h 0 v) ≡ₚ take len (<[h := v]> c).
Proof.
  induction fuel as [|fuel IH]; intros c h v len Hlen Hh Hf HP Hv Hb Ha;
    [rewrite push_heap_O|rewrite push_heap_S].
  { split; [|split; [apply length_insert|reflexivity]].
    apply fill_hole; auto. left. lia. }
  destruct ((0 <? h)%nat && comp (nth ((h - 1) / 2) c v) v) eqn:Hc.
  - apply andb_true_iff in Hc as [H0 Hpv]. apply Nat.ltb_lt in H0.
    pose proof (parent_cases h H0) as Hpar.
    set (p := ((h - 1) / 2)%nat) in *.
    assert (Hpp : forall i, (0 < i)%nat -> (((i - 1) / 2) < i)%nat).
    { intros i Hi. pose proof (parent_cases i Hi). lia. }
    destruct Hb as [H1 H3].
    assert (Hgp : (0 < p)%nat ->
              comp (nth ((p - 1) / 2) c v) (nth p c v) = false).
    { intros Hp0. pose proof (Hpp p Hp0). apply H1; lia. }
    destruct (IH (<[h := nth p c v]> c) p v len) as (Hheap & Hlen' & Hperm).
    + rewrite length_insert. exact Hlen.
    + lia.
    + lia.
    + intros i Hi. rewrite nth_insert by lia.
      destruct (decide (i = h)); apply HP; lia.
    + exact Hv.
    + split.
      * intros i Hi Nip Npp. rewrite !nth_insert by lia.
        destruct (decide (i = h)) as [->|Nih]; [contradiction|].
        destruct (decide (((i - 1) / 2)%nat = h)) as [E|Npi].
        -- apply H3; auto.
        -- apply H1; auto.
      * intros j Hj Ej Hp0. pose proof (Hpp p Hp0) as Hlt.
        rewrite !nth_insert by lia.
        destruct (decide (((p - 1) / 2)%nat = h)) as [E|_]; [lia|].
        destruct (decide (j = h)) as [->|Njh]; [apply Hgp, Hp0|].
        apply (not_below_trans _ (nth p c v));
          [apply HP; lia|apply HP; lia|apply HP; lia|apply Hgp, Hp0|].
        rewrite <- Ej. apply H1; [lia|exact Njh|lia].
    + intros j Hj Ej. rewrite nth_insert by lia.
      destruct (decide (j = h)) as [->|Njh].
      * apply comp_asym; [apply HP; lia|exact Hv|exact Hpv].
      * apply (below_not_below (nth p c v));
          [apply HP; lia|exact Hv|apply HP; lia|exact Hpv|].
        rewrite <- Ej. apply H1; [lia|exact Njh|lia].
    + split; [exact Hheap|]. split.
      * rewrite Hlen'. apply length_insert.
      * rewrite Hperm. apply take_insert_swap; lia.
  - split; [|split; [apply length_insert|reflexivity]].
    apply fill_hole; auto.
    apply andb_false_iff in Hc as [H0|Hc]; [|right; exact Hc].
    left. apply Nat.ltb_ge in H0. lia.
Qed.

Lemma adjust_heap_loop_S fuel (c : list A) len h s v :
  Heap.adjust_heap_loop comp (S fuel) c len h s v =
    if (s <? (len - 1) / 2)%nat
    then
      let k :=
        if comp (nth (2 * (s + 1)) c v) (nth (2 * (s + 1) - 1) c v)
        then (2 * (s + 1) - 1)%nat else (2 * (s + 1))%nat in
      Heap.adjust_heap_loop comp fuel (<[h := nth k c v]> c) len k k v
    else (c, h, s).
Proof. reflexivity. Qed.

(** Moving the better child of the hole into the hole keeps the heap
    around the hole, which is then where that child was. *)
Lemma move_child_up len (c : list A) v h k :
  (len <= length c)%nat -> (k < len)%nat ->
  (k = 2 * h + 1 \/ k = 2 * h + 2)%nat ->
  (forall i, (i < len)%nat -> P (nth i c v)) ->
  (forall i, (i < len)%nat -> (i = 2 * h + 1 \/ i = 2 * h + 2)%nat ->
     comp (nth k c v) (nth i c v) = false) ->
  heap_but comp len c v h ->
  heap_but comp len (<[h := nth k c v]> c) v k.
Proof.
  intros Hlen Hk Hkh HP Hbest [H1 H3].
  assert (Epk : ((k - 1) / 2)%nat = h).
  { destruct Hkh as [->| ->]; [apply parent_of_left|apply parent_of_right]. }
  split.
  - intros i Hi Nik Npk. rewrite !nth_insert by lia.
    destruct (decide (i = h)) as [->|Nih].
    + destruct (decide (((h - 1) / 2)%nat = h)) as [E|_].
      { pose proof (parent_cases h ltac:(lia)). lia. }
      apply H3; [lia|exact Epk|lia].
    + destruct (decide (((i - 1) / 2)%nat = h)) as [E|Npi].
      * apply Hbest; [lia|]. pose proof (parent_cases i ltac:(lia)). lia.
      * apply H1; auto.
  - intros j Hj Ej Hk0. rewrite !nth_insert by lia. rewrite Epk.
    destruct (decide (h = h)) as [_|]; [|congruence].
    pose proof (parent_cases j ltac:(lia)) as Hpj.
    destruct (decide (j = h)) as [->|Njh]; [lia|].
    rewrite <- Ej. apply H1; [lia|exact Njh|lia].
Qed.

Lemma adjust_heap_loop_spec fuel : forall c h len v,
  (len <= length c)%nat -> (h < len)%nat -> (len - h <= fuel)%nat ->
  (forall i, (i < len)%nat -> P (nth i c v)) ->
  heap_but comp len c v h ->
  exists c' h',
    Heap.adjust_heap_loop comp fuel c len h h v = (c', h', h') /\
    (h' < len)%nat /\ ((len - 1) / 2 <= h')%nat /\
    length c' = length c /\
    (forall i, (i < len)%nat -> P (nth i c' v)) /\
    heap_but comp len c' v h' /\
    take len (<[h' := v]> c') ≡ₚ take len (<[h := v]> c).
Proof.
  induction fuel as [|fuel IH]; intros c h len v Hlen Hh Hf HP Hb; [lia|].
  rewrite adjust_heap_loop_S.
  destruct (h <? (len - 1) / 2)%nat eqn:Hc.
  - apply Nat.ltb_lt in Hc. pose proof (half_cases (len - 1)) as Hhalf.
    set (k := if comp (nth (2 * (h + 1)) c v) (nth (2 * (h + 1) - 1) c v)
              then (2 * (h + 1) - 1)%nat else (2 * (h + 1))%nat).
    assert (Hk : (k = 2 * h + 1 \/ k = 2 * h + 2)%nat).
    { subst k. destruct (comp _ _); lia. }
    assert (Hbest : forall i, (i < len)%nat ->
              (i = 2 * h + 1 \/ i = 2 * h + 2)%nat ->
              comp (nth k c v) (nth i c v) = false).
    { intros i Hi Hih. subst k.
      replace (2 * (h + 1) - 1)%nat with (2 * h + 1)%nat in * by lia.
      replace (2 * (h + 1))%nat with (2 * h + 2)%nat in * by lia.
      destruct (comp (nth (2 * h + 2) c v) (nth (2 * h + 1) c v)) eqn:E.
      - destruct Hih as [->| ->].
        + apply (st_irrefl _ _ Hst), HP. lia.
        + apply comp_asym; [apply HP; lia|apply HP; lia|exact E].
      - destruct Hih as [->| ->]; [exact E|].
        apply (st_irrefl _ _ Hst), HP. lia. }
    destruct (IH (<[h := nth k c v]> c) k len v) as
      (c' & h' & Hl & Hh' & Hge & Hlen' & HP' & Hb' & Hperm).
    + rewrite length_insert. exact Hlen.
    + lia.
    + lia.
    + intros i Hi. rewrite nth_insert by lia.
      destruct (decide (i = h)); apply HP; lia.
    + apply move_child_up; auto. lia.
    + exists c', h'. split; [exact Hl|]. split; [exact Hh'|].
      split; [exact Hge|]. split; [rewrite Hlen'; apply length_insert|].
      split; [exact HP'|]. split; [exact Hb'|].
      rewrite Hperm. apply take_insert_swap; lia.
  - apply Nat.ltb_ge in Hc. exists c, h. repeat split; auto; apply Hb.
Qed.

Lemma adjust_heap_spec (c : list A) len v :
  (len <= length c)%nat -> (0 < len)%nat ->
  (forall i, (i < len)%nat -> P (nth i c v)) -> P v ->
  heap_but comp len c v 0 ->
  heap_upto comp len (Heap.adjust_heap comp c 0 len v) v /\
  length (Heap.adjust_heap comp c 0 len v) = length c /\
  take len (Heap.adjust_heap comp c 0 len v) ≡ₚ take len (<[0%nat := v]> c).
Proof.
  intros Hlen H0 HP Hv Hb. unfold Heap.adjust_heap.
  destruct (adjust_heap_loop_spec len c 0 len v Hlen H0 ltac:(lia) HP Hb)
    as (c1 & h1 & Hl & Hh1 & Hge & Hlen1 & HP1 & Hb1 & Hperm1).
  rewrite Hl.
  pose proof (half_cases (len - 1)) as Hhalf.
  pose proof (half_cases (len - 2)) as Hhalf2.
  destruct (Nat.even len && (h1 =? (len - 2) / 2)%nat) eqn:Hc.
  - apply andb_true_iff in Hc as [Hev Heq].
    apply Nat.even_spec in Hev as [m Hm]. apply Nat.eqb_eq in Heq.
    set (k := (2 * (h1 + 1) - 1)%nat).
    assert (Hk : k = (2 * h1 + 1)%nat) by (subst k; lia).
    assert (Hkl : k = (len - 1)%nat) by lia.
    destruct (push_heap_spec k (<[h1 := nth k c1 v]> c1) k v len)
      as (Hheap & Hlen2 & Hperm2).
    + rewrite length_insert. lia.
    + lia.
    + lia.
    + intros i Hi. rewrite nth_insert by lia.
      destruct (decide (i = h1)); apply HP1; lia.
    + exact Hv.
    + apply move_child_up; auto; [lia|lia|].
      intros i Hi [->|Hi2]; [|lia]. rewrite Hk.
      apply (st_irrefl _ _ Hst), HP1. lia.
    + intros j Hj Ej. pose proof (parent_cases j ltac:(lia)). lia.
    + split; [exact Hheap|]. split.
      * rewrite Hlen2, length_insert. exact Hlen1.
      * rewrite Hperm2, <- Hperm1. apply take_insert_swap; lia.
  - destruct (push_heap_spec h1 c1 h1 v len) as (Hheap & Hlen2 & Hperm2);
      auto; try lia.
    + intros j Hj Ej. pose proof (parent_cases j ltac:(lia)) as Hpj.
      apply andb_false_iff in Hc as [Hodd|Hne].
      * assert (Ho : Nat.odd len = true).
        { rewrite <- Nat.negb_even, Hodd. reflexivity. }
        apply Nat.odd_spec in Ho as [m Hm]. lia.
      * apply Nat.eqb_neq in Hne. lia.
    + split; [exact Hheap|]. split; [congruence|].
      rewrite Hperm2. exact Hperm1.
Qed.

Lemma heap_upto_is_heap len (c : list A) d :
  heap_upto comp len c d -> is_heap comp (take len c).
Proof.
  intros Hh i x y Hi Hx Hy.
  apply lookup_take_Some in Hx as [Hx Hil].
  apply lookup_take_Some in Hy as [Hy _].
  rewrite <- (nth_lookup_Some _ _ d _ Hx), <- (nth_lookup_Some _ _ d _ Hy).
  apply Hh. lia.
Qed.

Lemma is_heap_upto (c : list A) d :
  is_heap comp c -> heap_upto comp (length c) c d.
Proof.
  intros Hh i Hi.
  pose proof (parent_cases i ltac:(lia)) as Hp.
  destruct (lookup_lt_is_Some_2 c i ltac:(lia)) as [x Hx].
  destruct (lookup_lt_is_Some_2 c ((i - 1) / 2) ltac:(lia)) as [y Hy].
  rewrite (nth_lookup_Some _ _ d _ Hx), (nth_lookup_Some _ _ d _ Hy).
  apply (Hh i x y); [lia|exact Hx|exact Hy].
Qed.

Lemma Forall_nth (c : list A) d i :
  Forall P c -> (i < length c)%nat -> P (nth i c d).
Proof.
  intros Hc Hi. destruct (lookup_lt_is_Some_2 c i Hi) as [x Hx].
  rewrite (nth_lookup_Some _ _ d _ Hx).
  rewrite Forall_lookup in Hc. eapply Hc, Hx.
Qed.

(** The top of a heap is ranked below none of its elements. *)
Lemma top_not_below (c : list A) t :
  Forall P c -> is_heap comp c -> Heap.top c = Some t ->
  forall x, x ∈ c -> comp t x = false.
Proof.
  intros HP Hh Ht.
  assert (Ht0 : c !! 0%nat = Some t) by (destruct c; [discriminate|exact Ht]).
  assert (Hall : forall n i x, (i < n)%nat -> c !! i = Some x -> comp t x = false).
  { induction n as [|n IH]; intros i x Hi Hx; [lia|].
    rewrite Forall_lookup in HP.
    destruct (decide (i = 0%nat)) as [->|Hne].
    - rewrite Ht0 in Hx. injection Hx as <-.
      apply (st_irrefl _ _ Hst). eapply HP, Ht0.
    - pose proof (parent_cases i ltac:(lia)) as Hp.
      pose proof (lookup_lt_Some _ _ _ Hx) as Hlt.
      destruct (lookup_lt_is_Some_2 c ((i - 1) / 2) ltac:(lia)) as [y Hy].
      apply (not_below_trans _ y); eauto.
      + apply (IH ((i - 1) / 2)%nat); [lia|exact Hy].
      + apply (Hh i); [lia|exact Hx|exact Hy]. }
  intros x Hx. apply list_elem_of_lookup in Hx as [i Hi].
  apply (Hall (S i) i); [lia|exact Hi].
Qed.

Lemma push_spec x (c : list A) :
  Forall P c -> P x -> is_heap comp c ->
  is_heap comp (Heap.push comp x c) /\ Heap.push comp x c ≡ₚ x :: c.
Proof.
  intros HP Hx Hh. unfold Heap.push.
  rewrite length_app. simpl.
  replace (length c + 1 - 1)%nat with (length c) by lia.
  destruct (push_heap_spec (length c) (c ++ [x]) (length c) x (length c + 1))
    as (Hheap & Hlen & Hperm).
  - rewrite length_app. simpl. lia.
  - lia.
  - lia.
  - intros i Hi. apply Forall_nth; [|rewrite length_app; simpl; lia].
    apply Forall_app. split; [exact HP|]. constructor; [exact Hx|constructor].
  - exact Hx.
  - split.
    + intros i Hi Nih Npi. pose proof (parent_cases i ltac:(lia)) as Hp.
      rewrite !app_nth1 by lia. apply is_heap_upto; [exact Hh|lia].
    + intros j Hj Ej. pose proof (parent_cases j ltac:(lia)). lia.
  - intros j Hj Ej. pose proof (parent_cases j ltac:(lia)). lia.
  - rewrite length_app in Hlen. simpl in Hlen.
    rewrite <- Hlen in Hheap at 1. rewrite <- Hlen in Hperm at 1.
    apply heap_upto_is_heap in Hheap. rewrite firstn_all in Hheap, Hperm.
    split; [exact Hheap|]. rewrite Hperm.
    rewrite take_ge by (rewrite length_insert, length_app; simpl; lia).
    replace (<[length c := x]> (c ++ [x])) with (c ++ [x]).
    + rewrite Permutation_app_comm. reflexivity.
    + rewrite insert_app_r_alt by lia.
      replace (length c - length c)%nat with 0%nat by lia. reflexivity.
Qed.

Lemma pop_spec (c : list A) :
  Forall P c -> is_heap comp c ->
  is_heap comp (Heap.pop comp c) /\
  match c with
  | [] => Heap.pop comp c = []
  | t :: _ => c ≡ₚ t :: Heap.pop comp c
  end.
Proof.
  intros HP Hh. unfold Heap.pop, Heap.pop_heap.
  destruct c as [|front rest]; [split; [|reflexivity]; intros i x y _ Hx; destruct i; discriminate|].
  destruct (1 <? length (front :: rest))%nat eqn:Hc.
  2:{ apply Nat.ltb_ge in Hc. simpl in Hc.
      destruct rest; [|simpl in Hc; lia]. simpl. split; [|reflexivity].
      intros i x y _ Hx. destruct i; discriminate. }
  apply Nat.ltb_lt in Hc.
  set (c := front :: rest) in *.
  set (last := (length c - 1)%nat).
  set (value := nth last c front).
  assert (Hlast : c !! last = Some value).
  { destruct (lookup_lt_is_Some_2 c last ltac:(lia)) as [x Hx].
    subst value. rewrite (nth_lookup_Some _ _ front _ Hx). exact Hx. }
  assert (Hval : P value).
  { rewrite Forall_lookup in HP. eapply HP, Hlast. }
  destruct (adjust_heap_spec (<[last := front]> c) last value)
    as (Hheap & Hlen & Hperm).
  - rewrite length_insert. lia.
  - lia.
  - intros i Hi. rewrite nth_insert by lia.
    destruct (decide (i = last)); [lia|]. apply Forall_nth; [exact HP|lia].
  - exact Hval.
  - split; [|intros; lia].
    intros i Hi Ni0 Np0. pose proof (parent_cases i ltac:(lia)) as Hp.
    rewrite !nth_insert by lia.
    destruct (decide (i = last)); [lia|].
    destruct (decide (((i - 1) / 2)%nat = last)); [lia|].
    apply is_heap_upto; [exact Hh|lia].
  - rewrite length_insert in Hlen. rewrite Hlen. fold last.
    split; [eapply heap_upto_is_heap, Hheap|].
    rewrite Hperm.
    rewrite take_insert_lt by lia.
    rewrite take_insert_ge by lia.
    assert (Hc' : c = take last c ++ [value]).
    { rewrite <- (take_drop last c) at 1. f_equal.
      rewrite (drop_S _ _ _ Hlast).
      rewrite drop_ge by lia. reflexivity. }
    destruct (take last c) as [|t0 tl] eqn:Ht.
    { apply (f_equal length) in Ht. rewrite length_take in Ht. simpl in Ht. lia. }
    assert (t0 = front) as ->.
    { assert (E : take last c !! 0%nat = Some front).
      { rewrite lookup_take_lt by lia. reflexivity. }
      rewrite Ht in E. injection E as ->. reflexivity. }
    simpl. rewrite Hc' at 1. simpl.
    apply perm_skip. rewrite Permutation_app_comm. reflexivity.
Qed.

Lemma represents_nil : represents comp [] [].
Proof.
  split; [|split; [reflexivity|constructor]].
  intros i x y _ Hx. destruct i; discriminate.
Qed.

Lemma represents_Forall (c l : list A) :
  represents comp c l -> Forall P c -> Forall P l.
Proof. intros (_ & Hp & _) HP. rewrite Hp. exact HP. Qed.

(** The heap and the list have the same top. *)
Lemma represents_top (c l : list A) :
  represents comp c l -> Forall P c ->
  Heap.top c = PriorityQueue.top l.
Proof.
  intros (Hh & Hp & Hs) HP. unfold Heap.top, PriorityQueue.top.
  destruct c as [|t c'].
  { apply Permutation_nil_r in Hp. subst l. reflexivity. }
  destruct l as [|t' l'].
  { symmetry in Hp. apply Permutation_nil_r in Hp. discriminate. }
  simpl. f_equal.
  destruct (decide (t = t')) as [|Hne]; [assumption|exfalso].
  assert (Ht' : t' ∈ t :: c') by (rewrite <- Hp; left).
  assert (Ht : t ∈ t' :: l') by (rewrite Hp; left).
  pose proof (top_not_below (t :: c') t HP Hh eq_refl t' Ht') as H1.
  assert (H2 : comp t' t = false).
  { apply StronglySorted_inv in Hs as [_ Hs]. rewrite Forall_forall in Hs.
    apply Hs.
    apply elem_of_cons in Ht as [E|Ht]; [congruence|exact Ht]. }
  rewrite Forall_forall in HP.
  destruct (st_total _ _ Hst t t') as [E|E]; auto; try congruence.
  apply HP. left.
Qed.

(** [pop] on the heap is [pop] on the list. *)
Lemma represents_pop (c l : list A) :
  represents comp c l -> Forall P c ->
  represents comp (Heap.pop comp c) (PriorityQueue.pop l) /\
  Forall P (Heap.pop comp c).
Proof.
  intros Hr HP. pose proof (represents_top c l Hr HP) as Ht.
  destruct Hr as (Hh & Hp & Hs).
  destruct (pop_spec c HP Hh) as [Hh' Hc].
  destruct c as [|t c'].
  { apply Permutation_nil_r in Hp. subst l. rewrite Hc.
    split; [apply represents_nil|constructor]. }
  destruct l as [|t' l']; [discriminate|]. injection Ht as <-.
  assert (Hp' : l' ≡ₚ Heap.pop comp (t :: c')).
  { apply (Permutation_cons_inv (a := t)). rewrite Hp. exact Hc. }
  split.
  - split; [exact Hh'|]. split; [exact Hp'|].
    apply StronglySorted_inv in Hs as [Hs _]. exact Hs.
  - rewrite Hc in HP. apply Forall_cons in HP as [_ HP]. exact HP.
Qed.

(** [push] on the heap is [push] on the list. *)
Lemma represents_push x (c l : list A) :
  (forall a b, comp a b = true -> comp b a = false) ->
  (forall a b c, comp a b = true -> comp b c = true -> comp a c = true) ->
  represents comp c l -> Forall P c -> P x ->
  represents comp (Heap.push comp x c) (PriorityQueue.push comp x l).
Proof.
  intros Hasym Htrans (Hh & Hp & Hs) HP Hx.
  destruct (push_spec x c HP Hx Hh) as [Hh' Hp'].
  split; [exact Hh'|]. split.
  - rewrite push_Permutation, Hp', Hp. reflexivity.
  - apply push_delivery_order; assumption.
Qed.

End Order.

(** Only the comparisons between elements of the heap matter. *)
Lemma represents_ext (comp' : A -> A -> bool) (c l : list A) :
  (forall x y, x ∈ c -> y ∈ c -> comp x y = comp' x y) ->
  represents comp c l -> represents comp' c l.
Proof.
  intros Heq (Hh & Hp & Hs). split; [|split; [exact Hp|]].
  - intros i x y Hi Hx Hy. rewrite <- Heq.
    + apply (Hh i); assumption.
    + eapply list_elem_of_lookup_2, Hy.
    + eapply list_elem_of_lookup_2, Hx.
  - apply (delivery_order_ext comp); [|exact Hs].
    intros x y Hx Hy. apply Heq; rewrite <- Hp; apply list_elem_of_In; assumption.
Qed.

End HeapFacts.

(** The fuel given to the loops of the heap only has to be enough: the
    loops end by their own conditions. *)
Lemma push_heap_fuel {A} (comp : A -> A -> bool) fuel : forall fuel' c h top v,
  (h <= fuel)%nat -> (h <= fuel')%nat ->
  Heap.push_heap comp fuel c h top v = Heap.push_heap comp fuel' c h top v.
Proof.
  induction fuel as [|fuel IH]; intros fuel' c h top v Hf Hf'.
  - assert (h = 0%nat) as -> by lia. destruct fuel'; [reflexivity|].
    rewrite push_heap_O, push_heap_S.
    replace (top <? 0)%nat with false; [reflexivity|].
    symmetry. apply Nat.ltb_ge. lia.
  - destruct fuel' as [|fuel'].
    + assert (h = 0%nat) as -> by lia. rewrite push_heap_O, push_heap_S.
      replace (top <? 0)%nat with false; [reflexivity|].
      symmetry. apply Nat.ltb_ge. lia.
    + rewrite !push_heap_S.
      destruct ((top <? h)%nat && comp (nth ((h - 1) / 2) c v) v) eqn:Hc;
        [|reflexivity].
      apply andb_true_iff in Hc as [Hc _]. apply Nat.ltb_lt in Hc.
      pose proof (parent_cases h ltac:(lia)). apply IH; lia.
Qed.

Lemma adjust_heap_loop_fuel {A} (comp : A -> A -> bool) fuel :
  forall fuel' c len h v,
  (len - h <= fuel)%nat -> (len - h <= fuel')%nat ->
  Heap.adjust_heap_loop comp fuel c len h h v =
  Heap.adjust_heap_loop comp fuel' c len h h v.
Proof.
  assert (Hexit : forall len h, (len - h <= 0)%nat ->
            (h <? (len - 1) / 2)%nat = false).
  { intros len h Hl. apply Nat.ltb_ge. pose proof (half_cases (len - 1)). lia. }
  induction fuel as [|fuel IH]; intros fuel' c len h v Hf Hf'.
  - destruct fuel'; [reflexivity|]. rewrite adjust_heap_loop_S, Hexit by lia.
    reflexivity.
  - destruct fuel' as [|fuel'].
    + rewrite adjust_heap_loop_S, Hexit by lia. reflexivity.
    + rewrite !adjust_heap_loop_S.
      destruct (h <? (len - 1) / 2)%nat eqn:Hc; [|reflexivity].
      cbv zeta.
      destruct (comp (nth (2 * (h + 1)) c v) (nth (2 * (h + 1) - 1) c v));
        apply IH; lia.
Qed.

Lemma push_heap_length {A} (comp : A -> A -> bool) fuel : forall c h top v,
  length (Heap.push_heap comp fuel c h top v) = length c.
Proof.
  induction fuel as [|fuel IH]; intros c h top v.
  - rewrite push_heap_O. apply length_insert.
  - rewrite push_heap_S. destruct (_ && _).
    + rewrite IH. apply length_insert.
    + apply length_insert.
Qed.

Lemma adjust_heap_loop_length {A} (comp : A -> A -> bool) fuel :
  forall c len h s v,
  length (Heap.adjust_heap_loop comp fuel c len h s v).1.1 = length c.
Proof.
  induction fuel as [|fuel IH]; intros c len h s v; [reflexivity|].
  rewrite adjust_heap_loop_S. destruct (s <? (len - 1) / 2)%nat; [|reflexivity].
  cbv zeta. rewrite IH. apply length_insert.
Qed.

Lemma pop_length {A} (comp : A -> A -> bool) (c : list A) :
  length (Heap.pop comp c) = (length c - 1)%nat.
Proof.
  unfold Heap.pop. rewrite length_take.
  assert (length (Heap.pop_heap comp c) = length c) as ->; [|lia].
  unfold Heap.pop_heap. destruct c as [|front rest]; [reflexivity|].
  destruct (1 <? length (front :: rest))%nat; [|reflexivity].
  unfold Heap.adjust_heap.
  pose proof (adjust_heap_loop_length comp (length (front :: rest) - 1)
                (<[(length (front :: rest) - 1)%nat := front]> (front :: rest))
                (length (front :: rest) - 1) 0 0
                (nth (length (front :: rest) - 1) (front :: rest) front)) as Hl.
  destruct (Heap.adjust_heap_loop _ _ _ _ _ _ _) as [[c1 h1] s1].
  simpl fst in Hl. rewrite length_insert in Hl.
  destruct (_ && _); rewrite push_heap_length, ?length_insert; exact Hl.
Qed.

Lemma push_length {A} (comp : A -> A -> bool) x (c : list A) :
  length (Heap.push comp x c) = S (length c).
Proof.
  unfold Heap.push. rewrite push_heap_length, length_app. simpl. lia.
Qed.

Lemma clean_heap_fuel (comp : Z -> Z -> bool) m fuel : forall fuel' q,
  (length q <= fuel)%nat -> (length q <= fuel')%nat ->
  HeapBook.clean_heap fuel comp m q = HeapBook.clean_heap fuel' comp m q.
Proof.
  induction fuel as [|fuel IH]; intros fuel' q Hf Hf'.
  - destruct q; [|simpl in Hf; lia]. destruct fuel'; reflexivity.
  - destruct fuel' as [|fuel'].
    + destruct q; [|simpl in Hf'; lia]. reflexivity.
    + simpl. destruct (Heap.top q) as [p|] eqn:Ht; [|reflexivity].
      destruct (dead (deref m p)); [|reflexivity].
      apply IH; rewrite pop_length; lia.
Qed.

(** ** The heap-based book and the list-based book *)

Lemma bid_comp_strict_total m : HeapSpec.strict_total (bid_comp m) (keyed m).
Proof.
  split.
  - intros x _. destruct (bid_comp m x x) eqn:E; [|reflexivity].
    pose proof (bid_comp_asym _ _ _ E). congruence.
  - intros x y z _ _ _. apply bid_comp_trans.
  - intros x y (ox & Hx & Hix & Hpx) (oy & Hy & Hiy & Hpy) Hne.
    unfold bid_comp. rewrite (deref_lookup _ _ _ Hx), (deref_lookup _ _ _ Hy).
    rewrite !BuyOrderComparator_below. unfold below_bid.
    destruct (key_total (float_key (price ox)) (float_key (price oy)))
      as [Hlt|[Heq|Hgt]]; [left; auto| |right; auto].
    destruct (Z.lt_trichotomy (order_id ox) (order_id oy)) as [Hlt|[Heq'|Hgt]].
    + right. repeat split; auto.
    + congruence.
    + left. repeat split; auto.
Qed.

Lemma ask_comp_strict_total m : HeapSpec.strict_total (ask_comp m) (keyed m).
Proof.
  split.
  - intros x _. destruct (ask_comp m x x) eqn:E; [|reflexivity].
    pose proof (ask_comp_asym _ _ _ E). congruence.
  - intros x y z _ _ _. apply ask_comp_trans.
  - intros x y (ox & Hx & Hix & Hpx) (oy & Hy & Hiy & Hpy) Hne.
    unfold ask_comp. rewrite (deref_lookup _ _ _ Hx), (deref_lookup _ _ _ Hy).
    rewrite !SellOrderComparator_below. unfold below_ask.
    destruct (key_total (float_key (price ox)) (float_key (price oy)))
      as [Hlt|[Heq|Hgt]]; [right; auto| |left; auto].
    destruct (Z.lt_trichotomy (order_id ox) (order_id oy)) as [Hlt|[Heq'|Hgt]].
    + right. repeat split; auto.
    + congruence.
    + left. repeat split; auto.
Qed.

Lemma keyed_insert_fill m p q x :
  keyed m p -> keyed m x -> keyed (<[p := fill q (deref m p)]> m) x.
Proof.
  intros (op & Hp & Hip & Hpp) (ox & Hx & Hix & Hpx).
  destruct (decide (x = p)) as [->|Hne].
  - exists (fill q (deref m p)). rewrite lookup_insert_eq.
    rewrite fill_order_id, fill_price, (deref_lookup _ _ _ Hp). auto.
  - exists ox. rewrite lookup_insert_ne by congruence. auto.
Qed.

Section Simulation.
Variable comp : gmap Z Order -> Z -> Z -> bool.
Hypothesis comp_total : forall m, HeapSpec.strict_total (comp m) (keyed m).
Hypothesis comp_stable : forall m m',
  (forall p, order_id (deref m' p) = order_id (deref m p)) ->
  (forall p, price (deref m' p) = price (deref m p)) ->
  forall x y, comp m' x y = comp m x y.

Lemma comp_insert_fill m p q x y :
  comp (<[p := fill q (deref m p)]> m) x y = comp m x y.
Proof.
  apply comp_stable; intros p'; rewrite deref_insert; case_decide; subst;
    auto using fill_order_id, fill_price.
Qed.

Lemma represents_insert_fill m p q c l :
  HeapSpec.represents (comp m) c l ->
  HeapSpec.represents (comp (<[p := fill q (deref m p)]> m)) c l.
Proof.
  apply represents_ext. intros x y _ _. symmetry. apply comp_insert_fill.
Qed.

(** One evaluation of the loop condition and body does the same over the
    heap and over the list. *)
Lemma match_step_sim sym nc sh s :
  state_rep comp sh s -> Forall (keyed (ms_orders s)) (ms_heap sh) ->
  match match_step sym nc s with
  | Exit _ => HeapBook.match_step sym nc comp sh = Exit sh
  | Again s' =>
      exists sh',
        HeapBook.match_step sym nc comp sh = Again sh' /\
        state_rep comp sh' s' /\
        Forall (keyed (ms_orders s')) (ms_heap sh')
  end.
Proof.
  destruct sh as [inc m ch nt tr], s as [inc' m' l nt' tr'].
  intros (E1 & E2 & E3 & E4 & Hr) Hk. simpl in *. subst inc' m' nt' tr'.
  pose proof (represents_top _ _ (comp_total m) _ _ Hr Hk) as Ht.
  unfold match_step, HeapBook.match_step. simpl. rewrite Ht.
  destruct (PriorityQueue.top l) as [p|] eqn:Hl; [|reflexivity].
  destruct (negb (remaining_quantity inc >? 0)); [reflexivity|].
  assert (Hp : keyed m p).
  { rewrite Forall_forall in Hk. apply Hk.
    destruct ch as [|t ch']; [discriminate|]. injection Ht as ->. left. }
  destruct (represents_pop _ _ (comp_total m) _ _ Hr Hk) as [Hr' Hk'].
  case_bool_decide.
  { eexists. split; [reflexivity|]. split; [|exact Hk'].
    repeat split; simpl; apply Hr'. }
  destruct (nc inc (deref m p)); [reflexivity|].
  set (q := Z.min _ _).
  set (m1 := <[p := fill q (deref m p)]> m).
  assert (Hk1 : Forall (keyed m1) ch).
  { eapply Forall_impl; [exact Hk|]. intros x Hx.
    apply keyed_insert_fill; assumption. }
  assert (Hr1 : HeapSpec.represents (comp m1) ch l).
  { apply represents_insert_fill, Hr. }
  eexists. split; [reflexivity|]. simpl. fold m1.
  destruct (is_filled (fill q (deref m p))).
  - destruct (represents_pop _ _ (comp_total m1) _ _ Hr1 Hk1) as [Hr2 Hk2].
    split; [|exact Hk2]. repeat split; simpl; apply Hr2.
  - split; [|exact Hk1]. repeat split; simpl; apply Hr1.
Qed.

Lemma match_loop_sim sym nc fuel : forall sh s s',
  state_rep comp sh s -> Forall (keyed (ms_orders s)) (ms_heap sh) ->
  match_loop sym nc fuel s = Some s' ->
  exists sh',
    HeapBook.match_loop sym nc comp fuel sh = Some sh' /\
    state_rep comp sh' s' /\
    Forall (keyed (ms_orders s')) (ms_heap sh').
Proof.
  induction fuel as [|fuel IH]; intros sh s s' Hr Hk; simpl; [discriminate|].
  pose proof (match_step_sim sym nc sh s Hr Hk) as Hs.
  destruct (match_step sym nc s) as [s1|s1] eqn:E.
  - apply match_step_exit in E. subst s1. intros [= <-].
    rewrite Hs. exists sh. auto.
  - destruct Hs as (sh1 & -> & Hr1 & Hk1). apply IH; assumption.
Qed.

(** Dead entries are popped off the heap as they are off the list. *)
Lemma clean_heap_sim m fuel : forall c l,
  HeapSpec.represents (comp m) c l -> Forall (keyed m) c ->
  (length c <= fuel)%nat ->
  HeapSpec.represents (comp m) (HeapBook.clean_heap fuel (comp m) m c)
                      (clean_heap m l).
Proof.
  induction fuel as [|fuel IH]; intros c l Hr Hk Hf; simpl.
  { destruct c; [|simpl in Hf; lia].
    destruct Hr as (_ & Hp & _). apply Permutation_nil_r in Hp. subst l.
    apply represents_nil. }
  pose proof (represents_top _ _ (comp_total m) _ _ Hr Hk) as Ht.
  rewrite Ht. destruct l as [|p l']; simpl; [exact Hr|].
  destruct (dead (deref m p)); [|exact Hr].
  destruct (represents_pop _ _ (comp_total m) _ _ Hr Hk) as [Hr' Hk'].
  apply IH; auto.
  destruct Hr as (Hh & _ & _). destruct (pop_spec _ _ (comp_total m) c Hk Hh) as [_ Hc].
  destruct c as [|t c']; [discriminate|].
  apply Permutation_length in Hc. simpl in *. lia.
Qed.

End Simulation.

Lemma bid_comp_stable m m' :
  (forall p, order_id (deref m' p) = order_id (deref m p)) ->
  (forall p, price (deref m' p) = price (deref m p)) ->
  forall x y, bid_comp m' x y = bid_comp m x y.
Proof. exact (ptr_comp_stable BuyOrderComparator m m' BuyOrderComparator_reads_key). Qed.

Lemma ask_comp_stable m m' :
  (forall p, order_id (deref m' p) = order_id (deref m p)) ->
  (forall p, price (deref m' p) = price (deref m p)) ->
  forall x y, ask_comp m' x y = ask_comp m x y.
Proof. exact (ptr_comp_stable SellOrderComparator m m' SellOrderComparator_reads_key). Qed.

(** The entries of the heaps of a sound book are keyed. *)
Lemma book_rep_keyed bh b :
  book_rep bh b -> book_sound b ->
  Forall (keyed (orders_ b)) (bids_ bh) /\ Forall (keyed (orders_ b)) (asks_ bh).
Proof.
  intros (_ & _ & _ & (_ & Hpb & _) & (_ & Hpa & _)) Hs.
  pose proof (sound_inv _ Hs) as Hinv.
  assert (Hk : forall p, is_Some (orders_ b !! p) -> keyed (orders_ b) p).
  { intros p [o Ho]. exists o. split; [exact Ho|]. split.
    - eapply (inv_ids _ Hinv), Ho.
    - eapply (sound_prices _ Hs), Ho. }
  split; rewrite Forall_forall; intros p Hp; apply Hk.
  - apply (inv_bids_backed _ Hinv). apply list_elem_of_In. rewrite Hpb. exact Hp.
  - apply (inv_asks_backed _ Hinv). apply list_elem_of_In. rewrite Hpa. exact Hp.
Qed.

Lemma keyed_insert_fresh m id o x :
  m !! id = None -> keyed m x -> keyed (<[id := o]> m) x.
Proof.
  intros Hn (ox & Hx & Hix & Hpx). exists ox.
  rewrite lookup_insert_ne by congruence. auto.
Qed.

Lemma represents_insert_fresh (comp : gmap Z Order -> Z -> Z -> bool) m id o c l :
  (forall x y, deref (<[id := o]> m) x = deref m x ->
               deref (<[id := o]> m) y = deref m y ->
               comp (<[id := o]> m) x y = comp m x y) ->
  m !! id = None -> Forall (keyed m) c ->
  HeapSpec.represents (comp m) c l ->
  HeapSpec.represents (comp (<[id := o]> m)) c l.
Proof.
  intros Hc Hn Hk. apply represents_ext. intros x y Hx Hy. symmetry.
  rewrite Forall_forall in Hk.
  apply Hc; rewrite deref_insert; case_decide; auto; subst.
  - destruct (Hk _ Hx) as (? & ? & _). congruence.
  - destruct (Hk _ Hy) as (? & ? & _). congruence.
Qed.

Lemma add_order_unlocked_sim o bh b :
  book_rep bh b ->
  Forall (keyed (orders_ b)) (bids_ bh) -> Forall (keyed (orders_ b)) (asks_ bh) ->
  orders_ b !! order_id o = None -> ordered (price o) ->
  book_rep (HeapBook.add_order_unlocked o bh) (add_order_unlocked o b) /\
  Forall (keyed (orders_ (add_order_unlocked o b)))
         (bids_ (HeapBook.add_order_unlocked o bh)) /\
  Forall (keyed (orders_ (add_order_unlocked o b)))
         (asks_ (HeapBook.add_order_unlocked o bh)).
Proof.
  intros (Es & Eo & En & Hb & Ha) Hkb Hka Hn Hp.
  set (m' := <[order_id o := o]> (orders_ b)).
  assert (Hid : keyed m' (order_id o)).
  { exists o. subst m'. rewrite lookup_insert_eq. auto. }
  assert (Hkb' : Forall (keyed m') (bids_ bh)).
  { eapply Forall_impl; [exact Hkb|]. intros x. apply keyed_insert_fresh, Hn. }
  assert (Hka' : Forall (keyed m') (asks_ bh)).
  { eapply Forall_impl; [exact Hka|]. intros x. apply keyed_insert_fresh, Hn. }
  assert (Hb' : HeapSpec.represents (bid_comp m') (bids_ bh) (bids_ b)).
  { apply (represents_insert_fresh bid_comp); auto.
    intros x y Ex Ey. unfold bid_comp. rewrite Ex, Ey. reflexivity. }
  assert (Ha' : HeapSpec.represents (ask_comp m') (asks_ bh) (asks_ b)).
  { apply (represents_insert_fresh ask_comp); auto.
    intros x y Ex Ey. unfold ask_comp. rewrite Ex, Ey. reflexivity. }
  unfold HeapBook.add_order_unlocked, add_order_unlocked. rewrite Eo. fold m'.
  destruct (is_buy o); simpl.
  - split; [|split; [|exact Hka']].
    + split; [exact Es|]. split; [reflexivity|]. split; [exact En|].
      split; [|exact Ha'].
      apply (represents_push _ _ (bid_comp_strict_total m')); auto.
      * apply bid_comp_asym.
      * apply bid_comp_trans.
    + pose proof (push_spec _ _ (bid_comp_strict_total m') (order_id o)
                    (bids_ bh) Hkb' Hid) as Hps.
      destruct Hb' as (Hh & _ & _). destruct (Hps Hh) as [_ Hperm].
      rewrite Hperm. constructor; assumption.
  - split; [|split; [exact Hkb'|]].
    + split; [exact Es|]. split; [reflexivity|]. split; [exact En|].
      split; [exact Hb'|].
      apply (represents_push _ _ (ask_comp_strict_total m')); auto.
      * apply ask_comp_asym.
      * apply ask_comp_trans.
    + pose proof (push_spec _ _ (ask_comp_strict_total m') (order_id o)
                    (asks_ bh) Hka' Hid) as Hps.
      destruct Ha' as (Hh & _ & _). destruct (Hps Hh) as [_ Hperm].
      rewrite Hperm. constructor; assumption.
Qed.

Lemma clean_filled_orders_sim bh b :
  book_rep bh b ->
  Forall (keyed (orders_ b)) (bids_ bh) -> Forall (keyed (orders_ b)) (asks_ bh) ->
  book_rep (HeapBook.clean_filled_orders bh) (clean_filled_orders b).
Proof.
  intros (Es & Eo & En & Hb & Ha) Hkb Hka.
  unfold HeapBook.clean_filled_orders, clean_filled_orders. rewrite Eo.
  split; [exact Es|]. split; [reflexivity|]. split; [exact En|]. simpl. split.
  - apply (clean_heap_sim bid_comp bid_comp_strict_total); auto.
  - apply (clean_heap_sim ask_comp ask_comp_strict_total); auto.
Qed.

Lemma keyed_stable s s' x :
  step_stable s s' -> heap_backed (ms_orders s) (ms_heap s) ->
  keyed (ms_orders s) x -> keyed (ms_orders s') x.
Proof.
  intros Hst Hb (o & Hx & Hix & Hpx).
  destruct (proj2 (stable_dom _ _ Hst Hb x) (ex_intro _ o Hx)) as [o' Ho'].
  exists o'. split; [exact Ho'|].
  pose proof (stable_id _ _ Hst x) as Hi. pose proof (stable_price _ _ Hst x) as Hp.
  rewrite (deref_lookup _ _ _ Ho'), (deref_lookup _ _ _ Hx) in Hi, Hp.
  split; congruence.
Qed.

(** [match_order] over the heap does what it does over the list. *)
Lemma match_order_sim order bh b trades order' b1 :
  book_rep bh b -> book_sound b ->
  match_order order b = Some (trades, order', b1) ->
  exists bh1,
    HeapBook.match_order order bh = Some (trades, order', bh1) /\
    book_rep bh1 b1 /\
    Forall (keyed (orders_ b1)) (bids_ bh1) /\
    Forall (keyed (orders_ b1)) (asks_ bh1) /\
    (orders_ b !! order_id order = None ->
     orders_ b1 !! order_id order' = None) /\
    price order' = price order.
Proof.
  intros Hrep Hs Hp.
  destruct (book_rep_keyed _ _ Hrep Hs) as [Hkb Hka].
  pose proof (sound_inv _ Hs) as Hinv.
  destruct Hrep as (Es & Eo & En & Hb & Ha).
  unfold match_order in Hp. unfold HeapBook.match_order.
  rewrite Es, Eo, En.
  destruct (is_buy order) eqn:Hbuy.
  - assert (Hfuel : match_fuel (asks_ bh) = match_fuel (asks_ b)).
    { unfold match_fuel. destruct Ha as (_ & Hperm & _).
      rewrite (Permutation_length Hperm). reflexivity. }
    rewrite Hfuel.
    destruct (match_loop _ _ _ _) as [s|] eqn:Hl; [|discriminate].
    destruct (match_loop_sim ask_comp ask_comp_strict_total ask_comp_stable
                _ _ _
                (mkMatchState order (orders_ b) (asks_ bh) (next_trade_id_ b) [])
                (mkMatchState order (orders_ b) (asks_ b) (next_trade_id_ b) [])
                s ltac:(do 4 (split; [reflexivity|]); exact Ha) Hka Hl)
      as (sh & -> & (E1 & E2 & E3 & E4 & Hr) & Hk).
    pose proof (match_loop_stable _ _ _ _ _ Hl) as Hst.
    rewrite E1, E2, E3, E4.
    injection Hp as <- <- <-.
    assert (Hback : heap_backed (orders_ b) (asks_ b)) by apply Hinv.
    eexists. split; [reflexivity|]. split; [|split; [|split; [|split]]].
    + repeat (split; [reflexivity|]). split; [|exact Hr]. simpl.
      eapply represents_ext; [|exact Hb]. intros x y _ _. symmetry.
      apply bid_comp_stable; [apply (stable_id _ _ Hst)|apply (stable_price _ _ Hst)].
    + eapply Forall_impl; [exact Hkb|]. intros x.
      apply (keyed_stable _ _ x Hst Hback).
    + exact Hk.
    + intros Hn. rewrite (stable_incoming_id _ _ Hst). simpl.
      destruct (ms_orders s !! order_id order) eqn:E; [|reflexivity].
      destruct (proj1 (stable_dom _ _ Hst Hback (order_id order))
                  (ex_intro _ _ E)) as [? E'].
      simpl in E'. congruence.
    + apply (stable_incoming_price _ _ Hst).
  - assert (Hfuel : match_fuel (bids_ bh) = match_fuel (bids_ b)).
    { unfold match_fuel. destruct Hb as (_ & Hperm & _).
      rewrite (Permutation_length Hperm). reflexivity. }
    rewrite Hfuel.
    destruct (match_loop _ _ _ _) as [s|] eqn:Hl; [|discriminate].
    destruct (match_loop_sim bid_comp bid_comp_strict_total bid_comp_stable
                _ _ _
                (mkMatchState order (orders_ b) (bids_ bh) (next_trade_id_ b) [])
                (mkMatchState order (orders_ b) (bids_ b) (next_trade_id_ b) [])
                s ltac:(do 4 (split; [reflexivity|]); exact Hb) Hkb Hl)
      as (sh & -> & (E1 & E2 & E3 & E4 & Hr) & Hk).
    pose proof (match_loop_stable _ _ _ _ _ Hl) as Hst.
    rewrite E1, E2, E3, E4.
    injection Hp as <- <- <-.
    assert (Hback : heap_backed (orders_ b) (bids_ b)) by apply Hinv.
    eexists. split; [reflexivity|]. split; [|split; [|split; [|split]]].
    + repeat (split; [reflexivity|]). split; [exact Hr|]. simpl.
      eapply represents_ext; [|exact Ha]. intros x y _ _. symmetry.
      apply ask_comp_stable; [apply (stable_id _ _ Hst)|apply (stable_price _ _ Hst)].
    + exact Hk.
    + eapply Forall_impl; [exact Hka|]. intros x.
      apply (keyed_stable _ _ x Hst Hback).
    + intros Hn. rewrite (stable_incoming_id _ _ Hst). simpl.
      destruct (ms_orders s !! order_id order) eqn:E; [|reflexivity].
      destruct (proj1 (stable_dom _ _ Hst Hback (order_id order))
                  (ex_intro _ _ E)) as [? E'].
      simpl in E'. congruence.
    + apply (stable_incoming_price _ _ Hst).
Qed.

(** Over a book whose resting prices are not NaN, [process_order] over the
    heap returns the trades it returns over the list, whatever the price of
    the incoming order. *)
Lemma process_order_sim_trades order bh b trades order' b' :
  book_rep bh b -> book_sound b ->
  process_order order b = Some (trades, order', b') ->
  exists bh', HeapBook.process_order order bh = Some (trades, order', bh').
Proof.
  intros Hrep Hs. unfold process_order, HeapBook.process_order.
  destruct (match_order order b) as [[[tr o1] b1]|] eqn:Hm; [|discriminate].
  destruct (match_order_sim _ _ _ _ _ _ Hrep Hs Hm) as (bh1 & -> & _).
  intros [= <- <- <-]. eexists. reflexivity.
Qed.

(** [process_order] over the heap does what it does over the list. *)
Lemma process_order_sim order bh b trades order' b' :
  book_rep bh b -> book_sound b ->
  ordered (price order) -> orders_ b !! order_id order = None ->
  process_order order b = Some (trades, order', b') ->
  exists bh',
    HeapBook.process_order order bh = Some (trades, order', bh') /\
    book_rep bh' b'.
Proof.
  intros Hrep Hs Hpo Hn. unfold process_order, HeapBook.process_order.
  destruct (match_order order b) as [[[tr o1] b1]|] eqn:Hm; [|discriminate].
  destruct (match_order_sim _ _ _ _ _ _ Hrep Hs Hm)
    as (bh1 & -> & Hrep1 & Hkb1 & Hka1 & Hn1 & Hp1).
  intros [= <- <- <-]. eexists. split; [reflexivity|].
  destruct (negb (is_filled o1) && bool_decide (status o1 <> CANCELLED)).
  - destruct (add_order_unlocked_sim o1 bh1 b1 Hrep1 Hkb1 Hka1 (Hn1 Hn))
      as (Hrep2 & Hkb2 & Hka2); [rewrite Hp1; exact Hpo|].
    apply clean_filled_orders_sim; assumption.
  - apply clean_filled_orders_sim; assumption.
Qed.

(** ** The engine over the heap and over the list *)

Lemma book_rep_new sym : book_rep (OrderBook_new sym) (OrderBook_new sym).
Proof.
  repeat (split; [reflexivity|]). split; apply represents_nil.
Qed.

Lemma fold_update_stats_rep trades bh b : forall st,
  orders_ bh = orders_ b ->
  fold_left (fun st trade => update_stats_for_trade trade bh st) trades st =
  fold_left (fun st trade => update_stats_for_trade trade b st) trades st.
Proof.
  induction trades as [|t trades IH]; intros st Eo; simpl; [reflexivity|].
  rewrite IH by exact Eo. f_equal.
  unfold update_stats_for_trade, get_order. rewrite Eo. reflexivity.
Qed.

Lemma submit_order_sim client sym s p q eh e id trades e' :
  engine_rep eh e -> engine_sound e -> ordered p ->
  submit_order client sym s p q e = Some (id, trades, e') ->
  exists eh',
    HeapBook.submit_order client sym s p q eh = Some (id, trades, eh') /\
    engine_rep eh' e'.
Proof.
  intros (Eo & En & Est & Hbooks) Hs Hp.
  unfold submit_order, HeapBook.submit_order. rewrite Eo, En, Est.
  destruct (get_or_create_book sym (order_books_ e)) as [book bs] eqn:Hg.
  destruct (get_or_create_book sym (order_books_ eh)) as [bookh bsh] eqn:Hgh.
  assert (Hb : book_rep bookh book /\ book_sound book /\
               orders_ book !! next_order_id_ e = None /\
               forall sym',
                 match bsh !! sym', bs !! sym' with
                 | Some bh, Some b => book_rep bh b
                 | None, None => True
                 | _, _ => False
                 end).
  { unfold get_or_create_book in Hg, Hgh. pose proof (Hbooks sym) as Hsym.
    destruct (order_books_ e !! sym) as [b0|] eqn:Hb0;
      destruct (order_books_ eh !! sym) as [bh0|] eqn:Hbh0; try contradiction;
      injection Hg as <- <-; injection Hgh as <- <-.
    - destruct (Hs _ _ Hb0) as (Hsound & _ & Hlt & _).
      split; [exact Hsym|]. split; [exact Hsound|]. split; [|exact Hbooks].
      apply eq_None_not_Some. intros Hin. apply Hlt in Hin. lia.
    - split; [apply book_rep_new|]. split; [apply book_sound_new|].
      split; [apply lookup_empty|].
      intros sym'. rewrite !lookup_insert. case_decide; [apply book_rep_new|].
      apply Hbooks. }
  destruct Hb as (Hrep & Hsound & Hfresh & Hbs).
  destruct (process_order _ book) as [[[tr o'] b']|] eqn:Hpo; [|discriminate].
  intros [= <- <- <-].
  destruct (process_order_sim (Order_new (next_order_id_ e) client sym s p q)
              _ _ _ _ _ Hrep Hsound Hp Hfresh Hpo)
    as (bh' & -> & Hrep').
  eexists. split; [reflexivity|].
  split; [reflexivity|]. split; [reflexivity|]. split.
  - simpl. apply fold_update_stats_rep. apply Hrep'.
  - intros sym'. simpl. rewrite !lookup_insert. case_decide; [exact Hrep'|].
    apply Hbs.
Qed.

Lemma book_cancel_order_sim id bh b :
  book_rep bh b ->
  fst (book_cancel_order id bh) = fst (book_cancel_order id b) /\
  book_rep (snd (book_cancel_order id bh)) (snd (book_cancel_order id b)).
Proof.
  intros (Es & Eo & En & Hb & Ha). unfold book_cancel_order. rewrite Eo.
  destruct (orders_ b !! id) as [o|] eqn:Ho; simpl.
  2:{ split; [reflexivity|]. repeat (split; [assumption|]). exact Ha. }
  split; [reflexivity|].
  split; [exact Es|]. split; [reflexivity|]. split; [exact En|].
  assert (Hid : forall p, order_id (deref (<[id := cancel o]> (orders_ b)) p) =
                          order_id (deref (orders_ b) p)).
  { intros p. rewrite deref_insert. case_decide; [subst|reflexivity].
    rewrite (deref_lookup _ _ _ Ho). reflexivity. }
  assert (Hpr : forall p, price (deref (<[id := cancel o]> (orders_ b)) p) =
                          price (deref (orders_ b) p)).
  { intros p. rewrite deref_insert. case_decide; [subst|reflexivity].
    rewrite (deref_lookup _ _ _ Ho). reflexivity. }
  simpl. split.
  - eapply represents_ext; [|exact Hb]. intros x y _ _. symmetry.
    apply bid_comp_stable; assumption.
  - eapply represents_ext; [|exact Ha]. intros x y _ _. symmetry.
    apply ask_comp_stable; assumption.
Qed.

Lemma cancel_order_sim id eh e :
  engine_rep eh e ->
  fst (cancel_order id eh) = fst (cancel_order id e) /\
  engine_rep (snd (cancel_order id eh)) (snd (cancel_order id e)).
Proof.
  intros Hrep. pose proof Hrep as (Eo & En & Est & Hbooks).
  unfold cancel_order. rewrite Eo.
  destruct (order_to_symbol_ e !! id) as [sym|]; [|split; [reflexivity|exact Hrep]].
  pose proof (Hbooks sym) as Hsym.
  destruct (order_books_ e !! sym) as [b|] eqn:Hb;
    destruct (order_books_ eh !! sym) as [bh|] eqn:Hbh; try contradiction;
    [|split; [reflexivity|exact Hrep]].
  destruct (book_cancel_order_sim id bh b Hsym) as [Hf Hr].
  destruct (book_cancel_order id bh) as [okh bh'].
  destruct (book_cancel_order id b) as [ok b']. simpl in Hf, Hr. subst okh.
  destruct ok; [|split; [reflexivity|exact Hrep]].
  split; [reflexivity|]. simpl.
  split; [reflexivity|]. split; [exact En|].
  split; [simpl; rewrite Est; reflexivity|].
  intros sym'. simpl. rewrite !lookup_insert. case_decide; [exact Hr|].
  apply Hbooks.
Qed.

Lemma engine_rep_refl_new : engine_rep MatchingEngine_new MatchingEngine_new.
Proof.
  repeat (split; [reflexivity|]). intros sym. simpl. rewrite lookup_empty. exact I.
Qed.

(** A history without a NaN price runs over the heap as it does over the
    list. *)
Lemma run_sim cs : forall eh e replies e',
  engine_rep eh e -> engine_sound e ->
  0 <= next_order_id_ e ->
  next_order_id_ e + Z.of_nat (length cs) < 2 ^ 64 ->
  Forall call_ok cs ->
  run cs e = Some (replies, e') ->
  exists eh', HeapBook.run cs eh = Some (replies, eh') /\ engine_rep eh' e'.
Proof.
  induction cs as [|c cs IH]; intros eh e replies e' Hrep Hinv H0 Hmax Hcs; simpl.
  - intros [= <- <-]. exists eh. auto.
  - destruct (call c e) as [[r e1]|] eqn:Hc; [|discriminate].
    destruct (run cs e1) as [[rs e2]|] eqn:Hr; [|discriminate].
    intros [= <- <-].
    apply Forall_cons in Hcs as [Hc0 Hcs].
    destruct (run_sound [c] e [r] e1 Hinv H0 ltac:(simpl in *; lia)
                ltac:(constructor; [exact Hc0|constructor])
                ltac:(simpl; rewrite Hc; reflexivity)) as [Hinv1 _].
    assert (Hn1 : next_order_id_ e <= next_order_id_ e1 <= next_order_id_ e + 1).
    { destruct c as [client sym s p q|id]; simpl in Hc.
      - destruct (submit_order client sym s p q e) as [[[id tr] e1']|] eqn:Hs;
          [|discriminate].
        injection Hc as <- <-.
        destruct (submit_order_inv _ _ _ _ _ _ _ _ _ (engine_sound_inv _ Hinv) H0
                    ltac:(simpl in Hmax; lia) Hs) as [_ Hn1]. lia.
      - destruct (cancel_order id e) as [ok e1'] eqn:Hcc. injection Hc as <- <-.
        destruct (cancel_order_inv id e (engine_sound_inv _ Hinv)) as [_ Hn1].
        rewrite Hcc in Hn1. simpl in Hn1. lia. }
    assert (Hstep : exists eh1, HeapBook.call c eh = Some (r, eh1) /\
                                engine_rep eh1 e1).
    { destruct c as [client sym s p q|id]; simpl in Hc |- *.
      - destruct (submit_order client sym s p q e) as [[[id tr] e1']|] eqn:Hs;
          [|discriminate].
        injection Hc as <- <-. destruct Hc0 as [_ Hp].
        destruct (submit_order_sim _ _ _ _ _ _ _ _ _ _ Hrep Hinv Hp Hs)
          as (eh1 & -> & Hrep1).
        exists eh1. auto.
      - destruct (cancel_order_sim id eh e Hrep) as [Hf Hrep1].
        destruct (cancel_order id e) as [ok e1'].
        destruct (cancel_order id eh) as [okh eh1]. simpl in Hf, Hrep1.
        injection Hc as <- <-. subst okh. exists eh1. auto. }
    destruct Hstep as (eh1 & -> & Hrep1).
    destruct (IH eh1 e1 rs e2 Hrep1 Hinv1 ltac:(lia) ltac:(simpl in Hmax; lia)
                Hcs Hr) as (eh2 & -> & Hrep2).
    exists eh2. auto.
Qed.

(** ** C3 over the heap *)

Lemma call_ok_wf cs : Forall call_ok cs -> Forall call_wf cs.
Proof.
  intros H. eapply Forall_impl; [exact H|].
  intros [client sym s p q|id]; simpl; [intros [Hq _]; exact Hq|auto].
Qed.

(** A history without a NaN price, run over the heap: the list-based engine
    that it corresponds to. *)
Lemma run_heap_history cs replies eh :
  Forall call_ok cs -> 1 + Z.of_nat (length cs) < 2 ^ 64 ->
  HeapBook.run cs MatchingEngine_new = Some (replies, eh) ->
  exists e,
    run cs MatchingEngine_new = Some (replies, e) /\
    engine_rep eh e /\ engine_sound e.
Proof.
  intros Hok Hlen Hrun.
  destruct (run_total cs MatchingEngine_new engine_wf_new (call_ok_wf cs Hok))
    as (replies' & e & Hrunl & _).
  destruct (run_new_sound cs replies' e Hok Hlen Hrunl) as [Hsound _].
  destruct (run_sim cs MatchingEngine_new MatchingEngine_new replies' e
              engine_rep_refl_new engine_sound_new ltac:(simpl; lia)
              ltac:(simpl; lia) Hok Hrunl) as (eh' & Hrunh & Hrep).
  rewrite Hrun in Hrunh. injection Hrunh as <- <-.
  exists e. auto.
Qed.

(** C3, for histories without a NaN price.  Take any engine reached from
    the empty one by calls whose prices are not NaN (fewer calls than there
    are order ids), the queues being the binary heaps of
    [std::priority_queue], and any further [submit_order].  If two orders
    rest on the side the new order is matched against, with equal prices,
    and the one with the smaller id is not cancelled, then every trade of
    this submission against the later order comes after a trade of this
    submission against the earlier one: the earlier order is matched first.
    In particular, in scenario F the sell of 5 trades with order 1, not with
    order 2. *)
Theorem C3_time_priority :
  (forall cs replies e client sym s p q id trades e' b p1 p2 o1 o2,
     Forall call_ok cs ->
     HeapBook.run cs MatchingEngine_new = Some (replies, e) ->
     Z.of_nat (length cs) < 2 ^ 64 - 1 ->
     order_books_ e !! sym = Some b ->
     HeapBook.submit_order client sym s p q e = Some (id, trades, e') ->
     In p1 (opposite_heap s b) -> In p2 (opposite_heap s b) ->
     orders_ b !! p1 = Some o1 -> orders_ b !! p2 = Some o2 ->
     PrimFloat.eqb (price o1) (price o2) = true ->
     order_id o1 < order_id o2 ->
     status o1 <> CANCELLED ->
     forall k1 t k2, trades = k1 ++ t :: k2 ->
       maker_order_id t = order_id o2 ->
       exists t1, In t1 k1 /\ maker_order_id t1 = order_id o1) /\
  match HeapBook.run scenario_F MatchingEngine_new with
  | Some (replies, _) =>
      replies = [ Submitted 1 []; Submitted 2 [];
                  Submitted 3 [mkTrade 1 3 1 102 100 BTC 50000%float 5] ]
  | None => False
  end.
Proof.
  split; [|vm_compute; reflexivity].
  intros cs replies eh client sym s p q id trades eh' bh p1 p2 o1 o2
         Hok Hrun Hlen Hbh Hsub Hin1 Hin2 Ho1 Ho2 He Hlt Hlive.
  destruct (run_heap_history cs replies eh Hok ltac:(lia) Hrun)
    as (e & Hrunl & Hrep & Hsound).
  pose proof (proj2 (proj2 (proj2 Hrep)) sym) as Hsym. rewrite Hbh in Hsym.
  destruct (order_books_ e !! sym) as [b|] eqn:Hb; [|contradiction].
  destruct (Hsound _ _ Hb) as (Hbs & _).
  unfold HeapBook.submit_order, get_or_create_book in Hsub. rewrite Hbh in Hsub.
  destruct (HeapBook.process_order _ bh) as [[[tr o'] bh1]|] eqn:Hp;
    [|discriminate].
  injection Hsub as _ <- _.
  assert (Hwf : orders_wf (orders_ b)).
  { intros x o Hx. destruct (sound_orders _ Hbs _ _ Hx) as [? ?].
    unfold is_u64. lia. }
  destruct (process_order_total
              (Order_new (next_order_id_ eh) client sym s p q) b Hwf)
    as (trl & ol & bl & Hpl).
  destruct (process_order_sim_trades _ _ _ _ _ _ Hsym Hbs Hpl) as (bh2 & Hph).
  rewrite Hp in Hph. injection Hph as -> _ _.
  destruct Hsym as (_ & Eo & _ & (_ & Hpb & _) & (_ & Hpa & _)).
  assert (Hin : forall x, In x (opposite_heap s bh) -> In x (opposite_heap s b)).
  { intros x. unfold opposite_heap. rewrite <- !list_elem_of_In.
    case_bool_decide; [rewrite Hpa|rewrite Hpb]; auto. }
  rewrite Eo in Ho1, Ho2.
  eapply (process_order_priority _ _ _ _ _ p1 p2 o1 o2 (sound_inv _ Hbs) Hpl);
    eauto.
Qed.

(** The theorem at the book of scenario F hit by a sell of 8: the trade
    against order 2 comes after the trade against order 1. *)
Lemma C3_time_priority_witness :
  exists t1,
    In t1 [mkTrade 1 3 1 102 100 BTC 50000%float 5] /\
    maker_order_id t1 = 1.
Proof.
  refine (proj1 C3_time_priority two_equal_bids
            [Submitted 1 []; Submitted 2 []] engine_F
            102 BTC SELL 50000%float 8 3
            [mkTrade 1 3 1 102 100 BTC 50000%float 5;
             mkTrade 2 3 2 102 101 BTC 50000%float 3]
            _ book_F 1 2
            (mkOrder 1 100 BTC BUY 50000%float 5 0 NEW)
            (mkOrder 2 101 BTC BUY 50000%float 5 0 NEW)
            _ _ _ _ _ _ _ _ _ _ _ _
            [mkTrade 1 3 1 102 100 BTC 50000%float 5]
            (mkTrade 2 3 2 102 101 BTC 50000%float 3) [] _ _).
  - repeat constructor; vm_compute; intuition discriminate.
  - vm_compute. reflexivity.
  - vm_compute. reflexivity.
  - vm_compute. reflexivity.
  - vm_compute. reflexivity.
  - vm_compute. left. reflexivity.
  - vm_compute. right. left. reflexivity.
  - vm_compute. reflexivity.
  - vm_compute. reflexivity.
  - vm_compute. reflexivity.
  - vm_compute. reflexivity.
  - discriminate.
  - reflexivity.
  - reflexivity.
Defined.

(** C3 does not hold once a NaN price is queued.  Bids at 200, NaN, 50, 100
    and 100 (orders 1 to 5) and a sell at 200 that takes out order 1 leave
    the vector of the bid heap as [5; 2; 3; 4]: orders 4 and 5 rest at the
    same price, neither is cancelled, and order 5 is on top.  The sell of 1
    at 100 that follows (order 7) trades with order 5, and order 4, which
    came first, is left waiting. *)
Theorem C3_counterexample :
  HeapBook.run nan_calls MatchingEngine_new =
    Some ([ Submitted 1 []; Submitted 2 []; Submitted 3 []; Submitted 4 [];
            Submitted 5 [];
            Submitted 6 [mkTrade 1 6 1 101 100 BTC 200%float 1] ],
          engine_nan) /\
  order_books_ engine_nan !! BTC = Some book_nan /\
  bids_ book_nan = [5; 2; 3; 4] /\
  orders_ book_nan !! 4 = Some (mkOrder 4 100 BTC BUY 100%float 1 0 NEW) /\
  orders_ book_nan !! 5 = Some (mkOrder 5 100 BTC BUY 100%float 1 0 NEW) /\
  exists e',
    HeapBook.submit_order 101 BTC SELL 100%float 1 engine_nan =
      Some (7, [mkTrade 2 7 5 101 100 BTC 100%float 1], e') /\
    bids_ (book_of BTC e') = [4; 2; 3] /\
    orders_ (book_of BTC e') !! 4 =
      Some (mkOrder 4 100 BTC BUY 100%float 1 0 NEW).
Proof.
  split; [vm_compute; reflexivity|].
  split; [vm_compute; reflexivity|].
  split; [vm_compute; reflexivity|].
  split; [vm_compute; reflexivity|].
  split; [vm_compute; reflexivity|].
  eexists. split; [vm_compute; reflexivity|].
  split; vm_compute; reflexivity.
Qed.

(** X23.  As long as no NaN price is submitted (and order ids have not
    wrapped), the binary heaps in [bids_] and [asks_] deliver the orders in
    the order of the comparators: a history run with the queues as heaps
    returns, and returns the order ids, trades and cancel results that it
    returns with each queue as the list sorted by the comparator.
    Afterwards the maps, counters and statistics are equal, and each heap
    satisfies [std::is_heap] and holds the entries of the sorted list. *)
Theorem X23_heap_delivers_in_order cs :
  Forall call_ok cs -> 1 + Z.of_nat (length cs) < 2 ^ 64 ->
  exists replies e eh,
    run cs MatchingEngine_new = Some (replies, e) /\
    HeapBook.run cs MatchingEngine_new = Some (replies, eh) /\
    engine_rep eh e.
Proof.
  intros Hok Hlen.
  destruct (run_total cs MatchingEngine_new engine_wf_new (call_ok_wf cs Hok))
    as (replies & e & Hrun & _).
  destruct (run_sim cs MatchingEngine_new MatchingEngine_new replies e
              engine_rep_refl_new engine_sound_new ltac:(simpl; lia)
              ltac:(simpl; lia) Hok Hrun) as (eh & Hrunh & Hrep).
  exists replies, e, eh. auto.
Qed.

(** The theorem at the resting-order scenario. *)
Lemma X23_heap_delivers_in_order_witness :
  exists replies e eh,
    run resting_calls MatchingEngine_new = Some (replies, e) /\
    HeapBook.run resting_calls MatchingEngine_new = Some (replies, eh) /\
    engine_rep eh e.
Proof.
  apply (X23_heap_delivers_in_order resting_calls);
    [calls_ok|vm_compute; reflexivity].
Defined.

